(** * Section contents, component registry and AES-CTR engine of BFD's
      section.c (GreenWaves RISC-V binutils), as a shallow embedding.

    Conventions of the embedding.
    - A [uint8_t] is a [Z] in [0, 256); arithmetic that can leave the range
      is reduced modulo 256 where the C code stores it back into a byte.
    - An array of bytes is a [list Z]; reading index [i] is [byte_at].
    - Host integer widths are those of an LP64 host: [unsigned int] has 32
      bits, [size_t], [bfd_size_type] and [file_ptr] have 64 bits.
    - A local array that the C code declares without an initialiser is
      passed in as an extra argument (named [junk]): its contents are
      whatever the stack holds. *)

From Stdlib Require Import ZArith List Lia Bool.
From Stdlib Require Import String Ascii.
From Stdlib Require Import DecimalString.
From stdpp Require Import base option list gmap strings.
From Equations Require Import Equations.

Local Open Scope Z_scope.

(* ===================================================================== *)
(** ** Machine integers *)
(* ===================================================================== *)

Definition uint8 (x : Z) : Z := x mod 256.
Definition unsigned_int_bits : Z := 32.
Definition size_t_bits : Z := 64.
Definition bfd_size_type_bits : Z := 64.

(** [(size_t) x], [(unsigned int) x] and [(bfd_size_type) x]. *)
Definition to_size_t (x : Z) : Z := x mod 2 ^ size_t_bits.
Definition to_unsigned_int (x : Z) : Z := x mod 2 ^ unsigned_int_bits.
Definition to_bfd_size_type (x : Z) : Z := x mod 2 ^ bfd_size_type_bits.

(** [a[i]] on a byte array. *)
Definition byte_at (a : list Z) (i : Z) : Z := nth (Z.to_nat i) a 0.

(** The values a [uint8_t] holds. *)
Definition is_byte (b : Z) : Prop := 0 <= b < 256.

(* ===================================================================== *)
(** ** The AES-CTR cipher engine *)
(* ===================================================================== *)

Module AES.

(** The three build-time variants selected by the AES256 / AES192 macros. *)
Inductive variant := AES128 | AES192 | AES256.

Definition AES_BLOCKLEN : Z := 16.
Definition AES_Nb : Z := 4.

Definition AES_KEYLEN (v : variant) : Z :=
  match v with AES256 => 32 | AES192 => 24 | AES128 => 16 end.
Definition AES_keyExpSize (v : variant) : Z :=
  match v with AES256 => 240 | AES192 => 208 | AES128 => 176 end.
Definition AES_Nk (v : variant) : Z :=
  match v with AES256 => 8 | AES192 => 6 | AES128 => 4 end.
Definition AES_Nr (v : variant) : Z :=
  match v with AES256 => 14 | AES192 => 12 | AES128 => 10 end.

Definition AES_sbox : list Z :=
  [ 0x63; 0x7c; 0x77; 0x7b; 0xf2; 0x6b; 0x6f; 0xc5; 0x30; 0x01; 0x67; 0x2b; 0xfe; 0xd7; 0xab; 0x76;
    0xca; 0x82; 0xc9; 0x7d; 0xfa; 0x59; 0x47; 0xf0; 0xad; 0xd4; 0xa2; 0xaf; 0x9c; 0xa4; 0x72; 0xc0;
    0xb7; 0xfd; 0x93; 0x26; 0x36; 0x3f; 0xf7; 0xcc; 0x34; 0xa5; 0xe5; 0xf1; 0x71; 0xd8; 0x31; 0x15;
    0x04; 0xc7; 0x23; 0xc3; 0x18; 0x96; 0x05; 0x9a; 0x07; 0x12; 0x80; 0xe2; 0xeb; 0x27; 0xb2; 0x75;
    0x09; 0x83; 0x2c; 0x1a; 0x1b; 0x6e; 0x5a; 0xa0; 0x52; 0x3b; 0xd6; 0xb3; 0x29; 0xe3; 0x2f; 0x84;
    0x53; 0xd1; 0x00; 0xed; 0x20; 0xfc; 0xb1; 0x5b; 0x6a; 0xcb; 0xbe; 0x39; 0x4a; 0x4c; 0x58; 0xcf;
    0xd0; 0xef; 0xaa; 0xfb; 0x43; 0x4d; 0x33; 0x85; 0x45; 0xf9; 0x02; 0x7f; 0x50; 0x3c; 0x9f; 0xa8;
    0x51; 0xa3; 0x40; 0x8f; 0x92; 0x9d; 0x38; 0xf5; 0xbc; 0xb6; 0xda; 0x21; 0x10; 0xff; 0xf3; 0xd2;
    0xcd; 0x0c; 0x13; 0xec; 0x5f; 0x97; 0x44; 0x17; 0xc4; 0xa7; 0x7e; 0x3d; 0x64; 0x5d; 0x19; 0x73;
    0x60; 0x81; 0x4f; 0xdc; 0x22; 0x2a; 0x90; 0x88; 0x46; 0xee; 0xb8; 0x14; 0xde; 0x5e; 0x0b; 0xdb;
    0xe0; 0x32; 0x3a; 0x0a; 0x49; 0x06; 0x24; 0x5c; 0xc2; 0xd3; 0xac; 0x62; 0x91; 0x95; 0xe4; 0x79;
    0xe7; 0xc8; 0x37; 0x6d; 0x8d; 0xd5; 0x4e; 0xa9; 0x6c; 0x56; 0xf4; 0xea; 0x65; 0x7a; 0xae; 0x08;
    0xba; 0x78; 0x25; 0x2e; 0x1c; 0xa6; 0xb4; 0xc6; 0xe8; 0xdd; 0x74; 0x1f; 0x4b; 0xbd; 0x8b; 0x8a;
    0x70; 0x3e; 0xb5; 0x66; 0x48; 0x03; 0xf6; 0x0e; 0x61; 0x35; 0x57; 0xb9; 0x86; 0xc1; 0x1d; 0x9e;
    0xe1; 0xf8; 0x98; 0x11; 0x69; 0xd9; 0x8e; 0x94; 0x9b; 0x1e; 0x87; 0xe9; 0xce; 0x55; 0x28; 0xdf;
    0x8c; 0xa1; 0x89; 0x0d; 0xbf; 0xe6; 0x42; 0x68; 0x41; 0x99; 0x2d; 0x0f; 0xb0; 0x54; 0xbb; 0x16 ].

Definition AES_Rcon : list Z :=
  [ 0x8d; 0x01; 0x02; 0x04; 0x08; 0x10; 0x20; 0x40; 0x80; 0x1b; 0x36 ].

Definition AES_getSBoxValue (num : Z) : Z := byte_at AES_sbox num.

(** One iteration of the second loop of [AES_KeyExpansion]: word [i] of the
    schedule is appended to the round keys built so far (the C code writes
    [RoundKey[4*i .. 4*i+3]], which is exactly the end of what has been
    written when words are produced in increasing order). *)
Definition KeyExpansion_word (v : variant) (RoundKey : list Z) (i : Z) : list Z :=
  let k := (i - 1) * 4 in
  let t0 := byte_at RoundKey (k + 0) in
  let t1 := byte_at RoundKey (k + 1) in
  let t2 := byte_at RoundKey (k + 2) in
  let t3 := byte_at RoundKey (k + 3) in
  let '(t0, t1, t2, t3) :=
    if i mod AES_Nk v =? 0 then
      (* RotWord, then SubWord, then the round constant *)
      let '(r0, r1, r2, r3) := (t1, t2, t3, t0) in
      (Z.lxor (AES_getSBoxValue r0) (byte_at AES_Rcon (i / AES_Nk v)),
       AES_getSBoxValue r1, AES_getSBoxValue r2, AES_getSBoxValue r3)
    else (t0, t1, t2, t3) in
  let '(t0, t1, t2, t3) :=
    match v with
    | AES256 =>
        if i mod AES_Nk v =? 4 then
          (AES_getSBoxValue t0, AES_getSBoxValue t1,
           AES_getSBoxValue t2, AES_getSBoxValue t3)
        else (t0, t1, t2, t3)
    | _ => (t0, t1, t2, t3)
    end in
  let k := (i - AES_Nk v) * 4 in
  RoundKey ++ [ Z.lxor (byte_at RoundKey (k + 0)) t0;
                Z.lxor (byte_at RoundKey (k + 1)) t1;
                Z.lxor (byte_at RoundKey (k + 2)) t2;
                Z.lxor (byte_at RoundKey (k + 3)) t3 ].

Fixpoint KeyExpansion_loop (v : variant) (n : nat) (i : Z) (RoundKey : list Z) : list Z :=
  match n with
  | O => RoundKey
  | S n' => KeyExpansion_loop v n' (i + 1) (KeyExpansion_word v RoundKey i)
  end.

Definition AES_KeyExpansion (v : variant) (Key : list Z) : list Z :=
  (* first loop: the first round key is the key itself *)
  let first := map (fun j => byte_at Key (Z.of_nat j)) (seq 0 (Z.to_nat (4 * AES_Nk v))) in
  (* second loop: i = AES_Nk .. AES_Nb * (AES_Nr + 1) - 1 *)
  KeyExpansion_loop v (Z.to_nat (AES_Nb * (AES_Nr v + 1) - AES_Nk v)) (AES_Nk v) first.

(** [AES_state_t] is [uint8_t[4][4]] laid over a 16-byte buffer:
    [state[i][j]] is byte [4 * i + j]. *)
Definition st (state : list Z) (i j : Z) : Z := byte_at state (4 * i + j).

Definition AES_AddRoundKey (round : Z) (state RoundKey : list Z) : list Z :=
  map (fun n => let i := Z.of_nat n / 4 in let j := Z.of_nat n mod 4 in
                Z.lxor (st state i j)
                       (byte_at RoundKey (round * AES_Nb * 4 + i * AES_Nb + j)))
      (seq 0 16).

Definition AES_SubBytes (state : list Z) : list Z :=
  map (fun n => AES_getSBoxValue (byte_at state (Z.of_nat n))) (seq 0 16).

Definition AES_ShiftRows (state : list Z) : list Z :=
  let s := st state in
  [ s 0 0; s 1 1; s 2 2; s 3 3;
    s 1 0; s 2 1; s 3 2; s 0 3;
    s 2 0; s 3 1; s 0 2; s 1 3;
    s 3 0; s 0 1; s 1 2; s 2 3 ].

Definition AES_xtime (x : Z) : Z :=
  uint8 (Z.lxor (Z.shiftl x 1) (Z.land (Z.shiftr x 7) 1 * 0x1b)).

Definition MixColumns_row (a b c d : Z) : list Z :=
  let t := a in
  let Tmp := Z.lxor (Z.lxor (Z.lxor a b) c) d in
  let a' := Z.lxor a (Z.lxor (AES_xtime (Z.lxor a b)) Tmp) in
  let b' := Z.lxor b (Z.lxor (AES_xtime (Z.lxor b c)) Tmp) in
  let c' := Z.lxor c (Z.lxor (AES_xtime (Z.lxor c d)) Tmp) in
  let d' := Z.lxor d (Z.lxor (AES_xtime (Z.lxor d t)) Tmp) in
  [a'; b'; c'; d'].

Definition AES_MixColumns (state : list Z) : list Z :=
  let s := st state in
  MixColumns_row (s 0 0) (s 0 1) (s 0 2) (s 0 3) ++
  MixColumns_row (s 1 0) (s 1 1) (s 1 2) (s 1 3) ++
  MixColumns_row (s 2 0) (s 2 1) (s 2 2) (s 2 3) ++
  MixColumns_row (s 3 0) (s 3 1) (s 3 2) (s 3 3).

(** The round loop of [AES_Cipher]: [n] counts the rounds still to run,
    the last of which leaves the loop before MixColumns. *)
Fixpoint Cipher_rounds (n : nat) (round : Z) (state RoundKey : list Z) : list Z :=
  match n with
  | O => state
  | S n' =>
      let state := AES_ShiftRows (AES_SubBytes state) in
      match n' with
      | O => state
      | S _ =>
          Cipher_rounds n' (round + 1)
            (AES_AddRoundKey round (AES_MixColumns state) RoundKey) RoundKey
      end
  end.

Definition AES_Cipher (v : variant) (state RoundKey : list Z) : list Z :=
  let state := AES_AddRoundKey 0 state RoundKey in
  let state := Cipher_rounds (Z.to_nat (AES_Nr v)) 1 state RoundKey in
  AES_AddRoundKey (AES_Nr v) state RoundKey.

Record AES_ctx := { RoundKey : list Z; Iv : list Z }.

(** [AES_init_ctx] writes the round keys and leaves [ctx->Iv] as it was. *)
Definition AES_init_ctx (v : variant) (ctx : AES_ctx) (key : list Z) : AES_ctx :=
  {| RoundKey := AES_KeyExpansion v key; Iv := Iv ctx |}.

Definition AES_ctx_set_iv (ctx : AES_ctx) (iv nounce : list Z) : AES_ctx :=
  {| RoundKey := RoundKey ctx;
     Iv := map (fun i => Z.lxor (byte_at iv (Z.of_nat i)) (byte_at nounce (Z.of_nat i)))
               (seq 0 (Z.to_nat AES_BLOCKLEN)) |}.

(** "Increment Iv and handle overflow": the loop over [bi] from
    [AES_BLOCKLEN - 1] down to 0; [n] is [bi + 1]. *)
Fixpoint Iv_increment_from (n : nat) (iv : list Z) : list Z :=
  match n with
  | O => iv
  | S bi =>
      if byte_at iv (Z.of_nat bi) =? 255
      then Iv_increment_from bi (<[bi := 0]> iv)
      else <[bi := uint8 (byte_at iv (Z.of_nat bi) + 1)]> iv
  end.

Definition Iv_increment (iv : list Z) : list Z :=
  Iv_increment_from (Z.to_nat AES_BLOCKLEN) iv.

(** The xor loop [for (...; i < length; ++i, ++bi)], shared by
    [AES_CTR_xcrypt_buffer] and by the second loop of
    [AES_CTR_xcrypt_buffer_From], which have the same body.  The state is
    [ctx->Iv], the local [buffer] and [bi]; the bytes of [buf] still to
    process are the list. The result is the bytes written and the final
    [ctx->Iv]. *)
Fixpoint xcrypt_loop (v : variant) (rk iv buffer : list Z) (bi : Z) (buf : list Z)
  : list Z * list Z :=
  match buf with
  | [] => ([], iv)
  | b :: rest =>
      let '(iv, buffer, bi) :=
        if bi =? AES_BLOCKLEN
        then (Iv_increment iv, AES_Cipher v iv rk, 0)
        else (iv, buffer, bi) in
      let '(out, iv') := xcrypt_loop v rk iv buffer (bi + 1) rest in
      (Z.lxor b (byte_at buffer bi) :: out, iv')
  end.

Definition AES_CTR_xcrypt_buffer (v : variant) (junk : list Z) (ctx : AES_ctx)
    (buf : list Z) : AES_ctx * list Z :=
  let '(out, iv') := xcrypt_loop v (RoundKey ctx) (Iv ctx) junk AES_BLOCKLEN buf in
  ({| RoundKey := RoundKey ctx; Iv := iv' |}, out).

(** The first loop of [AES_CTR_xcrypt_buffer_From],
    [for (i = 0, bi = AES_BLOCKLEN; i < from; ++i, ++bi)]: [n] is the number
    of iterations left, [from - i]. *)
Fixpoint seek_loop (v : variant) (rk : list Z) (from : Z) (n : nat) (i : Z)
    (iv buffer : list Z) (bi : Z) : list Z * list Z * Z :=
  match n with
  | O => (iv, buffer, bi)
  | S n' =>
      let '(iv, buffer, bi) :=
        if bi =? AES_BLOCKLEN
        then (Iv_increment iv,
              (if to_size_t (i + AES_BLOCKLEN) >=? from
               then AES_Cipher v iv rk else buffer),
              0)
        else (iv, buffer, bi) in
      seek_loop v rk from n' (to_size_t (i + 1)) iv buffer (bi + 1)
  end.

Definition AES_CTR_xcrypt_buffer_From (v : variant) (junk : list Z) (ctx : AES_ctx)
    (buf : list Z) (from : Z) : AES_ctx * list Z :=
  let '(iv, buffer, bi) :=
    seek_loop v (RoundKey ctx) from (Z.to_nat from) 0 (Iv ctx) junk AES_BLOCKLEN in
  let '(out, iv') := xcrypt_loop v (RoundKey ctx) iv buffer bi buf in
  ({| RoundKey := RoundKey ctx; Iv := iv' |}, out).

(** *** The keystream the counter mode is meant to produce

    Block [k] of the keystream is the encryption of the initial counter
    incremented [k] times; byte [j] of the stream is byte [j mod 16] of
    block [j / 16].  [ctr_stream] xors a buffer with the stream from
    position [j] on.  These are used to state and prove what the two loops
    compute; the code above does not use them. *)
Definition counter_block (iv0 : list Z) (k : nat) : list Z :=
  Nat.iter k Iv_increment iv0.

Definition keystream_byte (v : variant) (rk iv0 : list Z) (j : nat) : Z :=
  byte_at (AES_Cipher v (counter_block iv0 (j / 16)%nat) rk) (Z.of_nat (j mod 16)%nat).

Fixpoint ctr_stream (v : variant) (rk iv0 : list Z) (j : nat) (buf : list Z) : list Z :=
  match buf with
  | [] => []
  | b :: rest => Z.lxor b (keystream_byte v rk iv0 j) :: ctr_stream v rk iv0 (S j) rest
  end.

(** State of a loop that is about to process stream position [j]. The
    keystream block in [buffer] is only required when [need] holds: the
    seek loop skips the encryption for blocks it knows it will not use. *)
Definition positioned (v : variant) (rk iv0 : list Z) (need : Prop) (j : nat)
    (iv buffer : list Z) (bi : Z) : Prop :=
  ((j mod 16 = 0)%nat /\ bi = 16 /\ iv = counter_block iv0 (j / 16)%nat) \/
  ((j mod 16 <> 0)%nat /\ bi = Z.of_nat (j mod 16)%nat /\
   iv = counter_block iv0 (S (j / 16)%nat) /\
   (need -> buffer = AES_Cipher v (counter_block iv0 (j / 16)%nat) rk)).

(** The seek loop needs the keystream block only once it is in the block
    that holds position [from]. *)
Definition in_last_block (from j : nat) : Prop := (j / 16 * 16 + 16 >= from)%nat.

(** The number that a counter block stands for: the increment loop starts
    at byte [AES_BLOCKLEN - 1] and carries towards byte 0, so that byte 0
    is the most significant one. *)
Definition be_value (iv : list Z) : Z := fold_left (fun acc b => acc * 256 + b) iv 0.

End AES.

(* ===================================================================== *)
(** ** Encrypted components *)
(* ===================================================================== *)

Module Comp.

(** [CryptedComponentT]; a [char *] or [unsigned char *] field that may be
    null is an [option]. The [Next] link is the list the record sits in. *)
Record CryptedComponentT := {
  Name : string;
  Vendor : option string;
  Server : option string;
  UserAuth : option string;
  Key : option (list Z);
  Iv : option (list Z);
  Nonce : option (list Z)
}.

(** [EncryptObjSection]: the context [Ctx] is a local without initialiser
    ([junk_ctx]), and so is the keystream buffer of the transform
    ([junk]). [None] is a null pointer dereference ([Comp->Key],
    [Comp->Iv] or [Comp->Nonce] is null). [Pos] is an [unsigned int]. *)
Definition EncryptObjSection (v : AES.variant) (junk_ctx : AES.AES_ctx) (junk : list Z)
    (Comp : CryptedComponentT) (InBuffer : list Z) (Pos : Z) : option (list Z) :=
  match Key Comp, Iv Comp, Nonce Comp with
  | Some key, Some iv, Some nonce =>
      let Ctx := AES.AES_init_ctx v junk_ctx key in
      let Ctx := AES.AES_ctx_set_iv Ctx iv nonce in
      Some (snd (AES.AES_CTR_xcrypt_buffer_From v junk Ctx InBuffer Pos))
  | _, _, _ => None
  end.

(** *** The component list

    [EncryptInfo.Components] is a singly linked list; it is the Rocq list
    of its records in list order, and a [CryptedComponentT *] into it is
    the position of the record ([None] is the null pointer). *)

Definition new_component (name : string) : CryptedComponentT :=
  {| Name := name; Vendor := None; Server := None; UserAuth := None;
     Key := None; Iv := None; Nonce := None |}.

Definition with_Vendor (s : string) (c : CryptedComponentT) : CryptedComponentT :=
  {| Name := Name c; Vendor := Some s; Server := Server c; UserAuth := UserAuth c;
     Key := Key c; Iv := Iv c; Nonce := Nonce c |}.
Definition with_Server (s : string) (c : CryptedComponentT) : CryptedComponentT :=
  {| Name := Name c; Vendor := Vendor c; Server := Some s; UserAuth := UserAuth c;
     Key := Key c; Iv := Iv c; Nonce := Nonce c |}.
Definition with_UserAuth (s : string) (c : CryptedComponentT) : CryptedComponentT :=
  {| Name := Name c; Vendor := Vendor c; Server := Server c; UserAuth := Some s;
     Key := Key c; Iv := Iv c; Nonce := Nonce c |}.
(** [Comp->Key = Key; Comp->Iv = 0; Comp->Nonce = 0]. *)
Definition with_Key (k : list Z) (c : CryptedComponentT) : CryptedComponentT :=
  {| Name := Name c; Vendor := Vendor c; Server := Server c; UserAuth := UserAuth c;
     Key := Some k; Iv := None; Nonce := None |}.
Definition with_Iv (iv : list Z) (c : CryptedComponentT) : CryptedComponentT :=
  {| Name := Name c; Vendor := Vendor c; Server := Server c; UserAuth := UserAuth c;
     Key := Key c; Iv := Some iv; Nonce := Nonce c |}.
Definition with_Nonce (n : list Z) (c : CryptedComponentT) : CryptedComponentT :=
  {| Name := Name c; Vendor := Vendor c; Server := Server c; UserAuth := UserAuth c;
     Key := Key c; Iv := Iv c; Nonce := Some n |}.

(** [PushComponent]: null when the name is already in the list, else the
    new record, appended at the end of the list. *)
Definition PushComponent (name : string) (Head : list CryptedComponentT)
  : option nat * list CryptedComponentT :=
  if existsb (fun Pt => String.eqb name (Name Pt)) Head
  then (None, Head)
  else (Some (length Head), Head ++ [new_component name]).

Definition is_dir_separator (c : option ascii) : bool :=
  match c with
  | Some c => Ascii.eqb c "/"%char || Ascii.eqb c "\"%char
  | None => false
  end.

(** The test of [ComponentLookUp] on one record. *)
Definition component_matches (name : string) (Pt : CryptedComponentT) : bool :=
  let Ln := String.length name in
  let Lc := String.length (Name Pt) in
  if (Lc <? Ln)%nat then
    String.eqb (String.substring (Ln - Lc) Lc name) (Name Pt)
    && is_dir_separator (String.get (Ln - Lc - 1) name)
  else (Ln =? Lc)%nat && String.eqb name (Name Pt).

Fixpoint ComponentLookUp_from (pos : nat) (name : string) (l : list CryptedComponentT)
  : option nat :=
  match l with
  | [] => None
  | Pt :: rest =>
      if component_matches name Pt then Some pos
      else ComponentLookUp_from (S pos) name rest
  end.

Definition ComponentLookUp (name : string) (HeadComp : list CryptedComponentT)
  : option nat :=
  ComponentLookUp_from 0 name HeadComp.

(** [EncryptInfoT], without the scratch context, which no function uses. *)
Record EncryptInfoT := {
  Mode : Z;
  Verbose : Z;
  Components : list CryptedComponentT;
  OutComponent : option nat
}.

(** [ComponentNonceUpdate]: the return value and the registry after the
    call; the component found gets a copy of the 16 bytes of [Nonce]. *)
Definition ComponentNonceUpdate (info : EncryptInfoT) (name : string) (nonce : list Z)
  : Z * EncryptInfoT :=
  match ComponentLookUp name (Components info) with
  | None => (0, info)
  | Some i =>
      (1, {| Mode := Mode info; Verbose := Verbose info;
             Components :=
               alter (with_Nonce (map (fun k => byte_at nonce (Z.of_nat k)) (seq 0 16)))
                     i (Components info);
             OutComponent := OutComponent info |})
  end.

Definition ComponentMustBeEncrypted (info : EncryptInfoT) (name : string) : bool :=
  bool_decide (ComponentLookUp name (Components info) <> None).

Definition AES_KEY_LEN : Z := 16.

Definition copy_bytes (n : Z) (src : list Z) : list Z :=
  map (fun i => byte_at src (Z.of_nat i)) (seq 0 (Z.to_nat n)).

Definition xor_bytes (n : Z) (dst src : list Z) : list Z :=
  map (fun i => Z.lxor (byte_at dst (Z.of_nat i)) (byte_at src (Z.of_nat i)))
      (seq 0 (Z.to_nat n)).

(** The loop of [SetOutComponentIV] over the components from position
    [pos] on; the state is [IvOut] and [EncryptedIn]. [None] is the early
    [return 4]. *)
Fixpoint aggregate_loop (OutComp : option nat) (pos : nat) (l : list CryptedComponentT)
    (IvOut : list Z) (EncryptedIn : bool) : option (list Z * bool) :=
  match l with
  | [] => Some (IvOut, EncryptedIn)
  | Pt :: rest =>
      if decide (Some pos = OutComp) then
        aggregate_loop OutComp (S pos) rest IvOut EncryptedIn
      else
        match Iv Pt with
        | None => None
        | Some iv =>
            let IvOut :=
              if EncryptedIn then xor_bytes AES_KEY_LEN IvOut iv
              else copy_bytes AES_KEY_LEN iv in
            aggregate_loop OutComp (S pos) rest IvOut true
        end
  end.

(** [SetOutComponentIV]; [junk] is what the local [IvOut] holds before the
    first assignment. The result is the return value and the registry
    after the call. *)
Definition SetOutComponentIV (junk : list Z) (info : EncryptInfoT) (name : string)
  : Z * EncryptInfoT :=
  match Components info with
  | [] => (0, info)
  | comps =>
      let OutComp := ComponentLookUp name comps in
      match aggregate_loop OutComp 0 comps junk false with
      | None => (4, info)
      | Some (IvOut, EncryptedIn) =>
          match OutComp with
          | Some o =>
              (1, {| Mode := Mode info; Verbose := Verbose info;
                     Components := alter (with_Iv (copy_bytes AES_KEY_LEN IvOut)) o comps;
                     OutComponent := OutComponent info |})
          | None => if EncryptedIn then (2, info) else (3, info)
          end
      end
  end.

(** The return values that report a failed aggregation. *)
Definition aggregation_failed (r : Z) : Prop := r = 2 \/ r = 4.

(** The xor of the IVs of a list of inputs: all zero for no input. *)
Definition xor_of_ivs (ivs : list (list Z)) : list Z :=
  fold_left (xor_bytes AES_KEY_LEN) ivs (repeat 0 (Z.to_nat AES_KEY_LEN)).

(** The inputs of an aggregation: the components from position [pos] on,
    but the output component. *)
Fixpoint inputs_from (OutComp : option nat) (pos : nat) (l : list CryptedComponentT)
  : list CryptedComponentT :=
  match l with
  | [] => []
  | Pt :: rest =>
      if decide (Some pos = OutComp) then inputs_from OutComp (S pos) rest
      else Pt :: inputs_from OutComp (S pos) rest
  end.

(** One round of the loop on [IvOut] and [EncryptedIn]. *)
Definition absorb (acc : list Z * bool) (iv : list Z) : list Z * bool :=
  (if snd acc then xor_bytes AES_KEY_LEN (fst acc) iv else copy_bytes AES_KEY_LEN iv,
   true).

(** *** The configuration lexer

    The [FILE *] is the list of the characters still to read; [fgetc] at
    the end of the list is [EOF] ([None]) and [ungetc] puts a character
    back in front. The files are text: no NUL character. *)

Inductive TokenT :=
| T_STRING | T_NAME | T_EOFT | T_UNKNOWN | T_UNTERM | T_SET | T_SEMI
| T_COMPONENT | T_SERVER | T_VENDOR | T_KEY | T_USER | T_IV | T_VERBOSE.

Inductive CompErrorT :=
| ERR_NOERR_EOF | ERR_NOERR | ERR_UNEXPECTED_EOF | ERR_EXPECT_COMP | ERR_EXPECT_SET
| ERR_EXPECT_STRING | ERR_EXPECT_VENDOR | ERR_EXPECT_SERVER | ERR_EXPECT_KEY
| ERR_EXPECT_NAME | ERR_BADKEYLEN | ERR_KEYNONHEX | ERR_EXPECT_USER
| ERR_EXPECT_SECTION | ERR_EXPECT_COMP_OR_IV | ERR_WRONG_COMP.

Definition TokenT_eqb (a b : TokenT) : bool :=
  match a, b with
  | T_STRING,T_STRING | T_NAME,T_NAME | T_EOFT,T_EOFT | T_UNKNOWN,T_UNKNOWN
  | T_UNTERM,T_UNTERM | T_SET,T_SET | T_SEMI,T_SEMI | T_COMPONENT,T_COMPONENT
  | T_SERVER,T_SERVER | T_VENDOR,T_VENDOR | T_KEY,T_KEY | T_USER,T_USER
  | T_IV,T_IV | T_VERBOSE,T_VERBOSE => true
  | _, _ => false
  end.

Definition char_in (lo hi c : ascii) : bool :=
  ((nat_of_ascii lo <=? nat_of_ascii c) && (nat_of_ascii c <=? nat_of_ascii hi))%nat.

Definition isalnum (c : ascii) : bool :=
  char_in "0" "9" c || char_in "A" "Z" c || char_in "a" "z" c.

Definition toupper (c : ascii) : ascii :=
  if char_in "a" "z" c then ascii_of_nat (nat_of_ascii c - 32) else c.

Definition tolower (c : ascii) : ascii :=
  if char_in "A" "Z" c then ascii_of_nat (nat_of_ascii c + 32) else c.

Definition is_blank (c : ascii) : bool :=
  Ascii.eqb c " " || Ascii.eqb c "009" || Ascii.eqb c "010" || Ascii.eqb c "013".

Fixpoint string_map (f : ascii -> ascii) (s : string) : string :=
  match s with
  | EmptyString => EmptyString
  | String c r => String (f c) (string_map f r)
  end.

Definition NameToToken (Str : string) : TokenT :=
  let Buf := string_map toupper Str in
  if String.eqb Buf "COMPONENT" then T_COMPONENT
  else if String.eqb Buf "VENDOR" then T_VENDOR
  else if String.eqb Buf "SERVER" then T_SERVER
  else if String.eqb Buf "USER" then T_USER
  else if String.eqb Buf "KEY" then T_KEY
  else if String.eqb Buf "IV" then T_IV
  else if String.eqb Buf "VERBOSE" then T_VERBOSE
  else T_NAME.

(** Where the blank-skipping loop of [GetNextToken] stands: between
    tokens, inside a block comment, or inside a line comment. *)
Inductive skip_mode := Blank | InBlock | InLine.

(** What the loop leaves: the character [c] it stopped on ([None] is
    [EOF]), the rest of the file, and the line count; or an unterminated
    comment. *)
Inductive skipped :=
| Stopped (c : option ascii) (Fi : list ascii) (LineNo : Z)
| Unterminated (LineNo : Z).

Fixpoint skip_blanks (mode : skip_mode) (Fi : list ascii) (LineNo : Z) : skipped :=
  match mode, Fi with
  | Blank, [] => Stopped None [] LineNo
  | Blank, c :: r =>
      if Ascii.eqb c "/" then
        match r with
        | c2 :: r2 =>
            if Ascii.eqb c2 "*" then skip_blanks InBlock r2 LineNo
            else if Ascii.eqb c2 "/" then skip_blanks InLine r2 LineNo
            else (* ungetc (c, Fi); break; with c the character after the slash *)
              Stopped (Some c2) r LineNo
        | [] => Stopped None [] LineNo
        end
      else if negb (is_blank c) then Stopped (Some c) r LineNo
      else if Ascii.eqb c "010" then skip_blanks Blank r (LineNo + 1)
      else skip_blanks Blank r LineNo
  | InBlock, [] => Unterminated LineNo
  | InBlock, c :: r =>
      if Ascii.eqb c "*" then
        match r with
        | c2 :: r2 =>
            if Ascii.eqb c2 "/" then skip_blanks Blank r2 LineNo
            else skip_blanks InBlock r LineNo
        | [] => Unterminated LineNo
        end
      else skip_blanks InBlock r LineNo
  | InLine, [] => Unterminated LineNo
  | InLine, c :: r =>
      if Ascii.eqb c "010" then skip_blanks Blank r LineNo
      else skip_blanks InLine r LineNo
  end.

(** The body of a quoted string, after the opening quote: the characters
    of the string and the rest of the file, or [None] when the file ends
    first. *)
Fixpoint read_string (Fi : list ascii) : option (string * list ascii) :=
  match Fi with
  | [] => None
  | c :: r =>
      if Ascii.eqb c "034" then Some (EmptyString, r)
      else if Ascii.eqb c "\" then
        match r with
        | [] => None
        | c2 :: r2 =>
            match read_string r2 with
            | Some (s, rest) => Some (String c2 s, rest)
            | None => None
            end
        end
      else
        match read_string r with
        | Some (s, rest) => Some (String c s, rest)
        | None => None
        end
  end.

(** The letters and digits in front of the file, and the file from the
    first other character on. *)
Fixpoint read_alnum (Fi : list ascii) : string * list ascii :=
  match Fi with
  | [] => (EmptyString, [])
  | c :: r =>
      if isalnum c then let '(s, rest) := read_alnum r in (String c s, rest)
      else (EmptyString, Fi)
  end.

(** The parser's view of the file and of the two line counters. *)
Record lexer := { Fi : list ascii; LineNo : Z; TokLine : Z }.

(** [GetNextToken]: the token, the contents of [Str] after the call (only
    the tokens that carry a text write it; what an unterminated string
    leaves there is never read), and the lexer. *)
Definition GetNextToken (lx : lexer) (Str : string) : TokenT * string * lexer :=
  match skip_blanks Blank (Fi lx) (LineNo lx) with
  | Unterminated ln => (T_UNTERM, Str, {| Fi := []; LineNo := ln; TokLine := TokLine lx |})
  | Stopped c fi ln =>
      let at_ fi := {| Fi := fi; LineNo := ln; TokLine := ln |} in
      match c with
      | None => (T_EOFT, Str, at_ fi)
      | Some c =>
          if Ascii.eqb c "034" then
            match read_string fi with
            | Some (s, rest) => (T_STRING, s, at_ rest)
            | None => (T_UNTERM, Str, at_ [])
            end
          else if isalnum c then
            let '(s, rest) := read_alnum fi in (T_NAME, String c s, at_ rest)
          else if Ascii.eqb c "=" || Ascii.eqb c ":" then (T_SET, Str, at_ fi)
          else if Ascii.eqb c ";" then (T_SEMI, Str, at_ fi)
          else (T_UNKNOWN, String c EmptyString, at_ fi)
      end
  end.

Definition ToHex_digit (c : ascii) : option Z :=
  let c := tolower c in
  if char_in "0" "9" c then Some (Z.of_nat (nat_of_ascii c) - 48)
  else if char_in "a" "f" c then Some (Z.of_nat (nat_of_ascii c) - 97 + 10)
  else None.

(** [ToHex]: [None] is the -1 of a character that is no hexadecimal digit. *)
Definition ToHex (S0 S1 : ascii) : option Z :=
  match ToHex_digit S0, ToHex_digit S1 with
  | Some R0, Some R1 => Some (Z.lor (Z.shiftl R0 4) R1)
  | _, _ => None
  end.

Fixpoint CheckKey_loop (n : nat) (Str : string) : CompErrorT + list Z :=
  match n with
  | O => inr []
  | S n' =>
      match Str with
      | String S0 (String S1 rest) =>
          match ToHex S0 S1 with
          | None => inl ERR_KEYNONHEX
          | Some R =>
              match CheckKey_loop n' rest with
              | inr Key => inr (R :: Key)
              | inl e => inl e
              end
          end
      | _ => inl ERR_KEYNONHEX
      end
  end.

(** [CheckKey]: the error, or the [Len] bytes written to [Key]. *)
Definition CheckKey (Str : string) (Len : Z) : CompErrorT + list Z :=
  if negb (Z.of_nat (String.length Str) =? Len * 2) then inl ERR_BADKEYLEN
  else CheckKey_loop (Z.to_nat Len) Str.

(** *** The configuration parser *)

(** What the parsing functions thread: the lexer, [EncryptInfo.Verbose],
    and the two locals [Section] and [Str] of [ProcessComponents]. *)
Record parser := {
  lx : lexer;
  verbose : Z;
  Section_ : TokenT;
  Str : string
}.

Definition is_section_keyword (t : TokenT) : bool :=
  match t with
  | T_COMPONENT | T_VENDOR | T_SERVER | T_USER | T_KEY | T_IV => true
  | _ => false
  end.

Definition keyword_of (Tok : TokenT) (Content : string) : TokenT :=
  match Tok with T_NAME => NameToToken Content | _ => Tok end.

(** The second half of [OneSection], from the test of the keyword on:
    [Tok] is the token read so far, [Content] its text, [vb] the verbose
    flag. *)
Definition read_assignment (ps : parser) (lx2 : lexer) (vb : Z) (Tok : TokenT)
    (Content : string) : CompErrorT * parser :=
  let upd lx' sec str :=
    {| lx := lx'; verbose := vb; Section_ := sec; Str := str |} in
  if negb (is_section_keyword Tok)
  then (ERR_EXPECT_SECTION, upd lx2 (Section_ ps) Content)
  else
    let Section := Tok in
    let '(Tok, Content, lx3) := GetNextToken lx2 Content in
    if TokenT_eqb Tok T_EOFT then (ERR_UNEXPECTED_EOF, upd lx3 Section Content)
    else if negb (TokenT_eqb Tok T_SET) then (ERR_EXPECT_SET, upd lx3 Section Content)
    else
      let '(Tok, Content, lx4) := GetNextToken lx3 Content in
      if TokenT_eqb Tok T_EOFT then (ERR_UNEXPECTED_EOF, upd lx4 Section Content)
      else if negb (TokenT_eqb Tok T_STRING)
      then (ERR_EXPECT_STRING, upd lx4 Section Content)
      else (ERR_NOERR, upd lx4 Section Content).

Definition OneSection (ps : parser) : CompErrorT * parser :=
  let upd lx' vb str :=
    {| lx := lx'; verbose := vb; Section_ := Section_ ps; Str := str |} in
  let '(Tok, Content, lx1) := GetNextToken (lx ps) (Str ps) in
  if TokenT_eqb Tok T_EOFT then (ERR_NOERR_EOF, upd lx1 (verbose ps) Content)
  else
    let Tok := keyword_of Tok Content in
    if TokenT_eqb Tok T_VERBOSE then
      (* EncryptInfo.Verbose = 1; *)
      let '(Tok, Content, lx2) := GetNextToken lx1 Content in
      if TokenT_eqb Tok T_EOFT then (ERR_NOERR_EOF, upd lx2 1 Content)
      else read_assignment ps lx2 1 (keyword_of Tok Content) Content
    else read_assignment ps lx1 (verbose ps) Tok Content.

(** How [ProcessComponents] ends: it returns an error code, or it
    dereferences a null [*Comp]. [OutOfFuel] is an artefact of the
    embedding: the loop is given one round per character of the file,
    and each round that goes on reads at least one, so that it never
    shows (lemma [ProcessEncryptionInfos_ends]). *)
Inductive outcome :=
| Returns (Err : CompErrorT)
| NullDereference
| OutOfFuel.

Record parsed := {
  result : outcome;
  Comp : option nat;
  Head : list CryptedComponentT;
  final : parser
}.

(** [Err = OneSection (...); if (Err) return Err;
     if (Section != want) return otherwise;] *)
Definition expect (want : TokenT) (otherwise : CompErrorT) (ps : parser)
  : option CompErrorT * parser :=
  let '(Err, ps) := OneSection ps in
  match Err with
  | ERR_NOERR =>
      if TokenT_eqb (Section_ ps) want then (None, ps) else (Some otherwise, ps)
  | _ => (Some Err, ps)
  end.

(** [( *Comp)->field = ...]: [None] when [*Comp] is null. *)
Definition assign (f : CryptedComponentT -> CryptedComponentT) (Comp : option nat)
    (Head : list CryptedComponentT) : option (list CryptedComponentT) :=
  match Comp with
  | Some i => Some (alter f i Head)
  | None => None
  end.

(** The [while (1)] loop of [ProcessComponents]. *)
Fixpoint components_loop (fuel : nat) (ps : parser) (Comp : option nat)
    (Head : list CryptedComponentT) : parsed :=
  let stop r ps Comp Head := {| result := r; Comp := Comp; Head := Head; final := ps |} in
  match fuel with
  | O => stop OutOfFuel ps Comp Head
  | S fuel =>
  (* Vendor = "...." *)
  match expect T_VENDOR ERR_EXPECT_VENDOR ps with
  | (Some Err, ps) => stop (Returns Err) ps Comp Head
  | (None, ps) =>
  match assign (with_Vendor (Str ps)) Comp Head with
  | None => stop NullDereference ps Comp Head
  | Some Head =>
  (* Server = "..." *)
  match expect T_SERVER ERR_EXPECT_SERVER ps with
  | (Some Err, ps) => stop (Returns Err) ps Comp Head
  | (None, ps) =>
  match assign (with_Server (Str ps)) Comp Head with
  | None => stop NullDereference ps Comp Head
  | Some Head =>
  (* User = "..." *)
  match expect T_USER ERR_EXPECT_USER ps with
  | (Some Err, ps) => stop (Returns Err) ps Comp Head
  | (None, ps) =>
  match assign (with_UserAuth (Str ps)) Comp Head with
  | None => stop NullDereference ps Comp Head
  | Some Head =>
  (* Key = "HexNum" *)
  match expect T_KEY ERR_EXPECT_KEY ps with
  | (Some Err, ps) => stop (Returns Err) ps Comp Head
  | (None, ps) =>
  match CheckKey (Str ps) AES_KEY_LEN with
  | inl Status => stop (Returns Status) ps Comp Head
  | inr Key =>
  match assign (with_Key Key) Comp Head with
  | None => stop NullDereference ps Comp Head
  | Some Head =>
  (* Component or Iv = "HexNum" *)
  let '(Err, ps) := OneSection ps in
  match Err with
  | ERR_NOERR =>
      match Section_ ps with
      | T_COMPONENT =>
          let '(Comp, Head) := PushComponent (Str ps) Head in
          components_loop fuel ps Comp Head
      | T_IV =>
          match CheckKey (Str ps) AES_KEY_LEN with
          | inl Status => stop (Returns Status) ps Comp Head
          | inr Iv =>
              match assign (with_Iv Iv) Comp Head with
              | None => stop NullDereference ps Comp Head
              | Some Head =>
                  match expect T_COMPONENT ERR_EXPECT_COMP ps with
                  | (Some Err, ps) => stop (Returns Err) ps Comp Head
                  | (None, ps) =>
                      let '(Comp, Head) := PushComponent (Str ps) Head in
                      match Comp with
                      | None => stop (Returns ERR_WRONG_COMP) ps Comp Head
                      | Some _ => components_loop fuel ps Comp Head
                      end
                  end
              end
          end
      | _ => stop (Returns ERR_EXPECT_COMP_OR_IV) ps Comp Head
      end
  | _ => stop (Returns Err) ps Comp Head
  end
  end end end end end end end end end
  end.

(** [ProcessComponents], called with an empty list and [*Comp] not yet
    set. *)
Definition ProcessComponents (ps : parser) (Comp : option nat)
    (Head : list CryptedComponentT) : parsed :=
  let stop r ps Comp Head := {| result := r; Comp := Comp; Head := Head; final := ps |} in
  (* Component = "...." *)
  match expect T_COMPONENT ERR_EXPECT_COMP ps with
  | (Some Err, ps) => stop (Returns Err) ps Comp Head
  | (None, ps) =>
      let '(Comp, Head) := PushComponent (Str ps) Head in
      match Comp with
      | None => stop (Returns ERR_WRONG_COMP) ps Comp Head
      | Some _ => components_loop (S (length (Fi (lx ps)))) ps Comp Head
      end
  end.

(** [DumpComponents] prints, for each component, the name, the vendor,
    the server and the user with "%s", the 16 bytes [Pt->Key[i]], and the
    IV and the nonce where there are some. It changes nothing; [false]
    is a run with no defined behaviour: a null string is given to "%s",
    or the key is read through a null [Pt->Key]. *)
Definition DumpComponents (Comp : list CryptedComponentT) : bool :=
  forallb (fun Pt =>
             match Vendor Pt, Server Pt, UserAuth Pt, Key Pt with
             | Some _, Some _, Some _, Some _ => true
             | _, _, _, _ => false
             end) Comp.

(** How [ProcessEncryptionInfos] ends: it returns 1 or 0, having printed
    the error of the parser if there is one, or the process dies on a
    null pointer, in the parser or in [DumpComponents]. *)
Inductive loaded :=
| LoadReturns (r : Z) (reported : option CompErrorT) (info : EncryptInfoT)
| LoadCrashes
| LoadOutOfFuel.

(** [ProcessEncryptionInfos]; [file] is the contents of the file
    [InfoName], [None] if it cannot be opened. *)
Definition ProcessEncryptionInfos (info : EncryptInfoT) (file : option (list ascii))
  : loaded :=
  match Components info with
  | _ :: _ => LoadReturns 1 None info
  | [] =>
      match file with
      | None => LoadReturns 0 None info
      | Some text =>
          let ps := {| lx := {| Fi := text; LineNo := 1; TokLine := 1 |};
                       verbose := Verbose info; Section_ := T_STRING;
                       Str := EmptyString |} in
          let r := ProcessComponents ps None [] in
          let with_ comps :=
            {| Mode := Mode info; Verbose := verbose (final r);
               Components := comps; OutComponent := OutComponent info |} in
          match result r with
          | Returns ERR_NOERR | Returns ERR_NOERR_EOF =>
              (* if (EncryptInfo.Verbose) DumpComponents(HeadComp); *)
              if negb (verbose (final r) =? 0) && negb (DumpComponents (Head r))
              then LoadCrashes
              else LoadReturns 1 None (with_ (Head r))
          | Returns C => LoadReturns 0 (Some C) (with_ [])
          | NullDereference => LoadCrashes
          | OutOfFuel => LoadOutOfFuel
          end
      end
  end.

(** *** Vocabulary of the properties

    None of the functions above uses what follows. *)

Fixpoint string_forall (p : ascii -> bool) (s : string) : bool :=
  match s with
  | EmptyString => true
  | String c r => p c && string_forall p r
  end.

(** [path] is [name], or [name] behind a directory part that ends in a
    slash or a backslash. *)
Definition path_ends_with (path name : string) : Prop :=
  exists dir : string,
    path = (dir ++ name)%string /\
    (dir = EmptyString \/
     exists (d : string) (sep : ascii),
       dir = (d ++ String sep EmptyString)%string /\ (sep = "/"%char \/ sep = "\"%char)).

(** What [DumpKeys] and [DumpComponents] print for a key or an IV:
    [printf ("%.2x", Key[i])] for each byte, two lower-case hexadecimal
    digits. *)
Definition hex_char (d : Z) : ascii :=
  if d <? 10 then ascii_of_nat (Z.to_nat (48 + d))
  else ascii_of_nat (Z.to_nat (97 + (d - 10))).

Fixpoint hex_image (Key : list Z) : string :=
  match Key with
  | [] => EmptyString
  | b :: r => String (hex_char (b / 16)) (String (hex_char (b mod 16)) (hex_image r))
  end.

Definition is_hex_digit (c : ascii) : bool :=
  char_in "0" "9" c || char_in "a" "f" c || char_in "A" "F" c.

(** A key or an IV as the registry is meant to hold it: [AES_KEY_LEN]
    bytes. *)
Definition key_bytes (k : list Z) : Prop := length k = 16%nat /\ Forall is_byte k.

Definition keys_well_formed (c : CryptedComponentT) : Prop :=
  (forall k, Key c = Some k -> key_bytes k) /\
  (forall iv, Iv c = Some iv -> key_bytes iv).

(** A component whose declaration went as far as its key. *)
Definition fully_declared (c : CryptedComponentT) : Prop :=
  is_Some (Vendor c) /\ is_Some (Server c) /\ is_Some (UserAuth c) /\ is_Some (Key c).

(** What the parser maintains on the list it builds: the names are
    distinct, the keys and IVs have 16 bytes, and every component but the
    last one is fully declared. *)
Definition registry_invariant (l : list CryptedComponentT) : Prop :=
  NoDup (map Name l) /\
  Forall keys_well_formed l /\
  forall (i : nat) (c : CryptedComponentT),
    (S i < length l)%nat -> l !! i = Some c -> fully_declared c.

(** The state of the loop of [ProcessComponents]: the invariant of the
    list, and the current component is the last one, of which [P] is
    known. *)
Definition parsing (P : CryptedComponentT -> Prop) (cur : option nat)
    (l : list CryptedComponentT) : Prop :=
  registry_invariant l /\
  forall j, cur = Some j ->
    S j = length l /\ exists c, l !! j = Some c /\ P c.

(** [ENC_STR_SIZE], the size of the buffers [Str] and [Buf] of the
    parser. *)
Definition ENC_STR_SIZE : Z := 512.

(** The text of a string between its quotes in the file: a backslash in
    front of each quote and of each backslash. *)
Fixpoint quoted (s : string) : list ascii :=
  match s with
  | EmptyString => []
  | String c r =>
      if Ascii.eqb c "034" || Ascii.eqb c "\" then "\"%char :: c :: quoted r
      else c :: quoted r
  end.

(** A star right in front of a slash occurs in [body]. *)
Fixpoint has_block_end (body : list ascii) : bool :=
  match body with
  | [] => false
  | c :: r =>
      match r with
      | c2 :: _ => Ascii.eqb c "*" && Ascii.eqb c2 "/"
      | [] => false
      end || has_block_end r
  end.

End Comp.

(* ===================================================================== *)
(** ** Memory *)
(* ===================================================================== *)

Module Mem.

(** A pointer is a block and a byte offset into it; the heap maps the live
    blocks to their bytes. An access outside a live block has no defined
    behaviour: the accessors return [None]. Allocation always succeeds. *)
Record ptr := { block : nat; ofs : Z }.

#[global] Instance ptr_eq_dec : EqDecision ptr.
Proof. solve_decision. Defined.

Definition ptr_add (p : ptr) (n : Z) : ptr := {| block := block p; ofs := ofs p + n |}.

Definition in_bounds (b : list Z) (o n : Z) : bool :=
  (0 <=? o) && (0 <=? n) && (o + n <=? Z.of_nat (length b)).

Definition load (h : gmap nat (list Z)) (p : ptr) (n : Z) : option (list Z) :=
  match h !! block p with
  | Some b =>
      if in_bounds b (ofs p) n
      then Some (take (Z.to_nat n) (drop (Z.to_nat (ofs p)) b))
      else None
  | None => None
  end.

Definition store (h : gmap nat (list Z)) (p : ptr) (bytes : list Z)
  : option (gmap nat (list Z)) :=
  match h !! block p with
  | Some b =>
      if in_bounds b (ofs p) (Z.of_nat (length bytes))
      then Some (<[block p :=
                   take (Z.to_nat (ofs p)) b ++ bytes
                   ++ drop (Z.to_nat (ofs p) + length bytes) b]> h)
      else None
  | None => None
  end.

(** [malloc]: a block that is not live, holding [init]. *)
Definition malloc (h : gmap nat (list Z)) (init : list Z) : nat * gmap nat (list Z) :=
  let b := fresh (dom h) in (b, <[b := init]> h).

Definition free (h : gmap nat (list Z)) (b : nat) : gmap nat (list Z) := delete b h.

(** [memcpy (dst, src, n)]. *)
Definition memcpy (h : gmap nat (list Z)) (dst src : ptr) (n : Z)
  : option (gmap nat (list Z)) :=
  match load h src n with
  | Some bytes => store h dst bytes
  | None => None
  end.

(** [memset (dst, 0, n)]. *)
Definition memset0 (h : gmap nat (list Z)) (dst : ptr) (n : Z)
  : option (gmap nat (list Z)) :=
  store h dst (repeat 0 (Z.to_nat n)).

End Mem.

(* ===================================================================== *)
(** ** Sections and their owner *)
(* ===================================================================== *)

Module BFD.

Definition SEC_CODE : Z := 0x010.
Definition SEC_CONSTRUCTOR : Z := 0x080.
Definition SEC_HAS_CONTENTS : Z := 0x100.
Definition SEC_IN_MEMORY : Z := 0x4000.
Definition SEC_LINKER_CREATED : Z := 0x100000.
Definition SEC_IS_COMMON : Z := 0x1000.

(** [(flags & FLAG) != 0]. *)
Definition has_flag (flags FLAG : Z) : bool := negb (Z.land flags FLAG =? 0).

(** The fields of [asection] that the functions below read or write. *)
Record asection := {
  name : option string;
  id : Z;
  index : Z;
  flags : Z;
  size : Z;
  rawsize : Z;
  contents : option Mem.ptr
}.

Inductive bfd_error_type :=
| bfd_error_no_error
| bfd_error_invalid_operation
| bfd_error_no_memory
| bfd_error_no_contents
| bfd_error_bad_value.

Inductive bfd_direction :=
| no_direction | read_direction | write_direction | both_direction.

#[global] Instance bfd_direction_eq_dec : EqDecision bfd_direction.
Proof. solve_decision. Defined.

(** [struct section_hash_entry]: the [root] of the hash table (string and
    hash; the [next] link is the position in the chain) and the section it
    wraps. [addr] stands for the address of the entry: an [asection *] is
    the [addr] of the entry that holds the section. *)
Record section_hash_entry := {
  addr : nat;
  root_string : string;
  root_hash : Z;
  section : asection
}.

(** [struct bfd_hash_table]: the chains by bucket number, the number of
    buckets, the number of entries, and [allocated], the next address the
    table's allocator hands out. *)
Record bfd_hash_table := {
  table : gmap Z (list section_hash_entry);
  tsize : Z;
  count : Z;
  allocated : nat
}.

(** The fields of [bfd] that the functions below read or write;
    [sections] is the doubly linked list from [abfd->sections] to
    [abfd->section_last], as the addresses of the sections in list order. *)
Record bfd := {
  filename : string;
  bfd_flags : Z;
  direction : bfd_direction;
  output_has_begun : bool;
  section_htab : bfd_hash_table;
  sections : list nat;
  section_count : Z
}.

(** What a call to the back end or to the allocator leaves behind. *)
Inductive event :=
| EvMalloc (b : nat) (n : Z)
| EvFree (b : nat)
| EvSetSectionContents (data : Mem.ptr) (bytes : list Z) (offset count : Z)
| EvGetSectionContents (dst : Mem.ptr) (offset count : Z).

(** The process-wide state: the static [section_id], the [bfd_error]
    variable, the heap, and the calls made so far. *)
Record world := {
  section_id : Z;
  bfd_error : bfd_error_type;
  heap : gmap nat (list Z);
  trace : list event
}.

Definition bfd_set_error (e : bfd_error_type) (w : world) : world :=
  {| section_id := section_id w; bfd_error := e; heap := heap w; trace := trace w |}.

Definition with_heap (h : gmap nat (list Z)) (w : world) : world :=
  {| section_id := section_id w; bfd_error := bfd_error w; heap := h; trace := trace w |}.

Definition log (evs : list event) (w : world) : world :=
  {| section_id := section_id w; bfd_error := bfd_error w; heap := heap w;
     trace := trace w ++ evs |}.

Definition with_section_id (n : Z) (w : world) : world :=
  {| section_id := n; bfd_error := bfd_error w; heap := heap w; trace := trace w |}.

Definition begin_output (abfd : bfd) : bfd :=
  {| filename := filename abfd; bfd_flags := bfd_flags abfd; direction := direction abfd;
     output_has_begun := true; section_htab := section_htab abfd;
     sections := sections abfd; section_count := section_count abfd |}.

Definition with_htab (t : bfd_hash_table) (abfd : bfd) : bfd :=
  {| filename := filename abfd; bfd_flags := bfd_flags abfd; direction := direction abfd;
     output_has_begun := output_has_begun abfd; section_htab := t;
     sections := sections abfd; section_count := section_count abfd |}.

Definition with_flags (f : Z) (s : asection) : asection :=
  {| name := name s; id := id s; index := index s; flags := f; size := size s;
     rawsize := rawsize s; contents := contents s |}.

Definition with_name (n : string) (s : asection) : asection :=
  {| name := Some n; id := id s; index := index s; flags := flags s; size := size s;
     rawsize := rawsize s; contents := contents s |}.

Definition with_id_index (i ix : Z) (s : asection) : asection :=
  {| name := name s; id := i; index := ix; flags := flags s; size := size s;
     rawsize := rawsize s; contents := contents s |}.

Definition with_size (n : Z) (s : asection) : asection :=
  {| name := name s; id := id s; index := index s; flags := flags s; size := n;
     rawsize := rawsize s; contents := contents s |}.

(** A section as [bfd_section_hash_newfunc] leaves it: all zero. *)
Definition zero_section : asection :=
  {| name := None; id := 0; index := 0; flags := 0; size := 0; rawsize := 0;
     contents := None |}.

(** Modelled from the spec: [bfd_write_p] is a macro of bfd-in2.h, which
    is not part of the sources at hand. The owner is opened for writing
    when its direction is the write direction or both directions. *)
Definition bfd_write_p (abfd : bfd) : bool :=
  match direction abfd with
  | write_direction | both_direction => true
  | _ => false
  end.

End BFD.

(* ===================================================================== *)
(** ** The section registry *)
(* ===================================================================== *)

Module Sec.

Import BFD.

Section Registry.

(** [bfd_hash_hash] of hash.c, and the [_new_section_hook] of the owner's
    format, reached through [BFD_SEND]. *)
Variable bfd_hash_hash : string -> Z.
Variable new_section_hook : bfd -> asection -> bool.

Definition bucket (t : bfd_hash_table) (hash : Z) : Z := hash mod tsize t.

Definition chain (t : bfd_hash_table) (hash : Z) : list section_hash_entry :=
  default [] (table t !! bucket t hash).

(** The test of the chain walks: [sh->root.hash == hash
    && strcmp (sh->root.string, name) == 0]. *)
Definition entry_matches (hash : Z) (s : string) (e : section_hash_entry) : bool :=
  (root_hash e =? hash) && String.eqb (root_string e) s.

(** Modelled from the spec: [bfd_hash_lookup] and [bfd_hash_insert] are
    functions of hash.c, which is not part of the sources at hand. The
    lookup walks the chain of the bucket of the string's hash from its
    head and returns the first entry with that hash and that string (the
    walks of [bfd_get_next_section_by_name] and
    [bfd_get_section_by_name_if] go on from the entry it returns); when
    there is none and [create] is set, a new entry, made by
    [bfd_section_hash_newfunc], is put at the head of the chain. The
    growth of the table is left out: it keeps the entries of one name in
    their order. *)
Definition bfd_hash_lookup (t : bfd_hash_table) (s : string) (create : bool)
  : option section_hash_entry * bfd_hash_table :=
  let hash := bfd_hash_hash s in
  match List.find (entry_matches hash s) (chain t hash) with
  | Some e => (Some e, t)
  | None =>
      if create then
        let e := {| addr := allocated t; root_string := s; root_hash := hash;
                    section := zero_section |} in
        (Some e,
         {| table := <[bucket t hash := e :: chain t hash]> (table t);
            tsize := tsize t; count := count t + 1; allocated := S (allocated t) |})
      else (None, t)
  end.

Definition section_hash_lookup := bfd_hash_lookup.

(** Writes through an [asection *]: the entry at that address has its
    section rewritten. *)
Definition rewritten (a : nat) (f : asection -> asection) (e : section_hash_entry)
  : section_hash_entry :=
  if (addr e =? a)%nat
  then {| addr := addr e; root_string := root_string e; root_hash := root_hash e;
          section := f (section e) |}
  else e.

Definition update_section (a : nat) (f : asection -> asection) (t : bfd_hash_table)
  : bfd_hash_table :=
  {| table := map (rewritten a f) <$> table t;
     tsize := tsize t; count := count t; allocated := allocated t |}.

(** Reads through an [asection *]. *)
Definition section_at (abfd : bfd) (a : nat) : option asection :=
  section <$>
    List.find (fun e => (addr e =? a)%nat)
              (concat (snd <$> map_to_list (table (section_htab abfd)))).

(** [new_sh->root = sh->root; sh->root.next = &new_sh->root;]: the new
    entry takes the place behind [sh] in the chain. *)
Fixpoint insert_after (sh : nat) (new_sh : section_hash_entry)
    (l : list section_hash_entry) : list section_hash_entry :=
  match l with
  | [] => []
  | e :: r =>
      if (addr e =? sh)%nat then e :: new_sh :: r
      else e :: insert_after sh new_sh r
  end.

(** [bfd_section_init]: the section, or null when the hook fails. *)
Definition bfd_section_init (w : world) (abfd : bfd) (newsect : nat)
  : option nat * bfd * world :=
  let abfd :=
    with_htab (update_section newsect (with_id_index (section_id w) (section_count abfd))
                 (section_htab abfd)) abfd in
  match section_at abfd newsect with
  | Some s =>
      if negb (new_section_hook abfd s) then (None, abfd, w)
      else
        (Some newsect,
         {| filename := filename abfd; bfd_flags := bfd_flags abfd;
            direction := direction abfd; output_has_begun := output_has_begun abfd;
            section_htab := section_htab abfd;
            (* bfd_section_list_append *)
            sections := sections abfd ++ [newsect];
            section_count := to_unsigned_int (section_count abfd + 1) |},
         with_section_id (to_unsigned_int (section_id w + 1)) w)
  | None => (None, abfd, w)
  end.

Definition bfd_get_section_by_name (abfd : bfd) (name : string) : option nat :=
  addr <$> fst (section_hash_lookup (section_htab abfd) name false).

Definition bfd_make_section_anyway_with_flags (w : world) (abfd : bfd) (name : string)
    (flags : Z) : option nat * bfd * world :=
  if output_has_begun abfd then
    (None, abfd, bfd_set_error bfd_error_invalid_operation w)
  else
    match section_hash_lookup (section_htab abfd) name true with
    | (None, _) => (None, abfd, w)
    | (Some sh, htab) =>
        let '(newsect, htab) :=
          match BFD.name (section sh) with
          | Some _ =>
              (* a section of the same name: a second entry, behind [sh] *)
              let new_sh := {| addr := allocated htab; root_string := root_string sh;
                               root_hash := root_hash sh; section := zero_section |} in
              (addr new_sh,
               {| table := alter (insert_after (addr sh) new_sh)
                                 (bucket htab (root_hash sh)) (table htab);
                  tsize := tsize htab; count := count htab;
                  allocated := S (allocated htab) |})
          | None => (addr sh, htab)
          end in
        let htab := update_section newsect (fun s => with_name name (with_flags flags s)) htab in
        bfd_section_init w (with_htab htab abfd) newsect
    end.

Definition bfd_make_section_anyway (w : world) (abfd : bfd) (name : string)
  : option nat * bfd * world :=
  bfd_make_section_anyway_with_flags w abfd name 0.

(** The sections of the owner's list that bear a name, in list order,
    which is the order of creation; the last one is the most recently
    created. *)
Definition sections_named (abfd : bfd) (n : string) : list nat :=
  filter (fun a => BFD.name <$> section_at abfd a = Some (Some n)) (sections abfd).

Definition most_recently_created (abfd : bfd) (n : string) : option nat :=
  last (sections_named abfd n).

(** [sprintf (sname + len, ".%d", num)] after [memcpy (sname, templat,
    len)]. [len] is an [unsigned int] and holds the length of the
    template: templates are shorter than 2^32 - 8 characters. *)
Definition suffixed (templat : string) (num : Z) : string :=
  (templat ++ "." ++ NilZero.string_of_int (Z.to_int num))%string.

(** [sname] is [bfd_malloc (len + 8)]: behind the template it has room
    for the dot, six characters and the final zero. "%d" prints a [num]
    of at most 999999 with more than six characters exactly when [num] is
    -100000 or less (a sign and six digits). *)
Definition suffix_fits (num : Z) : bool := -100000 <? num.

(** How [bfd_get_unique_section_name] ends: [abort ()], a [sprintf]
    that writes past the end of [sname] (no defined behaviour), or the
    name and the value left in [num]. *)
Inductive unique_name :=
| Aborts
| Overruns
| UniqueName (sname : string) (num : Z).

(** The [do ... while] loop of [bfd_get_unique_section_name]. It goes
    round again only from a [num] of at most 999999, and with [num + 1]:
    the distance to 1000000 decreases. *)
Equations? unique_name_loop (abfd : bfd) (templat : string) (num : Z) : unique_name
  by wf (Z.to_nat (1000000 - num)) lt :=
  unique_name_loop abfd templat num with Z_gt_dec num 999999 := {
    | left _ => Aborts
    | right _ =>
        if negb (suffix_fits num) then Overruns
        else
        match fst (section_hash_lookup (section_htab abfd) (suffixed templat num) false) with
        | Some _ => unique_name_loop abfd templat (num + 1)
        | None => UniqueName (suffixed templat num) (num + 1)
        end
  }.
Proof. lia. Qed.

(** A suffix is in use when the lookup of the suffixed name finds an
    entry of the owner's table. *)
Definition suffix_in_use (abfd : bfd) (templat : string) (n : Z) : Prop :=
  is_Some (fst (section_hash_lookup (section_htab abfd) (suffixed templat n) false)).

(** [bfd_get_unique_section_name]; [count] is the contents of [*count],
    [None] for a null [count]. The function calls [abort ()], overruns
    [sname], or returns the name, with the contents of [*count] after the
    call. *)
Inductive named :=
| Aborted
| Overrun
| Named (sname : string) (count : option Z).

Definition bfd_get_unique_section_name (abfd : bfd) (templat : string)
    (count : option Z) : named :=
  let num := match count with Some c => c | None => 1 end in
  match unique_name_loop abfd templat num with
  | Aborts => Aborted
  | Overruns => Overrun
  | UniqueName sname num =>
      Named sname (match count with Some _ => Some num | None => None end)
  end.

(** *** The other entry points of the registry *)

Definition BFD_ABS_SECTION_NAME : string := "*ABS*".
Definition BFD_UND_SECTION_NAME : string := "*UND*".
Definition BFD_COM_SECTION_NAME : string := "*COM*".
Definition BFD_IND_SECTION_NAME : string := "*IND*".

(** An [asection *]: into the array of the four standard sections, or
    into the table of an owner. *)
Inductive sec_ptr :=
| StdSection (idx : Z)
| TableSection (a : nat).

(** [_bfd_std_section[idx]], as [BFD_FAKE_SECTION] initialises it. *)
Definition bfd_std_section (idx : Z) : asection :=
  {| name := Some (if idx =? 0 then BFD_COM_SECTION_NAME
                   else if idx =? 1 then BFD_UND_SECTION_NAME
                   else if idx =? 2 then BFD_ABS_SECTION_NAME
                   else BFD_IND_SECTION_NAME);
     id := idx; index := 0;
     flags := (if idx =? 0 then SEC_IS_COMMON else 0);
     size := 0; rawsize := 0; contents := None |}.

Definition is_std_section_name (name : string) : bool :=
  String.eqb name BFD_ABS_SECTION_NAME
  || String.eqb name BFD_COM_SECTION_NAME
  || String.eqb name BFD_UND_SECTION_NAME
  || String.eqb name BFD_IND_SECTION_NAME.

(** [bfd_section_list_clear]: the [memset] leaves every bucket of the
    table empty; the entries are not given back to the allocator. *)
Definition bfd_section_list_clear (abfd : bfd) : bfd :=
  {| filename := filename abfd; bfd_flags := bfd_flags abfd; direction := direction abfd;
     output_has_begun := output_has_begun abfd;
     section_htab := {| table := ∅; tsize := tsize (section_htab abfd); count := 0;
                        allocated := allocated (section_htab abfd) |};
     sections := []; section_count := 0 |}.

Definition bfd_make_section_old_way (w : world) (abfd : bfd) (name : string)
  : option sec_ptr * bfd * world :=
  if output_has_begun abfd then
    (None, abfd, bfd_set_error bfd_error_invalid_operation w)
  else
    (* the standard sections: only the hook is called *)
    let std idx :=
      if negb (new_section_hook abfd (bfd_std_section idx)) then (None, abfd, w)
      else (Some (StdSection idx), abfd, w) in
    if String.eqb name BFD_ABS_SECTION_NAME then std 2
    else if String.eqb name BFD_COM_SECTION_NAME then std 0
    else if String.eqb name BFD_UND_SECTION_NAME then std 1
    else if String.eqb name BFD_IND_SECTION_NAME then std 3
    else
      match section_hash_lookup (section_htab abfd) name true with
      | (None, _) => (None, abfd, w)
      | (Some sh, htab) =>
          match BFD.name (section sh) with
          | Some _ =>
              (* Section already exists. *)
              (Some (TableSection (addr sh)), with_htab htab abfd, w)
          | None =>
              let htab := update_section (addr sh) (with_name name) htab in
              let '(r, abfd, w) := bfd_section_init w (with_htab htab abfd) (addr sh) in
              (TableSection <$> r, abfd, w)
          end
      end.

Definition bfd_make_section_with_flags (w : world) (abfd : bfd) (name : string)
    (flags : Z) : option nat * bfd * world :=
  if output_has_begun abfd then
    (None, abfd, bfd_set_error bfd_error_invalid_operation w)
  else if is_std_section_name name then (None, abfd, w)
  else
    match section_hash_lookup (section_htab abfd) name true with
    | (None, _) => (None, abfd, w)
    | (Some sh, htab) =>
        match BFD.name (section sh) with
        | Some _ =>
            (* Section already exists. *)
            (None, with_htab htab abfd, w)
        | None =>
            let htab :=
              update_section (addr sh) (fun s => with_flags flags (with_name name s)) htab in
            bfd_section_init w (with_htab htab abfd) (addr sh)
        end
    end.

Definition bfd_make_section (w : world) (abfd : bfd) (name : string)
  : option nat * bfd * world :=
  bfd_make_section_with_flags w abfd name 0.

Definition bfd_get_next_section_id (w : world) : Z := section_id w.

(** [bfd_set_section_flags] and [bfd_set_section_size]: the value
    returned and the section after the call. *)
Definition bfd_set_section_flags (abfd : bfd) (section : asection) (flags : Z)
  : bool * asection :=
  (true, with_flags flags section).

Definition bfd_set_section_size (w : world) (abfd : bfd) (ptr : asection) (val : Z)
  : bool * asection * world :=
  if output_has_begun abfd then
    (false, ptr, bfd_set_error bfd_error_invalid_operation w)
  else (true, with_size val ptr, w).

(** The entry at address [a] of a chain and what is chained behind it
    ([sh->root.next] onwards). *)
Fixpoint behind (a : nat) (l : list section_hash_entry)
  : option (section_hash_entry * list section_hash_entry) :=
  match l with
  | [] => None
  | e :: r => if (addr e =? a)%nat then Some (e, r) else behind a r
  end.

(** From an [asection *] back to its entry (the pointer less the offset
    of the field [section] in [struct section_hash_entry]): the entry of
    the table at that address, with the rest of its chain. *)
Definition entry_of (t : bfd_hash_table) (a : nat)
  : option (section_hash_entry * list section_hash_entry) :=
  match List.find (fun l => existsb (fun e => (addr e =? a)%nat) l)
                  (snd <$> map_to_list (table t)) with
  | Some l => behind a l
  | None => None
  end.

(** What [bfd_get_next_section_by_name] returns: null, a section of the
    same owner, or a section of the [n]-th owner behind [ibfd]. *)
Inductive next_section :=
| NoSection
| InOwner (a : nat)
| InFollowing (n : nat) (a : nat).

(** The loop [while ((ibfd = ibfd->link.next) != NULL)]. *)
Fixpoint first_in_following (ibfds : list bfd) (n : nat) (name : string) : next_section :=
  match ibfds with
  | [] => NoSection
  | ibfd :: r =>
      match bfd_get_section_by_name ibfd name with
      | Some s => InFollowing n s
      | None => first_in_following r (S n) name
      end
  end.

(** [bfd_get_next_section_by_name]. [abfd] is the owner of [sec], and
    [following] the owners chained behind [ibfd] by [link.next] (none
    when [ibfd] is null). [None]: the call has no defined behaviour
    ([sec] is no section of the owner, or its null name is compared). *)
Definition bfd_get_next_section_by_name (following : list bfd) (abfd : bfd) (sec : nat)
  : option next_section :=
  match entry_of (section_htab abfd) sec with
  | None => None
  | Some (sh, rest) =>
      let hash := root_hash sh in
      match BFD.name (section sh) with
      | Some name =>
          match List.find (entry_matches hash name) rest with
          | Some e => Some (InOwner (addr e))
          | None => Some (first_in_following following 0 name)
          end
      | None =>
          if existsb (fun e => root_hash e =? hash) rest then None
          else match following with [] => Some NoSection | _ => None end
      end
  end.

(** The loop of [bfd_get_linker_section] from the entry [sh], whose chain
    goes on with [rest]: each round is a call to
    [bfd_get_next_section_by_name (NULL, sec)]. *)
Fixpoint linker_walk (sh : section_hash_entry) (rest : list section_hash_entry)
    {struct rest} : option (option nat) :=
  if has_flag (flags (section sh)) SEC_LINKER_CREATED then Some (Some (addr sh))
  else
    match BFD.name (section sh) with
    | Some name =>
        (fix next (l : list section_hash_entry) : option (option nat) :=
           match l with
           | [] => Some None
           | e :: l' =>
               if entry_matches (root_hash sh) name e then linker_walk e l' else next l'
           end) rest
    | None =>
        if existsb (fun e => root_hash e =? root_hash sh) rest then None else Some None
    end.

Definition bfd_get_linker_section (abfd : bfd) (name : string) : option (option nat) :=
  match fst (section_hash_lookup (section_htab abfd) name false) with
  | None => Some None
  | Some sh0 =>
      match entry_of (section_htab abfd) (addr sh0) with
      | Some (sh, rest) => linker_walk sh rest
      | None => None
      end
  end.

(** [bfd_get_section_by_name_if]; [operation] is applied to the owner and
    to the section. *)
Definition bfd_get_section_by_name_if (abfd : bfd) (name : string)
    (operation : bfd -> asection -> bool) : option (option nat) :=
  match fst (section_hash_lookup (section_htab abfd) name false) with
  | None => Some None
  | Some sh0 =>
      match entry_of (section_htab abfd) (addr sh0) with
      | Some (sh, rest) =>
          Some (addr <$>
                  List.find (fun e => entry_matches (root_hash sh) name e
                                      && operation abfd (section e)) (sh :: rest))
      | None => None
      end
  end.

(** How [bfd_map_over_sections] ends: [abort ()], or what the calls of
    [operation] have made of the user's storage. *)
Inductive mapped (A : Type) :=
| MapAborts
| MapDone (storage : A).

Definition bfd_map_over_sections {A : Type} (abfd : bfd)
    (operation : bfd -> nat -> A -> A) (user_storage : A) : mapped A :=
  let storage := fold_left (fun st sect => operation abfd sect st) (sections abfd)
                           user_storage in
  let i := to_unsigned_int (Z.of_nat (length (sections abfd))) in
  if negb (i =? section_count abfd) then MapAborts A else MapDone A storage.

Definition bfd_sections_find_if (abfd : bfd) (operation : bfd -> nat -> bool)
  : option nat :=
  List.find (operation abfd) (sections abfd).

(** *** Vocabulary of the properties *)

(** The table as the functions above keep it: every entry sits in the
    bucket of its hash, which is the hash of its string; its address has
    been handed out by the allocator, and to it alone; and its section
    bears the string as its name. *)
Definition table_ok (t : bfd_hash_table) : Prop :=
  (forall k l e, table t !! k = Some l -> e ∈ l ->
     k = bucket t (root_hash e) /\
     root_hash e = bfd_hash_hash (root_string e) /\
     (addr e < allocated t)%nat /\
     BFD.name (section e) = Some (root_string e)) /\
  (forall k l, table t !! k = Some l -> NoDup (addr <$> l)) /\
  (forall k1 k2 l1 l2 e1 e2,
     table t !! k1 = Some l1 -> table t !! k2 = Some l2 ->
     e1 ∈ l1 -> e2 ∈ l2 -> addr e1 = addr e2 -> k1 = k2).

(** The sections of a name in the order in which the walks along the
    chain meet them. *)
Definition same_name_chain (abfd : bfd) (name : string) : list nat :=
  addr <$> filter (fun e => entry_matches (bfd_hash_hash name) name e = true)
                  (chain (section_htab abfd) (bfd_hash_hash name)).

(** The list and the count of an owner agree. *)
Definition counted (abfd : bfd) : Prop :=
  section_count abfd = to_unsigned_int (Z.of_nat (length (sections abfd))).

(** An entry of the table: an element of one of its chains. *)
Definition in_table (t : bfd_hash_table) (e : section_hash_entry) : Prop :=
  exists k l, table t !! k = Some l /\ e ∈ l.

(** The entry that [bfd_hash_lookup] creates for a string that it does
    not find, and the table it leaves. *)
Definition new_entry (t : bfd_hash_table) (s : string) : section_hash_entry :=
  {| addr := allocated t; root_string := s; root_hash := bfd_hash_hash s;
     section := zero_section |}.

Definition with_new_entry (t : bfd_hash_table) (s : string) : bfd_hash_table :=
  {| table := <[bucket t (bfd_hash_hash s) :=
                  {| addr := allocated t; root_string := s; root_hash := bfd_hash_hash s;
                     section := zero_section |} :: chain t (bfd_hash_hash s)]> (table t);
     tsize := tsize t; count := count t + 1; allocated := S (allocated t) |}.

(** The entry that [bfd_make_section_anyway_with_flags] chains behind
    [sh], and the table it leaves. *)
Definition chained_entry (t : bfd_hash_table) (sh : section_hash_entry)
  : section_hash_entry :=
  {| addr := allocated t; root_string := root_string sh; root_hash := root_hash sh;
     section := zero_section |}.

Definition with_chained_entry (t : bfd_hash_table) (sh : section_hash_entry)
  : bfd_hash_table :=
  {| table := alter (insert_after (addr sh) (chained_entry t sh))
                    (bucket t (root_hash sh)) (table t);
     tsize := tsize t; count := count t; allocated := S (allocated t) |}.

End Registry.

End Sec.

(* ===================================================================== *)
(** ** The list pointers of the sections *)
(* ===================================================================== *)

(** The macros of the section file that insert a section in the owner's
    doubly linked list and take one out. "These only handle the list
    pointers, ie. do not adjust section_count, target_index etc." A
    section is its address; [None] is the null pointer. *)
Module Links.

(** [next] and [prev] of an [asection]. *)
Record links := { next : option nat; prev : option nat }.

(** The list pointers of the sections that exist, and [sections] and
    [section_last] of the owner. *)
Record section_list := {
  nodes : gmap nat links;
  sections : option nat;
  section_last : option nat
}.

Definition with_nodes (h : gmap nat links) (abfd : section_list) : section_list :=
  {| nodes := h; sections := sections abfd; section_last := section_last abfd |}.

Definition with_sections (s : option nat) (abfd : section_list) : section_list :=
  {| nodes := nodes abfd; sections := s; section_last := section_last abfd |}.

Definition with_section_last (s : option nat) (abfd : section_list) : section_list :=
  {| nodes := nodes abfd; sections := sections abfd; section_last := s |}.

(** [S->next = v] and [S->prev = v]; [None] when [S] points to no
    section. *)
Definition set_next (S : nat) (v : option nat) (abfd : section_list)
  : option section_list :=
  match nodes abfd !! S with
  | Some lk => Some (with_nodes (<[S := {| next := v; prev := prev lk |}]> (nodes abfd)) abfd)
  | None => None
  end.

Definition set_prev (S : nat) (v : option nat) (abfd : section_list)
  : option section_list :=
  match nodes abfd !! S with
  | Some lk => Some (with_nodes (<[S := {| next := next lk; prev := v |}]> (nodes abfd)) abfd)
  | None => None
  end.

(** [bfd_section_list_remove (ABFD, S)]. *)
Definition bfd_section_list_remove (abfd : section_list) (S : nat) : option section_list :=
  match nodes abfd !! S with
  | None => None
  | Some _s =>
      let _next := next _s in
      let _prev := prev _s in
      match (match _prev with
             | Some p => set_next p _next abfd
             | None => Some (with_sections _next abfd)
             end) with
      | None => None
      | Some abfd =>
          match _next with
          | Some n => set_prev n _prev abfd
          | None => Some (with_section_last _prev abfd)
          end
      end
  end.

(** [bfd_section_list_append (ABFD, S)]. *)
Definition bfd_section_list_append (abfd : section_list) (S : nat) : option section_list :=
  match set_next S None abfd with
  | None => None
  | Some abfd =>
      match (match section_last abfd with
             | Some l =>
                 match set_prev S (Some l) abfd with
                 | Some abfd => set_next l (Some S) abfd
                 | None => None
                 end
             | None =>
                 match set_prev S None abfd with
                 | Some abfd => Some (with_sections (Some S) abfd)
                 | None => None
                 end
             end) with
      | None => None
      | Some abfd => Some (with_section_last (Some S) abfd)
      end
  end.

(** [bfd_section_list_prepend (ABFD, S)]. *)
Definition bfd_section_list_prepend (abfd : section_list) (S : nat) : option section_list :=
  match set_prev S None abfd with
  | None => None
  | Some abfd =>
      match (match sections abfd with
             | Some f =>
                 match set_next S (Some f) abfd with
                 | Some abfd => set_prev f (Some S) abfd
                 | None => None
                 end
             | None =>
                 match set_next S None abfd with
                 | Some abfd => Some (with_section_last (Some S) abfd)
                 | None => None
                 end
             end) with
      | None => None
      | Some abfd => Some (with_sections (Some S) abfd)
      end
  end.

(** [bfd_section_list_insert_after (ABFD, A, S)]. *)
Definition bfd_section_list_insert_after (abfd : section_list) (A S : nat)
  : option section_list :=
  match nodes abfd !! A with
  | None => None
  | Some _a =>
      let _next := next _a in
      match set_next S _next abfd with
      | None => None
      | Some abfd =>
      match set_prev S (Some A) abfd with
      | None => None
      | Some abfd =>
      match set_next A (Some S) abfd with
      | None => None
      | Some abfd =>
          match _next with
          | Some n => set_prev n (Some S) abfd
          | None => Some (with_section_last (Some S) abfd)
          end
      end end end
  end.

(** [bfd_section_list_insert_before (ABFD, B, S)]. *)
Definition bfd_section_list_insert_before (abfd : section_list) (B S : nat)
  : option section_list :=
  match nodes abfd !! B with
  | None => None
  | Some _b =>
      let _prev := prev _b in
      match set_prev S _prev abfd with
      | None => None
      | Some abfd =>
      match set_next S (Some B) abfd with
      | None => None
      | Some abfd =>
      match set_prev B (Some S) abfd with
      | None => None
      | Some abfd =>
          match _prev with
          | Some p => set_next p (Some S) abfd
          | None => Some (with_sections (Some S) abfd)
          end
      end end end
  end.

(** [bfd_section_removed_from_list (ABFD, S)]. *)
Definition bfd_section_removed_from_list (abfd : section_list) (S : nat) : option bool :=
  match nodes abfd !! S with
  | None => None
  | Some _s =>
      match next _s with
      | None => Some (bool_decide (section_last abfd <> Some S))
      | Some n =>
          match nodes abfd !! n with
          | None => None
          | Some _n => Some (bool_decide (prev _n <> Some S))
          end
      end
  end.

(** *** Vocabulary of the properties *)

Definition or_else (a b : option nat) : option nat :=
  match a with Some _ => a | None => b end.

(** The sections of [l] are linked one to the next, the first one with
    [p] as its [prev] and the last one with [n] as its [next]. *)
Fixpoint linked (h : gmap nat links) (p : option nat) (l : list nat) (n : option nat)
  : Prop :=
  match l with
  | [] => True
  | s :: r =>
      h !! s = Some {| next := match r with [] => n | x :: _ => Some x end; prev := p |} /\
      linked h (Some s) r n
  end.

(** The owner's list is [l]: [sections] points to the first section of
    [l], [section_last] to the last one, and the pointers of the sections
    lead from each one to its neighbours, with null at both ends. *)
Definition is_list (abfd : section_list) (l : list nat) : Prop :=
  NoDup l /\
  sections abfd = head l /\
  section_last abfd = last l /\
  linked (nodes abfd) None l None.

(** The call [r] went through and left the list [l], with the pointers
    of the sections outside [l] as they were in [abfd]. *)
Definition gives (abfd : section_list) (r : option section_list) (l : list nat) : Prop :=
  exists abfd' : section_list,
    r = Some abfd' /\ is_list abfd' l /\
    forall x : nat, x ∉ l -> nodes abfd' !! x = nodes abfd !! x.

End Links.

(* ===================================================================== *)
(** ** Section contents *)
(* ===================================================================== *)

Module IO.

Import BFD.

Section Bridge.

(** The AES variant of the build, the [BFD_ENCRYPTED] bit of
    [abfd->flags] (defined in bfd-in2.h), and the two functions of the
    owner's format reached through [BFD_SEND]: the writer gets the bytes
    that [data] points to; the reader gets what the destination holds and
    gives back its status and what the destination holds afterwards. *)
Variable v : AES.variant.
Variable BFD_ENCRYPTED : Z.
Variable backend_set_section_contents : bfd -> asection -> list Z -> Z -> Z -> bool.
Variable backend_get_section_contents :
  bfd -> asection -> list Z -> Z -> Z -> bool * list Z.

(** The locals without initialiser of the cipher, and what a block fresh
    from [malloc] holds. *)
Variable junk_ctx : AES.AES_ctx.
Variable junk_buffer : list Z.
Variable junk_heap : list Z.

Definition uninitialised (n : Z) : list Z := Comp.copy_bytes n junk_heap.

(** [IsTextSection] followed by [ComponentLookUp]: the component of an
    encrypted owner's code section, null otherwise. *)
Definition component_of (info : Comp.EncryptInfoT) (abfd : bfd) (section : asection)
  : option nat :=
  if has_flag (flags section) SEC_CODE then
    if has_flag (bfd_flags abfd) BFD_ENCRYPTED
    then Comp.ComponentLookUp (filename abfd) (Comp.Components info)
    else None
  else None.

(** The size test shared by the two entry points. *)
Definition out_of_range (offset count sz : Z) : bool :=
  (to_bfd_size_type offset >? sz)
  || (count >? sz)
  || (to_bfd_size_type (to_bfd_size_type offset + count) >? sz)
  || negb (count =? to_size_t count).

(** The size a read is tested against: [rawsize] if the owner is not in
    the write direction and [rawsize] is not zero, else [size]. *)
Definition read_size (abfd : bfd) (section : asection) : Z :=
  if bool_decide (direction abfd <> write_direction) && negb (rawsize section =? 0)
  then rawsize section else size section.

(** The bytes the back end leaves in a destination of [count] bytes. *)
Definition read_into (old new : list Z) : list Z :=
  take (length old) (new ++ drop (length new) old).

(** "Record a copy of the data in memory if desired": the heap after
    [if (section->contents && location != section->contents + offset)
    memcpy (section->contents + offset, location, (size_t) count);]. *)
Definition record_copy (h : gmap nat (list Z)) (section : asection)
    (location : Mem.ptr) (offset count : Z) : option (gmap nat (list Z)) :=
  match contents section with
  | Some c =>
      if decide (location <> Mem.ptr_add c offset)
      then Mem.memcpy h (Mem.ptr_add c offset) location (to_size_t count)
      else Some h
  | None => Some h
  end.

(** [bfd_set_section_contents]. [None] is a call with no defined
    behaviour (an access outside a live block, a null field of the
    component); otherwise the result is the value returned, the owner and
    the process state after the call. *)
Definition bfd_set_section_contents (info : Comp.EncryptInfoT) (w : world)
    (abfd : bfd) (section : asection) (location : Mem.ptr) (offset count : Z)
  : option (bool * bfd * world) :=
  let Comp := component_of info abfd section in
  if negb (has_flag (flags section) SEC_HAS_CONTENTS) then
    Some (false, abfd, bfd_set_error bfd_error_no_contents w)
  else
  let sz := size section in
  if out_of_range offset count sz then
    Some (false, abfd, bfd_set_error bfd_error_bad_value w)
  else
  if negb (bfd_write_p abfd) then
    Some (false, abfd, bfd_set_error bfd_error_invalid_operation w)
  else
  (* Record a copy of the data in memory if desired. *)
  match record_copy (heap w) section location offset count with
  | None => None
  | Some h =>
  match Comp with
  | Some i =>
      match Comp.Components info !! i with
      | None => None
      | Some comp =>
          let '(b, h) := Mem.malloc h (uninitialised count) in
          let CopyIn := {| Mem.block := b; Mem.ofs := 0 |} in
          match Mem.memcpy h CopyIn location (to_size_t count) with
          | None => None
          | Some h =>
          match Mem.load h CopyIn count with
          | None => None
          | Some plain =>
          (* Encrypt CopyIn *)
          match Comp.EncryptObjSection v junk_ctx junk_buffer comp plain
                  (to_unsigned_int offset) with
          | None => None
          | Some cipher =>
          match Mem.store h CopyIn cipher with
          | None => None
          | Some h =>
              let sent := EvSetSectionContents CopyIn cipher offset count in
              let w := log [EvMalloc b count; sent; EvFree b]
                         (with_heap (Mem.free h b) w) in
              if backend_set_section_contents abfd section cipher offset count
              then Some (true, begin_output abfd, w)
              else Some (false, abfd, w)
          end end end end
      end
  | None =>
      match Mem.load h location count with
      | None => None
      | Some bytes =>
          let w := log [EvSetSectionContents location bytes offset count]
                     (with_heap h w) in
          if backend_set_section_contents abfd section bytes offset count
          then Some (true, begin_output abfd, w)
          else Some (false, abfd, w)
      end
  end
  end.

(** [bfd_get_section_contents]; the result also has the section, whose
    flags the function can change. *)
Definition bfd_get_section_contents (info : Comp.EncryptInfoT) (w : world)
    (abfd : bfd) (section : asection) (location : Mem.ptr) (offset count : Z)
  : option (bool * asection * world) :=
  let Comp := component_of info abfd section in
  if has_flag (flags section) SEC_CONSTRUCTOR then
    match Mem.memset0 (heap w) location (to_size_t count) with
    | Some h => Some (true, section, with_heap h w)
    | None => None
    end
  else
  let sz := read_size abfd section in
  if out_of_range offset count sz then
    Some (false, section, bfd_set_error bfd_error_bad_value w)
  else
  if count =? 0 then Some (true, section, w)
  else
  if negb (has_flag (flags section) SEC_HAS_CONTENTS) then
    match Mem.memset0 (heap w) location (to_size_t count) with
    | Some h => Some (true, section, with_heap h w)
    | None => None
    end
  else
  if has_flag (flags section) SEC_IN_MEMORY then
    match contents section with
    | None =>
        Some (false,
              with_flags (Z.land (flags section) (Z.lnot SEC_IN_MEMORY)) section,
              bfd_set_error bfd_error_invalid_operation w)
    | Some c =>
        (* memmove *)
        match Mem.memcpy (heap w) location (Mem.ptr_add c offset) (to_size_t count) with
        | Some h => Some (true, section, with_heap h w)
        | None => None
        end
    end
  else
  match Comp with
  | Some i =>
      match Comp.Components info !! i with
      | None => None
      | Some comp =>
          let '(b, h) := Mem.malloc (heap w) (uninitialised count) in
          let CopyOut := {| Mem.block := b; Mem.ofs := 0 |} in
          match Mem.load h CopyOut count with
          | None => None
          | Some scratch =>
          let '(Status, got) :=
            backend_get_section_contents abfd section scratch offset count in
          match Mem.store h CopyOut (read_into scratch got) with
          | None => None
          | Some h =>
          (* Decrypt CopyOut *)
          match Comp.EncryptObjSection v junk_ctx junk_buffer comp
                  (read_into scratch got) (to_unsigned_int offset) with
          | None => None
          | Some plain =>
          match Mem.store h CopyOut plain with
          | None => None
          | Some h =>
          match Mem.memcpy h location CopyOut (to_size_t count) with
          | None => None
          | Some h =>
              Some (Status, section,
                    log [EvMalloc b count; EvGetSectionContents CopyOut offset count;
                         EvFree b]
                      (with_heap (Mem.free h b) w))
          end end end end end
      end
  | None =>
      match Mem.load (heap w) location count with
      | None => None
      | Some old =>
          let '(Status, got) :=
            backend_get_section_contents abfd section old offset count in
          match Mem.store (heap w) location (read_into old got) with
          | None => None
          | Some h =>
              Some (Status, section,
                    log [EvGetSectionContents location offset count] (with_heap h w))
          end
      end
  end.

End Bridge.

(** A call that went as far as the back end: the [bfd_error] variable is
    as before, and the writer of the owner's format has been called for
    the range. *)
Definition reached_writer (w : world) (offset count : Z)
    (r : bool * bfd * world) : Prop :=
  bfd_error r.2 = bfd_error w /\
  exists data bytes before after,
    trace r.2 = trace w ++ before ++ [EvSetSectionContents data bytes offset count] ++ after.

End IO.

(* ===================================================================== *)
(** ** Sample data *)
(* ===================================================================== *)

Module Sample.

Import Comp.

Definition no_info : EncryptInfoT :=
  {| Mode := 1; Verbose := 0; Components := []; OutComponent := None |}.

Definition dq : string := String "034" EmptyString.
Definition nl : string := String "010" EmptyString.

(** One record of the configuration file: [keyword = "value"] on a line. *)
Definition line (keyword value : string) : string :=
  (keyword ++ " = " ++ dq ++ value ++ dq ++ nl)%string.

Definition hex_key : string := "000102030405060708090a0b0c0d0e0f".
Definition hex_iv : string := "101112131415161718191a1b1c1d1e1f".

(** A complete declaration of a component, up to its key. *)
Definition declaration (name : string) : string :=
  (line "Component" name ++ line "Vendor" "V" ++ line "Server" "S"
   ++ line "User" "U" ++ line "Key" hex_key)%string.

Definition file (text : string) : option (list ascii) :=
  Some (list_ascii_of_string text).

Definition declared (name : string) (iv : option (list Z)) : CryptedComponentT :=
  {| Name := name; Vendor := Some "V"; Server := Some "S"; UserAuth := Some "U";
     Key := Some (map Z.of_nat (seq 0 16)); Iv := iv; Nonce := None |}.

Definition registry (comps : list CryptedComponentT) : EncryptInfoT :=
  {| Mode := 1; Verbose := 0; Components := comps; OutComponent := None |}.

(** An owner with no section, its table of [n] buckets, and the process
    state before any section is made. *)
Definition empty_bfd (n : Z) : BFD.bfd :=
  {| BFD.filename := "a.o"; BFD.bfd_flags := 0; BFD.direction := BFD.write_direction;
     BFD.output_has_begun := false;
     BFD.section_htab := {| BFD.table := ∅; BFD.tsize := n; BFD.count := 0;
                            BFD.allocated := 0 |};
     BFD.sections := []; BFD.section_count := 0 |}.

Definition fresh_world : BFD.world :=
  {| BFD.section_id := 0x10; BFD.bfd_error := BFD.bfd_error_no_error;
     BFD.heap := ∅; BFD.trace := [] |}.

(** A section of 100 bytes, with no cache, and a heap with one block of
    20 bytes for the caller's buffer. *)
Definition section_of_100 (flags : Z) : BFD.asection :=
  {| BFD.name := Some ".data"; BFD.id := 0x10; BFD.index := 0; BFD.flags := flags;
     BFD.size := 100; BFD.rawsize := 0; BFD.contents := None |}.

Definition caller_world : BFD.world :=
  {| BFD.section_id := 0x11; BFD.bfd_error := BFD.bfd_error_no_error;
     BFD.heap := {[ 0%nat := map Z.of_nat (seq 1 20) ]}; BFD.trace := [] |}.

Definition caller_buffer : Mem.ptr := {| Mem.block := 0; Mem.ofs := 0 |}.

Definition writer_ok (_ : BFD.bfd) (_ : BFD.asection) (_ : list Z) (_ _ : Z) : bool := true.

Definition reader_fails (_ : BFD.bfd) (_ : BFD.asection) (_ : list Z) (_ _ : Z)
  : bool * list Z := (false, []).

Definition no_ctx : AES.AES_ctx := {| AES.RoundKey := []; AES.Iv := [] |}.

(** An owner [a.o] with the encrypted bit 0x80000, its component with key,
    IV and nonce, and a code section of 100 bytes with contents. *)
Definition encrypted_bfd (d : BFD.bfd_direction) : BFD.bfd :=
  {| BFD.filename := "build/a.o"; BFD.bfd_flags := 0x80000; BFD.direction := d;
     BFD.output_has_begun := false;
     BFD.section_htab := {| BFD.table := ∅; BFD.tsize := 1; BFD.count := 0;
                            BFD.allocated := 0 |};
     BFD.sections := []; BFD.section_count := 0 |}.

Definition keyed : CryptedComponentT :=
  {| Name := "a.o"; Vendor := Some "V"; Server := Some "S"; UserAuth := Some "U";
     Key := Some (map Z.of_nat (seq 0 16));
     Iv := Some (map Z.of_nat (seq 16 16));
     Nonce := Some (map Z.of_nat (seq 32 16)) |}.

Definition code_section : BFD.asection :=
  section_of_100 (Z.lor BFD.SEC_CODE BFD.SEC_HAS_CONTENTS).

(** The data of [TestAES]. *)
Definition test_key : list Z :=
  [ 0x60; 0x3d; 0xeb; 0x10; 0x15; 0xca; 0x71; 0xbe; 0x2b; 0x73; 0xae; 0xf0; 0x85; 0x7d; 0x77; 0x81;
    0x1f; 0x35; 0x2c; 0x07; 0x3b; 0x61; 0x08; 0xd7; 0x2d; 0x98; 0x10; 0xa3; 0x09; 0x14; 0xdf; 0xf4 ].

Definition test_iv : list Z :=
  [ 0xf0; 0xf1; 0xf2; 0xf3; 0xf4; 0xf5; 0xf6; 0xf7; 0xf8; 0xf9; 0xfa; 0xfb; 0xfc; 0xfd; 0xfe; 0xff ].

Definition ASTR : string :=
  "Ceci est un test d'AES 256 en partant d'un point arbitaire et pour une certaine longeur".

Definition test_input : list Z :=
  map (fun c => Z.of_nat (nat_of_ascii c))
      (list_ascii_of_string
         ("1 " ++ ASTR ++ "2 " ++ ASTR ++ "3 " ++ ASTR ++ "4 " ++ ASTR
          ++ "6 " ++ ASTR ++ "6 " ++ ASTR ++ "7 " ++ ASTR)%string).

Definition test_ctx : AES.AES_ctx :=
  AES.AES_ctx_set_iv (AES.AES_init_ctx AES.AES256 no_ctx test_key) test_iv (repeat 0 16).

(** One round of the loop of [TestAES]: the input with [Len] bytes from
    [From] transformed in place, against the input (parts 1 and 3) and the
    reference encryption (part 2). *)
Definition test_round (RefEnc : list Z) (From Len : nat) : bool :=
  let RefIn := test_input in
  let part := snd (AES.AES_CTR_xcrypt_buffer_From AES.AES256 []
                     test_ctx (take Len (drop From test_input)) (Z.of_nat From)) in
  let In := take From test_input ++ part ++ drop (From + Len) test_input in
  bool_decide (take From In = take From RefIn)
  && bool_decide (take Len (drop From In) = take Len (drop From RefEnc))
  && bool_decide (drop (From + Len) In = drop (From + Len) RefIn).

(** The ten bytes that the writer receives when [1 .. 10] are written at
    offset 90 of the code section of [keyed]. *)
Definition sample_cipher : list Z :=
  Eval vm_compute in
    default [] (EncryptObjSection AES.AES128 no_ctx [] keyed (map Z.of_nat (seq 1 10)) 90).

(** A reader over a file that holds [stored] from offset [base] on. *)
Definition reader_of (base : Z) (stored : list Z)
    (_ : BFD.bfd) (_ : BFD.asection) (_ : list Z) (offset count : Z) : bool * list Z :=
  (true, take (Z.to_nat count) (drop (Z.to_nat (offset - base)) stored)).

(** A section of 100 bytes cached in block 1, and a heap with the
    caller's buffer (block 0), the cache and a destination (block 2). *)
Definition cache : Mem.ptr := {| Mem.block := 1; Mem.ofs := 0 |}.

Definition cached_section (flags : Z) : BFD.asection :=
  {| BFD.name := Some ".data"; BFD.id := 0x10; BFD.index := 0; BFD.flags := flags;
     BFD.size := 100; BFD.rawsize := 0; BFD.contents := Some cache |}.

Definition cached_world : BFD.world :=
  {| BFD.section_id := 0x11; BFD.bfd_error := BFD.bfd_error_no_error;
     BFD.heap := {[ 0%nat := map Z.of_nat (seq 1 20); 1%nat := repeat 0 100;
                    2%nat := repeat 9 10 ]};
     BFD.trace := [] |}.

Definition destination : Mem.ptr := {| Mem.block := 2; Mem.ofs := 0 |}.

(** A hash function and a hook for the owners below. *)
Definition hash0 (_ : string) : Z := 0.
Definition hook_ok (_ : BFD.bfd) (_ : BFD.asection) : bool := true.

(** An owner with the one section [.text]. *)
Definition text_entry : BFD.section_hash_entry :=
  {| BFD.addr := 0; BFD.root_string := ".text"; BFD.root_hash := 0;
     BFD.section := {| BFD.name := Some ".text"; BFD.id := 0x10; BFD.index := 0;
                       BFD.flags := 0; BFD.size := 0; BFD.rawsize := 0;
                       BFD.contents := None |} |}.

Definition one_section_bfd : BFD.bfd :=
  {| BFD.filename := "a.o"; BFD.bfd_flags := 0; BFD.direction := BFD.write_direction;
     BFD.output_has_begun := false;
     BFD.section_htab := {| BFD.table := {[ 0 := [text_entry] ]}; BFD.tsize := 1;
                            BFD.count := 1; BFD.allocated := 1 |};
     BFD.sections := [0%nat]; BFD.section_count := 1 |}.

(** The owner left by four calls of [bfd_make_section_anyway_with_flags]
    on an owner with no section: [.text], [.data], and [.text] twice more
    with [SEC_LINKER_CREATED]. The sections have the addresses 0 to 3 in
    the order of their creation. *)
Definition make_anyway (name : string) (flags : Z) (state : BFD.bfd * BFD.world)
  : BFD.bfd * BFD.world :=
  let '(_, abfd, w) :=
    Sec.bfd_make_section_anyway_with_flags hash0 hook_ok (snd state) (fst state)
      name flags in
  (abfd, w).

Definition several_text_bfd : BFD.bfd :=
  Eval vm_compute in
    fst (make_anyway ".text" BFD.SEC_LINKER_CREATED
           (make_anyway ".text" BFD.SEC_LINKER_CREATED
              (make_anyway ".data" 0
                 (make_anyway ".text" 0 (empty_bfd 1, fresh_world))))).

(** An owner with the sections 0 and 1 in its list, and a section 2 out
    of the list whose two pointers are stale. *)
Definition two_sections : Links.section_list :=
  {| Links.nodes :=
       {[ 0%nat := {| Links.next := Some 1%nat; Links.prev := None |};
          1%nat := {| Links.next := None; Links.prev := Some 0%nat |};
          2%nat := {| Links.next := Some 7%nat; Links.prev := Some 9%nat |} ]};
     Links.sections := Some 0%nat;
     Links.section_last := Some 1%nat |}.

End Sample.

(* ===================================================================== *)
(** * Properties *)
(* ===================================================================== *)

(** FIPS-197 appendix C.1: AES-128 of 00112233..ff under key 000102..0f. *)
Example AES128_fips197 :
  AES.AES_Cipher AES.AES128
    [0x00;0x11;0x22;0x33;0x44;0x55;0x66;0x77;0x88;0x99;0xaa;0xbb;0xcc;0xdd;0xee;0xff]
    (AES.AES_KeyExpansion AES.AES128
       [0x00;0x01;0x02;0x03;0x04;0x05;0x06;0x07;0x08;0x09;0x0a;0x0b;0x0c;0x0d;0x0e;0x0f])
  = [0x69;0xc4;0xe0;0xd8;0x6a;0x7b;0x04;0x30;0xd8;0xcd;0xb7;0x80;0x70;0xb4;0xc5;0x5a].
Proof. vm_compute. reflexivity. Qed.

(** The key schedule fills the [AES_keyExpSize] bytes of [RoundKey]. *)
Lemma KeyExpansion_loop_length (v : AES.variant) (n : nat) :
  forall (i : Z) (rk : list Z),
    length (AES.KeyExpansion_loop v n i rk) = (length rk + 4 * n)%nat.
Proof.
  induction n as [| n IH]; intros i rk; cbn [AES.KeyExpansion_loop]; [lia |].
  rewrite IH. unfold AES.KeyExpansion_word.
  destruct (i mod AES.AES_Nk v =? 0); destruct v;
    try destruct (i mod AES.AES_Nk AES.AES256 =? 4);
    rewrite length_app; cbn [length]; lia.
Qed.

Lemma AES_KeyExpansion_length (v : AES.variant) (Key : list Z) :
  Z.of_nat (length (AES.AES_KeyExpansion v Key)) = AES.AES_keyExpSize v.
Proof.
  unfold AES.AES_KeyExpansion. rewrite KeyExpansion_loop_length, length_map, length_seq.
  destruct v; reflexivity.
Qed.

(** The checks of [TestAES] (AES-256): decrypting the encryption gives
    the input back, and the 28 partial runs of 35 bytes from offsets
    15 .. 42 agree with the full run. *)
Example TestAES_passes :
  snd (AES.AES_CTR_xcrypt_buffer_From AES.AES256 [] Sample.test_ctx
         (snd (AES.AES_CTR_xcrypt_buffer_From AES.AES256 [] Sample.test_ctx
                 Sample.test_input 0)) 0)
  = Sample.test_input
  /\ (let RefEnc := snd (AES.AES_CTR_xcrypt_buffer_From AES.AES256 [] Sample.test_ctx
                           Sample.test_input 0) in
      forallb (fun From => Sample.test_round RefEnc From 35) (seq 15 28) = true).
Proof. split; vm_compute; reflexivity. Qed.

(* ===================================================================== *)
(** ** Counter mode: what the loops compute *)
(* ===================================================================== *)

Section CtrMode.

Import AES.

Variable v : variant.
Variable rk : list Z.
Variable iv0 : list Z.

Lemma succ_mod16_wrap (j : nat) :
  (j mod 16 = 15 -> S j mod 16 = 0 /\ S j / 16 = S (j / 16))%nat.
Proof.
  intros H.
  pose proof (Nat.div_mod_eq j 16) as E.
  assert (S j = 16 * S (j / 16) + 0)%nat as E' by lia.
  split.
  - rewrite E' at 1. rewrite Nat.Div0.add_mod, Nat.mul_comm, Nat.Div0.mod_mul. reflexivity.
  - symmetry. apply (Nat.div_unique (S j) 16 (S (j / 16)) 0); lia.
Qed.

Lemma succ_mod16_step (j : nat) :
  (j mod 16 <> 15 -> S j mod 16 = S (j mod 16) /\ S j / 16 = j / 16)%nat.
Proof.
  intros H.
  pose proof (Nat.div_mod_eq j 16) as E.
  assert (j mod 16 < 16)%nat as B by (apply Nat.mod_upper_bound; lia).
  assert (S j = 16 * (j / 16) + S (j mod 16))%nat as E' by lia.
  split.
  - symmetry. apply (Nat.mod_unique (S j) 16 (j / 16) (S (j mod 16))); lia.
  - symmetry. apply (Nat.div_unique (S j) 16 (j / 16) (S (j mod 16))); lia.
Qed.

Lemma counter_block_succ (k : nat) :
  Iv_increment (counter_block iv0 k) = counter_block iv0 (S k).
Proof. reflexivity. Qed.

(** One step of either loop moves a positioned state to the next position. *)
Lemma positioned_next (need need' : Prop) (j : nat) (iv buffer : list Z) (bi : Z) :
  positioned v rk iv0 need j iv buffer bi ->
  ((j mod 16 <> 0)%nat -> (j mod 16 <> 15)%nat -> need' -> need) ->
  forall fresh : list Z,
  ((j mod 16 = 0)%nat -> need' -> fresh = AES_Cipher v (counter_block iv0 (j / 16)%nat) rk) ->
  let '(iv1, buffer1, bi1) :=
    if bi =? AES_BLOCKLEN then (Iv_increment iv, fresh, 0) else (iv, buffer, bi) in
  positioned v rk iv0 need' (S j) iv1 buffer1 (bi1 + 1) /\
  (need -> need' -> byte_at buffer1 bi1 = keystream_byte v rk iv0 j).
Proof.
  intros [(Hm & Hbi & Hiv) | (Hm & Hbi & Hiv & Hbuf)] Hneed fresh Hfresh.
  - subst bi. change (16 =? AES_BLOCKLEN) with true. cbn iota.
    assert (j mod 16 <> 15)%nat as E by lia.
    destruct (succ_mod16_step j E) as [M D].
    split.
    + right. rewrite M, D, Hm. repeat split; try lia.
      * subst iv. reflexivity.
      * intros N. auto.
    + intros _ N. unfold keystream_byte. rewrite Hm, (Hfresh Hm N). reflexivity.
  - assert (j mod 16 < 16)%nat as B by (apply Nat.mod_upper_bound; lia).
    assert ((bi =? AES_BLOCKLEN) = false) as Ebi
      by (apply Z.eqb_neq; unfold AES_BLOCKLEN; lia).
    rewrite Ebi.
    split.
    + destruct (Nat.eq_dec (j mod 16)%nat 15%nat) as [E | E].
      * destruct (succ_mod16_wrap j E) as [M D].
        left. rewrite M, D. repeat split; try lia. exact Hiv.
      * destruct (succ_mod16_step j E) as [M D].
        right. rewrite M, D. repeat split; try lia; [exact Hiv |].
        intros N. apply Hbuf. apply Hneed; [lia | exact E | assumption].
    + intros N _. unfold keystream_byte. rewrite <- (Hbuf N), Hbi. reflexivity.
Qed.

Lemma xcrypt_loop_stream (buf : list Z) :
  forall (j : nat) (iv buffer : list Z) (bi : Z),
    positioned v rk iv0 True j iv buffer bi ->
    fst (xcrypt_loop v rk iv buffer bi buf) = ctr_stream v rk iv0 j buf.
Proof.
  induction buf as [| b rest IH]; intros j iv buffer bi Hpos; [reflexivity |].
  cbn [xcrypt_loop ctr_stream].
  pose proof (positioned_next True True j iv buffer bi Hpos (fun _ _ _ => I)
                (AES_Cipher v iv rk)) as Hstep.
  destruct (bi =? AES_BLOCKLEN) eqn:Ebi.
  - destruct Hstep as [Hn Hb].
    { intros Hm _. destruct Hpos as [(_ & _ & ->) | (Hm' & _)]; [reflexivity | contradiction]. }
    specialize (IH _ _ _ _ Hn).
    destruct (xcrypt_loop v rk (Iv_increment iv) (AES_Cipher v iv rk) (0 + 1) rest) as [out iv'].
    cbn [fst] in *. rewrite IH, (Hb I I). reflexivity.
  - destruct Hstep as [Hn Hb].
    { intros Hm _. destruct Hpos as [(_ & -> & _) | (Hm' & _)]; [discriminate | contradiction]. }
    specialize (IH _ _ _ _ Hn).
    destruct (xcrypt_loop v rk iv buffer (bi + 1) rest) as [out iv'].
    cbn [fst] in *. rewrite IH, (Hb I I). reflexivity.
Qed.

Lemma seek_loop_positioned (from : nat) :
  Z.of_nat from < 2 ^ unsigned_int_bits ->
  forall (n j : nat) (iv buffer : list Z) (bi : Z),
    (j + n = from)%nat ->
    positioned v rk iv0 (in_last_block from j) j iv buffer bi ->
    let '(iv', buffer', bi') :=
      seek_loop v rk (Z.of_nat from) n (Z.of_nat j) iv buffer bi in
    positioned v rk iv0 True from iv' buffer' bi'.
Proof.
  intros Hfrom. unfold unsigned_int_bits in Hfrom.
  induction n as [| n IH]; intros j iv buffer bi Hj Hpos.
  - cbn [seek_loop]. replace from with j by lia.
    destruct Hpos as [H | (Hm & Hbi & Hiv & Hbuf)]; [left; exact H | right].
    repeat split; try assumption. intros _. apply Hbuf.
    unfold in_last_block. pose proof (Nat.div_mod_eq j 16) as E.
    assert (j mod 16 < 16)%nat by (apply Nat.mod_upper_bound; lia). lia.
  - cbn [seek_loop].
    assert (to_size_t (Z.of_nat j + 1) = Z.of_nat (S j)) as Ei.
    { unfold to_size_t, size_t_bits. rewrite Z.mod_small; lia. }
    assert (to_size_t (Z.of_nat j + AES_BLOCKLEN) = Z.of_nat j + 16) as Eb.
    { unfold to_size_t, size_t_bits, AES_BLOCKLEN. rewrite Z.mod_small; lia. }
    rewrite Ei, Eb.
    pose proof (positioned_next (in_last_block from j) (in_last_block from (S j))
                  j iv buffer bi Hpos) as Hstep.
    assert (Hmono : (j mod 16 <> 0)%nat -> (j mod 16 <> 15)%nat ->
                    in_last_block from (S j) -> in_last_block from j).
    { intros _ E. unfold in_last_block.
      destruct (succ_mod16_step j E) as [_ D]. rewrite D. auto. }
    specialize (Hstep Hmono
      (if Z.of_nat j + 16 >=? Z.of_nat from then AES_Cipher v iv rk else buffer)).
    assert (Hfresh : (j mod 16 = 0)%nat -> in_last_block from (S j) ->
              (if Z.of_nat j + 16 >=? Z.of_nat from then AES_Cipher v iv rk else buffer)
              = AES_Cipher v (counter_block iv0 (j / 16)%nat) rk).
    { intros Hm Hlast. unfold in_last_block in Hlast.
      assert (j mod 16 <> 15)%nat as E by lia.
      destruct (succ_mod16_step j E) as [_ D]. rewrite D in Hlast.
      pose proof (Nat.div_mod_eq j 16) as Ej.
      assert ((Z.of_nat j + 16 >=? Z.of_nat from) = true) as Ege
        by (apply Z.geb_le; lia).
      rewrite Ege.
      destruct Hpos as [(_ & _ & ->) | (Hm' & _)]; [reflexivity | contradiction]. }
    specialize (Hstep Hfresh).
    destruct (bi =? AES_BLOCKLEN); destruct Hstep as [Hn _];
      apply IH; try lia; exact Hn.
Qed.

Lemma xcrypt_buffer_stream (junk : list Z) (ctx : AES_ctx) (buf : list Z) :
  RoundKey ctx = rk -> Iv ctx = iv0 ->
  snd (AES_CTR_xcrypt_buffer v junk ctx buf) = ctr_stream v rk iv0 0 buf.
Proof.
  intros Hrk Hiv. unfold AES_CTR_xcrypt_buffer. rewrite Hrk, Hiv.
  pose proof (xcrypt_loop_stream buf 0 iv0 junk AES_BLOCKLEN) as H.
  destruct (xcrypt_loop v rk iv0 junk AES_BLOCKLEN buf) as [out iv'].
  cbn [fst snd] in *. apply H. left. repeat split.
Qed.

Lemma xcrypt_buffer_From_stream (junk : list Z) (ctx : AES_ctx) (buf : list Z) (from : nat) :
  RoundKey ctx = rk -> Iv ctx = iv0 ->
  Z.of_nat from < 2 ^ unsigned_int_bits ->
  snd (AES_CTR_xcrypt_buffer_From v junk ctx buf (Z.of_nat from))
  = ctr_stream v rk iv0 from buf.
Proof.
  intros Hrk Hiv Hfrom. unfold AES_CTR_xcrypt_buffer_From. rewrite Hrk, Hiv, Nat2Z.id.
  pose proof (seek_loop_positioned from Hfrom from 0 iv0 junk AES_BLOCKLEN) as Hseek.
  change (Z.of_nat 0) with 0 in Hseek.
  destruct (seek_loop v rk (Z.of_nat from) from 0 iv0 junk AES_BLOCKLEN)
    as [[iv buffer] bi].
  pose proof (xcrypt_loop_stream buf from iv buffer bi) as H.
  destruct (xcrypt_loop v rk iv buffer bi buf) as [out iv'].
  cbn [fst snd] in *. apply H, Hseek; [lia |]. left. repeat split.
Qed.

Lemma ctr_stream_drop (O : nat) :
  forall (j : nat) (P : list Z),
    drop O (ctr_stream v rk iv0 j P) = ctr_stream v rk iv0 (j + O) (drop O P).
Proof.
  induction O as [| O IH]; intros j P.
  - rewrite Nat.add_0_r. reflexivity.
  - destruct P as [| b P]; [reflexivity |].
    cbn [ctr_stream drop]. rewrite IH. f_equal. lia.
Qed.

Lemma ctr_stream_take (L : nat) :
  forall (j : nat) (P : list Z),
    take L (ctr_stream v rk iv0 j P) = ctr_stream v rk iv0 j (take L P).
Proof.
  induction L as [| L IH]; intros j P; [reflexivity |].
  destruct P as [| b P]; [reflexivity |].
  cbn [ctr_stream take]. rewrite IH. reflexivity.
Qed.

Lemma lxor_twice (b k : Z) : Z.lxor (Z.lxor b k) k = b.
Proof. rewrite Z.lxor_assoc, Z.lxor_nilpotent, Z.lxor_0_r. reflexivity. Qed.

Lemma ctr_stream_involutive (P : list Z) :
  forall j : nat, ctr_stream v rk iv0 j (ctr_stream v rk iv0 j P) = P.
Proof.
  induction P as [| b P IH]; intros j; [reflexivity |].
  cbn [ctr_stream]. rewrite lxor_twice, IH. reflexivity.
Qed.

End CtrMode.

(** C1. Offset invariance of the counter mode: encrypting the whole of [P]
    from offset 0 with [AES_CTR_xcrypt_buffer] and keeping bytes
    [O, O + L) gives the same bytes as running [AES_CTR_xcrypt_buffer_From]
    on the sub-buffer [P[O, O + L)] with [from = O], both from the context
    set up by [AES_init_ctx] and [AES_ctx_set_iv] with the same key, stored
    IV and nonce. [O] is an [unsigned int], the type of [from]. *)
Theorem cipher_offset_invariance
    (v : AES.variant) (junk_ctx : AES.AES_ctx) (junk1 junk2 : list Z)
    (key iv nonce P : list Z) (O L : nat) :
  (O + L <= length P)%nat ->
  Z.of_nat O < 2 ^ unsigned_int_bits ->
  let ctx := AES.AES_ctx_set_iv (AES.AES_init_ctx v junk_ctx key) iv nonce in
  take L (drop O (snd (AES.AES_CTR_xcrypt_buffer v junk1 ctx P)))
  = snd (AES.AES_CTR_xcrypt_buffer_From v junk2 ctx (take L (drop O P)) (Z.of_nat O)).
Proof.
  intros _ HO ctx.
  rewrite (xcrypt_buffer_stream v (AES.RoundKey ctx) (AES.Iv ctx)) by reflexivity.
  rewrite (xcrypt_buffer_From_stream v (AES.RoundKey ctx) (AES.Iv ctx))
    by (reflexivity || exact HO).
  rewrite ctr_stream_drop, ctr_stream_take. reflexivity.
Qed.

Lemma cipher_offset_invariance_witness :
  let P := map Z.of_nat (seq 0 40) in
  let key := map Z.of_nat (seq 0 16) in
  let iv := map Z.of_nat (seq 240 16) in
  let nonce := repeat 0 16 in
  let ctx := AES.AES_ctx_set_iv
               (AES.AES_init_ctx AES.AES128 (AES.Build_AES_ctx [] []) key) iv nonce in
  take 5 (drop 17 (snd (AES.AES_CTR_xcrypt_buffer AES.AES128 [] ctx P)))
  = snd (AES.AES_CTR_xcrypt_buffer_From AES.AES128 [] ctx (take 5 (drop 17 P)) 17).
Proof.
  apply (cipher_offset_invariance AES.AES128 (AES.Build_AES_ctx [] []) [] []
           (map Z.of_nat (seq 0 16)) (map Z.of_nat (seq 240 16)) (repeat 0 16)
           (map Z.of_nat (seq 0 40)) 17 5).
  - simpl. lia.
  - vm_compute. reflexivity.
Defined.

(** C2. Round trip of the counter mode through [EncryptObjSection]: with a
    component that has a key, a stored IV and a nonce, transforming a
    buffer of any length (a multiple of the block or not) and transforming
    the result again, each time with a context initialised afresh, gives
    the buffer back. Holds for the three key sizes. *)
Theorem ctr_round_trip
    (v : AES.variant) (junk_ctx1 junk_ctx2 : AES.AES_ctx) (junk1 junk2 : list Z)
    (comp : Comp.CryptedComponentT) (key iv nonce P : list Z) (Pos : Z) :
  Comp.Key comp = Some key ->
  Comp.Iv comp = Some iv ->
  Comp.Nonce comp = Some nonce ->
  0 <= Pos < 2 ^ unsigned_int_bits ->
  exists C : list Z,
    Comp.EncryptObjSection v junk_ctx1 junk1 comp P Pos = Some C /\
    Comp.EncryptObjSection v junk_ctx2 junk2 comp C Pos = Some P.
Proof.
  intros Hk Hi Hn HPos. unfold Comp.EncryptObjSection. rewrite Hk, Hi, Hn.
  eexists. split; [reflexivity |].
  set (ctx1 := AES.AES_ctx_set_iv (AES.AES_init_ctx v junk_ctx1 key) iv nonce).
  set (ctx2 := AES.AES_ctx_set_iv (AES.AES_init_ctx v junk_ctx2 key) iv nonce).
  rewrite <- (Z2Nat.id Pos) by lia.
  assert (Z.of_nat (Z.to_nat Pos) < 2 ^ unsigned_int_bits) as HP by lia.
  rewrite (xcrypt_buffer_From_stream v (AES.RoundKey ctx1) (AES.Iv ctx1)) by (reflexivity || exact HP).
  rewrite (xcrypt_buffer_From_stream v (AES.RoundKey ctx2) (AES.Iv ctx2)) by (reflexivity || exact HP).
  change (AES.RoundKey ctx2) with (AES.RoundKey ctx1).
  change (AES.Iv ctx2) with (AES.Iv ctx1).
  rewrite ctr_stream_involutive. reflexivity.
Qed.

Lemma ctr_round_trip_witness :
  let comp := {| Comp.Name := "a.o"; Comp.Vendor := None; Comp.Server := None;
                 Comp.UserAuth := None;
                 Comp.Key := Some (map Z.of_nat (seq 0 16));
                 Comp.Iv := Some (map Z.of_nat (seq 16 16));
                 Comp.Nonce := Some (map Z.of_nat (seq 32 16)) |} in
  let P := map Z.of_nat (seq 65 21) in
  exists C : list Z,
    Comp.EncryptObjSection AES.AES128 (AES.Build_AES_ctx [] []) [] comp P 3 = Some C /\
    Comp.EncryptObjSection AES.AES128 (AES.Build_AES_ctx [] []) [] comp C 3 = Some P.
Proof.
  apply (ctr_round_trip AES.AES128 (AES.Build_AES_ctx [] []) (AES.Build_AES_ctx [] [])
           [] [] _ (map Z.of_nat (seq 0 16)) (map Z.of_nat (seq 16 16))
           (map Z.of_nat (seq 32 16)) (map Z.of_nat (seq 65 21)) 3).
  - reflexivity.
  - reflexivity.
  - reflexivity.
  - unfold unsigned_int_bits. lia.
Defined.

(* ===================================================================== *)
(** ** IV aggregation *)
(* ===================================================================== *)

Section Aggregation.

Import Comp.

Lemma aggregate_loop_missing (OutComp : option nat) (l : list CryptedComponentT) :
  forall (pos : nat) (IvOut : list Z) (E : bool),
    Exists (fun Pt => Iv Pt = None) (inputs_from OutComp pos l) ->
    aggregate_loop OutComp pos l IvOut E = None.
Proof.
  induction l as [| Pt rest IH]; intros pos IvOut E H; cbn [inputs_from] in H.
  - inversion H.
  - cbn [aggregate_loop]. destruct (decide (Some pos = OutComp)); [auto |].
    destruct (Iv Pt) as [iv |] eqn:Eiv; [| reflexivity].
    apply IH. inversion H; subst; [congruence | assumption].
Qed.

Lemma aggregate_loop_fold (OutComp : option nat) (l : list CryptedComponentT) :
  forall (pos : nat) (IvOut : list Z) (E : bool) (ivs : list (list Z)),
    mapM Iv (inputs_from OutComp pos l) = Some ivs ->
    aggregate_loop OutComp pos l IvOut E = Some (fold_left absorb ivs (IvOut, E)).
Proof.
  induction l as [| Pt rest IH]; intros pos IvOut E ivs H; cbn [inputs_from] in H.
  - cbn in H. injection H as <-. reflexivity.
  - cbn [aggregate_loop]. destruct (decide (Some pos = OutComp)); [auto |].
    cbn in H. destruct (Iv Pt) as [iv |] eqn:Eiv; [| discriminate].
    cbn in H. destruct (mapM Iv (inputs_from OutComp (S pos) rest)) as [ivs' |] eqn:Em;
      [| discriminate].
    cbn in H. injection H as <-. rewrite (IH _ _ _ ivs' Em). reflexivity.
Qed.

Lemma byte_at_zeros (n : nat) (i : Z) : byte_at (repeat 0 n) i = 0.
Proof.
  unfold byte_at. generalize (Z.to_nat i). induction n as [| n IH]; intros [| k]; cbn; auto.
Qed.

Lemma xor_bytes_zeros (iv : list Z) :
  xor_bytes AES_KEY_LEN (repeat 0 (Z.to_nat AES_KEY_LEN)) iv = copy_bytes AES_KEY_LEN iv.
Proof.
  unfold xor_bytes, copy_bytes. apply map_ext. intros i.
  rewrite byte_at_zeros. apply Z.lxor_0_l.
Qed.

Lemma fold_absorb_true (ivs : list (list Z)) :
  forall IvOut : list Z,
    fold_left absorb ivs (IvOut, true) = (fold_left (xor_bytes AES_KEY_LEN) ivs IvOut, true).
Proof.
  induction ivs as [| iv ivs IH]; intros IvOut; [reflexivity |].
  cbn [fold_left]. unfold absorb at 2. cbn [fst snd]. apply IH.
Qed.

(** With at least one input the loop leaves the xor of the inputs' IVs in
    [IvOut], whatever [IvOut] held before. *)
Lemma fold_absorb_xor (junk iv : list Z) (ivs : list (list Z)) :
  fold_left absorb (iv :: ivs) (junk, false) = (xor_of_ivs (iv :: ivs), true).
Proof.
  cbn [fold_left]. unfold absorb at 2. cbn [fst snd].
  rewrite fold_absorb_true. unfold xor_of_ivs. cbn [fold_left].
  rewrite xor_bytes_zeros. reflexivity.
Qed.

(** What [SetOutComponentIV] does on a registry that is not empty. *)
Lemma SetOutComponentIV_cases (junk : list Z) (info : EncryptInfoT) (name : string) :
  Components info <> [] ->
  let OutComp := ComponentLookUp name (Components info) in
  let ins := inputs_from OutComp 0 (Components info) in
  (Exists (fun Pt => Iv Pt = None) ins ->
   SetOutComponentIV junk info name = (4, info)) /\
  (forall ivs : list (list Z), mapM Iv ins = Some ivs ->
   match OutComp with
   | Some o =>
       SetOutComponentIV junk info name =
       (1, {| Mode := Mode info; Verbose := Verbose info;
              Components :=
                alter (with_Iv (match ivs with
                                | [] => copy_bytes AES_KEY_LEN junk
                                | _ => copy_bytes AES_KEY_LEN (xor_of_ivs ivs)
                                end)) o (Components info);
              OutComponent := OutComponent info |})
   | None => ins = Components info /\ SetOutComponentIV junk info name = (2, info)
   end).
Proof.
  intros Hne OutComp ins. unfold SetOutComponentIV.
  destruct (Components info) as [| c0 comps] eqn:Ec; [contradiction |].
  fold OutComp. split.
  - intros Hmiss. fold ins. rewrite (aggregate_loop_missing _ _ _ _ _ Hmiss). reflexivity.
  - intros ivs Hivs. rewrite (aggregate_loop_fold _ _ _ _ _ ivs Hivs).
    destruct OutComp as [o |] eqn:Eo.
    + destruct ivs as [| iv ivs]; [reflexivity |].
      rewrite fold_absorb_xor. reflexivity.
    + assert (Hall : forall l pos, inputs_from None pos l = l).
      { induction l as [| Pt r IH]; intros pos; [reflexivity |].
        cbn [inputs_from]. destruct (decide (Some pos = None)); [discriminate |].
        rewrite IH. reflexivity. }
      split; [apply Hall |].
      subst ins. rewrite Hall in Hivs.
      destruct ivs as [| iv ivs].
      * cbn in Hivs. destruct (Iv c0); [| discriminate].
        cbn in Hivs. destruct (mapM Iv comps); discriminate.
      * rewrite fold_absorb_xor. reflexivity.
Qed.

End Aggregation.

(** On an empty registry nothing is done and 0 is returned, which is
    not one of the two failures. *)
Lemma SetOutComponentIV_empty (junk : list Z) (info : Comp.EncryptInfoT) (name : string) :
  Comp.Components info = [] ->
  Comp.SetOutComponentIV junk info name = (0, info) /\ ~ Comp.aggregation_failed 0.
Proof.
  intros H. unfold Comp.SetOutComponentIV. rewrite H. split; [reflexivity |].
  unfold Comp.aggregation_failed. lia.
Qed.

(** A component matches a path by its trailing name, behind a
    separator. *)
Example lookup_by_trailing_name :
  let comps := [Sample.declared "libc.o" None; Sample.declared "app.o" None] in
  Comp.ComponentLookUp "/build/libc.o" comps = Some 0%nat /\
  Comp.ComponentLookUp "build/libc.o" comps = Some 0%nat /\
  Comp.ComponentLookUp "build\app.o" comps = Some 1%nat /\
  Comp.ComponentLookUp "build/xlibc.o" comps = None.
Proof. repeat split. Qed.

(** The scenario of two inputs and a distinct output: the output's IV
    becomes the xor of the two inputs' IVs. *)
Example aggregate_two_inputs (junk : list Z) :
  Comp.SetOutComponentIV junk
    (Sample.registry [Sample.declared "a.o" (Some (repeat 0x11 16));
                      Sample.declared "b.o" (Some (repeat 0x22 16));
                      Sample.declared "out.elf" None])
    "build/out.elf"
  = (1, Sample.registry [Sample.declared "a.o" (Some (repeat 0x11 16));
                         Sample.declared "b.o" (Some (repeat 0x22 16));
                         Sample.declared "out.elf" (Some (repeat 0x33 16))]).
Proof. reflexivity. Qed.

(** When the output path is the path of [a.o], [a.o] is left out of the
    xor and receives it. *)
Example aggregate_excludes_output (junk : list Z) :
  Comp.SetOutComponentIV junk
    (Sample.registry [Sample.declared "a.o" (Some (repeat 0x11 16));
                      Sample.declared "b.o" (Some (repeat 0x22 16));
                      Sample.declared "c.o" (Some (repeat 0x44 16))])
    "a.o"
  = (1, Sample.registry [Sample.declared "a.o" (Some (repeat 0x66 16));
                         Sample.declared "b.o" (Some (repeat 0x22 16));
                         Sample.declared "c.o" (Some (repeat 0x44 16))]).
Proof. reflexivity. Qed.

(** C5, at the registry whose only component is the output: there is no
    input, the loop never assigns [IvOut], and the 16 bytes stored as the
    output's IV are those the local array happened to hold, here 0xAA,
    not the xor of the (no) inputs. *)
Theorem aggregate_lone_output_stores_junk :
  let junk := repeat 0xAA 16 in
  Comp.SetOutComponentIV junk (Sample.registry [Sample.declared "out.o" None]) "out.o"
  = (1, Sample.registry [Sample.declared "out.o" (Some junk)])
  /\ Comp.inputs_from (Comp.ComponentLookUp "out.o" [Sample.declared "out.o" None]) 0
       [Sample.declared "out.o" None] = []
  /\ junk <> Comp.xor_of_ivs [].
Proof. repeat split. discriminate. Qed.

(* ===================================================================== *)
(** ** Duplicate declarations in the configuration *)
(* ===================================================================== *)

(** First declaration wins: pushing a name that is in the list returns
    null and leaves the list as it is. *)
Lemma PushComponent_duplicate (name : string) (Head : list Comp.CryptedComponentT) :
  In name (map Comp.Name Head) ->
  Comp.PushComponent name Head = (None, Head).
Proof.
  intros Hin. unfold Comp.PushComponent.
  assert (existsb (fun Pt => String.eqb name (Comp.Name Pt)) Head = true) as E.
  { apply existsb_exists. apply in_map_iff in Hin as (Pt & Hn & HPt).
    exists Pt. split; [exact HPt |]. apply String.eqb_eq. congruence. }
  rewrite E. reflexivity.
Qed.

Lemma PushComponent_new (name : string) (Head : list Comp.CryptedComponentT) :
  ~ In name (map Comp.Name Head) ->
  Comp.PushComponent name Head = (Some (length Head), Head ++ [Comp.new_component name]).
Proof.
  intros Hin. unfold Comp.PushComponent.
  destruct (existsb (fun Pt => String.eqb name (Comp.Name Pt)) Head) eqn:E; [| reflexivity].
  exfalso. apply Hin. apply existsb_exists in E as (Pt & HPt & Hn).
  apply String.eqb_eq in Hn. apply in_map_iff. exists Pt. auto.
Qed.

(** A name declared again as the first record of a later declaration
    chain, behind an [Iv], is reported. *)
Example duplicate_after_iv_reported :
  Comp.ProcessEncryptionInfos Sample.no_info
    (Sample.file (Sample.declaration "a.o" ++ Sample.line "Iv" Sample.hex_iv
                  ++ Sample.declaration "a.o"))
  = Comp.LoadReturns 0 (Some Comp.ERR_WRONG_COMP) Sample.no_info.
Proof. vm_compute. reflexivity. Qed.

(** C7, at a configuration that declares [a.o] again right behind the
    key of [a.o], with no [Iv] in between: the null result of
    [PushComponent] is not tested there. When a [Vendor] record follows,
    the parser writes through the null [*Comp]; when the file ends there,
    the load returns 1 and reports nothing. *)
Theorem duplicate_after_key_not_reported :
  Comp.ProcessEncryptionInfos Sample.no_info
    (Sample.file (Sample.declaration "a.o" ++ Sample.declaration "a.o"))
  = Comp.LoadCrashes
  /\
  Comp.ProcessEncryptionInfos Sample.no_info
    (Sample.file (Sample.declaration "a.o" ++ Sample.line "Component" "a.o"))
  = Comp.LoadReturns 1 None (Sample.registry [Sample.declared "a.o" None]).
Proof. split; vm_compute; reflexivity. Qed.

(** A declaration that the end of the file cuts short is accepted; with
    [Verbose] set, [DumpComponents] then reads the key of the component
    through a null pointer. *)
Example verbose_dump_of_cut_declaration :
  (Comp.ProcessEncryptionInfos Sample.no_info
     (Sample.file (Sample.line "Component" "a.o"))
   = Comp.LoadReturns 1 None (Sample.registry [Comp.new_component "a.o"]))
  /\
  (Comp.ProcessEncryptionInfos Sample.no_info
     (Sample.file ("Verbose " ++ Sample.line "Component" "a.o"))
   = Comp.LoadCrashes)
  /\
  (Comp.ProcessEncryptionInfos Sample.no_info
     (Sample.file ("Verbose " ++ Sample.declaration "a.o"))
   = Comp.LoadReturns 1 None
       {| Comp.Mode := 1; Comp.Verbose := 1;
          Comp.Components := [Sample.declared "a.o" None];
          Comp.OutComponent := None |}).
Proof. repeat split; vm_compute; reflexivity. Qed.

(* ===================================================================== *)
(** ** The section registry *)
(* ===================================================================== *)

Ltac table_step :=
  first [ rewrite insert_empty
        | rewrite map_fmap_singleton
        | rewrite lookup_singleton_eq
        | rewrite alter_singleton_eq
        | rewrite map_to_list_singleton
        | rewrite lookup_empty
        | rewrite Z.eqb_refl ].

(** C4, at an owner on which [.text] is made twice with
    [bfd_make_section_anyway], whatever the hash function and the number
    of buckets: the second section is the most recently created one of
    that name, and [bfd_get_section_by_name] returns the first. *)
Theorem lookup_by_name_returns_first_created (bfd_hash_hash : string -> Z) (n : Z) :
  let hook := fun (_ : BFD.bfd) (_ : BFD.asection) => true in
  let '(s1, abfd1, w1) :=
    Sec.bfd_make_section_anyway bfd_hash_hash hook Sample.fresh_world
      (Sample.empty_bfd n) ".text" in
  let '(s2, abfd2, w2) :=
    Sec.bfd_make_section_anyway bfd_hash_hash hook w1 abfd1 ".text" in
  s1 = Some 0%nat /\ s2 = Some 1%nat /\
  BFD.sections abfd2 = [0%nat; 1%nat] /\
  Sec.most_recently_created abfd2 ".text" = Some 1%nat /\
  Sec.bfd_get_section_by_name bfd_hash_hash abfd2 ".text" = Some 0%nat.
Proof.
  intros hook.
  unfold Sec.bfd_make_section_anyway, Sec.bfd_make_section_anyway_with_flags,
    Sec.bfd_section_init, Sec.bfd_get_section_by_name, Sec.most_recently_created,
    Sec.sections_named, Sec.section_hash_lookup, Sec.bfd_hash_lookup, Sec.chain,
    Sec.bucket, Sec.update_section, Sec.rewritten, Sec.section_at, Sec.entry_matches, hook.
  repeat (cbn; table_step).
  cbn. repeat split; reflexivity.
Qed.

Section DuplicateNames.

Import BFD Sec.

Variable bfd_hash_hash : string -> Z.
Variable new_section_hook : bfd -> asection -> bool.

Lemma chain_update_section (a : nat) (f : asection -> asection) (t : bfd_hash_table)
    (hash : Z) :
  chain (update_section a f t) hash = map (rewritten a f) (chain t hash).
Proof.
  unfold chain, update_section, bucket. cbn [table tsize].
  rewrite lookup_fmap. destruct (table t !! (hash mod tsize t)); reflexivity.
Qed.

Lemma find_rewritten (hash : Z) (s : string) (a : nat) (f : asection -> asection)
    (l : list section_hash_entry) :
  addr <$> List.find (entry_matches hash s) (map (rewritten a f) l)
  = addr <$> List.find (entry_matches hash s) l.
Proof.
  induction l as [| e r IH]; [reflexivity |].
  cbn [map List.find].
  assert (entry_matches hash s (rewritten a f e) = entry_matches hash s e) as ->.
  { unfold rewritten. destruct (addr e =? a)%nat; reflexivity. }
  destruct (entry_matches hash s e); [| exact IH].
  unfold rewritten. destruct (addr e =? a)%nat; reflexivity.
Qed.

(** An entry chained behind [sh] does not change what the walk from the
    head of the chain finds, when it finds [sh]. *)
Lemma find_insert_after (hash : Z) (s : string) (sh new_sh : section_hash_entry)
    (l : list section_hash_entry) :
  List.find (entry_matches hash s) l = Some sh ->
  NoDup (addr <$> l) ->
  List.find (entry_matches hash s) (insert_after (addr sh) new_sh l) = Some sh.
Proof.
  induction l as [| e r IH]; [discriminate |].
  cbn [List.find insert_after fmap list_fmap]. intros Hfind Hnd.
  apply NoDup_cons in Hnd as [Hnotin Hnd].
  destruct (entry_matches hash s e) eqn:Em.
  - injection Hfind as ->. rewrite Nat.eqb_refl. cbn [List.find]. rewrite Em. reflexivity.
  - destruct (addr e =? addr sh)%nat eqn:Ea.
    + exfalso. apply Nat.eqb_eq in Ea. apply Hnotin.
      apply find_some in Hfind as [Hin _].
      rewrite Ea. apply list_elem_of_fmap. exists sh. split; [reflexivity |].
      apply list_elem_of_In. exact Hin.
    + cbn [List.find]. rewrite Em. apply IH; assumption.
Qed.

(** Making one more section of a name never changes the section that
    [bfd_get_section_by_name] returns for that name: the one it returned
    before, hence, by repetition, the first one made. *)
Lemma duplicate_keeps_lookup (w : world) (abfd : bfd) (n : string) (flags : Z)
    (sh : section_hash_entry) :
  output_has_begun abfd = false ->
  List.find (entry_matches (bfd_hash_hash n) n) (chain (section_htab abfd) (bfd_hash_hash n))
  = Some sh ->
  is_Some (BFD.name (section sh)) ->
  NoDup (addr <$> chain (section_htab abfd) (bfd_hash_hash n)) ->
  bfd_get_section_by_name bfd_hash_hash abfd n = Some (addr sh) /\
  bfd_get_section_by_name bfd_hash_hash
    (bfd_make_section_anyway_with_flags bfd_hash_hash new_section_hook w abfd n flags).1.2 n
  = Some (addr sh).
Proof.
  intros Hout Hfind [nm Hnm] Hnd.
  assert (Hhash : root_hash sh = bfd_hash_hash n).
  { apply find_some in Hfind as [_ Hm]. unfold entry_matches in Hm.
    apply andb_prop in Hm as [Hm _]. apply Z.eqb_eq in Hm. exact Hm. }
  split.
  { unfold bfd_get_section_by_name, section_hash_lookup, bfd_hash_lookup.
    rewrite Hfind. reflexivity. }
  unfold bfd_make_section_anyway_with_flags. rewrite Hout.
  unfold section_hash_lookup at 1. unfold bfd_hash_lookup at 1. rewrite Hfind, Hnm.
  set (new_sh := {| addr := allocated (section_htab abfd); root_string := root_string sh;
                    root_hash := root_hash sh; section := zero_section |}).
  set (htab := {| table := alter (insert_after (addr sh) new_sh)
                             (bucket (section_htab abfd) (root_hash sh))
                             (table (section_htab abfd));
                  tsize := tsize (section_htab abfd);
                  count := count (section_htab abfd);
                  allocated := S (allocated (section_htab abfd)) |}).
  assert (Hchain : chain htab (bfd_hash_hash n)
                   = insert_after (addr sh) new_sh (chain (section_htab abfd) (bfd_hash_hash n))).
  { unfold chain, htab, bucket. cbn [table tsize]. rewrite Hhash, lookup_alter_eq.
    destruct (table (section_htab abfd) !! (bfd_hash_hash n mod tsize (section_htab abfd)));
      reflexivity. }
  assert (Hlookup : forall (f g : asection -> asection) (a : nat),
            addr <$> (bfd_hash_lookup bfd_hash_hash
                        (update_section a g (update_section a f htab)) n false).1
            = Some (addr sh)).
  { intros f g a. unfold bfd_hash_lookup.
    pose proof (find_rewritten (bfd_hash_hash n) n a g
                  (chain (update_section a f htab) (bfd_hash_hash n))) as H1.
    rewrite <- chain_update_section in H1.
    pose proof (find_rewritten (bfd_hash_hash n) n a f (chain htab (bfd_hash_hash n))) as H2.
    rewrite <- chain_update_section in H2.
    rewrite Hchain, (find_insert_after _ _ _ _ _ Hfind Hnd) in H2.
    rewrite H2 in H1.
    destruct (List.find _ (chain (update_section a g (update_section a f htab)) _));
      [exact H1 | discriminate]. }
  unfold bfd_section_init. cbn [with_htab section_htab section_count].
  unfold bfd_get_section_by_name, section_hash_lookup.
  destruct (section_at _ _) as [s |]; [destruct (negb (new_section_hook _ s)) |];
    cbn [fst snd section_htab]; apply Hlookup.
Qed.

End DuplicateNames.

(** What the loop of [bfd_get_unique_section_name] returns from [num]. *)
Lemma unique_name_loop_spec (bfd_hash_hash : string -> Z) (abfd : BFD.bfd)
    (templat : string) (num : Z) :
  match Sec.unique_name_loop bfd_hash_hash abfd templat num with
  | Sec.Aborts =>
      -100000 < num /\
      forall n, num <= n <= 999999 -> Sec.suffix_in_use bfd_hash_hash abfd templat n
  | Sec.Overruns => num <= -100000
  | Sec.UniqueName sname num' =>
      -100000 < num /\
      exists n, num <= n <= 999999 /\
        sname = Sec.suffixed templat n /\
        ~ Sec.suffix_in_use bfd_hash_hash abfd templat n /\
        (forall m, num <= m < n -> Sec.suffix_in_use bfd_hash_hash abfd templat m) /\
        num' = n + 1
  end.
Proof.
  funelim (Sec.unique_name_loop bfd_hash_hash abfd templat num).
  - split; [lia |]. intros n Hn. lia.
  - unfold Sec.suffix_fits. destruct (Z.ltb_spec (-100000) num) as [Hfit | Hover];
      cbn [negb]; [| exact Hover].
    destruct (fst (Sec.section_hash_lookup bfd_hash_hash (BFD.section_htab abfd)
                     (Sec.suffixed templat num) false)) as [e |] eqn:E.
    + match goal with IH : BFD.section_hash_entry -> _ |- _ => rename IH into H end.
      specialize (H e).
      destruct (Sec.unique_name_loop bfd_hash_hash abfd templat (num + 1))
        as [| | sname num'].
      * destruct H as [_ H]. split; [exact Hfit |].
        intros m Hm. destruct (Z.eq_dec m num) as [-> | Hne].
        -- unfold Sec.suffix_in_use. rewrite E. eauto.
        -- apply H. lia.
      * lia.
      * destruct H as (_ & k & Hk & Hs & Hfree & Hbelow & Hnum).
        split; [exact Hfit |].
        exists k. repeat split; try lia; try assumption.
        intros m Hm. destruct (Z.eq_dec m num) as [-> | Hne].
        -- unfold Sec.suffix_in_use. rewrite E. eauto.
        -- apply Hbelow. lia.
    + split; [exact Hfit |]. exists num. repeat split; try lia.
      * unfold Sec.suffix_in_use. rewrite E. intros [x Hx]. discriminate.
Qed.

(** C8. [bfd_get_unique_section_name] is a total function: its loop is
    defined by recursion on the distance from the suffix to 1000000. For
    a starting number above -100000 it either returns the template, a
    dot and the decimal text of the smallest number, from the starting
    number on, whose name the lookup in the owner's table does not find,
    and leaves the next number in [*count]; or, when every such name from
    the starting number to 999999 is in use (or the starting number is
    beyond 999999), it aborts. For a starting number of -100000 or less
    the first [sprintf] writes past the [len + 8] bytes of the name. *)
Theorem unique_section_name_smallest_unused (bfd_hash_hash : string -> Z)
    (abfd : BFD.bfd) (templat : string) (count : option Z) :
  let start := match count with Some c => c | None => 1 end in
  let name_of (n : Z) := (templat ++ "." ++ NilZero.string_of_int (Z.to_int n))%string in
  let found (sname : string) :=
    fst (Sec.section_hash_lookup bfd_hash_hash (BFD.section_htab abfd) sname false) in
  match Sec.bfd_get_unique_section_name bfd_hash_hash abfd templat count with
  | Sec.Aborted =>
      -100000 < start /\
      forall n, start <= n <= 999999 -> is_Some (found (name_of n))
  | Sec.Overrun => start <= -100000
  | Sec.Named sname count' =>
      -100000 < start /\
      exists n, start <= n <= 999999 /\
        sname = name_of n /\
        found sname = None /\
        (forall m, start <= m < n -> is_Some (found (name_of m))) /\
        count' = match count with Some _ => Some (n + 1) | None => None end
  end.
Proof.
  intros start name_of found. unfold Sec.bfd_get_unique_section_name. fold start.
  pose proof (unique_name_loop_spec bfd_hash_hash abfd templat start) as H.
  destruct (Sec.unique_name_loop bfd_hash_hash abfd templat start) as [| | sname num'].
  - exact H.
  - exact H.
  - destruct H as (Hfit & n & Hn & Hs & Hfree & Hbelow & ->).
    split; [exact Hfit |].
    exists n. split; [exact Hn |]. split; [exact Hs |]. split.
    + subst sname. change (found (name_of n) = None).
      destruct (found (name_of n)) as [e |] eqn:E; [| reflexivity].
      exfalso. apply Hfree. change (is_Some (found (name_of n))). rewrite E. eauto.
    + split; [exact Hbelow | reflexivity].
Qed.

(** C8, as stated, at the starting counter -100000: no name is
    returned, the first [sprintf] writes past the end of the buffer. *)
Lemma unique_section_name_overruns_buffer :
  Sec.bfd_get_unique_section_name Sample.hash0 (Sample.empty_bfd 1) "sec" (Some (-100000))
  = Sec.Overrun.
Proof.
  unfold Sec.bfd_get_unique_section_name.
  pose proof (unique_name_loop_spec Sample.hash0 (Sample.empty_bfd 1) "sec" (-100000)) as H.
  destruct (Sec.unique_name_loop Sample.hash0 (Sample.empty_bfd 1) "sec" (-100000))
    as [| | sname num']; [lia | reflexivity | lia].
Qed.

(** The text that the [sprintf] builds behind the template, and the
    lengths of "%d" at the ends of the range that fits the buffer. *)
Example unique_section_name_sample :
  Sec.suffixed "sec" 2 = "sec.2" /\ Sec.suffixed "sec" (-5) = "sec.-5" /\
  String.length (NilZero.string_of_int (Z.to_int 999999)) = 6%nat /\
  String.length (NilZero.string_of_int (Z.to_int (-99999))) = 6%nat /\
  String.length (NilZero.string_of_int (Z.to_int (-100000))) = 7%nat.
Proof. repeat split; reflexivity. Qed.

(* ===================================================================== *)
(** ** Memory *)
(* ===================================================================== *)

Section Memory.

Import Mem.

Implicit Types (h : gmap nat (list Z)) (p : ptr) (b : nat).

Lemma in_bounds_true (bl : list Z) (o n : Z) :
  in_bounds bl o n = true <-> 0 <= o /\ 0 <= n /\ o + n <= Z.of_nat (length bl).
Proof.
  unfold in_bounds. rewrite !andb_true_iff, !Z.leb_le. tauto.
Qed.

Lemma load_length h p n l : load h p n = Some l -> 0 <= n /\ length l = Z.to_nat n.
Proof.
  unfold load. destruct (h !! block p) as [bl |]; [| discriminate].
  destruct (in_bounds bl (ofs p) n) eqn:E; [| discriminate].
  intros [= <-]. apply in_bounds_true in E.
  split; [lia |]. rewrite length_take, length_drop. lia.
Qed.

Lemma load_live h p n l : load h p n = Some l -> is_Some (h !! block p).
Proof. unfold load. destruct (h !! block p); [eauto | discriminate]. Qed.

(** A store of as many bytes as a load could read succeeds. *)
Lemma store_after_load h p n old bytes :
  load h p n = Some old -> length bytes = Z.to_nat n ->
  exists h', store h p bytes = Some h'.
Proof.
  unfold load, store. destruct (h !! block p) as [bl |]; [| discriminate].
  destruct (in_bounds bl (ofs p) n) eqn:E; [| discriminate].
  intros _ Hlen. apply in_bounds_true in E.
  assert (in_bounds bl (ofs p) (Z.of_nat (length bytes)) = true) as E'
    by (apply in_bounds_true; lia).
  rewrite E'. eauto.
Qed.

(** What has been stored is what a load of the same range reads. *)
Lemma load_store h p bytes h' :
  store h p bytes = Some h' -> load h' p (Z.of_nat (length bytes)) = Some bytes.
Proof.
  unfold store, load. destruct (h !! block p) as [bl |]; [| discriminate].
  destruct (in_bounds bl (ofs p) (Z.of_nat (length bytes))) eqn:E; [| discriminate].
  intros [= <-]. rewrite lookup_insert_eq. apply in_bounds_true in E.
  set (o := Z.to_nat (ofs p)).
  assert (length (take o bl) = o) as Ho by (rewrite length_take; lia).
  assert (in_bounds (take o bl ++ bytes ++ drop (o + length bytes) bl) (ofs p)
            (Z.of_nat (length bytes)) = true) as E'.
  { apply in_bounds_true. rewrite !length_app, Ho, length_drop. lia. }
  rewrite E'. f_equal. rewrite drop_app_length' by (symmetry; exact Ho).
  rewrite Nat2Z.id. apply take_app_length.
Qed.

(** A store leaves the other blocks as they are. *)
Lemma store_other h p bytes h' b :
  store h p bytes = Some h' -> b <> block p -> h' !! b = h !! b.
Proof.
  unfold store. destruct (h !! block p) as [bl |]; [| discriminate].
  destruct (in_bounds bl (ofs p) (Z.of_nat (length bytes))); [| discriminate].
  intros [= <-] Hne. apply lookup_insert_ne. congruence.
Qed.

Lemma load_other h h' p n :
  h' !! block p = h !! block p -> load h' p n = load h p n.
Proof. unfold load. intros ->. reflexivity. Qed.

Lemma malloc_spec h init :
  h !! (malloc h init).1 = None /\ (malloc h init).2 = <[(malloc h init).1 := init]> h.
Proof.
  unfold malloc. cbn. split; [| reflexivity].
  apply not_elem_of_dom, is_fresh.
Qed.

(** The whole of a block, read from its start. *)
Lemma load_block h b bytes n :
  h !! b = Some bytes -> n = Z.of_nat (length bytes) ->
  load h {| block := b; ofs := 0 |} n = Some bytes.
Proof.
  intros Hb ->. unfold load. cbn [block ofs]. rewrite Hb.
  assert (in_bounds bytes 0 (Z.of_nat (length bytes)) = true) as E
    by (apply in_bounds_true; lia).
  rewrite E, Nat2Z.id. change (Z.to_nat 0) with 0%nat.
  rewrite drop_0, firstn_all. reflexivity.
Qed.

(** The whole of a block, overwritten from its start. *)
Lemma store_block h b old bytes :
  h !! b = Some old -> length bytes = length old ->
  store h {| block := b; ofs := 0 |} bytes = Some (<[b := bytes]> h).
Proof.
  intros Hb Hlen. unfold store. cbn [block ofs]. rewrite Hb.
  assert (in_bounds old 0 (Z.of_nat (length bytes)) = true) as E
    by (apply in_bounds_true; lia).
  rewrite E. change (Z.to_nat 0) with 0%nat.
  do 2 f_equal. rewrite take_0, Nat.add_0_l, Hlen, drop_all, app_nil_r. reflexivity.
Qed.

Lemma load_zeros h p n h' :
  0 <= n -> memset0 h p n = Some h' -> load h' p n = Some (repeat 0 (Z.to_nat n)).
Proof.
  intros Hn H. unfold memset0 in H. apply load_store in H.
  rewrite repeat_length, Z2Nat.id in H by lia. exact H.
Qed.

End Memory.

(* ===================================================================== *)
(** ** Section contents *)
(* ===================================================================== *)

Section BridgeProperties.

Import BFD IO.

Variable v : AES.variant.
Variable BFD_ENCRYPTED : Z.
Variable backend_set_section_contents : bfd -> asection -> list Z -> Z -> Z -> bool.
Variable backend_get_section_contents :
  bfd -> asection -> list Z -> Z -> Z -> bool * list Z.
Variable junk_ctx : AES.AES_ctx.
Variable junk_buffer : list Z.
Variable junk_heap : list Z.

Local Abbreviation set_contents :=
  (bfd_set_section_contents v BFD_ENCRYPTED backend_set_section_contents
     junk_ctx junk_buffer junk_heap).
Local Abbreviation get_contents :=
  (bfd_get_section_contents v BFD_ENCRYPTED backend_get_section_contents
     junk_ctx junk_buffer junk_heap).

Lemma to_size_t_small (x : Z) : 0 <= x < 2 ^ 64 -> to_size_t x = x.
Proof. intros H. unfold to_size_t, size_t_bits. apply Z.mod_small. exact H. Qed.

Lemma to_bfd_size_type_small (x : Z) : 0 <= x < 2 ^ 64 -> to_bfd_size_type x = x.
Proof. intros H. unfold to_bfd_size_type, bfd_size_type_bits. apply Z.mod_small. exact H. Qed.

Lemma to_bfd_size_type_negative (x : Z) :
  - 2 ^ 63 <= x < 0 -> to_bfd_size_type x = x + 2 ^ 64.
Proof.
  intros H. unfold to_bfd_size_type, bfd_size_type_bits.
  symmetry. apply (Z.mod_unique x (2 ^ 64) (-1) (x + 2 ^ 64)); lia.
Qed.

(** The size test, for a range whose end fits the 64 bits of
    [bfd_size_type]: it rejects what ends beyond the size. *)
Lemma out_of_range_beyond (offset count sz : Z) :
  - 2 ^ 63 <= offset < 2 ^ 63 -> 0 <= count < 2 ^ 64 -> 0 <= sz < 2 ^ 64 ->
  offset + count < 2 ^ 64 ->
  (offset + count > sz \/ count <> to_size_t count) ->
  out_of_range offset count sz = true.
Proof.
  intros Ho Hc Hz Hs Hout. unfold out_of_range.
  rewrite !orb_true_iff, negb_true_iff, Z.eqb_neq, !Z.gtb_gt.
  destruct Hout as [Hout | Hout]; [| tauto].
  destruct (Z_lt_dec offset 0) as [Hneg | Hpos].
  - rewrite (to_bfd_size_type_negative offset) by lia.
    destruct (Z_gt_dec (offset + 2 ^ 64) sz); [tauto |].
    destruct (Z_gt_dec count sz); [tauto |].
    left. right.
    replace (offset + 2 ^ 64 + count) with (offset + count + 1 * 2 ^ 64) by lia.
    unfold to_bfd_size_type, bfd_size_type_bits.
    rewrite Z.mod_add, Z.mod_small by lia. lia.
  - rewrite (to_bfd_size_type_small offset) by lia.
    rewrite (to_bfd_size_type_small (offset + count)) by lia. lia.
Qed.

(** And it lets through what lies within the size. *)
Lemma out_of_range_within (offset count sz : Z) :
  0 <= offset -> 0 <= count -> offset + count <= sz -> sz < 2 ^ 64 ->
  out_of_range offset count sz = false.
Proof.
  intros Ho Hc Hs Hz. unfold out_of_range.
  rewrite (to_bfd_size_type_small offset) by lia.
  rewrite (to_bfd_size_type_small (offset + count)) by lia.
  rewrite (to_size_t_small count) by lia.
  rewrite Z.eqb_refl. cbn [negb]. rewrite !orb_false_r, !orb_false_iff.
  repeat split; rewrite Z.gtb_ltb; apply Z.ltb_ge; lia.
Qed.

Lemma app_events (w : world) (evs : list event) (h : gmap nat (list Z)) :
  trace (log evs (with_heap h w)) = trace w ++ evs /\
  bfd_error (log evs (with_heap h w)) = bfd_error w.
Proof. split; reflexivity. Qed.

(** C6, as amended: on a section that has the contents flag, a write
    whose range ends beyond the declared size of the section, or whose
    count does not fit [size_t], returns false with [bfd_error_bad_value]
    and changes nothing else; a write within the size, on an owner opened
    for writing, is not rejected: it goes to the writer of the owner's
    format. Offset, count and size are in the ranges of their types, and
    the end of the range is within the 64 bits of [bfd_size_type]. *)
Theorem write_bounds_check (info : Comp.EncryptInfoT) (w : world) (abfd : bfd)
    (section : asection) (location : Mem.ptr) (offset count : Z) :
  has_flag (flags section) SEC_HAS_CONTENTS = true ->
  - 2 ^ 63 <= offset < 2 ^ 63 -> 0 <= count < 2 ^ 64 -> 0 <= size section < 2 ^ 64 ->
  offset + count < 2 ^ 64 ->
  ((offset + count > size section \/ count <> to_size_t count) ->
   set_contents info w abfd section location offset count
   = Some (false, abfd, bfd_set_error bfd_error_bad_value w))
  /\
  (0 <= offset -> offset + count <= size section -> bfd_write_p abfd = true ->
   forall r, set_contents info w abfd section location offset count = Some r ->
             reached_writer w offset count r).
Proof.
  intros Hc Ho Hn Hz Hs. unfold bfd_set_section_contents. rewrite Hc. cbn [negb].
  split.
  - intros Hout. rewrite (out_of_range_beyond _ _ _ Ho Hn Hz Hs Hout). reflexivity.
  - intros Hpos Hin Hw r.
    rewrite (out_of_range_within offset count (size section)) by lia.
    rewrite Hw. cbn [negb].
    destruct (record_copy (heap w) section location offset count) as [h |];
      [| discriminate].
    destruct (component_of BFD_ENCRYPTED info abfd section) as [i |].
    + destruct (Comp.Components info !! i) as [comp |]; [| discriminate].
      destruct (Mem.malloc h (uninitialised junk_heap count)) as [b h1].
      destruct (Mem.memcpy h1 _ location (to_size_t count)) as [h2 |]; [| discriminate].
      destruct (Mem.load h2 _ count) as [plain |]; [| discriminate].
      destruct (Comp.EncryptObjSection v junk_ctx junk_buffer comp plain _)
        as [cipher |]; [| discriminate].
      destruct (Mem.store h2 _ cipher) as [h3 |]; [| discriminate].
      destruct (backend_set_section_contents abfd section cipher offset count);
        intros [= <-]; (split; [reflexivity |]);
        exists {| Mem.block := b; Mem.ofs := 0 |}, cipher, [EvMalloc b count], [EvFree b];
        reflexivity.
    + destruct (Mem.load h location count) as [bytes |]; [| discriminate].
      destruct (backend_set_section_contents abfd section bytes offset count);
        intros [= <-]; (split; [reflexivity |]);
        exists location, bytes, [], []; reflexivity.
Qed.

(** C10. With [SEC_CONSTRUCTOR] set, a read zero-fills [count] bytes of
    the destination and returns true, whatever the offset, the size and
    the raw size of the section: no bounds are tested, no error is set
    and the reader of the owner's format is not called. *)
Theorem constructor_read_bypasses_bounds (info : Comp.EncryptInfoT) (w : world)
    (abfd : bfd) (section : asection) (location : Mem.ptr) (offset count : Z)
    (h' : gmap nat (list Z)) :
  has_flag (flags section) SEC_CONSTRUCTOR = true ->
  0 <= count < 2 ^ 64 ->
  Mem.memset0 (heap w) location count = Some h' ->
  get_contents info w abfd section location offset count
  = Some (true, section, with_heap h' w)
  /\ Mem.load h' location count = Some (repeat 0 (Z.to_nat count))
  /\ trace (with_heap h' w) = trace w
  /\ bfd_error (with_heap h' w) = bfd_error w.
Proof.
  intros Hc Hn Hz. unfold bfd_get_section_contents. rewrite Hc.
  rewrite (to_size_t_small count Hn), Hz.
  repeat split. apply (load_zeros (heap w)); [lia | exact Hz].
Qed.

Lemma length_uninitialised (n : Z) : length (uninitialised junk_heap n) = Z.to_nat n.
Proof. unfold uninitialised, Comp.copy_bytes. rewrite length_map, length_seq. reflexivity. Qed.

Lemma length_read_into (old new : list Z) : length (read_into old new) = length old.
Proof. unfold read_into. rewrite length_take, length_app, length_drop. lia. Qed.

Lemma length_ctr_stream (rk iv0 : list Z) (buf : list Z) :
  forall j : nat, length (AES.ctr_stream v rk iv0 j buf) = length buf.
Proof.
  induction buf as [| b buf IH]; intros j; [reflexivity |].
  cbn [AES.ctr_stream length]. rewrite IH. reflexivity.
Qed.

(** Side conditions of the accesses to a whole block. *)
Ltac block_side :=
  first [ rewrite lookup_insert_eq; reflexivity
        | rewrite ?length_read_into, ?length_uninitialised; (lia || congruence) ].

(** With a key, an IV and a nonce, [EncryptObjSection] is defined and
    gives as many bytes as it was given. *)
Lemma EncryptObjSection_defined (comp : Comp.CryptedComponentT) (key iv nonce buf : list Z)
    (Pos : Z) :
  Comp.Key comp = Some key -> Comp.Iv comp = Some iv -> Comp.Nonce comp = Some nonce ->
  0 <= Pos < 2 ^ unsigned_int_bits ->
  exists out,
    Comp.EncryptObjSection v junk_ctx junk_buffer comp buf Pos = Some out /\
    length out = length buf.
Proof.
  intros Hk Hi Hn HPos. unfold Comp.EncryptObjSection. rewrite Hk, Hi, Hn.
  eexists. split; [reflexivity |].
  set (ctx := AES.AES_ctx_set_iv (AES.AES_init_ctx v junk_ctx key) iv nonce).
  rewrite <- (Z2Nat.id Pos) by lia.
  rewrite (xcrypt_buffer_From_stream v (AES.RoundKey ctx) (AES.Iv ctx))
    by (reflexivity || lia).
  apply length_ctr_stream.
Qed.

Lemma to_unsigned_int_range (x : Z) : 0 <= to_unsigned_int x < 2 ^ unsigned_int_bits.
Proof. unfold to_unsigned_int. apply Z.mod_pos_bound. unfold unsigned_int_bits. lia. Qed.

(** The cache copy leaves every block but the cache's as it is. *)
Lemma record_copy_other (h h1 : gmap nat (list Z)) (section : asection)
    (location : Mem.ptr) (offset count : Z) (b : nat) :
  record_copy h section location offset count = Some h1 ->
  (forall c, contents section = Some c -> b <> Mem.block c) ->
  h1 !! b = h !! b.
Proof.
  unfold record_copy. intros H Hb.
  destruct (contents section) as [c |]; [| injection H as <-; reflexivity].
  destruct (decide (location <> Mem.ptr_add c offset)); [| injection H as <-; reflexivity].
  unfold Mem.memcpy in H.
  destruct (Mem.load h location (to_size_t count)) as [bytes |]; [| discriminate].
  apply (store_other _ _ _ _ b) in H; [exact H |].
  cbn. apply Hb. reflexivity.
Qed.

(** X26. A write to a code section of a registered encrypted component,
    past the tests on the flags, the range and the direction: the cipher
    runs on a block [b] that was not live before the call and holds a copy
    of the [count] bytes of the caller's buffer, with [Len] the count and
    [Pos] the offset modulo 2^32 ([Pos] is an [unsigned int]); the writer
    of the owner's format gets that block, not the caller's buffer; the
    block is freed; and the heap after the call is the heap after the
    cache copy: apart from the section's own cache, every block, the
    caller's buffer among them, holds what it held. *)
Theorem encrypted_write_leaves_caller_buffer (info : Comp.EncryptInfoT) (w : world)
    (abfd : bfd) (section : asection) (location : Mem.ptr) (offset count : Z)
    (i : nat) (comp : Comp.CryptedComponentT) (key iv nonce data : list Z)
    (h1 : gmap nat (list Z)) :
  has_flag (flags section) SEC_HAS_CONTENTS = true ->
  0 <= count < 2 ^ 64 ->
  out_of_range offset count (size section) = false ->
  bfd_write_p abfd = true ->
  component_of BFD_ENCRYPTED info abfd section = Some i ->
  Comp.Components info !! i = Some comp ->
  Comp.Key comp = Some key -> Comp.Iv comp = Some iv -> Comp.Nonce comp = Some nonce ->
  record_copy (heap w) section location offset count = Some h1 ->
  Mem.load h1 location count = Some data ->
  exists (b : nat) (cipher : list Z),
    let CopyIn := {| Mem.block := b; Mem.ofs := 0 |} in
    let sent := backend_set_section_contents abfd section cipher offset count in
    h1 !! b = None /\ Mem.block location <> b /\
    Comp.EncryptObjSection v junk_ctx junk_buffer comp data (to_unsigned_int offset)
    = Some cipher /\
    length cipher = Z.to_nat count /\
    set_contents info w abfd section location offset count
    = Some (sent, (if sent then begin_output abfd else abfd),
            log [EvMalloc b count; EvSetSectionContents CopyIn cipher offset count;
                 EvFree b] (with_heap h1 w)) /\
    Mem.load h1 location count = Some data /\
    (forall b', (forall c, contents section = Some c -> b' <> Mem.block c) ->
                h1 !! b' = heap w !! b').
Proof.
  intros Hc Hn Hr Hw Hcomp Hi Hk Hiv Hno Hcopy Hload.
  unfold bfd_set_section_contents.
  rewrite Hc, Hr, Hw, Hcopy, Hcomp, Hi. cbn [negb].
  destruct (malloc_spec h1 (uninitialised junk_heap count)) as [Hfresh Hh].
  destruct (Mem.malloc h1 (uninitialised junk_heap count)) as [b h2]. cbn [fst snd] in *.
  subst h2.
  assert (Hne : Mem.block location <> b).
  { intros E. destruct (load_live _ _ _ _ Hload) as [x Hx]. rewrite E in Hx. congruence. }
  destruct (load_length _ _ _ _ Hload) as [_ Hlen].
  set (CopyIn := {| Mem.block := b; Mem.ofs := 0 |}).
  (* memcpy (CopyIn, location, count) *)
  unfold Mem.memcpy. rewrite (to_size_t_small count Hn).
  rewrite (load_other h1) by (apply lookup_insert_ne; congruence).
  rewrite Hload.
  rewrite (store_block _ b (uninitialised junk_heap count)) by block_side.
  rewrite insert_insert_eq.
  rewrite (load_block _ b data) by block_side.
  (* the cipher *)
  destruct (EncryptObjSection_defined comp key iv nonce data (to_unsigned_int offset)
              Hk Hiv Hno (to_unsigned_int_range offset)) as (cipher & Henc & Hclen).
  rewrite Henc.
  rewrite (store_block _ b data) by block_side.
  rewrite insert_insert_eq.
  unfold Mem.free. rewrite delete_insert_id by exact Hfresh.
  exists b, cipher. cbn zeta. fold CopyIn.
  repeat split; try assumption; try congruence.
  - destruct (backend_set_section_contents abfd section cipher offset count); reflexivity.
  - intros b' Hb'. apply (record_copy_other _ _ _ _ _ _ _ Hcopy Hb').
Qed.

(** C9. A read of a section of a registered encrypted component, with
    contents and without the in-memory flag, past the tests on the range:
    whatever the reader of the owner's format answers and leaves in the
    scratch block, which [malloc] does not initialise, its contents are run
    through the cipher and [count] bytes of the result are written to the
    destination, and the answer of the reader is returned. So when the
    reader fails and has written nothing, the destination holds the
    transform of uninitialised bytes. *)
Theorem encrypted_read_overwrites_destination (info : Comp.EncryptInfoT) (w : world)
    (abfd : bfd) (section : asection) (location : Mem.ptr) (offset count : Z)
    (i : nat) (comp : Comp.CryptedComponentT) (key iv nonce old : list Z) :
  has_flag (flags section) SEC_CONSTRUCTOR = false ->
  has_flag (flags section) SEC_HAS_CONTENTS = true ->
  has_flag (flags section) SEC_IN_MEMORY = false ->
  0 < count < 2 ^ 64 ->
  out_of_range offset count (read_size abfd section) = false ->
  component_of BFD_ENCRYPTED info abfd section = Some i ->
  Comp.Components info !! i = Some comp ->
  Comp.Key comp = Some key -> Comp.Iv comp = Some iv -> Comp.Nonce comp = Some nonce ->
  Mem.load (heap w) location count = Some old ->
  let scratch := uninitialised junk_heap count in
  let answer := backend_get_section_contents abfd section scratch offset count in
  exists (plain : list Z) (w' : world),
    Comp.EncryptObjSection v junk_ctx junk_buffer comp (read_into scratch answer.2)
      (to_unsigned_int offset) = Some plain /\
    get_contents info w abfd section location offset count
    = Some (answer.1, section, w') /\
    Mem.load (heap w') location count = Some plain /\
    (forall b', b' <> Mem.block location -> heap w' !! b' = heap w !! b') /\
    bfd_error w' = bfd_error w.
Proof.
  intros Hcons Hc Hmem Hn Hr Hcomp Hi Hk Hiv Hno Hload scratch answer.
  unfold bfd_get_section_contents.
  rewrite Hcons, Hr, Hc, Hmem, Hcomp, Hi. cbn [negb].
  assert ((count =? 0) = false) as E0 by (apply Z.eqb_neq; lia). rewrite E0.
  destruct (malloc_spec (heap w) scratch) as [Hfresh Hh].
  fold scratch.
  destruct (Mem.malloc (heap w) scratch) as [b h1]. cbn [fst snd] in *. subst h1.
  assert (Hne : Mem.block location <> b).
  { intros E. destruct (load_live _ _ _ _ Hload) as [x Hx]. rewrite E in Hx. congruence. }
  assert (Hslen : length scratch = Z.to_nat count) by apply length_uninitialised.
  rewrite (load_block _ b scratch) by block_side.
  fold answer. destruct answer as [Status got] eqn:Ea. cbn [fst snd].
  rewrite (store_block _ b scratch) by block_side.
  rewrite insert_insert_eq.
  destruct (EncryptObjSection_defined comp key iv nonce (read_into scratch got)
              (to_unsigned_int offset) Hk Hiv Hno (to_unsigned_int_range offset))
    as (plain & Henc & Hplen).
  rewrite Henc. rewrite length_read_into in Hplen.
  rewrite (store_block _ b (read_into scratch got)) by block_side.
  rewrite insert_insert_eq.
  unfold Mem.memcpy. rewrite (to_size_t_small count) by lia.
  rewrite (load_block _ b plain) by block_side.
  assert (Hl3 : Mem.load (<[b := plain]> (heap w)) location count = Some old).
  { rewrite (load_other (heap w)); [exact Hload |]. apply lookup_insert_ne. congruence. }
  destruct (store_after_load _ _ _ _ plain Hl3 ltac:(lia)) as [h4 Hst].
  rewrite Hst.
  exists plain. eexists. split; [reflexivity |]. split; [reflexivity |].
  cbn [heap log with_heap]. unfold Mem.free.
  split; [| split; [| reflexivity]].
  - rewrite (load_other h4) by (apply lookup_delete_ne; congruence).
    apply load_store in Hst. rewrite Hplen, Hslen, Z2Nat.id in Hst by lia. exact Hst.
  - intros b' Hb'. destruct (decide (b' = b)) as [-> | Hbb].
    + rewrite lookup_delete_eq. congruence.
    + rewrite lookup_delete_ne by congruence.
      rewrite (store_other _ _ _ _ b' Hst) by exact Hb'.
      apply lookup_insert_ne. congruence.
Qed.

End BridgeProperties.

(** C6, as stated, at a section of 100 bytes that lacks the contents
    flag: the write of 20 bytes at offset 90 ends beyond the size, and the
    call fails with [bfd_error_no_contents], not with
    [bfd_error_bad_value]. *)
Lemma write_beyond_size_without_contents :
  90 + 20 > BFD.size (Sample.section_of_100 0) /\
  IO.bfd_set_section_contents AES.AES128 0x80000 Sample.writer_ok Sample.no_ctx [] []
    Sample.no_info Sample.caller_world (Sample.empty_bfd 1) (Sample.section_of_100 0)
    Sample.caller_buffer 90 20
  = Some (false, Sample.empty_bfd 1,
          BFD.bfd_set_error BFD.bfd_error_no_contents Sample.caller_world) /\
  BFD.bfd_error_no_contents <> BFD.bfd_error_bad_value.
Proof. split; [cbn; lia | split; [reflexivity | discriminate]]. Qed.

Lemma write_bounds_check_witness :
  IO.bfd_set_section_contents AES.AES128 0x80000 Sample.writer_ok Sample.no_ctx [] []
    Sample.no_info Sample.caller_world (Sample.empty_bfd 1)
    (Sample.section_of_100 BFD.SEC_HAS_CONTENTS) Sample.caller_buffer 90 20
  = Some (false, Sample.empty_bfd 1,
          BFD.bfd_set_error BFD.bfd_error_bad_value Sample.caller_world)
  /\
  (forall r,
     IO.bfd_set_section_contents AES.AES128 0x80000 Sample.writer_ok Sample.no_ctx [] []
       Sample.no_info Sample.caller_world (Sample.empty_bfd 1)
       (Sample.section_of_100 BFD.SEC_HAS_CONTENTS) Sample.caller_buffer 90 10 = Some r ->
     IO.reached_writer Sample.caller_world 90 10 r).
Proof.
  split.
  - apply (write_bounds_check AES.AES128 0x80000 Sample.writer_ok Sample.no_ctx [] []
             Sample.no_info Sample.caller_world (Sample.empty_bfd 1)
             (Sample.section_of_100 BFD.SEC_HAS_CONTENTS) Sample.caller_buffer 90 20);
      [reflexivity | lia | lia | simpl; lia | lia |].
    left. simpl. lia.
  - apply (write_bounds_check AES.AES128 0x80000 Sample.writer_ok Sample.no_ctx [] []
             Sample.no_info Sample.caller_world (Sample.empty_bfd 1)
             (Sample.section_of_100 BFD.SEC_HAS_CONTENTS) Sample.caller_buffer 90 10);
      [reflexivity | lia | lia | simpl; lia | lia | lia | simpl; lia | reflexivity].
Defined.

(** The write of 10 bytes at offset 90 of the section of 100 bytes: the
    writer gets the caller's bytes and output has begun. *)
Example write_within_size :
  IO.bfd_set_section_contents AES.AES128 0x80000 Sample.writer_ok Sample.no_ctx [] []
    Sample.no_info Sample.caller_world (Sample.empty_bfd 1)
    (Sample.section_of_100 BFD.SEC_HAS_CONTENTS) Sample.caller_buffer 90 10
  = Some (true, BFD.begin_output (Sample.empty_bfd 1),
          BFD.log [BFD.EvSetSectionContents Sample.caller_buffer
                     (map Z.of_nat (seq 1 10)) 90 10] Sample.caller_world).
Proof. vm_compute. reflexivity. Qed.

Lemma constructor_read_bypasses_bounds_witness :
  let section := Sample.section_of_100 BFD.SEC_CONSTRUCTOR in
  let h' : gmap nat (list Z) := {[ 0%nat := repeat 0 20 ]} in
  1000 + 20 > BFD.size section /\
  IO.bfd_get_section_contents AES.AES128 0x80000 Sample.reader_fails Sample.no_ctx [] []
    Sample.no_info Sample.caller_world (Sample.empty_bfd 1) section
    Sample.caller_buffer 1000 20
  = Some (true, section, BFD.with_heap h' Sample.caller_world)
  /\ Mem.load h' Sample.caller_buffer 20 = Some (repeat 0 (Z.to_nat 20))
  /\ BFD.trace (BFD.with_heap h' Sample.caller_world) = BFD.trace Sample.caller_world
  /\ BFD.bfd_error (BFD.with_heap h' Sample.caller_world)
     = BFD.bfd_error Sample.caller_world.
Proof.
  intros section h'. split; [simpl; lia |].
  apply (constructor_read_bypasses_bounds AES.AES128 0x80000 Sample.reader_fails
           Sample.no_ctx [] [] Sample.no_info Sample.caller_world (Sample.empty_bfd 1)
           section Sample.caller_buffer 1000 20 h').
  - reflexivity.
  - lia.
  - vm_compute. reflexivity.
Defined.

Lemma encrypted_write_leaves_caller_buffer_witness :
  let w := Sample.caller_world in
  let abfd := Sample.encrypted_bfd BFD.write_direction in
  let data := map Z.of_nat (seq 1 10) in
  exists (b : nat) (cipher : list Z),
    let CopyIn := {| Mem.block := b; Mem.ofs := 0 |} in
    let sent := Sample.writer_ok abfd Sample.code_section cipher 90 10 in
    BFD.heap w !! b = None /\ Mem.block Sample.caller_buffer <> b /\
    Comp.EncryptObjSection AES.AES128 Sample.no_ctx [] Sample.keyed data
      (to_unsigned_int 90) = Some cipher /\
    length cipher = Z.to_nat 10 /\
    IO.bfd_set_section_contents AES.AES128 0x80000 Sample.writer_ok Sample.no_ctx [] []
      (Sample.registry [Sample.keyed]) w abfd Sample.code_section
      Sample.caller_buffer 90 10
    = Some (sent, (if sent then BFD.begin_output abfd else abfd),
            BFD.log [BFD.EvMalloc b 10; BFD.EvSetSectionContents CopyIn cipher 90 10;
                     BFD.EvFree b] (BFD.with_heap (BFD.heap w) w)) /\
    Mem.load (BFD.heap w) Sample.caller_buffer 10 = Some data /\
    (forall b', (forall c, BFD.contents Sample.code_section = Some c -> b' <> Mem.block c) ->
                BFD.heap w !! b' = BFD.heap w !! b').
Proof.
  intros w abfd data.
  apply (encrypted_write_leaves_caller_buffer AES.AES128 0x80000 Sample.writer_ok
           Sample.no_ctx [] [] (Sample.registry [Sample.keyed]) w abfd
           Sample.code_section Sample.caller_buffer 90 10 0%nat Sample.keyed
           (map Z.of_nat (seq 0 16)) (map Z.of_nat (seq 16 16))
           (map Z.of_nat (seq 32 16)) data (BFD.heap w)).
  - reflexivity.
  - lia.
  - reflexivity.
  - reflexivity.
  - reflexivity.
  - reflexivity.
  - reflexivity.
  - reflexivity.
  - reflexivity.
  - reflexivity.
  - vm_compute. reflexivity.
Defined.

(** C3, at a write of ten bytes at offset 2^32 + 90 of a code section of
    2^33 bytes of an encrypted component. [EncryptObjSection] takes the
    position as an [unsigned int]: the writer of the owner's format is
    handed, for the offset 2^32 + 90, the bytes that it is handed for a
    write of the same data at offset 90, the keystream of the positions
    90 to 99. *)
Theorem encrypted_write_truncates_position :
  let w := Sample.caller_world in
  let abfd := Sample.encrypted_bfd BFD.write_direction in
  let info := Sample.registry [Sample.keyed] in
  let big := BFD.with_size (2 ^ 33) Sample.code_section in
  let b := fresh (dom (BFD.heap w)) in
  let CopyIn := {| Mem.block := b; Mem.ofs := 0 |} in
  IO.bfd_set_section_contents AES.AES128 0x80000 Sample.writer_ok Sample.no_ctx [] []
    info w abfd big Sample.caller_buffer (2 ^ 32 + 90) 10
  = Some (true, BFD.begin_output abfd,
          BFD.log [BFD.EvMalloc b 10;
                   BFD.EvSetSectionContents CopyIn Sample.sample_cipher (2 ^ 32 + 90) 10;
                   BFD.EvFree b] (BFD.with_heap (BFD.heap w) w)) /\
  IO.bfd_set_section_contents AES.AES128 0x80000 Sample.writer_ok Sample.no_ctx [] []
    info w abfd big Sample.caller_buffer 90 10
  = Some (true, BFD.begin_output abfd,
          BFD.log [BFD.EvMalloc b 10;
                   BFD.EvSetSectionContents CopyIn Sample.sample_cipher 90 10;
                   BFD.EvFree b] (BFD.with_heap (BFD.heap w) w)) /\
  Comp.EncryptObjSection AES.AES128 Sample.no_ctx [] Sample.keyed
    (map Z.of_nat (seq 1 10)) 90 = Some Sample.sample_cipher.
Proof. repeat split; vm_compute; reflexivity. Qed.

Lemma encrypted_read_overwrites_destination_witness :
  let w := Sample.caller_world in
  let abfd := Sample.encrypted_bfd BFD.read_direction in
  let junk_heap := repeat 0xAA 20 in
  let scratch := IO.uninitialised junk_heap 20 in
  let answer := Sample.reader_fails abfd Sample.code_section scratch 0 20 in
  exists (plain : list Z) (w' : BFD.world),
    Comp.EncryptObjSection AES.AES128 Sample.no_ctx [] Sample.keyed
      (IO.read_into scratch answer.2) (to_unsigned_int 0) = Some plain /\
    IO.bfd_get_section_contents AES.AES128 0x80000 Sample.reader_fails Sample.no_ctx []
      junk_heap (Sample.registry [Sample.keyed]) w abfd Sample.code_section
      Sample.caller_buffer 0 20
    = Some (answer.1, Sample.code_section, w') /\
    Mem.load (BFD.heap w') Sample.caller_buffer 20 = Some plain /\
    (forall b', b' <> Mem.block Sample.caller_buffer ->
                BFD.heap w' !! b' = BFD.heap w !! b') /\
    BFD.bfd_error w' = BFD.bfd_error w.
Proof.
  intros w abfd junk_heap scratch answer.
  apply (encrypted_read_overwrites_destination AES.AES128 0x80000 Sample.reader_fails
           Sample.no_ctx [] junk_heap (Sample.registry [Sample.keyed]) w abfd
           Sample.code_section Sample.caller_buffer 0 20 0%nat Sample.keyed
           (map Z.of_nat (seq 0 16)) (map Z.of_nat (seq 16 16))
           (map Z.of_nat (seq 32 16)) (map Z.of_nat (seq 1 20))).
  - reflexivity.
  - reflexivity.
  - reflexivity.
  - lia.
  - reflexivity.
  - reflexivity.
  - reflexivity.
  - reflexivity.
  - reflexivity.
  - reflexivity.
  - vm_compute. reflexivity.
Defined.

(** The failed read above, computed: the reader answers false and writes
    nothing, false is returned, and the destination, which held 1 .. 20,
    holds the transform of the 20 bytes 0xAA of the scratch block. *)
Example failed_encrypted_read :
  let w := Sample.caller_world in
  let abfd := Sample.encrypted_bfd BFD.read_direction in
  exists plain w',
    IO.bfd_get_section_contents AES.AES128 0x80000 Sample.reader_fails Sample.no_ctx []
      (repeat 0xAA 20) (Sample.registry [Sample.keyed]) w abfd Sample.code_section
      Sample.caller_buffer 0 20
    = Some (false, Sample.code_section, w') /\
    Comp.EncryptObjSection AES.AES128 Sample.no_ctx [] Sample.keyed (repeat 0xAA 20) 0
    = Some plain /\
    BFD.heap w' = {[ 0%nat := plain ]} /\
    BFD.heap w = {[ 0%nat := map Z.of_nat (seq 1 20) ]} /\
    plain <> map Z.of_nat (seq 1 20).
Proof.
  intros w abfd. eexists. eexists.
  split; [vm_compute; reflexivity |].
  split; [vm_compute; reflexivity |].
  split; [vm_compute; reflexivity |].
  split; [reflexivity |].
  vm_compute. discriminate.
Qed.

(* ===================================================================== *)
(** ** The parser always ends *)
(* ===================================================================== *)

Section ParserTermination.

Import Comp.

Ltac len := cbn [length] in *; lia.

(** The blank-skipping loop never gives back more than it was given, and
    less when it stops on a character. *)
Lemma skip_blanks_shorter (n : nat) :
  forall (Fi : list ascii) (mode : skip_mode) (ln : Z),
    (length Fi < n)%nat ->
    match skip_blanks mode Fi ln with
    | Stopped c fi _ =>
        (length fi <= length Fi)%nat /\ (is_Some c -> (length fi < length Fi)%nat)
    | Unterminated _ => True
    end.
Proof.
  induction n as [| n IH]; intros Fi mode ln Hn; [len |].
  destruct Fi as [| c r]; destruct mode; cbn [skip_blanks]; try exact I.
  - split; [len |]. intros [x Hx]. discriminate.
  - cbn [length] in Hn.
    destruct (Ascii.eqb c "/").
    + destruct r as [| c2 r2].
      * split; [cbn ; len |]. intros [x Hx]. discriminate.
      * cbn [length] in *.
        destruct (Ascii.eqb c2 "*").
        { specialize (IH r2 InBlock ln ltac:(len)).
          destruct (skip_blanks InBlock r2 ln); [| exact I].
          destruct IH as [H1 H2]. split; [len |]. intros Hc. specialize (H2 Hc). len. }
        destruct (Ascii.eqb c2 "/").
        { specialize (IH r2 InLine ln ltac:(len)).
          destruct (skip_blanks InLine r2 ln); [| exact I].
          destruct IH as [H1 H2]. split; [len |]. intros Hc. specialize (H2 Hc). len. }
        split; [len |]. intros _. len.
    + destruct (negb (is_blank c)).
      * split; [len |]. intros _. len.
      * destruct (Ascii.eqb c "010").
        { specialize (IH r Blank (ln + 1) ltac:(len)).
          destruct (skip_blanks Blank r (ln + 1)); [| exact I].
          destruct IH as [H1 H2]. split; [len |]. intros Hc. specialize (H2 Hc). len. }
        { specialize (IH r Blank ln ltac:(len)).
          destruct (skip_blanks Blank r ln); [| exact I].
          destruct IH as [H1 H2]. split; [len |]. intros Hc. specialize (H2 Hc). len. }
  - cbn [length] in Hn.
    destruct (Ascii.eqb c "*").
    + destruct r as [| c2 r2]; [exact I |]. cbn [length] in *.
      destruct (Ascii.eqb c2 "/").
      { specialize (IH r2 Blank ln ltac:(len)).
        destruct (skip_blanks Blank r2 ln); [| exact I].
        destruct IH as [H1 H2]. split; [len |]. intros Hc. specialize (H2 Hc). len. }
      { specialize (IH (c2 :: r2) InBlock ln ltac:(cbn ; len)).
        destruct (skip_blanks InBlock (c2 :: r2) ln); [| exact I].
        cbn [length] in IH.
        destruct IH as [H1 H2]. split; [len |]. intros Hc. specialize (H2 Hc). len. }
    + specialize (IH r InBlock ln ltac:(len)).
      destruct (skip_blanks InBlock r ln); [| exact I].
      destruct IH as [H1 H2]. split; [len |]. intros Hc. specialize (H2 Hc). len.
  - cbn [length] in Hn.
    destruct (Ascii.eqb c "010").
    + specialize (IH r Blank ln ltac:(len)).
      destruct (skip_blanks Blank r ln); [| exact I].
      destruct IH as [H1 H2]. split; [len |]. intros Hc. specialize (H2 Hc). len.
    + specialize (IH r InLine ln ltac:(len)).
      destruct (skip_blanks InLine r ln); [| exact I].
      destruct IH as [H1 H2]. split; [len |]. intros Hc. specialize (H2 Hc). len.
Qed.

Lemma read_string_shorter (n : nat) :
  forall (Fi : list ascii) (s : string) (rest : list ascii),
    (length Fi < n)%nat ->
    read_string Fi = Some (s, rest) -> (length rest < length Fi)%nat.
Proof.
  induction n as [| n IH]; intros Fi s rest Hn; [len |].
  destruct Fi as [| c r]; cbn [read_string]; [discriminate |].
  cbn [length] in *.
  destruct (Ascii.eqb c "034"); [intros [= <- <-] ; len |].
  destruct (Ascii.eqb c "\").
  - destruct r as [| c2 r2]; [discriminate |]. cbn [length] in *.
    destruct (read_string r2) as [[s' rest'] |] eqn:E; [| discriminate].
    intros [= <- <-]. apply IH in E; len.
  - destruct (read_string r) as [[s' rest'] |] eqn:E; [| discriminate].
    intros [= <- <-]. apply IH in E; len.
Qed.

Lemma read_alnum_shorter (Fi : list ascii) :
  (length (read_alnum Fi).2 <= length Fi)%nat.
Proof.
  induction Fi as [| c r IH]; cbn [read_alnum]; [cbn ; len |].
  destruct (isalnum c); [| cbn ; len].
  destruct (read_alnum r) as [s rest]. cbn [snd length] in *. len.
Qed.

(** A token never gives characters back, and every token but the end of
    the file and the unterminated one takes at least one. *)
Lemma GetNextToken_shorter (lx0 : lexer) (Str0 : string) :
  let '(Tok, _, lx1) := GetNextToken lx0 Str0 in
  (length (Fi lx1) <= length (Fi lx0))%nat /\
  (Tok <> T_EOFT -> Tok <> T_UNTERM -> (length (Fi lx1) < length (Fi lx0))%nat).
Proof.
  unfold GetNextToken.
  pose proof (skip_blanks_shorter (S (length (Fi lx0))) (Fi lx0) Blank (LineNo lx0)
                ltac:(len)) as Hs.
  destruct (skip_blanks Blank (Fi lx0) (LineNo lx0)) as [c fi ln | ln].
  - destruct Hs as [H1 H2].
    destruct c as [c |]; [| cbn; split; [len | congruence]].
    specialize (H2 ltac:(eauto)).
    destruct (Ascii.eqb c "034").
    + destruct (read_string fi) as [[s rest] |] eqn:E.
      * apply (read_string_shorter (S (length fi))) in E; [| len]. cbn. split; len.
      * cbn. split; [len | congruence].
    + destruct (isalnum c).
      * pose proof (read_alnum_shorter fi) as Ha.
        destruct (read_alnum fi) as [s rest]. cbn in *. split; len.
      * destruct (Ascii.eqb c "=" || Ascii.eqb c ":"); [cbn; split ; len |].
        destruct (Ascii.eqb c ";"); cbn; split; len.
  - cbn. split; [len | congruence].
Qed.

Lemma TokenT_eqb_eq (a b : TokenT) : TokenT_eqb a b = true <-> a = b.
Proof. destruct a, b; cbn; split; intros H; try reflexivity; discriminate. Qed.

Lemma read_assignment_shorter (ps : parser) (lx2 : lexer) (vb : Z) (Tok : TokenT)
    (Content : string) :
  (length (Fi (lx (read_assignment ps lx2 vb Tok Content).2)) <= length (Fi lx2))%nat /\
  ((read_assignment ps lx2 vb Tok Content).1 = ERR_NOERR ->
   (length (Fi (lx (read_assignment ps lx2 vb Tok Content).2)) < length (Fi lx2))%nat).
Proof.
  unfold read_assignment.
  destruct (negb (is_section_keyword Tok)); [cbn; split; [lia | discriminate] |].
  pose proof (GetNextToken_shorter lx2 Content) as H3.
  destruct (GetNextToken lx2 Content) as [[Tok3 Content3] lx3].
  destruct H3 as [L3 S3].
  destruct (TokenT_eqb Tok3 T_EOFT); [cbn; split; [lia | discriminate] |].
  destruct (negb (TokenT_eqb Tok3 T_SET)); [cbn; split; [lia | discriminate] |].
  pose proof (GetNextToken_shorter lx3 Content3) as H4.
  destruct (GetNextToken lx3 Content3) as [[Tok4 Content4] lx4].
  destruct H4 as [L4 S4].
  destruct (TokenT_eqb Tok4 T_EOFT); [cbn; split; [lia | discriminate] |].
  destruct (TokenT_eqb Tok4 T_STRING) eqn:E4; cbn; [| split; [lia | discriminate]].
  apply TokenT_eqb_eq in E4. subst Tok4.
  specialize (S4 ltac:(discriminate) ltac:(discriminate)).
  split; lia.
Qed.

(** A record that has been read in full has taken characters. *)
Lemma OneSection_shorter (ps : parser) :
  (length (Fi (lx (OneSection ps).2)) <= length (Fi (lx ps)))%nat /\
  ((OneSection ps).1 = ERR_NOERR ->
   (length (Fi (lx (OneSection ps).2)) < length (Fi (lx ps)))%nat).
Proof.
  unfold OneSection.
  pose proof (GetNextToken_shorter (lx ps) (Str ps)) as H1.
  destruct (GetNextToken (lx ps) (Str ps)) as [[Tok Content] lx1].
  destruct H1 as [L1 _].
  destruct (TokenT_eqb Tok T_EOFT); [cbn; split; [lia | discriminate] |].
  destruct (TokenT_eqb (keyword_of Tok Content) T_VERBOSE).
  - pose proof (GetNextToken_shorter lx1 Content) as H2.
    destruct (GetNextToken lx1 Content) as [[Tok2 Content2] lx2].
    destruct H2 as [L2 _].
    destruct (TokenT_eqb Tok2 T_EOFT); [cbn; split; [lia | discriminate] |].
    destruct (read_assignment_shorter ps lx2 1 (keyword_of Tok2 Content2) Content2)
      as [R1 R2].
    split; [lia |]. intros HE. specialize (R2 HE). lia.
  - destruct (read_assignment_shorter ps lx1 (verbose ps) (keyword_of Tok Content) Content)
      as [R1 R2].
    split; [lia |]. intros HE. specialize (R2 HE). lia.
Qed.

Lemma expect_shorter (want : TokenT) (otherwise : CompErrorT) (ps : parser) :
  (length (Fi (lx (expect want otherwise ps).2)) <= length (Fi (lx ps)))%nat /\
  ((expect want otherwise ps).1 = None ->
   (length (Fi (lx (expect want otherwise ps).2)) < length (Fi (lx ps)))%nat).
Proof.
  unfold expect. destruct (OneSection_shorter ps) as [L S].
  destruct (OneSection ps) as [Err ps']. cbn [fst snd] in *.
  destruct Err; try (cbn; split; [lia | discriminate]).
  specialize (S eq_refl).
  destruct (TokenT_eqb (Section_ ps') want); cbn; split; lia || discriminate.
Qed.

(** With one round of fuel per character and one to spare, the loop of
    [ProcessComponents] ends by itself. *)
Lemma components_loop_ends (fuel : nat) :
  forall (ps : parser) (Comp : option nat) (Head : list CryptedComponentT),
    (length (Fi (lx ps)) < fuel)%nat ->
    result (components_loop fuel ps Comp Head) <> OutOfFuel.
Proof.
  induction fuel as [| fuel IH]; intros ps Comp Head Hf; [lia |].
  cbn [components_loop].
  destruct (expect_shorter T_VENDOR ERR_EXPECT_VENDOR ps) as [L1 S1].
  destruct (expect T_VENDOR ERR_EXPECT_VENDOR ps) as [[e |] ps1]; [discriminate |].
  cbn [fst snd] in *. specialize (S1 eq_refl).
  destruct (assign (with_Vendor (Str ps1)) Comp Head) as [Head1 |]; [| discriminate].
  destruct (expect_shorter T_SERVER ERR_EXPECT_SERVER ps1) as [L2 _].
  destruct (expect T_SERVER ERR_EXPECT_SERVER ps1) as [[e |] ps2]; [discriminate |].
  cbn [fst snd] in *.
  destruct (assign (with_Server (Str ps2)) Comp Head1) as [Head2 |]; [| discriminate].
  destruct (expect_shorter T_USER ERR_EXPECT_USER ps2) as [L3 _].
  destruct (expect T_USER ERR_EXPECT_USER ps2) as [[e |] ps3]; [discriminate |].
  cbn [fst snd] in *.
  destruct (assign (with_UserAuth (Str ps3)) Comp Head2) as [Head3 |]; [| discriminate].
  destruct (expect_shorter T_KEY ERR_EXPECT_KEY ps3) as [L4 _].
  destruct (expect T_KEY ERR_EXPECT_KEY ps3) as [[e |] ps4]; [discriminate |].
  cbn [fst snd] in *.
  destruct (CheckKey (Str ps4) AES_KEY_LEN) as [Status | Key]; [discriminate |].
  destruct (assign (with_Key Key) Comp Head3) as [Head4 |]; [| discriminate].
  destruct (OneSection_shorter ps4) as [L5 _].
  destruct (OneSection ps4) as [Err ps5]. cbn [fst snd] in *.
  destruct Err; try discriminate.
  destruct (Section_ ps5); try discriminate.
  - destruct (PushComponent (Str ps5) Head4) as [Comp' Head5].
    apply IH. lia.
  - destruct (CheckKey (Str ps5) AES_KEY_LEN) as [Status | Iv]; [discriminate |].
    destruct (assign (with_Iv Iv) Comp Head4) as [Head5 |]; [| discriminate].
    destruct (expect_shorter T_COMPONENT ERR_EXPECT_COMP ps5) as [L6 _].
    destruct (expect T_COMPONENT ERR_EXPECT_COMP ps5) as [[e |] ps6]; [discriminate |].
    cbn [fst snd] in *.
    destruct (PushComponent (Str ps6) Head5) as [[c |] Head6]; [| discriminate].
    apply IH. lia.
Qed.

(** X10. [ProcessEncryptionInfos] ends on every file, whatever its
    contents: every round of the [while (1)] loop of [ProcessComponents]
    that goes on has read at least one character, so that the loop has run
    out of file before it has run out of the rounds the embedding gives
    it (one per character and one to spare). The call returns, or dies
    on a null pointer: the null [*Comp] in [ProcessComponents], or a null
    string or key that [DumpComponents] reads when [Verbose] is set. The
    buffers [Str] and [Buf] are taken to hold
    every token: they have 512 characters in the source, and the tokens
    of the embedding have no bound. *)
Lemma ProcessEncryptionInfos_ends (info : EncryptInfoT) (file : option (list ascii)) :
  ProcessEncryptionInfos info file <> LoadOutOfFuel.
Proof.
  unfold ProcessEncryptionInfos.
  destruct (Components info); [| discriminate].
  destruct file as [text |]; [| discriminate].
  set (ps := {| lx := _; verbose := _; Section_ := _; Str := _ |}).
  assert (result (ProcessComponents ps None []) <> OutOfFuel) as Hr.
  { unfold ProcessComponents.
    destruct (expect T_COMPONENT ERR_EXPECT_COMP ps) as [[e |] ps1]; [discriminate |].
    destruct (PushComponent (Str ps1) []) as [[c |] Head1]; [| discriminate].
    apply components_loop_ends. lia. }
  destruct (result (ProcessComponents ps None [])) as [[] | |];
    try match goal with |- context [if ?b then _ else _] => destruct b end;
    try discriminate. contradiction.
Qed.

End ParserTermination.

(* ===================================================================== *)
(** ** The counter and the keystream across calls *)
(* ===================================================================== *)

Section CounterArithmetic.

Import AES.

Lemma be_value_snoc (l : list Z) (b : Z) : be_value (l ++ [b]) = be_value l * 256 + b.
Proof. unfold be_value. rewrite fold_left_app. reflexivity. Qed.

Lemma be_value_bound (l : list Z) :
  Forall is_byte l -> 0 <= be_value l < 256 ^ Z.of_nat (length l).
Proof.
  induction l as [| b l IH] using rev_ind; intros H.
  - cbn. lia.
  - apply Forall_app in H as [Hl Hb]. inversion Hb as [| ? ? Hb' _]; subst.
    specialize (IH Hl). rewrite be_value_snoc, length_app. cbn [length].
    replace (Z.of_nat (length l + 1)) with (Z.of_nat (length l) + 1) by lia.
    rewrite Z.pow_add_r by lia. unfold is_byte in Hb'. nia.
Qed.

(** The loop from byte [length pre - 1] down adds one to the number held
    by the bytes of [pre], modulo 256 to the power of their count, and
    leaves the bytes behind them alone. *)
Lemma Iv_increment_from_spec (pre : list Z) :
  forall suf : list Z,
    Forall is_byte pre ->
    exists pre',
      Iv_increment_from (length pre) (pre ++ suf) = pre' ++ suf /\
      length pre' = length pre /\ Forall is_byte pre' /\
      be_value pre' = (be_value pre + 1) mod 256 ^ Z.of_nat (length pre).
Proof.
  induction pre as [| b pre IH] using rev_ind; intros suf H.
  - exists []. cbn. repeat split; auto.
  - apply Forall_app in H as [Hl Hb]. inversion Hb as [| ? ? Hb' _]; subst.
    unfold is_byte in Hb'.
    rewrite length_app. cbn [length]. rewrite Nat.add_1_r. cbn [Iv_increment_from].
    assert (byte_at ((pre ++ [b]) ++ suf) (Z.of_nat (length pre)) = b) as Eb.
    { unfold byte_at. rewrite Nat2Z.id, <- app_assoc, app_nth2, Nat.sub_diag by lia. reflexivity. }
    rewrite Eb.
    assert (forall x, <[length pre := x]> ((pre ++ [b]) ++ suf) = pre ++ (x :: suf)) as Ei.
    { intros x. rewrite <- app_assoc. rewrite insert_app_r_alt by lia.
      rewrite Nat.sub_diag. reflexivity. }
    rewrite !Ei.
    pose proof (be_value_bound pre Hl) as Hbd.
    replace (Z.of_nat (S (length pre))) with (Z.of_nat (length pre) + 1) by lia.
    rewrite Z.pow_add_r by lia. change (256 ^ 1) with 256.
    destruct (b =? 255) eqn:E255.
    + apply Z.eqb_eq in E255. subst b.
      destruct (IH (0 :: suf) Hl) as (pre' & E & L & F & V).
      exists (pre' ++ [0]). rewrite E, <- app_assoc. split; [reflexivity |].
      split; [rewrite !length_app; cbn; lia |].
      split; [apply Forall_app; split; [exact F | constructor; [unfold is_byte; lia | constructor]] |].
      rewrite !be_value_snoc, V.
      replace (be_value pre * 256 + 255 + 1) with ((be_value pre + 1) * 256) by lia.
      rewrite Z.mul_mod_distr_r by lia. lia.
    + apply Z.eqb_neq in E255.
      exists (pre ++ [uint8 (b + 1)]). rewrite <- app_assoc. split; [reflexivity |].
      assert (uint8 (b + 1) = b + 1) as Eu by (unfold uint8; rewrite Z.mod_small; lia).
      rewrite Eu.
      split; [rewrite !length_app; cbn; lia |].
      split; [apply Forall_app; split; [exact Hl | constructor; [unfold is_byte; lia | constructor]] |].
      rewrite !be_value_snoc. rewrite Z.mod_small; nia.
Qed.

(** X1. The "increment Iv and handle overflow" loop of the two counter
    mode functions adds one to the 16-byte counter read as a big-endian
    number, modulo 2^128: the carry runs through every byte that holds
    255, and the counter of all 255 wraps to all zero. The result has 16
    bytes again. *)
Theorem Iv_increment_adds_one (iv : list Z) :
  length iv = 16%nat -> Forall is_byte iv ->
  length (Iv_increment iv) = 16%nat /\
  Forall is_byte (Iv_increment iv) /\
  be_value (Iv_increment iv) = (be_value iv + 1) mod 2 ^ 128.
Proof.
  intros L F. destruct (Iv_increment_from_spec iv [] F) as (pre' & E & L' & F' & V).
  unfold Iv_increment. change (Z.to_nat AES_BLOCKLEN) with 16%nat.
  rewrite L, !app_nil_r in E. rewrite E. rewrite L in *.
  repeat split; assumption.
Qed.

Lemma Iv_increment_adds_one_witness :
  let iv := repeat 255 16 in
  length (Iv_increment iv) = 16%nat /\
  Forall is_byte (Iv_increment iv) /\
  be_value (Iv_increment iv) = (be_value iv + 1) mod 2 ^ 128.
Proof.
  apply (Iv_increment_adds_one (repeat 255 16)).
  - reflexivity.
  - repeat (constructor; [unfold is_byte; lia |]). constructor.
Defined.

End CounterArithmetic.

Section CtrChunks.

Import AES.

Variable v : variant.
Variable rk : list Z.

Lemma ctr_stream_app (iv0 P1 P2 : list Z) :
  forall j : nat,
    ctr_stream v rk iv0 j (P1 ++ P2)
    = ctr_stream v rk iv0 j P1 ++ ctr_stream v rk iv0 (j + length P1) P2.
Proof.
  induction P1 as [| b P1 IH]; intros j; cbn [ctr_stream app length].
  - rewrite Nat.add_0_r. reflexivity.
  - rewrite IH. do 3 f_equal. lia.
Qed.

(** The number of keystream blocks that [j] bytes take. *)
Lemma blocks_used (j : nat) :
  ((j mod 16 = 0 -> (j + 15) / 16 = j / 16) /\
   (j mod 16 <> 0 -> (j + 15) / 16 = S (j / 16)))%nat.
Proof.
  pose proof (Nat.div_mod_eq j 16) as E.
  assert (j mod 16 < 16)%nat as B by (apply Nat.mod_upper_bound; lia).
  split; intros H; symmetry.
  - apply (Nat.div_unique (j + 15) 16 (j / 16) 15); lia.
  - apply (Nat.div_unique (j + 15) 16 (S (j / 16)) (j mod 16 - 1)); lia.
Qed.

(** The counter that the xor loop leaves in [ctx->Iv]: the initial one,
    advanced once per keystream block begun. *)
Lemma xcrypt_loop_counter (iv0 buf : list Z) :
  forall (j : nat) (iv buffer : list Z) (bi : Z),
    positioned v rk iv0 True j iv buffer bi ->
    snd (xcrypt_loop v rk iv buffer bi buf)
    = counter_block iv0 ((j + length buf + 15) / 16)%nat.
Proof.
  induction buf as [| b rest IH]; intros j iv buffer bi Hpos.
  - cbn [xcrypt_loop snd length]. rewrite Nat.add_0_r.
    destruct (blocks_used j) as [B0 B1].
    destruct Hpos as [(Hm & _ & ->) | (Hm & _ & -> & _)];
      [rewrite (B0 Hm) | rewrite (B1 Hm)]; reflexivity.
  - cbn [xcrypt_loop length].
    pose proof (positioned_next v rk iv0 True True j iv buffer bi Hpos (fun _ _ _ => I)
                  (AES_Cipher v iv rk)) as Hstep.
    replace (j + S (length rest) + 15)%nat with (S j + length rest + 15)%nat by lia.
    destruct (bi =? AES_BLOCKLEN) eqn:Ebi.
    + destruct Hstep as [Hn _].
      { intros Hm _. destruct Hpos as [(_ & _ & ->) | (Hm' & _)]; [reflexivity | contradiction]. }
      specialize (IH _ _ _ _ Hn).
      destruct (xcrypt_loop v rk (Iv_increment iv) (AES_Cipher v iv rk) (0 + 1) rest) as [out iv'].
      exact IH.
    + destruct Hstep as [Hn _].
      { intros Hm _. destruct Hpos as [(_ & -> & _) | (Hm' & _)]; [discriminate | contradiction]. }
      specialize (IH _ _ _ _ Hn).
      destruct (xcrypt_loop v rk iv buffer (bi + 1) rest) as [out iv'].
      exact IH.
Qed.

Lemma counter_block_add (iv0 : list Z) (k n : nat) :
  counter_block (counter_block iv0 k) n = counter_block iv0 (k + n).
Proof.
  unfold counter_block. rewrite Nat.add_comm. symmetry. apply Nat.iter_add.
Qed.

(** The keystream of a counter advanced [k] times is the keystream from
    byte [16 * k] on. *)
Lemma ctr_stream_shift (iv0 : list Z) (k : nat) (P : list Z) :
  forall j : nat,
    ctr_stream v rk (counter_block iv0 k) j P = ctr_stream v rk iv0 (16 * k + j) P.
Proof.
  induction P as [| b P IH]; intros j; [reflexivity |].
  cbn [ctr_stream]. rewrite IH. f_equal.
  - f_equal. unfold keystream_byte. rewrite counter_block_add.
    replace (16 * k + j)%nat with (j + k * 16)%nat by lia.
    rewrite Nat.div_add, Nat.Div0.mod_add by lia.
    replace (j / 16 + k)%nat with (k + j / 16)%nat by lia. reflexivity.
  - f_equal. lia.
Qed.

End CtrChunks.

(** X2. A context cannot be resumed inside a keystream block. After
    [AES_CTR_xcrypt_buffer] has processed [P1], a second call on the
    context it left transforms [P2] with the keystream from the first
    multiple of 16 at or after the length of [P1] on (what
    [AES_CTR_xcrypt_buffer_From] gives from there on the original
    context): the unused end of a block begun is dropped. When the
    length of [P1] is a multiple of 16 the two calls together give what
    one call on [P1 ++ P2] gives. *)
Theorem xcrypt_buffer_resumes_at_block_boundary
    (v : AES.variant) (junk1 junk2 junk3 junk4 : list Z) (ctx : AES.AES_ctx)
    (P1 P2 : list Z) :
  let next := (16 * ((length P1 + 15) / 16))%nat in
  Z.of_nat next < 2 ^ unsigned_int_bits ->
  let '(ctx1, C1) := AES.AES_CTR_xcrypt_buffer v junk1 ctx P1 in
  let '(ctx2, C2) := AES.AES_CTR_xcrypt_buffer v junk2 ctx1 P2 in
  C2 = snd (AES.AES_CTR_xcrypt_buffer_From v junk3 ctx P2 (Z.of_nat next)) /\
  ((length P1 mod 16 = 0)%nat ->
   C1 ++ C2 = snd (AES.AES_CTR_xcrypt_buffer v junk4 ctx (P1 ++ P2))).
Proof.
  intros next Hnext.
  pose proof (xcrypt_buffer_stream v (AES.RoundKey ctx) (AES.Iv ctx) junk1 ctx P1
                eq_refl eq_refl) as E1.
  pose proof (xcrypt_loop_counter v (AES.RoundKey ctx) (AES.Iv ctx) P1 0 (AES.Iv ctx)
                junk1 AES.AES_BLOCKLEN) as Ec.
  unfold AES.AES_CTR_xcrypt_buffer in E1 |- * at 1.
  destruct (AES.xcrypt_loop v (AES.RoundKey ctx) (AES.Iv ctx) junk1 AES.AES_BLOCKLEN P1)
    as [C1 iv1].
  cbn [snd] in E1, Ec.
  rewrite Ec in * by (left; repeat split). clear Ec. cbn [Nat.add] in *.
  set (ctx1 := {| AES.RoundKey := AES.RoundKey ctx; AES.Iv := _ |}).
  pose proof (xcrypt_buffer_stream v (AES.RoundKey ctx1) (AES.Iv ctx1) junk2 ctx1 P2
                eq_refl eq_refl) as E2.
  destruct (AES.AES_CTR_xcrypt_buffer v junk2 ctx1 P2) as [ctx2 C2].
  cbn [snd] in E2. subst C1 C2. cbn [AES.RoundKey AES.Iv ctx1].
  rewrite ctr_stream_shift, Nat.add_0_r. fold next.
  split.
  - rewrite (xcrypt_buffer_From_stream v (AES.RoundKey ctx) (AES.Iv ctx))
      by (reflexivity || exact Hnext).
    reflexivity.
  - intros Hm.
    rewrite (xcrypt_buffer_stream v (AES.RoundKey ctx) (AES.Iv ctx)) by reflexivity.
    rewrite ctr_stream_app. cbn [Nat.add]. f_equal. f_equal.
    unfold next. destruct (blocks_used (length P1)) as [B0 _]. rewrite (B0 Hm).
    pose proof (Nat.div_mod_eq (length P1) 16). lia.
Qed.

Lemma xcrypt_buffer_resumes_at_block_boundary_witness :
  let xcrypt := AES.AES_CTR_xcrypt_buffer AES.AES256 [] in
  let P2 := map Z.of_nat (seq 100 5) in
  (* a first buffer of 20 bytes: the second call goes on from position 32 *)
  (let P1 := map Z.of_nat (seq 0 20) in
   snd (xcrypt (fst (xcrypt Sample.test_ctx P1)) P2)
   = snd (AES.AES_CTR_xcrypt_buffer_From AES.AES256 [] Sample.test_ctx P2 32)) /\
  (* a first buffer of 32 bytes: the two calls give what one call gives *)
  (let P1 := map Z.of_nat (seq 0 32) in
   snd (xcrypt Sample.test_ctx P1) ++ snd (xcrypt (fst (xcrypt Sample.test_ctx P1)) P2)
   = snd (xcrypt Sample.test_ctx (P1 ++ P2))).
Proof.
  intros xcrypt P2. split.
  - intros P1.
    pose proof (xcrypt_buffer_resumes_at_block_boundary AES.AES256 [] [] [] []
                  Sample.test_ctx P1 P2) as H.
    cbv zeta in H. fold xcrypt in H.
    destruct (xcrypt Sample.test_ctx P1) as [ctx1 C1]. cbn [fst snd].
    destruct (xcrypt ctx1 P2) as [ctx2 C2]. cbn [snd].
    apply H. vm_compute. reflexivity.
  - intros P1.
    pose proof (xcrypt_buffer_resumes_at_block_boundary AES.AES256 [] [] [] []
                  Sample.test_ctx P1 P2) as H.
    cbv zeta in H. fold xcrypt in H.
    destruct (xcrypt Sample.test_ctx P1) as [ctx1 C1]. cbn [fst snd].
    destruct (xcrypt ctx1 P2) as [ctx2 C2]. cbn [snd].
    apply H; [vm_compute; reflexivity | reflexivity].
Defined.

(** X3. A section may be encrypted piece by piece: transforming [P1] at
    position [Pos] and [P2] at the position behind it with
    [EncryptObjSection] gives, put end to end, what one call on
    [P1 ++ P2] at [Pos] gives, wherever the cut falls in a block. The
    component has key, IV and nonce, and the positions are those of an
    [unsigned int]. *)
Theorem EncryptObjSection_in_chunks
    (v : AES.variant) (junk_ctx1 junk_ctx2 junk_ctx3 : AES.AES_ctx)
    (junk1 junk2 junk3 : list Z)
    (comp : Comp.CryptedComponentT) (key iv nonce P1 P2 : list Z) (Pos : Z) :
  Comp.Key comp = Some key ->
  Comp.Iv comp = Some iv ->
  Comp.Nonce comp = Some nonce ->
  0 <= Pos ->
  Pos + Z.of_nat (length P1) < 2 ^ unsigned_int_bits ->
  exists C1 C2 : list Z,
    Comp.EncryptObjSection v junk_ctx1 junk1 comp P1 Pos = Some C1 /\
    Comp.EncryptObjSection v junk_ctx2 junk2 comp P2 (Pos + Z.of_nat (length P1)) = Some C2 /\
    Comp.EncryptObjSection v junk_ctx3 junk3 comp (P1 ++ P2) Pos = Some (C1 ++ C2).
Proof.
  intros Hk Hi Hn HPos Hend. unfold Comp.EncryptObjSection. rewrite Hk, Hi, Hn.
  do 2 eexists. split; [reflexivity |]. split; [reflexivity |]. f_equal.
  set (ctx1 := AES.AES_ctx_set_iv (AES.AES_init_ctx v junk_ctx1 key) iv nonce).
  set (ctx2 := AES.AES_ctx_set_iv (AES.AES_init_ctx v junk_ctx2 key) iv nonce).
  set (ctx3 := AES.AES_ctx_set_iv (AES.AES_init_ctx v junk_ctx3 key) iv nonce).
  replace (Pos + Z.of_nat (length P1)) with (Z.of_nat (Z.to_nat Pos + length P1)) by lia.
  rewrite <- (Z2Nat.id Pos) at 1 2 by lia.
  assert (Z.of_nat (Z.to_nat Pos) < 2 ^ unsigned_int_bits) as HP by lia.
  assert (Z.of_nat (Z.to_nat Pos + length P1) < 2 ^ unsigned_int_bits) as HP' by lia.
  rewrite !(xcrypt_buffer_From_stream v (AES.RoundKey ctx1) (AES.Iv ctx1))
    by first [reflexivity | exact HP | exact HP'].
  rewrite ctr_stream_app. reflexivity.
Qed.

Lemma EncryptObjSection_in_chunks_witness :
  let P1 := map Z.of_nat (seq 65 21) in
  let P2 := map Z.of_nat (seq 10 30) in
  exists C1 C2 : list Z,
    Comp.EncryptObjSection AES.AES128 Sample.no_ctx [] Sample.keyed P1 3 = Some C1 /\
    Comp.EncryptObjSection AES.AES128 Sample.no_ctx [] Sample.keyed P2
      (3 + Z.of_nat (length P1)) = Some C2 /\
    Comp.EncryptObjSection AES.AES128 Sample.no_ctx [] Sample.keyed (P1 ++ P2) 3
    = Some (C1 ++ C2).
Proof.
  apply (EncryptObjSection_in_chunks AES.AES128 Sample.no_ctx Sample.no_ctx Sample.no_ctx
           [] [] [] Sample.keyed (map Z.of_nat (seq 0 16)) (map Z.of_nat (seq 16 16))
           (map Z.of_nat (seq 32 16)) (map Z.of_nat (seq 65 21)) (map Z.of_nat (seq 10 30)) 3).
  - reflexivity.
  - reflexivity.
  - reflexivity.
  - lia.
  - vm_compute. reflexivity.
Defined.

(* ===================================================================== *)
(** ** Keys in hexadecimal *)
(* ===================================================================== *)

Section KeySyntax.

Import Comp.

Lemma ToHex_digit_spec (c : ascii) :
  match ToHex_digit c with
  | Some d => 0 <= d < 16 /\ hex_char d = tolower c /\ is_hex_digit c = true
  | None => is_hex_digit c = false
  end.
Proof.
  destruct c as [[] [] [] [] [] [] [] []]; vm_compute; intuition congruence.
Qed.

Lemma hex_char_digit (d : Z) :
  0 <= d < 16 ->
  ToHex_digit (hex_char d) = Some d /\ ToHex_digit (toupper (hex_char d)) = Some d.
Proof.
  intros H.
  assert (d = 0 \/ d = 1 \/ d = 2 \/ d = 3 \/ d = 4 \/ d = 5 \/ d = 6 \/ d = 7 \/
          d = 8 \/ d = 9 \/ d = 10 \/ d = 11 \/ d = 12 \/ d = 13 \/ d = 14 \/ d = 15)
    as E by lia.
  repeat (destruct E as [-> | E]; [split; reflexivity |]). subst d. split; reflexivity.
Qed.

(** [(R0 << 4) | R1] on two digits. *)
Lemma lor_nibbles (R0 R1 : Z) :
  0 <= R0 < 16 -> 0 <= R1 < 16 -> Z.lor (Z.shiftl R0 4) R1 = 16 * R0 + R1.
Proof.
  intros H0 H1.
  assert (Z.land (R0 * 2 ^ 4) R1 = 0) as D.
  { apply Z.bits_inj'. intros n Hn. rewrite Z.land_spec, Z.bits_0.
    destruct (Z.lt_ge_cases n 4) as [L | G].
    - rewrite Z.mul_pow2_bits_low by lia. reflexivity.
    - destruct (Z.eq_dec R1 0) as [-> | N]; [rewrite Z.bits_0; apply andb_false_r |].
      rewrite (Z.bits_above_log2 R1 n), andb_false_r; [reflexivity | lia |].
      assert (Z.log2 R1 < 4) by (apply Z.log2_lt_pow2; lia). lia. }
  rewrite Z.shiftl_mul_pow2 by lia.
  rewrite <- Z.lxor_lor, <- Z.add_nocarry_lxor by exact D. lia.
Qed.

Lemma ToHex_spec (S0 S1 : ascii) :
  match ToHex S0 S1 with
  | Some R => is_byte R /\ hex_char (R / 16) = tolower S0 /\ hex_char (R mod 16) = tolower S1
              /\ is_hex_digit S0 && is_hex_digit S1 = true
  | None => is_hex_digit S0 && is_hex_digit S1 = false
  end.
Proof.
  unfold ToHex.
  pose proof (ToHex_digit_spec S0) as H0. pose proof (ToHex_digit_spec S1) as H1.
  destruct (ToHex_digit S0) as [R0 |]; [| rewrite H0; reflexivity].
  destruct (ToHex_digit S1) as [R1 |]; [| rewrite H1; apply andb_false_r].
  destruct H0 as (B0 & C0 & X0), H1 as (B1 & C1 & X1).
  rewrite lor_nibbles by assumption. unfold is_byte.
  replace ((16 * R0 + R1) / 16) with R0 by (apply (Z.div_unique _ 16 R0 R1); lia).
  replace ((16 * R0 + R1) mod 16) with R1 by (apply (Z.mod_unique _ 16 R0 R1); lia).
  rewrite C0, C1, X0, X1. repeat split; lia.
Qed.

Lemma ToHex_print (b : Z) (up : bool) :
  is_byte b ->
  let f := if up then toupper else (fun c => c) in
  ToHex (f (hex_char (b / 16))) (f (hex_char (b mod 16))) = Some b.
Proof.
  intros H. unfold is_byte in H.
  assert (0 <= b / 16 < 16) as B0 by (split; [apply Z.div_pos | apply Z.div_lt_upper_bound]; lia).
  assert (0 <= b mod 16 < 16) as B1 by (apply Z.mod_pos_bound; lia).
  destruct (hex_char_digit _ B0) as [L0 U0], (hex_char_digit _ B1) as [L1 U1].
  unfold ToHex. destruct up; cbv zeta; rewrite ?L0, ?L1, ?U0, ?U1, lor_nibbles by assumption;
    f_equal; pose proof (Z.div_mod b 16); lia.
Qed.

Lemma CheckKey_loop_image (up : bool) (Key : list Z) :
  Forall is_byte Key ->
  CheckKey_loop (length Key)
    (string_map (if up then toupper else (fun c => c)) (hex_image Key)) = inr Key.
Proof.
  induction 1 as [| b Key Hb _ IH]; [reflexivity |].
  cbn [length hex_image CheckKey_loop string_map].
  rewrite (ToHex_print b up Hb), IH. reflexivity.
Qed.

Lemma length_hex_image (Key : list Z) :
  String.length (hex_image Key) = (2 * length Key)%nat.
Proof. induction Key as [| b Key IH]; cbn in *; lia. Qed.

Lemma length_string_map (f : ascii -> ascii) (s : string) :
  String.length (string_map f s) = String.length s.
Proof. induction s as [| c s IH]; cbn; congruence. Qed.

(** X4. [CheckKey] reads back what [DumpKeys] prints: for bytes
    [Key[0 .. Len-1]], the [Len] pairs of lower-case hexadecimal digits
    that [printf ("%.2x", Key[i])] produces are accepted and give the same
    bytes; so does the same text in upper case. *)
Theorem CheckKey_reads_printed_key (Key : list Z) :
  Forall is_byte Key ->
  CheckKey (hex_image Key) (Z.of_nat (length Key)) = inr Key /\
  CheckKey (string_map toupper (hex_image Key)) (Z.of_nat (length Key)) = inr Key.
Proof.
  intros H. unfold CheckKey.
  rewrite length_string_map, length_hex_image, Nat2Z.id.
  replace (Z.of_nat (2 * length Key) =? Z.of_nat (length Key) * 2) with true
    by (symmetry; apply Z.eqb_eq; lia).
  cbn [negb]. split.
  - pose proof (CheckKey_loop_image false Key H) as E. cbv iota in E.
    replace (string_map (fun c => c) (hex_image Key)) with (hex_image Key) in E; [exact E |].
    clear. induction (hex_image Key) as [| c s IH]; cbn; congruence.
  - exact (CheckKey_loop_image true Key H).
Qed.

Lemma CheckKey_reads_printed_key_witness :
  let Key := [0x00; 0x1f; 0xa0; 0xff] in
  CheckKey (hex_image Key) (Z.of_nat (length Key)) = inr Key /\
  CheckKey (string_map toupper (hex_image Key)) (Z.of_nat (length Key)) = inr Key.
Proof.
  apply (CheckKey_reads_printed_key [0x00; 0x1f; 0xa0; 0xff]).
  repeat (constructor; [unfold is_byte; lia |]). constructor.
Defined.

Lemma CheckKey_loop_spec (n : nat) :
  forall Str : string,
    String.length Str = (2 * n)%nat ->
    match CheckKey_loop n Str with
    | inr Key => length Key = n /\ Forall is_byte Key /\
                 hex_image Key = string_map tolower Str /\
                 string_forall is_hex_digit Str = true
    | inl e => e = ERR_KEYNONHEX /\ string_forall is_hex_digit Str = false
    end.
Proof.
  induction n as [| n IH]; intros Str L.
  - destruct Str; [| discriminate]. cbn. auto.
  - destruct Str as [| S0 [| S1 rest]]; try (cbn in L; lia).
    cbn [CheckKey_loop string_forall string_map].
    pose proof (ToHex_spec S0 S1) as HT.
    destruct (ToHex S0 S1) as [R |].
    + destruct HT as (B & P & P' & X). apply andb_true_iff in X as [X0 X1].
      specialize (IH rest). cbn in L.
      destruct (CheckKey_loop n rest) as [e | Key].
      * destruct IH as [-> F]; [lia |]. rewrite F, !andb_false_r. auto.
      * destruct IH as (Ln & F & I & A); [lia |].
        cbn [length hex_image]. rewrite P, P', I, X0, X1, A. cbn. auto.
    + split; [reflexivity |]. rewrite andb_assoc, HT. reflexivity.
Qed.

(** X5. What [CheckKey] answers is decided by the length of the text and
    by its characters, in that order: [ERR_BADKEYLEN] when the text has
    not exactly [2 * Len] characters (whatever they are),
    [ERR_KEYNONHEX] when it has and one of them is no hexadecimal digit;
    otherwise [Len] bytes, each in [0, 256), whose image in hexadecimal is
    the text in lower case. *)
Theorem CheckKey_classified (Str : string) (Len : Z) :
  match CheckKey Str Len with
  | inr Key =>
      Z.of_nat (String.length Str) = 2 * Len /\
      string_forall is_hex_digit Str = true /\
      Z.of_nat (length Key) = Len /\ Forall is_byte Key /\
      hex_image Key = string_map tolower Str
  | inl e =>
      (e = ERR_BADKEYLEN /\ Z.of_nat (String.length Str) <> 2 * Len) \/
      (e = ERR_KEYNONHEX /\ Z.of_nat (String.length Str) = 2 * Len /\
       string_forall is_hex_digit Str = false)
  end.
Proof.
  unfold CheckKey.
  destruct (Z.of_nat (String.length Str) =? Len * 2) eqn:E; cbn [negb].
  - apply Z.eqb_eq in E.
    pose proof (CheckKey_loop_spec (Z.to_nat Len) Str) as H.
    destruct (CheckKey_loop (Z.to_nat Len) Str) as [e | Key].
    + destruct H as [-> F]; [lia |]. right. repeat split; [lia | exact F].
    + destruct H as (L & F & I & A); [lia |]. repeat split; try assumption; lia.
  - apply Z.eqb_neq in E. left. split; [reflexivity | lia].
Qed.

Lemma CheckKey_key_bytes (Str : string) (Key : list Z) :
  CheckKey Str AES_KEY_LEN = inr Key -> key_bytes Key.
Proof.
  unfold CheckKey, AES_KEY_LEN.
  destruct (Z.of_nat (String.length Str) =? 16 * 2) eqn:E; cbn [negb]; [| discriminate].
  apply Z.eqb_eq in E. intros H.
  pose proof (CheckKey_loop_spec (Z.to_nat 16) Str ltac:(lia)) as S. rewrite H in S.
  destruct S as (L & F & _). split; [exact L | exact F].
Qed.

End KeySyntax.

(* ===================================================================== *)
(** ** Components by path *)
(* ===================================================================== *)

Section ComponentPaths.

Import Comp.

Lemma string_append_nil (b : string) : (EmptyString ++ b)%string = b.
Proof. reflexivity. Qed.

Lemma string_append_cons (c : ascii) (a b : string) :
  (String c a ++ b)%string = String c (a ++ b)%string.
Proof. reflexivity. Qed.

Ltac str := rewrite ?string_append_nil, ?string_append_cons in *; cbn in *.

Lemma string_length_app (a b : string) :
  String.length (a ++ b) = (String.length a + String.length b)%nat.
Proof. induction a as [| c a IH]; str; congruence. Qed.

Lemma string_app_assoc (a b c : string) : ((a ++ b) ++ c = a ++ (b ++ c))%string.
Proof. induction a as [| x a IH]; str; congruence. Qed.

Lemma substring_all (s : string) : String.substring 0 (String.length s) s = s.
Proof. induction s as [| c s IH]; cbn; congruence. Qed.

Lemma substring_app (a b : string) :
  String.substring (String.length a) (String.length b) (a ++ b) = b.
Proof. induction a as [| c a IH]; str; [apply substring_all | exact IH]. Qed.

Lemma get_app (a : string) (c : ascii) (b : string) :
  String.get (String.length a) (a ++ String c b) = Some c.
Proof. induction a as [| x a IH]; str; [reflexivity | exact IH]. Qed.

(** A string splits at any position into what is in front and the
    substring from there on. *)
Lemma string_split_at (k : nat) :
  forall s : string,
    (k <= String.length s)%nat ->
    exists dir : string,
      String.length dir = k /\
      s = (dir ++ String.substring k (String.length s - k) s)%string.
Proof.
  induction k as [| k IH]; intros s Hk.
  - exists EmptyString. rewrite Nat.sub_0_r, substring_all. auto.
  - destruct s as [| c s]; [cbn in Hk; lia |]. cbn in Hk.
    destruct (IH s ltac:(lia)) as (dir & L & E).
    exists (String c dir). str. split; [congruence |]. f_equal. exact E.
Qed.

Lemma string_last_char (s : string) :
  s <> EmptyString -> exists (d : string) (c : ascii), s = (d ++ String c EmptyString)%string.
Proof.
  induction s as [| x s IH]; intros H; [contradiction |].
  destruct s as [| y s].
  - exists EmptyString, x. reflexivity.
  - destruct IH as (d & c & E); [discriminate |].
    exists (String x d), c. rewrite string_append_cons, <- E. reflexivity.
Qed.

Lemma is_dir_separator_spec (c : ascii) :
  is_dir_separator (Some c) = true <-> (c = "/"%char \/ c = "\"%char).
Proof.
  unfold is_dir_separator. rewrite orb_true_iff, !Ascii.eqb_eq. reflexivity.
Qed.

(** The test of [ComponentLookUp] on one record, read as a relation
    between the path and the name. *)
Lemma component_matches_spec (name : string) (Pt : CryptedComponentT) :
  component_matches name Pt = true <-> path_ends_with name (Name Pt).
Proof.
  unfold component_matches, path_ends_with. split.
  - destruct (String.length (Name Pt) <? String.length name)%nat eqn:E.
    + apply Nat.ltb_lt in E. intros H. apply andb_true_iff in H as [Hs Hd].
      apply String.eqb_eq in Hs.
      destruct (string_split_at (String.length name - String.length (Name Pt)) name ltac:(lia))
        as (dir & L & Ed).
      replace (String.length name - (String.length name - String.length (Name Pt)))%nat
        with (String.length (Name Pt)) in Ed by lia.
      rewrite Hs in Ed.
      exists dir. split; [exact Ed | right].
      destruct (string_last_char dir) as (d & sep & ->).
      { intros ->. cbn in L. lia. }
      exists d, sep. split; [reflexivity |].
      apply is_dir_separator_spec.
      rewrite string_length_app in L. cbn in L.
      replace (String.length name - String.length (Name Pt) - 1)%nat
        with (String.length d) in Hd by lia.
      rewrite Ed, string_app_assoc, string_append_cons, string_append_nil, get_app in Hd.
      exact Hd.
    + intros H. apply andb_true_iff in H as [_ Hs]. apply String.eqb_eq in Hs.
      exists EmptyString. auto.
  - intros (dir & -> & [-> | (d & sep & -> & Hsep)]).
    + rewrite string_append_nil, Nat.ltb_irrefl, Nat.eqb_refl, String.eqb_refl. reflexivity.
    + rewrite !string_length_app. cbn [String.length].
      replace (String.length (Name Pt) <? String.length d + 1 + String.length (Name Pt))%nat
        with true by (symmetry; apply Nat.ltb_lt; lia).
      replace (String.length d + 1 + String.length (Name Pt) - String.length (Name Pt))%nat
        with (String.length (d ++ String sep EmptyString))
        by (rewrite string_length_app; cbn; lia).
      rewrite substring_app, String.eqb_refl.
      rewrite string_length_app. cbn [String.length].
      replace (String.length d + 1 - 1)%nat with (String.length d) by lia.
      rewrite string_app_assoc, string_append_cons, string_append_nil, get_app.
      apply is_dir_separator_spec in Hsep. rewrite Hsep. reflexivity.
Qed.

Lemma ComponentLookUp_from_spec (name : string) (l : list CryptedComponentT) :
  forall pos : nat,
    match ComponentLookUp_from pos name l with
    | Some i =>
        (pos <= i)%nat /\
        exists Pt, l !! (i - pos)%nat = Some Pt /\ component_matches name Pt = true /\
        forall j Pt', (j < i - pos)%nat -> l !! j = Some Pt' ->
                      component_matches name Pt' = false
    | None => forall Pt, In Pt l -> component_matches name Pt = false
    end.
Proof.
  induction l as [| Pt rest IH]; intros pos; cbn [ComponentLookUp_from].
  - intros Pt [].
  - destruct (component_matches name Pt) eqn:E.
    + split; [lia |]. rewrite Nat.sub_diag. exists Pt. repeat split; auto.
      intros j Pt' Hj. lia.
    + specialize (IH (S pos)).
      destruct (ComponentLookUp_from (S pos) name rest) as [i |].
      * destruct IH as (Hi & Pt0 & Hl & Hm & Hbefore).
        split; [lia |]. exists Pt0.
        replace (i - pos)%nat with (S (i - S pos)) by lia.
        repeat split; auto.
        intros [| j] Pt' Hj Hl'; cbn in Hl'; [congruence |].
        apply (Hbefore j); [lia | exact Hl'].
      * intros Pt' [<- | Hin]; auto.
Qed.

Lemma no_separator_in_app (d r : string) (sep : ascii) :
  string_forall (fun c => negb (is_dir_separator (Some c))) (d ++ String sep r) = true ->
  is_dir_separator (Some sep) = false.
Proof.
  induction d as [| x d IH]; rewrite ?string_append_nil, ?string_append_cons;
    cbn [string_forall]; intros H; apply andb_true_iff in H as [H1 H2].
  - apply negb_true_iff in H1. exact H1.
  - auto.
Qed.

(** X6. [ComponentLookUp] returns the first component, in the order of
    the list, whose name is the path itself or the end of the path behind
    a slash or a backslash; it returns null exactly when no component of
    the list has such a name. A name that is only the end of the last
    part of the path (no separator in front of it) does not match. *)
Theorem ComponentLookUp_first_path_match
    (name : string) (HeadComp : list CryptedComponentT) :
  match ComponentLookUp name HeadComp with
  | Some i =>
      exists Pt, HeadComp !! i = Some Pt /\ path_ends_with name (Name Pt) /\
      forall j Pt', (j < i)%nat -> HeadComp !! j = Some Pt' ->
                    ~ path_ends_with name (Name Pt')
  | None => forall Pt, In Pt HeadComp -> ~ path_ends_with name (Name Pt)
  end.
Proof.
  unfold ComponentLookUp.
  pose proof (ComponentLookUp_from_spec name HeadComp 0) as H.
  destruct (ComponentLookUp_from 0 name HeadComp) as [i |].
  - destruct H as (_ & Pt & Hl & Hm & Hb). rewrite Nat.sub_0_r in *.
    exists Pt. split; [exact Hl |]. split; [apply component_matches_spec, Hm |].
    intros j Pt' Hj Hl' Hp. apply component_matches_spec in Hp.
    rewrite (Hb j Pt' Hj Hl') in Hp. discriminate.
  - intros Pt Hin Hp. apply component_matches_spec in Hp.
    rewrite (H Pt Hin) in Hp. discriminate.
Qed.

(** X7. A component that [PushComponent] has just added is found by
    [ComponentLookUp] under its own name when the name has no slash and no
    backslash. When it has one, the lookup still finds a component, but
    it can be an earlier one, whose name is the end of the new name
    behind a separator. *)
Theorem pushed_component_is_found
    (name : string) (l l' : list CryptedComponentT) (i : nat) :
  PushComponent name l = (Some i, l') ->
  exists j : nat,
    ComponentLookUp name l' = Some j /\ (j <= i)%nat /\
    (string_forall (fun c => negb (is_dir_separator (Some c))) name = true -> j = i).
Proof.
  unfold PushComponent.
  destruct (existsb _ l) eqn:E; [discriminate |]. intros [= <- <-].
  pose proof (ComponentLookUp_from_spec name (l ++ [new_component name]) 0) as H.
  unfold ComponentLookUp.
  destruct (ComponentLookUp_from 0 name (l ++ [new_component name])) as [j |].
  - destruct H as (_ & Pt & Hl & Hm & Hb). rewrite Nat.sub_0_r in *.
    exists j. split; [reflexivity |].
    assert (j <= length l)%nat as Hle.
    { apply lookup_lt_Some in Hl. rewrite length_app in Hl. cbn in Hl. lia. }
    split; [exact Hle |]. intros Hsep.
    destruct (Nat.eq_dec j (length l)) as [-> | Hne]; [reflexivity | exfalso].
    rewrite lookup_app_l in Hl by lia.
    apply component_matches_spec in Hm as (dir & Ed & [-> | (d & sep & -> & Hs)]).
    + rewrite string_append_nil in Ed.
      assert (existsb (fun Pt0 => String.eqb name (Name Pt0)) l = true) as E'.
      { apply existsb_exists. exists Pt. split.
        - apply list_elem_of_In, list_elem_of_lookup. eauto.
        - apply String.eqb_eq. exact Ed. }
      congruence.
    + rewrite string_app_assoc, string_append_cons, string_append_nil in Ed.
      rewrite Ed in Hsep. apply no_separator_in_app in Hsep.
      apply is_dir_separator_spec in Hs. congruence.
  - exfalso.
    assert (component_matches name (new_component name) = true) as Hm.
    { apply component_matches_spec. exists EmptyString. auto. }
    rewrite H in Hm; [discriminate |]. apply in_or_app. right. left. reflexivity.
Qed.

Lemma pushed_component_is_found_witness :
  exists j : nat,
    ComponentLookUp "b.o" [Sample.declared "a.o" None; new_component "b.o"] = Some j /\
    (j <= 1)%nat /\
    (string_forall (fun c => negb (is_dir_separator (Some c))) "b.o" = true -> j = 1%nat).
Proof.
  apply (pushed_component_is_found "b.o" [Sample.declared "a.o" None]
           [Sample.declared "a.o" None; new_component "b.o"] 1).
  reflexivity.
Defined.

End ComponentPaths.

(* ===================================================================== *)
(** ** The return codes of the IV aggregation *)
(* ===================================================================== *)

Lemma with_Iv_names (iv : list Z) (o : nat) (l : list Comp.CryptedComponentT) :
  map Comp.Name (alter (Comp.with_Iv iv) o l) = map Comp.Name l.
Proof.
  apply list_eq. intros i. rewrite !list_lookup_fmap.
  destruct (decide (o = i)) as [-> | Hne].
  - rewrite list_lookup_alter_eq. destruct (l !! i); reflexivity.
  - rewrite list_lookup_alter_ne by congruence. reflexivity.
Qed.

(** X8. The return value of [SetOutComponentIV] tells the state of the
    registry apart: 0 exactly when the registry is empty; 4 exactly when
    a component other than the output has no IV; 2 exactly when every
    component has one and the output is not in the (non-empty) registry;
    1 exactly when the output is in the registry and every other
    component has an IV. It never returns 3. The registry is changed only
    when 1 is returned, and then only in the IV of the output: the mode,
    the verbose flag, the output pointer and every other component are as
    before, and the output component keeps its name, vendor, server, user,
    key and nonce and gets 16 bytes as its IV, the exclusive or of the IVs
    of the other components (what the local [IvOut] held when there is no
    other component). *)
Theorem SetOutComponentIV_return_codes
    (junk : list Z) (info : Comp.EncryptInfoT) (name : string) :
  let OutComp := Comp.ComponentLookUp name (Comp.Components info) in
  let inputs := Comp.inputs_from OutComp 0 (Comp.Components info) in
  let r := (Comp.SetOutComponentIV junk info name).1 in
  let info' := (Comp.SetOutComponentIV junk info name).2 in
  (r = 0 <-> Comp.Components info = []) /\
  (r = 4 <-> Exists (fun Pt => Comp.Iv Pt = None) inputs) /\
  (r = 2 <-> Comp.Components info <> [] /\
             Forall (fun Pt => is_Some (Comp.Iv Pt)) inputs /\ OutComp = None) /\
  (r = 1 <-> Forall (fun Pt => is_Some (Comp.Iv Pt)) inputs /\ is_Some OutComp) /\
  r <> 3 /\
  (r <> 1 -> info' = info) /\
  (r = 1 ->
   map Comp.Name (Comp.Components info') = map Comp.Name (Comp.Components info) /\
   (forall i : nat, Some i <> OutComp ->
      Comp.Components info' !! i = Comp.Components info !! i) /\
   Comp.Mode info' = Comp.Mode info /\
   Comp.Verbose info' = Comp.Verbose info /\
   Comp.OutComponent info' = Comp.OutComponent info /\
   forall (o : nat) (out : Comp.CryptedComponentT),
     OutComp = Some o -> Comp.Components info !! o = Some out ->
     exists iv : list Z,
       Comp.Components info' !! o
       = Some {| Comp.Name := Comp.Name out; Comp.Vendor := Comp.Vendor out;
                 Comp.Server := Comp.Server out; Comp.UserAuth := Comp.UserAuth out;
                 Comp.Key := Comp.Key out; Comp.Iv := Some iv;
                 Comp.Nonce := Comp.Nonce out |} /\
       length iv = 16%nat /\
       forall ivs : list (list Z), mapM Comp.Iv inputs = Some ivs ->
         iv = match ivs with
              | [] => Comp.copy_bytes Comp.AES_KEY_LEN junk
              | _ => Comp.copy_bytes Comp.AES_KEY_LEN (Comp.xor_of_ivs ivs)
              end).
Proof.
  intros OutComp inputs r info'.
  assert (Hx : forall l : list Comp.CryptedComponentT,
             Exists (fun Pt => Comp.Iv Pt = None) l ->
             Forall (fun Pt => is_Some (Comp.Iv Pt)) l -> False).
  { intros l He Hf. apply Exists_exists in He as (Pt & Hin & Hn).
    rewrite Forall_forall in Hf. specialize (Hf Pt Hin). rewrite Hn in Hf.
    destruct Hf. discriminate. }
  destruct (Comp.Components info) as [| c0 comps] eqn:Ec.
  - destruct (SetOutComponentIV_empty junk info name Ec) as [E _].
    subst r info'. rewrite E. cbn [fst snd]. subst inputs OutComp. cbn.
    repeat split; try congruence; try lia; try discriminate.
    + intros H. inversion H.
    + intros [H _]. congruence.
    + intros [_ [x H]]. discriminate.
  - assert (Comp.Components info <> []) as Hne by congruence.
    destruct (SetOutComponentIV_cases junk info name Hne) as [H4 H12].
    rewrite Ec in H4, H12. fold OutComp in H4, H12. fold inputs in H4, H12.
    destruct (mapM Comp.Iv inputs) as [ivs |] eqn:Em.
    + assert (Forall (fun Pt => is_Some (Comp.Iv Pt)) inputs) as Hall.
      { apply mapM_Some in Em. clear -Em. induction Em; constructor; eauto. }
      specialize (H12 ivs eq_refl).
      destruct OutComp as [o |] eqn:Eo.
      * subst r info'. rewrite H12.
        cbn [fst snd Comp.Components Comp.Mode Comp.Verbose Comp.OutComponent].
        split; [split; [discriminate | congruence] |].
        split; [split; [discriminate | intros He; exfalso; eauto] |].
        split; [split; [discriminate | intros [_ [_ ?]]; discriminate] |].
        split; [split; eauto |].
        split; [discriminate |].
        split; [congruence |].
        intros _.
        split; [apply with_Iv_names |].
        split; [intros i Hi; apply list_lookup_alter_ne; congruence |].
        split; [reflexivity |]. split; [reflexivity |]. split; [reflexivity |].
        intros o' out [= <-] Hout. eexists.
        split; [rewrite list_lookup_alter_eq, Hout; reflexivity |].
        split.
        -- destruct ivs; unfold Comp.copy_bytes; rewrite length_map, length_seq;
             reflexivity.
        -- intros ivs' [= <-]. reflexivity.
      * destruct H12 as [_ H2]. subst r info'. rewrite H2. cbn [fst snd].
        repeat split; try congruence; try lia; try discriminate; eauto.
        -- intros He. exfalso. eauto.
        -- intros [_ [x ?]]. discriminate.
    + apply mapM_None in Em.
      assert (Exists (fun Pt => Comp.Iv Pt = None) inputs) as Hex.
      { apply Exists_exists. apply Exists_exists in Em. exact Em. }
      specialize (H4 Hex). subst r info'. rewrite H4. cbn [fst snd].
      repeat split; try congruence; try lia; try discriminate; eauto.
      * intros [_ [Hf _]]. exfalso. eauto.
      * intros [Hf _]. exfalso. eauto.
Qed.

(* ===================================================================== *)
(** ** What a loaded registry holds *)
(* ===================================================================== *)

Section ParserInvariant.

Import Comp.

Lemma assign_parsing (P Q : CryptedComponentT -> Prop)
    (f : CryptedComponentT -> CryptedComponentT)
    (cur : option nat) (l l' : list CryptedComponentT) :
  parsing P cur l ->
  assign f cur l = Some l' ->
  (forall c, Name (f c) = Name c) ->
  (forall c, keys_well_formed c -> keys_well_formed (f c)) ->
  (forall c, P c -> Q (f c)) ->
  parsing Q cur l'.
Proof.
  intros [(Hnd & Hk & Hc) Hlast] Ha Hname Hkeys HPQ.
  destruct cur as [j |]; [| discriminate]. cbn in Ha. injection Ha as <-.
  destruct (Hlast j eq_refl) as (Hj & c & Hl & HP).
  split; [split; [| split] |].
  - replace (map Name (alter f j l)) with (map Name l); [exact Hnd |].
    apply list_eq. intros i. rewrite !list_lookup_fmap.
    destruct (decide (i = j)) as [-> | Hne].
    + rewrite list_lookup_alter_eq, Hl. simpl. rewrite Hname. reflexivity.
    + rewrite list_lookup_alter_ne by congruence. reflexivity.
  - apply Forall_alter; [exact Hk |]. intros x _ Hx. auto.
  - intros i c' Hi Hl'. rewrite length_alter in Hi.
    rewrite list_lookup_alter_ne in Hl' by lia. apply (Hc i c'); assumption.
  - intros j' [= <-]. rewrite length_alter. split; [exact Hj |].
    exists (f c). rewrite list_lookup_alter_eq, Hl. split; [reflexivity | auto].
Qed.

Lemma parsing_invariant (P : CryptedComponentT -> Prop) (cur : option nat)
    (l : list CryptedComponentT) :
  parsing P cur l -> registry_invariant l.
Proof. intros [H _]. exact H. Qed.

(** A new component is pushed only behind a component that is fully
    declared, or on the empty list. *)
Lemma PushComponent_parsing (name : string) (cur : option nat)
    (l : list CryptedComponentT) :
  parsing fully_declared cur l -> is_Some cur \/ l = [] ->
  parsing (fun _ => True) (PushComponent name l).1 (PushComponent name l).2.
Proof.
  intros [(Hnd & Hk & Hc) Hlast] Hcur. unfold PushComponent.
  destruct (existsb (fun Pt => String.eqb name (Name Pt)) l) eqn:E; cbn [fst snd].
  - split; [exact (conj Hnd (conj Hk Hc)) | discriminate].
  - split; [split; [| split] |].
    + rewrite map_app. cbn. apply NoDup_app. split; [exact Hnd |]. split.
      * intros x Hx Hin. apply list_elem_of_In in Hin as [<- | []].
        apply list_elem_of_In, in_map_iff in Hx as (Pt & Hn & HPt).
        assert (existsb (fun Pt => String.eqb name (Name Pt)) l = true) as E'.
        { apply existsb_exists. exists Pt. split; [exact HPt |].
          apply String.eqb_eq. congruence. }
        congruence.
      * apply NoDup_singleton.
    + apply Forall_app. split; [exact Hk |]. constructor; [| constructor].
      split; cbn; discriminate.
    + intros i c Hi Hl. rewrite length_app in Hi. cbn in Hi.
      rewrite lookup_app_l in Hl by lia.
      destruct (decide (S i < length l)%nat) as [Hlt | Hge]; [eauto |].
      destruct Hcur as [[j ->] | ->]; [| cbn in Hi; lia].
      destruct (Hlast j eq_refl) as (Hj & c' & Hl' & HP).
      assert (i = j) by lia. subst i. congruence.
    + intros j [= <-]. rewrite length_app. cbn. split; [lia |].
      exists (new_component name). split; [| exact I].
      rewrite lookup_app_r by lia. rewrite Nat.sub_diag. reflexivity.
Qed.

Ltac fields :=
  intros; unfold fully_declared in *; cbn in *; intuition eauto.

Ltac stage H :=
  match goal with
  | |- context [assign ?f ?cur ?l] =>
      let l' := fresh "Head" in
      let E := fresh "E" in
      destruct (assign f cur l) as [l' |] eqn:E;
      [| cbn; exact (parsing_invariant _ _ _ H)]
  end.

Lemma components_loop_invariant (fuel : nat) :
  forall (ps : parser) (cur : option nat) (l : list CryptedComponentT),
    parsing (fun _ => True) cur l ->
    registry_invariant (Comp.Head (components_loop fuel ps cur l)).
Proof.
  induction fuel as [| fuel IH]; intros ps cur l H0;
    [exact (parsing_invariant _ _ _ H0) |].
  cbn [components_loop].
  destruct (expect T_VENDOR ERR_EXPECT_VENDOR ps) as [[e |] ps1];
    [exact (parsing_invariant _ _ _ H0) |].
  stage H0.
  assert (parsing (fun c => is_Some (Vendor c)) cur Head0) as H1.
  { apply (assign_parsing _ _ _ _ _ _ H0 E); try solve [auto]; fields. }
  destruct (expect T_SERVER ERR_EXPECT_SERVER ps1) as [[e |] ps2];
    [exact (parsing_invariant _ _ _ H1) |].
  stage H1.
  assert (parsing (fun c => is_Some (Vendor c) /\ is_Some (Server c)) cur Head1) as H2.
  { apply (assign_parsing _ _ _ _ _ _ H1 E0); try solve [auto]; fields. }
  destruct (expect T_USER ERR_EXPECT_USER ps2) as [[e |] ps3];
    [exact (parsing_invariant _ _ _ H2) |].
  stage H2.
  assert (parsing (fun c => is_Some (Vendor c) /\ is_Some (Server c) /\ is_Some (UserAuth c))
            cur Head2) as H3.
  { apply (assign_parsing _ _ _ _ _ _ H2 E1); try solve [auto]; fields. }
  destruct (expect T_KEY ERR_EXPECT_KEY ps3) as [[e |] ps4];
    [exact (parsing_invariant _ _ _ H3) |].
  destruct (CheckKey (Str ps4) AES_KEY_LEN) as [Status | Key] eqn:EK;
    [exact (parsing_invariant _ _ _ H3) |].
  apply CheckKey_key_bytes in EK.
  stage H3.
  assert (parsing fully_declared cur Head3) as H4.
  { apply (assign_parsing _ _ _ _ _ _ H3 E2); try solve [auto]; try solve [fields].
    intros c _. split; cbn; [intros k [= <-]; exact EK | discriminate]. }
  assert (is_Some cur) as Hcur.
  { destruct cur; [eauto | discriminate]. }
  destruct (OneSection ps4) as [Err ps5].
  destruct Err; try exact (parsing_invariant _ _ _ H4).
  destruct (Section_ ps5); try exact (parsing_invariant _ _ _ H4).
  - pose proof (PushComponent_parsing (Str ps5) cur Head3 H4 (or_introl Hcur)) as H5.
    destruct (PushComponent (Str ps5) Head3) as [cur' Head5].
    apply IH. exact H5.
  - destruct (CheckKey (Str ps5) AES_KEY_LEN) as [Status | Iv] eqn:EI;
      [exact (parsing_invariant _ _ _ H4) |].
    apply CheckKey_key_bytes in EI.
    stage H4.
    assert (parsing fully_declared cur Head4) as H5.
    { apply (assign_parsing _ _ _ _ _ _ H4 E3); try solve [auto]; try solve [fields].
      intros c [Hk Hi]. split; cbn; [exact Hk | intros iv [= <-]; exact EI]. }
    destruct (expect T_COMPONENT ERR_EXPECT_COMP ps5) as [[e |] ps6];
      [exact (parsing_invariant _ _ _ H5) |].
    pose proof (PushComponent_parsing (Str ps6) cur Head4 H5 (or_introl Hcur)) as H6.
    destruct (PushComponent (Str ps6) Head4) as [[c |] Head6];
      [| exact (parsing_invariant _ _ _ H6)].
    apply IH. exact H6.
Qed.

(** X9. Whatever the text of the configuration file, when
    [ProcessEncryptionInfos] returns on a registry that was empty, the
    registry it leaves has distinct component names, keys and IVs of 16
    bytes each, and every component but the last one has its vendor,
    server, user and key. It returns 1 without a report, or 0 with a
    report and the registry still empty. The last component can lack
    fields: the end of the file is accepted in front of any record. The
    tokens are taken to fit the buffers [Str] and [Buf] of the source. *)
Theorem loaded_registry_invariant
    (info info' : EncryptInfoT) (text : list ascii) (r : Z) (reported : option CompErrorT) :
  Components info = [] ->
  ProcessEncryptionInfos info (Some text) = LoadReturns r reported info' ->
  registry_invariant (Components info') /\
  ((r = 1 /\ reported = None) \/
   (r = 0 /\ is_Some reported /\ Components info' = [])).
Proof.
  intros Hempty. unfold ProcessEncryptionInfos. rewrite Hempty.
  set (ps := {| lx := _; verbose := _; Section_ := _; Str := _ |}).
  assert (registry_invariant (Comp.Head (ProcessComponents ps None []))) as Hinv.
  { assert (parsing fully_declared None []) as H0.
    { split; [| discriminate]. split; [constructor |]. split; [constructor |].
      intros i c Hi. cbn in Hi. lia. }
    unfold ProcessComponents.
    destruct (expect T_COMPONENT ERR_EXPECT_COMP ps) as [[e |] ps1];
      [exact (parsing_invariant _ _ _ H0) |].
    pose proof (PushComponent_parsing (Str ps1) None [] H0 (or_intror eq_refl)) as H1.
    destruct (PushComponent (Str ps1) []) as [[c |] Head1];
      [| exact (parsing_invariant _ _ _ H1)].
    apply components_loop_invariant. exact H1. }
  assert (registry_invariant []) as Hnil.
  { split; [constructor |]. split; [constructor |]. intros i c Hi. cbn in Hi. lia. }
  destruct (result (ProcessComponents ps None [])) as [[] | |];
    try match goal with |- context [if ?b then _ else _] => destruct b end;
    try discriminate;
    intros [= <- <- <-]; cbn [Components]; split; eauto 6.
Qed.

Lemma loaded_registry_invariant_witness :
  let info' :=
    Sample.registry [Sample.declared "a.o" (Some (map Z.of_nat (seq 16 16)));
                     Sample.declared "b.o" None] in
  registry_invariant (Components info') /\
  ((1 = 1 /\ @None CompErrorT = None) \/
   (1 = 0 /\ is_Some (@None CompErrorT) /\ Components info' = [])).
Proof.
  apply (loaded_registry_invariant Sample.no_info
           (Sample.registry [Sample.declared "a.o" (Some (map Z.of_nat (seq 16 16)));
                             Sample.declared "b.o" None])
           (list_ascii_of_string
              (Sample.declaration "a.o" ++ Sample.line "Iv" Sample.hex_iv
               ++ Sample.declaration "b.o"))
           1 None).
  - reflexivity.
  - vm_compute. reflexivity.
Defined.

End ParserInvariant.

(* ===================================================================== *)
(** ** Writing and reading back *)
(* ===================================================================== *)

Section ContentsRoundTrip.

Import BFD IO.

Variable v : AES.variant.
Variable BFD_ENCRYPTED : Z.
Variable backend_set_section_contents : bfd -> asection -> list Z -> Z -> Z -> bool.
Variable backend_get_section_contents :
  bfd -> asection -> list Z -> Z -> Z -> bool * list Z.
Variable junk_ctx : AES.AES_ctx.
Variable junk_buffer : list Z.
Variable junk_heap : list Z.

Local Abbreviation set_contents :=
  (bfd_set_section_contents v BFD_ENCRYPTED backend_set_section_contents
     junk_ctx junk_buffer junk_heap).
Local Abbreviation get_contents :=
  (bfd_get_section_contents v BFD_ENCRYPTED backend_get_section_contents
     junk_ctx junk_buffer junk_heap).

Ltac whole_block :=
  first [ rewrite lookup_insert_eq; reflexivity
        | rewrite ?length_read_into, ?length_uninitialised; (lia || congruence) ].

(** What [EncryptObjSection] computes: the xor with the keystream of the
    key and of the IV xored with the nonce, from byte [Pos] on. *)
Lemma EncryptObjSection_stream (jc : AES.AES_ctx) (jb : list Z)
    (comp : Comp.CryptedComponentT) (key iv nonce buf : list Z) (Pos : Z) :
  Comp.Key comp = Some key -> Comp.Iv comp = Some iv -> Comp.Nonce comp = Some nonce ->
  0 <= Pos < 2 ^ unsigned_int_bits ->
  Comp.EncryptObjSection v jc jb comp buf Pos
  = Some (AES.ctr_stream v (AES.AES_KeyExpansion v key)
            (AES.Iv (AES.AES_ctx_set_iv jc iv nonce)) (Z.to_nat Pos) buf).
Proof.
  intros Hk Hi Hn HPos. unfold Comp.EncryptObjSection. rewrite Hk, Hi, Hn. f_equal.
  set (ctx := AES.AES_ctx_set_iv (AES.AES_init_ctx v jc key) iv nonce).
  rewrite <- (Z2Nat.id Pos) at 1 by lia.
  apply (xcrypt_buffer_From_stream v (AES.RoundKey ctx) (AES.Iv ctx));
    [reflexivity | reflexivity | lia].
Qed.

(** The encrypted path of [bfd_set_section_contents], past the tests. *)
Lemma set_contents_encrypted (info : Comp.EncryptInfoT) (w : world)
    (abfd : bfd) (section : asection) (location : Mem.ptr) (offset count : Z)
    (i : nat) (comp : Comp.CryptedComponentT) (data cipher : list Z)
    (h1 : gmap nat (list Z)) :
  has_flag (flags section) SEC_HAS_CONTENTS = true ->
  0 <= count < 2 ^ 64 ->
  out_of_range offset count (size section) = false ->
  bfd_write_p abfd = true ->
  component_of BFD_ENCRYPTED info abfd section = Some i ->
  Comp.Components info !! i = Some comp ->
  record_copy (heap w) section location offset count = Some h1 ->
  Mem.load h1 location count = Some data ->
  Comp.EncryptObjSection v junk_ctx junk_buffer comp data (to_unsigned_int offset)
  = Some cipher ->
  length cipher = length data ->
  let b := fresh (dom h1) in
  let sent := backend_set_section_contents abfd section cipher offset count in
  set_contents info w abfd section location offset count
  = Some (sent, (if sent then begin_output abfd else abfd),
          log [EvMalloc b count;
               EvSetSectionContents {| Mem.block := b; Mem.ofs := 0 |} cipher offset count;
               EvFree b] (with_heap h1 w)).
Proof.
  intros Hc Hn Hr Hw Hcomp Hi Hcopy Hload Henc Hclen b sent.
  unfold bfd_set_section_contents.
  rewrite Hc, Hr, Hw, Hcopy, Hcomp, Hi. cbn [negb].
  destruct (malloc_spec h1 (uninitialised junk_heap count)) as [Hfresh Hh].
  unfold Mem.malloc in *. cbn [fst snd] in *. fold b in Hfresh, Hh |- *.
  assert (Hne : Mem.block location <> b).
  { intros E. destruct (load_live _ _ _ _ Hload) as [x Hx]. rewrite E in Hx. congruence. }
  destruct (load_length _ _ _ _ Hload) as [_ Hlen].
  unfold Mem.memcpy. rewrite (to_size_t_small count Hn).
  rewrite (load_other h1) by (apply lookup_insert_ne; congruence).
  rewrite Hload.
  rewrite (store_block _ b (uninitialised junk_heap count)) by whole_block.
  rewrite insert_insert_eq.
  rewrite (load_block _ b data) by whole_block.
  rewrite Henc.
  rewrite (store_block _ b data) by whole_block.
  rewrite insert_insert_eq.
  unfold Mem.free. rewrite delete_insert_id by exact Hfresh.
  fold sent. destruct sent; reflexivity.
Qed.

(** The encrypted path of [bfd_get_section_contents], past the tests. *)
Lemma get_contents_encrypted (info : Comp.EncryptInfoT) (w : world)
    (abfd : bfd) (section : asection) (location : Mem.ptr) (offset count : Z)
    (i : nat) (comp : Comp.CryptedComponentT) (old plain : list Z) :
  has_flag (flags section) SEC_CONSTRUCTOR = false ->
  has_flag (flags section) SEC_HAS_CONTENTS = true ->
  has_flag (flags section) SEC_IN_MEMORY = false ->
  0 < count < 2 ^ 64 ->
  out_of_range offset count (read_size abfd section) = false ->
  component_of BFD_ENCRYPTED info abfd section = Some i ->
  Comp.Components info !! i = Some comp ->
  Mem.load (heap w) location count = Some old ->
  let scratch := uninitialised junk_heap count in
  let answer := backend_get_section_contents abfd section scratch offset count in
  Comp.EncryptObjSection v junk_ctx junk_buffer comp (read_into scratch answer.2)
    (to_unsigned_int offset) = Some plain ->
  length plain = Z.to_nat count ->
  exists w' : world,
    get_contents info w abfd section location offset count
    = Some (answer.1, section, w') /\
    Mem.load (heap w') location count = Some plain /\
    (forall b', b' <> Mem.block location -> heap w' !! b' = heap w !! b') /\
    bfd_error w' = bfd_error w.
Proof.
  intros Hcons Hc Hmem Hn Hr Hcomp Hi Hload scratch answer Henc Hplen.
  unfold bfd_get_section_contents.
  rewrite Hcons, Hr, Hc, Hmem, Hcomp, Hi. cbn [negb].
  assert ((count =? 0) = false) as E0 by (apply Z.eqb_neq; lia). rewrite E0.
  destruct (malloc_spec (heap w) scratch) as [Hfresh Hh].
  fold scratch.
  destruct (Mem.malloc (heap w) scratch) as [b h1]. cbn [fst snd] in *. subst h1.
  assert (Hne : Mem.block location <> b).
  { intros E. destruct (load_live _ _ _ _ Hload) as [x Hx]. rewrite E in Hx. congruence. }
  assert (Hslen : length scratch = Z.to_nat count) by apply length_uninitialised.
  rewrite (load_block _ b scratch) by whole_block.
  fold answer in Henc |- *. destruct answer as [Status got] eqn:Ea. cbn [fst snd] in *.
  rewrite (store_block _ b scratch) by whole_block.
  rewrite insert_insert_eq.
  rewrite Henc.
  rewrite (store_block _ b (read_into scratch got)) by whole_block.
  rewrite insert_insert_eq.
  unfold Mem.memcpy. rewrite (to_size_t_small count) by lia.
  rewrite (load_block _ b plain) by whole_block.
  assert (Hl3 : Mem.load (<[b := plain]> (heap w)) location count = Some old).
  { rewrite (load_other (heap w)); [exact Hload |]. apply lookup_insert_ne. congruence. }
  destruct (store_after_load _ _ _ _ plain Hl3 ltac:(lia)) as [h4 Hst].
  rewrite Hst.
  eexists. split; [reflexivity |].
  cbn [heap log with_heap]. unfold Mem.free.
  split; [| split; [| reflexivity]].
  - rewrite (load_other h4) by (apply lookup_delete_ne; congruence).
    apply load_store in Hst. rewrite Hplen, Z2Nat.id in Hst by lia. exact Hst.
  - intros b' Hb'. destruct (decide (b' = b)) as [-> | Hbb].
    + rewrite lookup_delete_eq. congruence.
    + rewrite lookup_delete_ne by congruence.
      rewrite (store_other _ _ _ _ b' Hst) by exact Hb'.
      apply lookup_insert_ne. congruence.
Qed.

(** A reader that fills the block leaves its own bytes there. *)
Lemma read_into_whole (old new : list Z) :
  length new = length old -> read_into old new = new.
Proof.
  intros H. unfold read_into. rewrite take_app_length'; [reflexivity | lia].
Qed.

(** X11. What is written to a code section of a registered encrypted
    component reads back in clear, in whole or in part. The write of
    [count] bytes at [offset] hands the writer of the owner's format the
    cipher of the caller's bytes; when the reader of the owner's format
    later delivers the bytes [k .. k + m) of that cipher for a read of [m]
    bytes at [offset + k], the destination receives the bytes
    [k .. k + m) of what the caller wrote. The reading side may be another
    owner, section and registry, as long as its component has the same
    key, IV and nonce. The range written ends below 2^32: the cipher
    takes the position as an [unsigned int], and beyond that the two
    sides would use the keystream of the offset modulo 2^32. *)
Theorem encrypted_section_reads_back
    (info info' : Comp.EncryptInfoT) (w w' : world) (abfd abfd' : bfd)
    (section section' : asection) (location dest : Mem.ptr) (offset count k m : Z)
    (i i' : nat) (comp comp' : Comp.CryptedComponentT)
    (key iv nonce data cipher old : list Z) (h1 : gmap nat (list Z)) (Status : bool) :
  (* the write of [count] bytes at [offset] *)
  has_flag (flags section) SEC_HAS_CONTENTS = true ->
  0 <= offset -> 0 <= count -> offset + count < 2 ^ unsigned_int_bits ->
  out_of_range offset count (size section) = false ->
  bfd_write_p abfd = true ->
  component_of BFD_ENCRYPTED info abfd section = Some i ->
  Comp.Components info !! i = Some comp ->
  Comp.Key comp = Some key -> Comp.Iv comp = Some iv -> Comp.Nonce comp = Some nonce ->
  record_copy (heap w) section location offset count = Some h1 ->
  Mem.load h1 location count = Some data ->
  Comp.EncryptObjSection v junk_ctx junk_buffer comp data (to_unsigned_int offset)
  = Some cipher ->
  (* the read of [m] bytes at [offset + k], from what was written *)
  0 <= k -> 0 < m -> k + m <= count ->
  has_flag (flags section') SEC_CONSTRUCTOR = false ->
  has_flag (flags section') SEC_HAS_CONTENTS = true ->
  has_flag (flags section') SEC_IN_MEMORY = false ->
  out_of_range (offset + k) m (read_size abfd' section') = false ->
  component_of BFD_ENCRYPTED info' abfd' section' = Some i' ->
  Comp.Components info' !! i' = Some comp' ->
  Comp.Key comp' = Some key -> Comp.Iv comp' = Some iv -> Comp.Nonce comp' = Some nonce ->
  Mem.load (heap w') dest m = Some old ->
  backend_get_section_contents abfd' section' (uninitialised junk_heap m) (offset + k) m
  = (Status, take (Z.to_nat m) (drop (Z.to_nat k) cipher)) ->
  let b := fresh (dom h1) in
  let sent := backend_set_section_contents abfd section cipher offset count in
  set_contents info w abfd section location offset count
  = Some (sent, (if sent then begin_output abfd else abfd),
          log [EvMalloc b count;
               EvSetSectionContents {| Mem.block := b; Mem.ofs := 0 |} cipher offset count;
               EvFree b] (with_heap h1 w)) /\
  exists w2 : world,
    get_contents info' w' abfd' section' dest (offset + k) m = Some (Status, section', w2) /\
    Mem.load (heap w2) dest m = Some (take (Z.to_nat m) (drop (Z.to_nat k) data)).
Proof.
  intros Hc Ho Hn Hend Hr Hw Hcomp Hi Hk Hiv Hno Hcopy Hload Henc
         Hk0 Hm Hkm Hcons' Hc' Hmem' Hr' Hcomp' Hi' Hk' Hiv' Hno' Hold Hback b sent.
  unfold unsigned_int_bits in Hend.
  assert (to_unsigned_int offset = offset) as Eo
    by (unfold to_unsigned_int, unsigned_int_bits; apply Z.mod_small; lia).
  assert (to_unsigned_int (offset + k) = offset + k) as Eok
    by (unfold to_unsigned_int, unsigned_int_bits; apply Z.mod_small; lia).
  destruct (load_length _ _ _ _ Hload) as [_ Hdlen].
  pose proof Henc as Hstream.
  rewrite (EncryptObjSection_stream junk_ctx junk_buffer comp key iv nonce data _ Hk Hiv Hno)
    in Hstream by (rewrite Eo; unfold unsigned_int_bits; lia).
  injection Hstream as Hcipher.
  assert (length cipher = length data) as Hclen
    by (rewrite <- Hcipher; apply length_ctr_stream).
  split.
  - apply (set_contents_encrypted info w abfd section location offset count i comp data
             cipher h1); try assumption. lia.
  - set (slice := take (Z.to_nat m) (drop (Z.to_nat k) cipher)) in *.
    assert (length slice = Z.to_nat m) as Hslice.
    { unfold slice. rewrite length_take, length_drop. lia. }
    assert (Comp.EncryptObjSection v junk_ctx junk_buffer comp'
              (read_into (uninitialised junk_heap m) slice) (to_unsigned_int (offset + k))
            = Some (take (Z.to_nat m) (drop (Z.to_nat k) data))) as Hdec.
    { rewrite read_into_whole by (rewrite length_uninitialised; exact Hslice).
      rewrite (EncryptObjSection_stream junk_ctx junk_buffer comp' key iv nonce slice _
                 Hk' Hiv' Hno') by (rewrite Eok; unfold unsigned_int_bits; lia).
      f_equal. unfold slice. rewrite <- Hcipher, Eo, Eok.
      rewrite ctr_stream_drop, ctr_stream_take.
      replace (Z.to_nat offset + Z.to_nat k)%nat with (Z.to_nat (offset + k)) by lia.
      apply ctr_stream_involutive. }
    destruct (get_contents_encrypted info' w' abfd' section' dest (offset + k) m i' comp'
                old (take (Z.to_nat m) (drop (Z.to_nat k) data)))
      as (w2 & Hget & Hdest & _); try assumption.
    + lia.
    + rewrite Hback. exact Hdec.
    + rewrite length_take, length_drop. lia.
    + rewrite Hback in Hget. exists w2. split; assumption.
Qed.


(** A store changes the block of its pointer, and no other. *)
Lemma store_at_block (h h' : gmap nat (list Z)) (p : Mem.ptr) (bytes : list Z) :
  Mem.store h p bytes = Some h' -> exists bl, h' = <[Mem.block p := bl]> h.
Proof.
  unfold Mem.store. destruct (h !! Mem.block p) as [bl |]; [| discriminate].
  destruct (Mem.in_bounds bl (Mem.ofs p) (Z.of_nat (length bytes))); [| discriminate].
  intros [= <-]. eauto.
Qed.

(** A call to [bfd_set_section_contents] that goes past the tests leaves
    the heap as the cache copy left it, on the encrypted path (the block
    of the cipher is freed) and on the other, and it sets
    [output_has_begun] exactly when it returns true. *)
Lemma set_contents_past_tests (info : Comp.EncryptInfoT) (w w1 : world)
    (abfd abfd1 : bfd) (section : asection) (location : Mem.ptr) (offset count : Z)
    (r : bool) :
  has_flag (flags section) SEC_HAS_CONTENTS = true ->
  out_of_range offset count (size section) = false ->
  bfd_write_p abfd = true ->
  set_contents info w abfd section location offset count = Some (r, abfd1, w1) ->
  record_copy (heap w) section location offset count = Some (heap w1) /\
  abfd1 = (if r then begin_output abfd else abfd) /\
  bfd_error w1 = bfd_error w.
Proof.
  intros Hc Hr Hw. unfold bfd_set_section_contents. rewrite Hc, Hr, Hw. cbn [negb].
  destruct (record_copy (heap w) section location offset count) as [h1 |]; [| discriminate].
  destruct (component_of BFD_ENCRYPTED info abfd section) as [i |].
  - destruct (Comp.Components info !! i) as [comp |]; [| discriminate].
    destruct (malloc_spec h1 (uninitialised junk_heap count)) as [Hfresh Hh].
    destruct (Mem.malloc h1 (uninitialised junk_heap count)) as [b h2]. cbn [fst snd] in *.
    subst h2.
    unfold Mem.memcpy.
    destruct (Mem.load _ location (to_size_t count)) as [bytes |]; [| discriminate].
    destruct (Mem.store _ _ bytes) as [h3 |] eqn:E3; [| discriminate].
    destruct (Mem.load h3 _ count) as [plain |]; [| discriminate].
    destruct (Comp.EncryptObjSection _ _ _ _ _ _) as [cipher |]; [| discriminate].
    destruct (Mem.store h3 _ cipher) as [h4 |] eqn:E4; [| discriminate].
    apply store_at_block in E3 as [x3 ->]. apply store_at_block in E4 as [x4 ->].
    cbn [Mem.block]. unfold Mem.free.
    rewrite !insert_insert_eq, delete_insert_id by exact Hfresh.
    destruct (backend_set_section_contents abfd section cipher offset count);
      intros [= <- <- <-]; auto.
  - destruct (Mem.load h1 location count) as [bytes |]; [| discriminate].
    destruct (backend_set_section_contents abfd section bytes offset count);
      intros [= <- <- <-]; auto.
Qed.

(** X12. The copy of a section kept in memory is never encrypted. A
    write that goes past the tests, on the encrypted path or not, leaves
    the caller's bytes as they are at [section->contents + offset]; a read
    of the same range of a section with that cache and the in-memory flag
    gives them back with no call to the back end and no cipher. The
    caller's buffer is the cached range itself, or lies in another block
    than the cache (a [memcpy] between two ranges of one block is left
    out). *)
Theorem cached_contents_read_back
    (info info' : Comp.EncryptInfoT) (w w1 : world) (abfd abfd1 abfd' : bfd)
    (section section' : asection) (location dest c : Mem.ptr) (offset count : Z)
    (r : bool) (data old : list Z) :
  has_flag (flags section) SEC_HAS_CONTENTS = true ->
  out_of_range offset count (size section) = false ->
  bfd_write_p abfd = true ->
  0 < count < 2 ^ 64 ->
  contents section = Some c ->
  Mem.block location <> Mem.block c \/ location = Mem.ptr_add c offset ->
  Mem.load (heap w) location count = Some data ->
  set_contents info w abfd section location offset count = Some (r, abfd1, w1) ->
  contents section' = Some c ->
  has_flag (flags section') SEC_CONSTRUCTOR = false ->
  has_flag (flags section') SEC_HAS_CONTENTS = true ->
  has_flag (flags section') SEC_IN_MEMORY = true ->
  out_of_range offset count (read_size abfd' section') = false ->
  Mem.load (heap w1) dest count = Some old ->
  Mem.load (heap w1) (Mem.ptr_add c offset) count = Some data /\
  exists h2 : gmap nat (list Z),
    get_contents info' w1 abfd' section' dest offset count
    = Some (true, section', with_heap h2 w1) /\
    Mem.load h2 dest count = Some data.
Proof.
  intros Hc Hr Hw Hn Hcache Hne Hload Hset Hcache' Hcons' Hc' Hmem' Hr' Hold.
  destruct (set_contents_past_tests _ _ _ _ _ _ _ _ _ _ Hc Hr Hw Hset) as (Hcopy & _ & _).
  destruct (load_length _ _ _ _ Hload) as [_ Hdlen].
  assert (Mem.load (heap w1) (Mem.ptr_add c offset) count = Some data) as Hcached.
  { unfold record_copy in Hcopy. rewrite Hcache in Hcopy.
    destruct (decide (location <> Mem.ptr_add c offset)) as [_ | Heq].
    - unfold Mem.memcpy in Hcopy. rewrite (to_size_t_small count) in Hcopy by lia.
      rewrite Hload in Hcopy. apply load_store in Hcopy.
      rewrite Hdlen, Z2Nat.id in Hcopy by lia. exact Hcopy.
    - assert (location = Mem.ptr_add c offset) as E.
      { destruct (decide (location = Mem.ptr_add c offset)) as [E | N];
          [exact E | contradiction]. }
      injection Hcopy as <-. rewrite <- E. exact Hload. }
  split; [exact Hcached |].
  unfold bfd_get_section_contents.
  rewrite Hcons', Hr', Hc', Hmem', Hcache'. cbn [negb].
  assert ((count =? 0) = false) as E0 by (apply Z.eqb_neq; lia). rewrite E0.
  unfold Mem.memcpy. rewrite (to_size_t_small count) by lia. rewrite Hcached.
  destruct (store_after_load _ _ _ _ data Hold ltac:(lia)) as [h2 Hst].
  rewrite Hst. exists h2. split; [reflexivity |].
  apply load_store in Hst. rewrite Hdlen, Z2Nat.id in Hst by lia. exact Hst.
Qed.

End ContentsRoundTrip.

Ltac sample_side :=
  first [ reflexivity | lia | (vm_compute; reflexivity)
        | (vm_compute; intros; discriminate) | (intros; discriminate) ].

Lemma encrypted_section_reads_back_witness :
  let w := Sample.caller_world in
  let abfd := Sample.encrypted_bfd BFD.write_direction in
  let abfd' := Sample.encrypted_bfd BFD.read_direction in
  let info := Sample.registry [Sample.keyed] in
  let reader := Sample.reader_of 90 Sample.sample_cipher in
  let data := map Z.of_nat (seq 1 10) in
  let b := fresh (dom (BFD.heap w)) in
  let sent := Sample.writer_ok abfd Sample.code_section Sample.sample_cipher 90 10 in
  IO.bfd_set_section_contents AES.AES128 0x80000 Sample.writer_ok Sample.no_ctx [] []
    info w abfd Sample.code_section Sample.caller_buffer 90 10
  = Some (sent, (if sent then BFD.begin_output abfd else abfd),
          BFD.log [BFD.EvMalloc b 10;
                   BFD.EvSetSectionContents {| Mem.block := b; Mem.ofs := 0 |}
                     Sample.sample_cipher 90 10;
                   BFD.EvFree b] (BFD.with_heap (BFD.heap w) w)) /\
  exists w2 : BFD.world,
    IO.bfd_get_section_contents AES.AES128 0x80000 reader Sample.no_ctx [] []
      info w abfd' Sample.code_section Sample.caller_buffer (90 + 3) 5
    = Some (true, Sample.code_section, w2) /\
    Mem.load (BFD.heap w2) Sample.caller_buffer 5
    = Some (take (Z.to_nat 5) (drop (Z.to_nat 3) data)).
Proof.
  intros w abfd abfd' info reader data.
  apply (encrypted_section_reads_back AES.AES128 0x80000 Sample.writer_ok reader
           Sample.no_ctx [] [] info info w w abfd abfd' Sample.code_section
           Sample.code_section Sample.caller_buffer Sample.caller_buffer 90 10 3 5
           0%nat 0%nat Sample.keyed Sample.keyed
           (map Z.of_nat (seq 0 16)) (map Z.of_nat (seq 16 16)) (map Z.of_nat (seq 32 16))
           data Sample.sample_cipher (map Z.of_nat (seq 1 5)) (BFD.heap w) true);
    sample_side.
Defined.

Lemma cached_contents_read_back_witness :
  let w := Sample.cached_world in
  let info := Sample.registry [Sample.keyed] in
  let abfd := Sample.encrypted_bfd BFD.write_direction in
  let abfd' := Sample.encrypted_bfd BFD.read_direction in
  let section := Sample.cached_section (Z.lor BFD.SEC_CODE BFD.SEC_HAS_CONTENTS) in
  let section' :=
    Sample.cached_section
      (Z.lor BFD.SEC_CODE (Z.lor BFD.SEC_HAS_CONTENTS BFD.SEC_IN_MEMORY)) in
  let data := map Z.of_nat (seq 1 10) in
  let w1 :=
    (default (false, abfd, w)
       (IO.bfd_set_section_contents AES.AES128 0x80000 Sample.writer_ok Sample.no_ctx [] []
          info w abfd section Sample.caller_buffer 90 10)).2 in
  (* the write went through the cipher: the writer was handed the cipher *)
  BFD.trace w1
  = [BFD.EvMalloc 3 10;
     BFD.EvSetSectionContents {| Mem.block := 3; Mem.ofs := 0 |} Sample.sample_cipher 90 10;
     BFD.EvFree 3] /\
  Mem.load (BFD.heap w1) (Mem.ptr_add Sample.cache 90) 10 = Some data /\
  exists h2 : gmap nat (list Z),
    IO.bfd_get_section_contents AES.AES128 0x80000 Sample.reader_fails Sample.no_ctx [] []
      info w1 abfd' section' Sample.destination 90 10
    = Some (true, section', BFD.with_heap h2 w1) /\
    Mem.load h2 Sample.destination 10 = Some data.
Proof.
  intros w info abfd abfd' section section' data w1.
  split; [vm_compute; reflexivity |].
  apply (cached_contents_read_back AES.AES128 0x80000 Sample.writer_ok Sample.reader_fails
           Sample.no_ctx [] [] info info w w1 abfd
           (BFD.begin_output abfd) abfd' section section' Sample.caller_buffer
           Sample.destination Sample.cache 90 10 true data (repeat 9 10));
    first [ (left; vm_compute; intros; discriminate) | sample_side ].
Defined.

(* ===================================================================== *)
(** ** The registry: making, finding and walking sections *)
(* ===================================================================== *)

Section RegistryInvariant.

Import BFD Sec.

Variable bfd_hash_hash : string -> Z.
Variable new_section_hook : bfd -> asection -> bool.

Local Abbreviation table_ok := (Sec.table_ok bfd_hash_hash).

Lemma in_table_entries (t : bfd_hash_table) (e : section_hash_entry) :
  In e (concat (snd <$> map_to_list (table t))) <-> in_table t e.
Proof.
  rewrite in_concat. split.
  - intros (l & Hl & He). apply list_elem_of_In, list_elem_of_fmap in Hl as ([k l'] & -> & Hkl).
    apply elem_of_map_to_list in Hkl. exists k, l'. split; [exact Hkl |].
    apply list_elem_of_In. exact He.
  - intros (k & l & Hkl & He). exists l. split; [| apply list_elem_of_In; exact He].
    apply list_elem_of_In, list_elem_of_fmap. exists (k, l). split; [reflexivity |].
    apply elem_of_map_to_list. exact Hkl.
Qed.

Lemma NoDup_fmap_eq {A B : Type} (f : A -> B) (l : list A) (x y : A) :
  NoDup (f <$> l) -> x ∈ l -> y ∈ l -> f x = f y -> x = y.
Proof.
  induction l as [| a l IH]; intros Hnd Hx Hy Hf; [inversion Hx |].
  cbn in Hnd. apply NoDup_cons in Hnd as [Hnotin Hnd].
  apply elem_of_cons in Hx as [-> | Hx]; apply elem_of_cons in Hy as [-> | Hy]; auto.
  - exfalso. apply Hnotin. rewrite Hf. apply list_elem_of_fmap. eauto.
  - exfalso. apply Hnotin. rewrite <- Hf. apply list_elem_of_fmap. eauto.
Qed.

Lemma unique_entry (t : bfd_hash_table) (e1 e2 : section_hash_entry) :
  table_ok t -> in_table t e1 -> in_table t e2 -> addr e1 = addr e2 -> e1 = e2.
Proof.
  intros (_ & Hnd & Hdis) (k1 & l1 & H1 & He1) (k2 & l2 & H2 & He2) Ha.
  assert (k1 = k2) by (eapply Hdis; eauto). subst k2.
  assert (l1 = l2) by congruence. subst l2.
  eapply NoDup_fmap_eq; eauto.
Qed.

Lemma section_at_entry (abfd : bfd) (e : section_hash_entry) :
  table_ok (section_htab abfd) -> in_table (section_htab abfd) e ->
  section_at abfd (addr e) = Some (section e).
Proof.
  intros Hok He. unfold section_at.
  destruct (List.find _ _) as [e' |] eqn:E.
  - apply find_some in E as [Hin Ha]. apply Nat.eqb_eq in Ha.
    apply in_table_entries in Hin.
    rewrite (unique_entry _ e' e Hok Hin He Ha). reflexivity.
  - exfalso. apply in_table_entries in He.
    pose proof (find_none _ _ E e He) as H. cbn in H. rewrite Nat.eqb_refl in H. discriminate.
Qed.

Lemma section_at_in_table (abfd : bfd) (a : nat) (s : asection) :
  section_at abfd a = Some s ->
  exists e, in_table (section_htab abfd) e /\ addr e = a /\ section e = s.
Proof.
  unfold section_at. destruct (List.find _ _) as [e |] eqn:E; [| discriminate].
  intros [= <-]. apply find_some in E as [Hin Ha]. apply Nat.eqb_eq in Ha.
  exists e. split; [apply in_table_entries; exact Hin | auto].
Qed.

(** *** The table after a write through an [asection *] *)

Lemma in_table_update (a : nat) (f : asection -> asection) (t : bfd_hash_table)
    (e' : section_hash_entry) :
  in_table (update_section a f t) e' <->
  exists e, in_table t e /\ e' = rewritten a f e.
Proof.
  unfold in_table, update_section. cbn [table]. split.
  - intros (k & l' & Hk & He). rewrite lookup_fmap in Hk.
    destruct (table t !! k) as [l |] eqn:El; [| discriminate].
    cbn in Hk. injection Hk as <-.
    apply list_elem_of_In, in_map_iff in He as (e & <- & He).
    exists e. split; [| reflexivity]. exists k, l. split; [exact El |].
    apply list_elem_of_In. exact He.
  - intros (e & (k & l & Hk & He) & ->). exists k, (map (rewritten a f) l).
    rewrite lookup_fmap, Hk. split; [reflexivity |].
    apply list_elem_of_In, in_map. apply list_elem_of_In. exact He.
Qed.

Lemma rewritten_fields (a : nat) (f : asection -> asection) (e : section_hash_entry) :
  addr (rewritten a f e) = addr e /\
  root_hash (rewritten a f e) = root_hash e /\
  root_string (rewritten a f e) = root_string e.
Proof. unfold rewritten. destruct (addr e =? a)%nat; auto. Qed.

Lemma addr_rewritten (a : nat) (f : asection -> asection) (l : list section_hash_entry) :
  addr <$> map (rewritten a f) l = addr <$> l.
Proof.
  induction l as [| e l IH]; [reflexivity |]. cbn. rewrite IH.
  destruct (rewritten_fields a f e) as [-> _]. reflexivity.
Qed.

(** A write that keeps or sets the name keeps the table in order. *)
Lemma table_ok_update (a : nat) (f : asection -> asection) (t : bfd_hash_table) :
  (forall k l e, table t !! k = Some l -> e ∈ l ->
     k = bucket t (root_hash e) /\
     root_hash e = bfd_hash_hash (root_string e) /\
     (addr e < allocated t)%nat /\
     (addr e <> a -> BFD.name (section e) = Some (root_string e))) ->
  (forall k l, table t !! k = Some l -> NoDup (addr <$> l)) ->
  (forall k1 k2 l1 l2 e1 e2,
     table t !! k1 = Some l1 -> table t !! k2 = Some l2 ->
     e1 ∈ l1 -> e2 ∈ l2 -> addr e1 = addr e2 -> k1 = k2) ->
  (forall e, in_table t e -> addr e = a ->
     BFD.name (f (section e)) = Some (root_string e)) ->
  table_ok (update_section a f t).
Proof.
  intros Hfields Hnd Hdis Hname.
  assert (Hchain : forall k l', table (update_section a f t) !! k = Some l' ->
            exists l, table t !! k = Some l /\ l' = map (rewritten a f) l).
  { intros k l' Hk. unfold update_section in Hk. cbn [table] in Hk.
    rewrite lookup_fmap in Hk. destruct (table t !! k) as [l |]; [| discriminate].
    cbn in Hk. injection Hk as <-. eauto. }
  split; [| split].
  - intros k l' e' Hk He'. destruct (Hchain k l' Hk) as (l & Hl & ->).
    apply list_elem_of_In, in_map_iff in He' as (e & <- & He). apply list_elem_of_In in He.
    destruct (Hfields k l e Hl He) as (Hb & Hh & Ha & Hn).
    destruct (rewritten_fields a f e) as (Ea & Eh & Es). rewrite Ea, Eh, Es.
    unfold bucket, update_section in *. cbn [tsize allocated].
    repeat split; try assumption.
    unfold rewritten. destruct (addr e =? a)%nat eqn:E; cbn [section].
    + apply Nat.eqb_eq in E. apply Hname; [exists k, l; auto | exact E].
    + apply Nat.eqb_neq in E. auto.
  - intros k l' Hk. destruct (Hchain k l' Hk) as (l & Hl & ->).
    rewrite addr_rewritten. eauto.
  - intros k1 k2 l1' l2' e1' e2' H1 H2 He1 He2 Ha.
    destruct (Hchain k1 l1' H1) as (l1 & Hl1 & ->).
    destruct (Hchain k2 l2' H2) as (l2 & Hl2 & ->).
    apply list_elem_of_In, in_map_iff in He1 as (e1 & <- & He1).
    apply list_elem_of_In, in_map_iff in He2 as (e2 & <- & He2).
    destruct (rewritten_fields a f e1) as (E1 & _), (rewritten_fields a f e2) as (E2 & _).
    rewrite E1, E2 in Ha.
    apply (Hdis k1 k2 l1 l2 e1 e2); auto; apply list_elem_of_In; assumption.
Qed.


Lemma table_ok_update_keep (a : nat) (g : asection -> asection) (t : bfd_hash_table) :
  table_ok t -> (forall s, BFD.name (g s) = BFD.name s) ->
  table_ok (update_section a g t).
Proof.
  intros (Hf & Hnd & Hdis) Hg. apply table_ok_update; auto.
  - intros k l e Hk He. destruct (Hf k l e Hk He) as (? & ? & ? & ?). auto.
  - intros e (k & l & Hk & He) _. rewrite Hg. destruct (Hf k l e Hk He) as (? & ? & ? & ?). auto.
Qed.

Lemma chain_in_table (t : bfd_hash_table) (hash : Z) (e : section_hash_entry) :
  e ∈ chain t hash -> table t !! bucket t hash = Some (chain t hash).
Proof.
  unfold chain. destruct (table t !! bucket t hash) as [l |]; [reflexivity |].
  cbn. intros H. inversion H.
Qed.

Lemma lookup_create (t : bfd_hash_table) (s : string) :
  List.find (entry_matches (bfd_hash_hash s) s) (chain t (bfd_hash_hash s)) = None ->
  bfd_hash_lookup bfd_hash_hash t s true = (Some (new_entry bfd_hash_hash t s), with_new_entry bfd_hash_hash t s).
Proof. intros H. unfold bfd_hash_lookup. rewrite H. reflexivity. Qed.

Lemma with_new_entry_chains (t : bfd_hash_table) (s : string) (k : Z)
    (l : list section_hash_entry) :
  table (with_new_entry bfd_hash_hash t s) !! k = Some l ->
  (k = bucket t (bfd_hash_hash s) /\ l = new_entry bfd_hash_hash t s :: chain t (bfd_hash_hash s)) \/
  (k <> bucket t (bfd_hash_hash s) /\ table t !! k = Some l).
Proof.
  unfold with_new_entry. cbn [table]. intros H.
  destruct (decide (k = bucket t (bfd_hash_hash s))) as [-> | Hne].
  - rewrite lookup_insert_eq in H. injection H as <-. left. auto.
  - rewrite lookup_insert_ne in H by congruence. right. auto.
Qed.

(** The table with a new entry, written through at the address of that
    entry by a function that sets the name, is in order. *)
Lemma table_ok_named_new (t : bfd_hash_table) (s : string) (f : asection -> asection) :
  table_ok t ->
  (forall x, BFD.name (f x) = Some s) ->
  table_ok (update_section (allocated t) f (with_new_entry bfd_hash_hash t s)).
Proof.
  intros (Hf & Hnd & Hdis) Hname.
  assert (Hold : forall e, e ∈ chain t (bfd_hash_hash s) ->
            bucket t (bfd_hash_hash s) = bucket t (root_hash e) /\
            root_hash e = bfd_hash_hash (root_string e) /\
            (addr e < allocated t)%nat /\
            BFD.name (section e) = Some (root_string e)).
  { intros e He. apply (Hf _ _ e (chain_in_table _ _ _ He) He). }
  apply table_ok_update.
  - intros k l e Hk He.
    destruct (with_new_entry_chains _ _ _ _ Hk) as [[-> ->] | [Hne Hk']].
    + apply elem_of_cons in He as [-> | He].
      * cbn. repeat split; auto. intros H. contradiction.
      * destruct (Hold e He) as (? & ? & ? & ?). cbn [allocated with_new_entry].
        repeat split; auto.
    + destruct (Hf k l e Hk' He) as (? & ? & ? & ?). cbn [allocated with_new_entry].
      repeat split; auto.
  - intros k l Hk.
    destruct (with_new_entry_chains _ _ _ _ Hk) as [[-> ->] | [Hne Hk']]; [| eauto].
    cbn. apply NoDup_cons. split.
    + intros Hin. apply list_elem_of_fmap in Hin as (e & Ha & He).
      destruct (Hold e He) as (_ & _ & Hlt & _). cbn in Ha. lia.
    + destruct (chain t (bfd_hash_hash s)) as [| e0 r] eqn:Ec; [constructor |].
      rewrite <- Ec. apply (Hnd (bucket t (bfd_hash_hash s))).
      apply (chain_in_table _ _ e0). rewrite Ec. left.
  - intros k1 k2 l1 l2 e1 e2 H1 H2 He1 He2 Ha.
    assert (Hk : forall k l e, table (with_new_entry bfd_hash_hash t s) !! k = Some l -> e ∈ l ->
              (addr e = allocated t /\ k = bucket t (bfd_hash_hash s)) \/
              ((addr e < allocated t)%nat /\ exists l0, table t !! k = Some l0 /\ e ∈ l0)).
    { intros k l e Hk He.
      destruct (with_new_entry_chains _ _ _ _ Hk) as [[-> ->] | [Hne Hk']].
      - apply elem_of_cons in He as [-> | He]; [left; auto | right].
        destruct (Hold e He) as (_ & _ & Hlt & _). split; [exact Hlt |].
        exists (chain t (bfd_hash_hash s)). split; [| exact He].
        apply (chain_in_table _ _ e He).
      - right. destruct (Hf k l e Hk' He) as (_ & _ & Hlt & _). eauto. }
    destruct (Hk _ _ _ H1 He1) as [[A1 K1] | [A1 (m1 & M1 & I1)]];
      destruct (Hk _ _ _ H2 He2) as [[A2 K2] | [A2 (m2 & M2 & I2)]]; try lia; try congruence.
    eapply Hdis; eauto.
  - intros e Hin Ha. rewrite Hname.
    destruct Hin as (k & l & Hk & He).
    destruct (with_new_entry_chains _ _ _ _ Hk) as [[-> ->] | [Hne Hk']].
    + apply elem_of_cons in He as [-> | He]; [reflexivity |].
      destruct (Hold e He) as (_ & _ & Hlt & _). lia.
    + destruct (Hf k l e Hk' He) as (_ & _ & Hlt & _). lia.
Qed.


Lemma in_table_with_new (t : bfd_hash_table) (s : string) (e : section_hash_entry) :
  in_table (with_new_entry bfd_hash_hash t s) e <-> e = new_entry bfd_hash_hash t s \/ in_table t e.
Proof.
  split.
  - intros (k & l & Hk & He).
    destruct (with_new_entry_chains _ _ _ _ Hk) as [[-> ->] | [Hne Hk']].
    + apply elem_of_cons in He as [-> | He]; [left; reflexivity | right].
      exists (bucket t (bfd_hash_hash s)), (chain t (bfd_hash_hash s)).
      split; [apply (chain_in_table _ _ e He) | exact He].
    + right. exists k, l. auto.
  - intros [-> | (k & l & Hk & He)].
    + exists (bucket t (bfd_hash_hash s)), (new_entry bfd_hash_hash t s :: chain t (bfd_hash_hash s)).
      split; [apply lookup_insert_eq | left].
    + destruct (decide (k = bucket t (bfd_hash_hash s))) as [-> | Hne].
      * exists (bucket t (bfd_hash_hash s)), (new_entry bfd_hash_hash t s :: chain t (bfd_hash_hash s)).
        split; [apply lookup_insert_eq |]. right. unfold chain. rewrite Hk. exact He.
      * exists k, l. split; [| exact He]. unfold with_new_entry. cbn [table].
        rewrite lookup_insert_ne by congruence. exact Hk.
Qed.

Lemma chain_with_new (t : bfd_hash_table) (s : string) (hash : Z) :
  chain (with_new_entry bfd_hash_hash t s) hash
  = if decide (bucket t hash = bucket t (bfd_hash_hash s))
    then new_entry bfd_hash_hash t s :: chain t hash else chain t hash.
Proof.
  unfold chain at 1. unfold with_new_entry, bucket. cbn [table tsize]. fold (bucket t hash).
  fold (bucket t (bfd_hash_hash s)).
  destruct (decide (bucket t hash = bucket t (bfd_hash_hash s))) as [E | N].
  - rewrite E, lookup_insert_eq. cbn. unfold chain. rewrite E. reflexivity.
  - rewrite lookup_insert_ne by congruence. reflexivity.
Qed.

Lemma get_by_name_find (abfd : bfd) (name : string) :
  bfd_get_section_by_name bfd_hash_hash abfd name
  = addr <$> List.find (entry_matches (bfd_hash_hash name) name)
               (chain (section_htab abfd) (bfd_hash_hash name)).
Proof.
  unfold bfd_get_section_by_name, section_hash_lookup, bfd_hash_lookup.
  destruct (List.find _ _); reflexivity.
Qed.

Lemma with_htab_same (abfd : bfd) : with_htab (section_htab abfd) abfd = abfd.
Proof. destruct abfd. reflexivity. Qed.

(** What [bfd_section_init] does with a section that is an entry of a
    table in order. *)
Lemma bfd_section_init_entry (w : world) (abfd : bfd) (e : section_hash_entry) :
  table_ok (section_htab abfd) -> in_table (section_htab abfd) e ->
  let g := with_id_index (section_id w) (section_count abfd) in
  let t' := update_section (addr e) g (section_htab abfd) in
  let '(r, abfd', w') := bfd_section_init new_section_hook w abfd (addr e) in
  section_htab abfd' = t' /\ table_ok t' /\
  section_at abfd' (addr e) = Some (g (section e)) /\
  filename abfd' = filename abfd /\ bfd_flags abfd' = bfd_flags abfd /\
  direction abfd' = direction abfd /\ output_has_begun abfd' = output_has_begun abfd /\
  match r with
  | Some a' =>
      a' = addr e /\ sections abfd' = sections abfd ++ [addr e] /\
      section_count abfd' = to_unsigned_int (section_count abfd + 1) /\
      w' = with_section_id (to_unsigned_int (section_id w + 1)) w
  | None =>
      sections abfd' = sections abfd /\ section_count abfd' = section_count abfd /\ w' = w
  end.
Proof.
  intros Hok He g t'. unfold bfd_section_init. fold g. fold t'.
  assert (table_ok t') as Hok'.
  { apply table_ok_update_keep; [exact Hok | reflexivity]. }
  assert (section_at (with_htab t' abfd) (addr e) = Some (g (section e))) as Hat.
  { assert (in_table t' (rewritten (addr e) g e)) as Hin
      by (apply in_table_update; eauto).
    pose proof (section_at_entry (with_htab t' abfd) _ Hok' Hin) as H.
    destruct (rewritten_fields (addr e) g e) as (Ea & _). rewrite Ea in H.
    rewrite H. unfold rewritten. rewrite Nat.eqb_refl. reflexivity. }
  rewrite Hat.
  destruct (negb (new_section_hook (with_htab t' abfd) (g (section e)))).
  - split; [reflexivity |]. split; [exact Hok' |]. split; [exact Hat |].
    repeat split; reflexivity.
  - split; [reflexivity |]. split; [exact Hok' |]. split; [exact Hat |].
    repeat split; reflexivity.
Qed.


Lemma find_chain_update (a : nat) (f : asection -> asection) (t : bfd_hash_table)
    (name : string) :
  addr <$> List.find (entry_matches (bfd_hash_hash name) name)
             (chain (update_section a f t) (bfd_hash_hash name))
  = addr <$> List.find (entry_matches (bfd_hash_hash name) name)
               (chain t (bfd_hash_hash name)).
Proof. rewrite chain_update_section. apply find_rewritten. Qed.

Lemma section_at_same_table (abfd abfd' : bfd) (a : nat) :
  section_htab abfd' = section_htab abfd -> section_at abfd' a = section_at abfd a.
Proof. intros H. unfold section_at. rewrite H. reflexivity. Qed.

Lemma get_by_name_same_table (abfd abfd' : bfd) (name : string) :
  section_htab abfd' = section_htab abfd ->
  bfd_get_section_by_name bfd_hash_hash abfd' name
  = bfd_get_section_by_name bfd_hash_hash abfd name.
Proof. intros H. unfold bfd_get_section_by_name. rewrite H. reflexivity. Qed.

(** X13. [bfd_make_section_with_flags] on a name that the owner does not
    have yet (and that is not one of the four standard names), before
    output has begun, with the table in order. Whether the hook of the
    owner's format (which only answers) accepts the section or not, the
    table is in order
    afterwards, the section sits at the address the allocator handed out,
    with the name, the flags, the current [section_id] and the owner's
    count as its index, it is what [bfd_get_section_by_name] now returns
    for the name, and the lookups of other names and the other sections
    are as before. When the section is returned, it has been put at the
    end of the owner's list and the two counters have gone up by one;
    when the hook refused, null is returned and the list, the count and
    [section_id] are as before, but the name stays taken. *)
Theorem make_section_fresh_name (w : world) (abfd : bfd) (name : string) (flags : Z) :
  table_ok (section_htab abfd) ->
  output_has_begun abfd = false ->
  is_std_section_name name = false ->
  bfd_get_section_by_name bfd_hash_hash abfd name = None ->
  let a := allocated (section_htab abfd) in
  let '(r, abfd', w') :=
    bfd_make_section_with_flags bfd_hash_hash new_section_hook w abfd name flags in
  table_ok (section_htab abfd') /\
  section_at abfd' a
  = Some {| BFD.name := Some name; id := section_id w; index := section_count abfd;
            BFD.flags := flags; size := 0; rawsize := 0; contents := None |} /\
  bfd_get_section_by_name bfd_hash_hash abfd' name = Some a /\
  (forall other, other <> name ->
     bfd_get_section_by_name bfd_hash_hash abfd' other
     = bfd_get_section_by_name bfd_hash_hash abfd other) /\
  (forall b s, section_at abfd b = Some s -> b <> a /\ section_at abfd' b = Some s) /\
  match r with
  | Some a' =>
      a' = a /\ sections abfd' = sections abfd ++ [a] /\
      section_count abfd' = to_unsigned_int (section_count abfd + 1) /\
      w' = with_section_id (to_unsigned_int (section_id w + 1)) w
  | None =>
      sections abfd' = sections abfd /\ section_count abfd' = section_count abfd /\ w' = w
  end.
Proof.
  intros Hok Hout Hstd Hfresh a.
  unfold bfd_make_section_with_flags. rewrite Hout, Hstd.
  rewrite get_by_name_find in Hfresh.
  assert (Hnone : List.find (entry_matches (bfd_hash_hash name) name)
                    (chain (section_htab abfd) (bfd_hash_hash name)) = None).
  { destruct (List.find _ _); [discriminate | reflexivity]. }
  unfold section_hash_lookup. rewrite (lookup_create _ _ Hnone).
  cbn [new_entry section BFD.name zero_section addr]. fold a.
  set (f := fun s : asection => with_flags flags (with_name name s)).
  set (t1 := update_section a f (with_new_entry bfd_hash_hash (section_htab abfd) name)).
  assert (Hok1 : table_ok t1) by (apply table_ok_named_new; [exact Hok | reflexivity]).
  set (e1 := rewritten a f (new_entry bfd_hash_hash (section_htab abfd) name)).
  assert (Hin1 : in_table t1 e1).
  { apply in_table_update. exists (new_entry bfd_hash_hash (section_htab abfd) name).
    split; [apply in_table_with_new; left |]; reflexivity. }
  assert (Ha1 : addr e1 = a) by apply rewritten_fields.
  pose proof (bfd_section_init_entry w (with_htab t1 abfd) e1 Hok1 Hin1) as Hinit.
  rewrite Ha1 in Hinit. cbn zeta in Hinit.
  cbn [section_htab with_htab section_count] in Hinit.
  destruct (bfd_section_init new_section_hook w (with_htab t1 abfd) a) as [[r abfd'] w'].
  destruct Hinit as (Ht & Hok' & Hat & _ & _ & _ & _ & Hr).
  split; [rewrite Ht; exact Hok' |].
  split.
  { rewrite Hat. unfold e1, rewritten. cbn [addr new_entry]. rewrite Nat.eqb_refl.
    reflexivity. }
  split.
  { rewrite get_by_name_find, Ht, find_chain_update. unfold t1.
    rewrite find_chain_update, chain_with_new.
    rewrite decide_True by reflexivity. cbn [List.find].
    unfold entry_matches at 1. cbn [new_entry root_hash root_string].
    rewrite Z.eqb_refl, String.eqb_refl. reflexivity. }
  split.
  { intros other Hother. rewrite !get_by_name_find, Ht, find_chain_update. unfold t1.
    rewrite find_chain_update, chain_with_new.
    destruct (decide _); [| reflexivity]. cbn [List.find].
    unfold entry_matches at 1. cbn [new_entry root_hash root_string].
    assert (String.eqb name other = false) as -> by (apply String.eqb_neq; congruence).
    rewrite andb_false_r. reflexivity. }
  split.
  { intros b s Hs. apply section_at_in_table in Hs as (e & Hin & <- & <-).
    assert (addr e <> a) as Hne.
    { destruct Hok as (Hf & _). destruct Hin as (k & l & Hk & He).
      destruct (Hf k l e Hk He) as (_ & _ & Hlt & _). unfold a. lia. }
    split; [exact Hne |].
    assert (in_table (section_htab abfd') e) as Hin'.
    { rewrite Ht. apply in_table_update. exists (rewritten a f e). split.
      - apply in_table_update. exists e. split; [apply in_table_with_new; auto |].
        reflexivity.
      - unfold rewritten. apply Nat.eqb_neq in Hne. rewrite Hne. cbn [addr].
        rewrite Hne. reflexivity. }
    apply section_at_entry; [rewrite Ht; exact Hok' | exact Hin']. }
  exact Hr.
Qed.


Lemma find_in_table (t : bfd_hash_table) (hash : Z) (name : string)
    (sh : section_hash_entry) :
  List.find (entry_matches hash name) (chain t hash) = Some sh ->
  in_table t sh /\ root_hash sh = hash /\ root_string sh = name.
Proof.
  intros H. apply find_some in H as [Hin Hm]. apply list_elem_of_In in Hin.
  unfold entry_matches in Hm. apply andb_true_iff in Hm as [Hh Hs].
  apply Z.eqb_eq in Hh. apply String.eqb_eq in Hs.
  split; [| auto]. exists (bucket t hash), (chain t hash).
  split; [apply (chain_in_table _ _ sh Hin) | exact Hin].
Qed.

Lemma in_table_named (t : bfd_hash_table) (e : section_hash_entry) :
  table_ok t -> in_table t e -> BFD.name (section e) = Some (root_string e).
Proof.
  intros (Hf & _) (k & l & Hk & He). destruct (Hf k l e Hk He) as (_ & _ & _ & Hn). exact Hn.
Qed.

(** X14. Before output has begun, on a name that is none of the four
    standard names and that [bfd_get_section_by_name] finds,
    [bfd_make_section_with_flags] and [bfd_make_section] return null and
    [bfd_make_section_old_way] returns the section found; none of them
    changes the owner or the process state, and none sets [bfd_error]. *)
Theorem taken_name_changes_nothing (w : world) (abfd : bfd) (name : string)
    (flags : Z) (a : nat) :
  table_ok (section_htab abfd) ->
  output_has_begun abfd = false ->
  is_std_section_name name = false ->
  bfd_get_section_by_name bfd_hash_hash abfd name = Some a ->
  bfd_make_section_with_flags bfd_hash_hash new_section_hook w abfd name flags
  = (None, abfd, w) /\
  bfd_make_section bfd_hash_hash new_section_hook w abfd name = (None, abfd, w) /\
  bfd_make_section_old_way bfd_hash_hash new_section_hook w abfd name
  = (Some (TableSection a), abfd, w).
Proof.
  intros Hok Hout Hstd Hget.
  rewrite get_by_name_find in Hget.
  destruct (List.find _ _) as [sh |] eqn:Hfind; [| discriminate].
  cbn in Hget. injection Hget as <-.
  destruct (find_in_table _ _ _ _ Hfind) as (Hin & _ & _).
  pose proof (in_table_named _ _ Hok Hin) as Hnamed.
  assert (Hlookup : section_hash_lookup bfd_hash_hash (section_htab abfd) name true
                    = (Some sh, section_htab abfd)).
  { unfold section_hash_lookup, bfd_hash_lookup. rewrite Hfind. reflexivity. }
  assert (Hwith : bfd_make_section_with_flags bfd_hash_hash new_section_hook w abfd name flags
                  = (None, abfd, w) /\
                  bfd_make_section bfd_hash_hash new_section_hook w abfd name
                  = (None, abfd, w)).
  { unfold bfd_make_section, bfd_make_section_with_flags.
    rewrite Hout, Hstd, Hlookup, Hnamed, with_htab_same. auto. }
  destruct Hwith as [H1 H2]. split; [exact H1 |]. split; [exact H2 |].
  unfold is_std_section_name in Hstd.
  apply orb_false_iff in Hstd as [Hstd Hind]. apply orb_false_iff in Hstd as [Hstd Hund].
  apply orb_false_iff in Hstd as [Habs Hcom].
  unfold bfd_make_section_old_way.
  rewrite Hout, Habs, Hcom, Hund, Hind, Hlookup, Hnamed, with_htab_same. reflexivity.
Qed.


(** *** A second section of a name *)

Lemma insert_after_split (a : nat) (n : section_hash_entry) (l : list section_hash_entry) :
  (exists l1 x l2, l = l1 ++ x :: l2 /\ addr x = a /\
                   insert_after a n l = l1 ++ x :: n :: l2) \/
  ((forall y, y ∈ l -> addr y <> a) /\ insert_after a n l = l).
Proof.
  induction l as [| e r IH]; cbn [insert_after].
  - right. split; [intros y Hy; inversion Hy | reflexivity].
  - destruct (addr e =? a)%nat eqn:E.
    + apply Nat.eqb_eq in E. left. exists [], e, r. auto.
    + apply Nat.eqb_neq in E.
      destruct IH as [(l1 & x & l2 & -> & Hx & ->) | [Hall ->]].
      * left. exists (e :: l1), x, l2. auto.
      * right. split; [| reflexivity].
        intros y Hy. apply elem_of_cons in Hy as [-> | Hy]; auto.
Qed.

Lemma elem_of_insert_after (a : nat) (n e : section_hash_entry)
    (l : list section_hash_entry) :
  e ∈ insert_after a n l -> e = n \/ e ∈ l.
Proof.
  destruct (insert_after_split a n l) as [(l1 & x & l2 & -> & _ & ->) | [_ ->]]; [| auto].
  rewrite !elem_of_app, !elem_of_cons. tauto.
Qed.

Lemma insert_after_keeps (a : nat) (n e : section_hash_entry)
    (l : list section_hash_entry) :
  e ∈ l -> e ∈ insert_after a n l.
Proof.
  destruct (insert_after_split a n l) as [(l1 & x & l2 & -> & _ & ->) | [_ ->]]; [| auto].
  rewrite !elem_of_app, !elem_of_cons. tauto.
Qed.

Lemma NoDup_insert_after (a : nat) (n : section_hash_entry) (l : list section_hash_entry) :
  NoDup (addr <$> l) -> (forall y, y ∈ l -> addr y <> addr n) ->
  NoDup (addr <$> insert_after a n l).
Proof.
  intros Hnd Hfresh.
  destruct (insert_after_split a n l) as [(l1 & x & l2 & -> & _ & ->) | [_ ->]]; [| auto].
  rewrite fmap_app in *. cbn [fmap list_fmap] in *.
  apply NoDup_app in Hnd as (H1 & H12 & H2). apply NoDup_cons in H2 as [Hx H2].
  apply NoDup_app. split; [exact H1 |]. split.
  - intros y Hy Hin. apply elem_of_cons in Hin as [-> | Hin].
    + apply (H12 _ Hy). left.
    + apply elem_of_cons in Hin as [-> | Hin].
      * apply list_elem_of_fmap in Hy as (e & He & Hin1).
        apply (Hfresh e); [apply elem_of_app; auto | congruence].
      * apply (H12 _ Hy). right. exact Hin.
  - apply NoDup_cons. split.
    + intros Hin. apply elem_of_cons in Hin as [E | Hin]; [| contradiction].
      apply (Hfresh x); [apply elem_of_app; right; left | exact E].
    + apply NoDup_cons. split; [| exact H2].
      intros Hin. apply list_elem_of_fmap in Hin as (e & He & Hin2).
      apply (Hfresh e); [apply elem_of_app; right; right; exact Hin2 | congruence].
Qed.

Lemma with_chained_entry_chains (t : bfd_hash_table) (sh : section_hash_entry) (k : Z)
    (l : list section_hash_entry) :
  table (with_chained_entry t sh) !! k = Some l ->
  (k = bucket t (root_hash sh) /\
   exists l0, table t !! k = Some l0 /\
              l = insert_after (addr sh) (chained_entry t sh) l0) \/
  (k <> bucket t (root_hash sh) /\ table t !! k = Some l).
Proof.
  unfold with_chained_entry. cbn [table]. intros H.
  destruct (decide (k = bucket t (root_hash sh))) as [-> | Hne].
  - rewrite lookup_alter_eq in H.
    destruct (table t !! bucket t (root_hash sh)) as [l0 |]; [| discriminate].
    cbn in H. injection H as <-. left. eauto.
  - rewrite lookup_alter_ne in H by congruence. right. auto.
Qed.

Lemma table_ok_named_chained (t : bfd_hash_table) (sh : section_hash_entry)
    (f : asection -> asection) :
  table_ok t -> in_table t sh ->
  (forall x, BFD.name (f x) = Some (root_string sh)) ->
  table_ok (update_section (allocated t) f (with_chained_entry t sh)).
Proof.
  intros Hok Hsh Hname. pose proof Hok as (Hf & Hnd & Hdis).
  assert (Hshf : root_hash sh = bfd_hash_hash (root_string sh)).
  { destruct Hsh as (k & l & Hk & He). apply (Hf k l sh Hk He). }
  assert (Hk : forall k l e, table (with_chained_entry t sh) !! k = Some l -> e ∈ l ->
            (e = chained_entry t sh /\ k = bucket t (root_hash sh)) \/
            ((addr e < allocated t)%nat /\ exists l0, table t !! k = Some l0 /\ e ∈ l0)).
  { intros k l e Hl He.
    destruct (with_chained_entry_chains _ _ _ _ Hl) as [[-> (l0 & Hl0 & ->)] | [Hne Hl']].
    - apply elem_of_insert_after in He as [-> | He]; [left; auto | right].
      destruct (Hf _ _ e Hl0 He) as (_ & _ & Hlt & _). eauto.
    - right. destruct (Hf k l e Hl' He) as (_ & _ & Hlt & _). eauto. }
  apply table_ok_update.
  - intros k l e Hl He. cbn [allocated with_chained_entry].
    destruct (Hk k l e Hl He) as [[-> ->] | [Hlt (l0 & Hl0 & He0)]].
    + cbn. repeat split; auto. intros H. contradiction.
    + destruct (Hf k l0 e Hl0 He0) as (? & ? & ? & ?). repeat split; auto.
  - intros k l Hl.
    destruct (with_chained_entry_chains _ _ _ _ Hl) as [[-> (l0 & Hl0 & ->)] | [Hne Hl']];
      [| eauto].
    apply NoDup_insert_after; [eauto |].
    intros y Hy. destruct (Hf _ _ y Hl0 Hy) as (_ & _ & Hlt & _). cbn. lia.
  - intros k1 k2 l1 l2 e1 e2 H1 H2 He1 He2 Ha.
    destruct (Hk _ _ _ H1 He1) as [[-> K1] | [A1 (m1 & M1 & I1)]];
      destruct (Hk _ _ _ H2 He2) as [[-> K2] | [A2 (m2 & M2 & I2)]];
      cbn [addr chained_entry] in *; try lia; try congruence.
    eapply Hdis; eauto.
  - intros e (k & l & Hl & He) Ha. rewrite Hname.
    destruct (Hk k l e Hl He) as [[-> _] | [Hlt _]]; [reflexivity | lia].
Qed.

Lemma in_table_with_chained (t : bfd_hash_table) (sh e : section_hash_entry) :
  in_table t sh -> table_ok t ->
  in_table (with_chained_entry t sh) e <-> e = chained_entry t sh \/ in_table t e.
Proof.
  intros Hsh Hok. split.
  - intros (k & l & Hl & He).
    destruct (with_chained_entry_chains _ _ _ _ Hl) as [[-> (l0 & Hl0 & ->)] | [Hne Hl']].
    + apply elem_of_insert_after in He as [-> | He]; [left; reflexivity | right].
      exists (bucket t (root_hash sh)), l0. auto.
    + right. exists k, l. auto.
  - destruct Hsh as (k0 & l0 & Hk0 & Hsh0).
    assert (k0 = bucket t (root_hash sh)) as ->.
    { destruct Hok as (Hf & _). apply (Hf _ _ sh Hk0 Hsh0). }
    assert (Hnew : table (with_chained_entry t sh) !! bucket t (root_hash sh)
                   = Some (insert_after (addr sh) (chained_entry t sh) l0)).
    { unfold with_chained_entry. cbn [table]. rewrite lookup_alter_eq, Hk0. reflexivity. }
    intros [-> | (k & l & Hl & He)].
    + exists (bucket t (root_hash sh)), (insert_after (addr sh) (chained_entry t sh) l0).
      split; [exact Hnew |].
      destruct (insert_after_split (addr sh) (chained_entry t sh) l0)
        as [(l1 & x & l2 & -> & _ & ->) | [Hall _]].
      * rewrite elem_of_app, !elem_of_cons. tauto.
      * exfalso. apply (Hall sh Hsh0). reflexivity.
    + destruct (decide (k = bucket t (root_hash sh))) as [-> | Hne].
      * exists (bucket t (root_hash sh)), (insert_after (addr sh) (chained_entry t sh) l0).
        split; [exact Hnew |]. apply insert_after_keeps. congruence.
      * exists k, l. split; [| exact He]. unfold with_chained_entry. cbn [table].
        rewrite lookup_alter_ne by congruence. exact Hl.
Qed.

Lemma chain_with_chained (t : bfd_hash_table) (sh : section_hash_entry) (hash : Z) :
  chain (with_chained_entry t sh) hash
  = if decide (bucket t hash = bucket t (root_hash sh))
    then insert_after (addr sh) (chained_entry t sh) (chain t hash) else chain t hash.
Proof.
  unfold chain at 1. unfold with_chained_entry, bucket. cbn [table tsize].
  fold (bucket t hash). fold (bucket t (root_hash sh)).
  destruct (decide (bucket t hash = bucket t (root_hash sh))) as [E | N].
  - rewrite E, lookup_alter_eq. unfold chain. rewrite E.
    destruct (table t !! bucket t (root_hash sh)); reflexivity.
  - rewrite lookup_alter_ne by congruence. reflexivity.
Qed.


Local Abbreviation named hash name :=
  (fun e : section_hash_entry => entry_matches hash name e = true).

Lemma find_filter (hash : Z) (name : string) (l : list section_hash_entry) :
  List.find (entry_matches hash name) l = head (filter (named hash name) l).
Proof.
  induction l as [| e r IH]; [reflexivity |]. cbn [List.find].
  destruct (entry_matches hash name e) eqn:E.
  - rewrite filter_cons_True by exact E. reflexivity.
  - rewrite filter_cons_False by congruence. exact IH.
Qed.

Lemma filter_rewritten (hash : Z) (name : string) (a : nat) (f : asection -> asection)
    (l : list section_hash_entry) :
  addr <$> filter (named hash name) (map (rewritten a f) l)
  = addr <$> filter (named hash name) l.
Proof.
  induction l as [| e r IH]; [reflexivity |]. cbn [map].
  assert (entry_matches hash name (rewritten a f e) = entry_matches hash name e) as Em.
  { unfold rewritten. destruct (addr e =? a)%nat; reflexivity. }
  destruct (entry_matches hash name e) eqn:E.
  - rewrite !filter_cons_True by congruence. cbn. rewrite IH.
    destruct (rewritten_fields a f e) as [-> _]. reflexivity.
  - rewrite !filter_cons_False by congruence. exact IH.
Qed.

(** An entry chained behind the first entry of a name comes second in
    the walk. *)
Lemma filter_insert_after (hash : Z) (name : string) (sh n : section_hash_entry)
    (l rest : list section_hash_entry) :
  filter (named hash name) l = sh :: rest ->
  NoDup (addr <$> l) ->
  entry_matches hash name n = true ->
  filter (named hash name) (insert_after (addr sh) n l) = sh :: n :: rest.
Proof.
  induction l as [| e r IH]; intros Hf Hnd Hn; [discriminate |].
  cbn [fmap list_fmap] in Hnd. apply NoDup_cons in Hnd as [Hnotin Hnd].
  cbn [insert_after].
  destruct (entry_matches hash name e) eqn:E.
  - rewrite filter_cons_True in Hf by exact E. injection Hf as -> <-.
    rewrite Nat.eqb_refl. rewrite filter_cons_True by exact E.
    rewrite filter_cons_True by exact Hn. reflexivity.
  - rewrite filter_cons_False in Hf by congruence.
    assert (sh ∈ r) as Hin.
    { assert (sh ∈ filter (named hash name) r) as H by (rewrite Hf; left).
      apply list_elem_of_filter in H as [_ H]. exact H. }
    assert ((addr e =? addr sh)%nat = false) as ->.
    { apply Nat.eqb_neq. intros Ea. apply Hnotin. rewrite Ea.
      apply list_elem_of_fmap. eauto. }
    rewrite filter_cons_False by congruence. apply IH; assumption.
Qed.

Lemma same_name_chain_update (abfd : bfd) (a : nat) (f : asection -> asection)
    (name : string) :
  same_name_chain bfd_hash_hash
    (with_htab (update_section a f (section_htab abfd)) abfd) name
  = same_name_chain bfd_hash_hash abfd name.
Proof.
  unfold same_name_chain. cbn [section_htab with_htab].
  rewrite chain_update_section. apply filter_rewritten.
Qed.

Lemma same_name_chain_same_table (abfd abfd' : bfd) (name : string) :
  section_htab abfd' = section_htab abfd ->
  same_name_chain bfd_hash_hash abfd' name = same_name_chain bfd_hash_hash abfd name.
Proof. intros H. unfold same_name_chain. rewrite H. reflexivity. Qed.

(** X15. [bfd_make_section_anyway_with_flags], before output has begun,
    on a name the owner has already: the new section is chained right
    behind the first section of that name, in front of the other ones.
    The walk along the name, which
    met [first :: others], meets [first], then the new section, then
    [others]; [bfd_get_section_by_name] goes on returning [first]. So
    after sections s1, s2, .. sn of one name have been made, the walk
    meets s1, then sn down to s2. *)
Theorem anyway_chains_behind_first (w : world) (abfd : bfd) (name : string) (flags : Z)
    (first : nat) (others : list nat) :
  table_ok (section_htab abfd) ->
  output_has_begun abfd = false ->
  same_name_chain bfd_hash_hash abfd name = first :: others ->
  let a := allocated (section_htab abfd) in
  let '(r, abfd', w') :=
    bfd_make_section_anyway_with_flags bfd_hash_hash new_section_hook w abfd name flags in
  table_ok (section_htab abfd') /\
  same_name_chain bfd_hash_hash abfd' name = first :: a :: others /\
  bfd_get_section_by_name bfd_hash_hash abfd' name = Some first /\
  section_at abfd' a
  = Some {| BFD.name := Some name; id := section_id w; index := section_count abfd;
            BFD.flags := flags; size := 0; rawsize := 0; contents := None |} /\
  match r with
  | Some a' =>
      a' = a /\ sections abfd' = sections abfd ++ [a] /\
      section_count abfd' = to_unsigned_int (section_count abfd + 1) /\
      w' = with_section_id (to_unsigned_int (section_id w + 1)) w
  | None =>
      sections abfd' = sections abfd /\ section_count abfd' = section_count abfd /\ w' = w
  end.
Proof.
  intros Hok Hout Hchain a.
  set (hash := bfd_hash_hash name) in *.
  unfold same_name_chain in Hchain. fold hash in Hchain.
  destruct (filter (named hash name) (chain (section_htab abfd) hash)) as [| sh rest] eqn:Hf;
    [discriminate |].
  cbn in Hchain. injection Hchain as Hfirst Hothers.
  assert (Hfind : List.find (entry_matches hash name) (chain (section_htab abfd) hash)
                  = Some sh) by (rewrite find_filter, Hf; reflexivity).
  destruct (find_in_table _ _ _ _ Hfind) as (Hin & Hh & Hs).
  pose proof (in_table_named _ _ Hok Hin) as Hnamed.
  unfold bfd_make_section_anyway_with_flags. rewrite Hout.
  unfold section_hash_lookup, bfd_hash_lookup. fold hash. rewrite Hfind, Hnamed.
  fold (chained_entry (section_htab abfd) sh).
  fold (with_chained_entry (section_htab abfd) sh).
  cbn [addr chained_entry]. fold a.
  set (f := fun s : asection => with_name name (with_flags flags s)).
  set (t1 := update_section a f (with_chained_entry (section_htab abfd) sh)).
  assert (Hok1 : table_ok t1).
  { apply table_ok_named_chained; [exact Hok | exact Hin |]. intros x. cbn. congruence. }
  set (e1 := rewritten a f (chained_entry (section_htab abfd) sh)).
  assert (Hin1 : in_table t1 e1).
  { apply in_table_update. exists (chained_entry (section_htab abfd) sh).
    split; [apply in_table_with_chained; auto | reflexivity]. }
  assert (Ha1 : addr e1 = a) by apply rewritten_fields.
  pose proof (bfd_section_init_entry w (with_htab t1 abfd) e1 Hok1 Hin1) as Hinit.
  rewrite Ha1 in Hinit. cbn zeta in Hinit.
  cbn [section_htab with_htab section_count] in Hinit.
  destruct (bfd_section_init new_section_hook w (with_htab t1 abfd) a) as [[r abfd'] w'].
  destruct Hinit as (Ht & Hok' & Hat & _ & _ & _ & _ & Hr).
  assert (Hchain' : same_name_chain bfd_hash_hash abfd' name = first :: a :: others).
  { unfold same_name_chain. fold hash. rewrite Ht, chain_update_section, filter_rewritten.
    unfold t1. rewrite chain_update_section, filter_rewritten, chain_with_chained.
    rewrite Hh, decide_True by reflexivity.
    assert (NoDup (addr <$> chain (section_htab abfd) hash)) as Hnd.
    { destruct Hok as (_ & Hnd & _). apply (Hnd (bucket (section_htab abfd) hash)).
      apply (chain_in_table _ _ sh). apply find_some in Hfind as [H _].
      apply list_elem_of_In. exact H. }
    rewrite (filter_insert_after hash name sh _ _ rest Hf Hnd).
    - cbn. rewrite Hfirst, Hothers. reflexivity.
    - unfold entry_matches. cbn [chained_entry root_hash root_string].
      rewrite Hh, Hs, Z.eqb_refl, String.eqb_refl. reflexivity. }
  split; [rewrite Ht; exact Hok' |].
  split; [exact Hchain' |].
  split.
  { rewrite get_by_name_find. fold hash. rewrite find_filter.
    unfold same_name_chain in Hchain'. fold hash in Hchain'.
    destruct (filter (named hash name) (chain (section_htab abfd') hash)) as [| x r'];
      [discriminate |]. cbn in *. congruence. }
  split; [| exact Hr].
  rewrite Hat. unfold e1, rewritten. cbn [addr chained_entry]. rewrite Nat.eqb_refl.
  reflexivity.
Qed.


(** *** Walking along the sections of a name *)

Lemma behind_split (e : section_hash_entry) (l1 l2 : list section_hash_entry) :
  NoDup (addr <$> (l1 ++ e :: l2)) -> behind (addr e) (l1 ++ e :: l2) = Some (e, l2).
Proof.
  induction l1 as [| x l1 IH]; cbn [app behind fmap list_fmap]; intros Hnd.
  - rewrite Nat.eqb_refl. reflexivity.
  - apply NoDup_cons in Hnd as [Hnotin Hnd].
    assert ((addr x =? addr e)%nat = false) as ->; [| auto].
    apply Nat.eqb_neq. intros E. apply Hnotin. rewrite E.
    apply list_elem_of_fmap. exists e. split; [reflexivity |].
    apply elem_of_app. right. left.
Qed.

Lemma entry_of_chain (t : bfd_hash_table) (k : Z) (l : list section_hash_entry)
    (e : section_hash_entry) :
  table_ok t -> table t !! k = Some l -> e ∈ l ->
  entry_of t (addr e) = behind (addr e) l.
Proof.
  intros (_ & _ & Hdis) Hk He. unfold entry_of.
  destruct (List.find _ _) as [l' |] eqn:E.
  - apply find_some in E as [Hin Hex].
    apply list_elem_of_In, list_elem_of_fmap in Hin as ([k' l''] & -> & Hkl).
    apply elem_of_map_to_list in Hkl. cbn [snd] in *.
    apply existsb_exists in Hex as (e' & He' & Ha). apply Nat.eqb_eq in Ha.
    apply list_elem_of_In in He'.
    assert (k' = k) by (eapply Hdis; eauto). subst k'.
    assert (l'' = l) by congruence. subst l''. reflexivity.
  - exfalso.
    assert (In l (snd <$> map_to_list (table t))) as Hin.
    { apply list_elem_of_In, list_elem_of_fmap. exists (k, l). split; [reflexivity |].
      apply elem_of_map_to_list. exact Hk. }
    pose proof (find_none _ _ E l Hin) as H. cbn in H.
    assert (existsb (fun e0 => (addr e0 =? addr e)%nat) l = true) as H'.
    { apply existsb_exists. exists e. split; [apply list_elem_of_In; exact He |].
      apply Nat.eqb_refl. }
    congruence.
Qed.

Lemma filter_split {A : Type} (P : A -> Prop) `{forall x, Decision (P x)}
    (l f1 f2 : list A) (e : A) :
  filter P l = f1 ++ e :: f2 ->
  P e /\ exists l1 l2, l = l1 ++ e :: l2 /\ filter P l1 = f1 /\ filter P l2 = f2.
Proof.
  revert f1. induction l as [| x r IH]; intros f1 Hf.
  - destruct f1; discriminate.
  - destruct (decide (P x)) as [Hx | Hx].
    + rewrite filter_cons_True in Hf by exact Hx.
      destruct f1 as [| y f1]; cbn in Hf.
      * injection Hf as -> <-. split; [exact Hx |]. exists [], r. auto.
      * injection Hf as -> Hf. destruct (IH f1 Hf) as (He & l1 & l2 & -> & <- & <-).
        split; [exact He |].
        exists (y :: l1), l2. rewrite filter_cons_True by exact Hx. auto.
    + rewrite filter_cons_False in Hf by exact Hx.
      destruct (IH f1 Hf) as (He & l1 & l2 & -> & <- & <-). split; [exact He |].
      exists (x :: l1), l2. rewrite filter_cons_False by exact Hx. auto.
Qed.

(** X16. [bfd_get_section_by_name] followed by calls to
    [bfd_get_next_section_by_name] with a null [ibfd] goes through the
    sections of a name in the order of their entries in the chain, each
    one once, and ends with null behind the last one. *)
Theorem walk_along_name (abfd : bfd) (name : string) :
  table_ok (section_htab abfd) ->
  bfd_get_section_by_name bfd_hash_hash abfd name
  = head (same_name_chain bfd_hash_hash abfd name) /\
  forall (front : list nat) (a : nat) (back : list nat),
    same_name_chain bfd_hash_hash abfd name = front ++ a :: back ->
    bfd_get_next_section_by_name bfd_hash_hash [] abfd a
    = Some (match back with a' :: _ => InOwner a' | [] => NoSection end).
Proof.
  intros Hok. set (hash := bfd_hash_hash name).
  split.
  - rewrite get_by_name_find. fold hash. rewrite find_filter. unfold same_name_chain.
    fold hash. destruct (filter _ _); reflexivity.
  - intros front a back Hchain. unfold same_name_chain in Hchain. fold hash in Hchain.
    apply fmap_app_inv in Hchain as (f1 & f2' & _ & Hf2 & Hfilter).
    symmetry in Hf2. apply fmap_cons_inv in Hf2 as (e & f2 & -> & -> & ->).
    apply filter_split in Hfilter as (Hm & l1 & l2 & Hl & _ & Hf2).
    assert (e ∈ chain (section_htab abfd) hash) as He
      by (rewrite Hl; apply elem_of_app; right; left).
    pose proof (chain_in_table _ _ _ He) as Hk.
    assert (in_table (section_htab abfd) e) as Hin by (eexists _, _; eauto).
    pose proof (in_table_named _ _ Hok Hin) as Hnamed.
    pose proof Hm as Hm'. unfold entry_matches in Hm'.
    apply andb_true_iff in Hm' as [Hh Hs]. apply Z.eqb_eq in Hh. apply String.eqb_eq in Hs.
    unfold bfd_get_next_section_by_name.
    rewrite (entry_of_chain _ _ _ e Hok Hk He), Hl.
    rewrite behind_split.
    + rewrite Hnamed, Hs, Hh. fold hash. rewrite find_filter, Hf2.
      destruct f2; reflexivity.
    + rewrite <- Hl. destruct Hok as (_ & Hnd & _). eauto.
Qed.


Lemma linker_walk_unfold (sh : section_hash_entry) (rest : list section_hash_entry) :
  linker_walk sh rest
  = if has_flag (flags (section sh)) SEC_LINKER_CREATED then Some (Some (addr sh))
    else
      match BFD.name (section sh) with
      | Some name =>
          match rest with
          | [] => Some None
          | e :: l' =>
              if entry_matches (root_hash sh) name e then linker_walk e l'
              else linker_walk
                     {| addr := addr sh; root_string := root_string sh;
                        root_hash := root_hash sh; section := section sh |} l'
          end
      | None =>
          if existsb (fun e => root_hash e =? root_hash sh) rest then None else Some None
      end.
Proof.
  destruct rest as [| e l']; cbn [linker_walk].
  - destruct (has_flag _ _); [reflexivity |]. destruct (BFD.name (section sh)); reflexivity.
  - destruct (has_flag _ _) eqn:Ef; [reflexivity |].
    destruct (BFD.name (section sh)) as [name |] eqn:En; [| reflexivity].
    destruct (entry_matches (root_hash sh) name e); [reflexivity |].
    destruct l' as [| e' l'']; cbn [linker_walk section addr root_hash];
      rewrite Ef, En; reflexivity.
Qed.

Lemma linker_walk_spec (hash : Z) (name : string) (rest : list section_hash_entry) :
  forall sh : section_hash_entry,
    (forall x, x ∈ rest -> BFD.name (section x) = Some (root_string x)) ->
    BFD.name (section sh) = Some name -> root_hash sh = hash ->
    linker_walk sh rest
    = Some (addr <$>
              List.find (fun x => has_flag (flags (section x)) SEC_LINKER_CREATED)
                        (sh :: filter (named hash name) rest)).
Proof.
  induction rest as [| e r IH]; intros sh Hnamed Hn Hh; rewrite linker_walk_unfold;
    cbn [List.find]; destruct (has_flag (flags (section sh)) SEC_LINKER_CREATED) eqn:Ef;
    try reflexivity; rewrite Hn, ?Hh.
  - reflexivity.
  - destruct (entry_matches hash name e) eqn:Em.
    + rewrite filter_cons_True by exact Em.
      pose proof Em as Em'. unfold entry_matches in Em'.
      apply andb_true_iff in Em' as [Eh Es]. apply Z.eqb_eq in Eh. apply String.eqb_eq in Es.
      apply IH; [intros x Hx; apply Hnamed; right; exact Hx | | exact Eh].
      rewrite (Hnamed e) by left. congruence.
    + rewrite filter_cons_False by congruence.
      rewrite (IH {| addr := addr sh; root_string := root_string sh; root_hash := hash;
                     section := section sh |});
        [| intros x Hx; apply Hnamed; right; exact Hx | exact Hn | reflexivity].
      cbn [List.find section addr]. rewrite Ef. reflexivity.
Qed.

Lemma find_by_address (abfd : bfd) (p : asection -> bool) (l : list section_hash_entry) :
  table_ok (section_htab abfd) ->
  (forall e, e ∈ l -> in_table (section_htab abfd) e) ->
  addr <$> List.find (fun e => p (section e)) l
  = List.find (fun a => match section_at abfd a with Some s => p s | None => false end)
              (addr <$> l).
Proof.
  intros Hok. induction l as [| e r IH]; intros Hin; [reflexivity |].
  cbn [List.find fmap list_fmap].
  rewrite (section_at_entry abfd e Hok) by (apply Hin; left).
  destruct (p (section e)); [reflexivity |].
  apply IH. intros x Hx. apply Hin. right. exact Hx.
Qed.

(** X17. [bfd_get_linker_section] returns the first section of the name,
    in the order of the walk, that has [SEC_LINKER_CREATED], and
    [bfd_get_section_by_name_if] the first one that the operation
    accepts; each returns null when there is none. *)
Theorem first_in_walking_order (abfd : bfd) (name : string)
    (operation : bfd -> asection -> bool) :
  table_ok (section_htab abfd) ->
  bfd_get_linker_section bfd_hash_hash abfd name
  = Some (List.find
            (fun a => match section_at abfd a with
                      | Some s => has_flag (flags s) SEC_LINKER_CREATED
                      | None => false
                      end)
            (same_name_chain bfd_hash_hash abfd name)) /\
  bfd_get_section_by_name_if bfd_hash_hash abfd name operation
  = Some (List.find
            (fun a => match section_at abfd a with
                      | Some s => operation abfd s
                      | None => false
                      end)
            (same_name_chain bfd_hash_hash abfd name)).
Proof.
  intros Hok. set (hash := bfd_hash_hash name).
  unfold bfd_get_linker_section, bfd_get_section_by_name_if, section_hash_lookup,
    bfd_hash_lookup, same_name_chain. fold hash.
  destruct (List.find (entry_matches hash name) (chain (section_htab abfd) hash))
    as [sh |] eqn:Hfind; cbn [fst].
  - pose proof Hfind as Hfilter. rewrite find_filter in Hfilter.
    destruct (filter (named hash name) (chain (section_htab abfd) hash)) as [| sh' rest]
      eqn:Hf; [discriminate |].
    cbn in Hfilter. injection Hfilter as ->.
    pose proof Hf as Hsplit.
    apply (filter_split _ _ []) in Hsplit as (Hm & l1 & l2 & Hl & Hf1 & Hf2).
    destruct (find_in_table _ _ _ _ Hfind) as (Hin & Hh & Hs).
    pose proof (in_table_named _ _ Hok Hin) as Hnamed.
    assert (sh ∈ chain (section_htab abfd) hash) as He
      by (rewrite Hl; apply elem_of_app; right; left).
    pose proof (chain_in_table _ _ _ He) as Hk.
    assert (Hall : forall x, x ∈ chain (section_htab abfd) hash ->
                     in_table (section_htab abfd) x) by (intros x Hx; eexists _, _; eauto).
    rewrite (entry_of_chain _ _ _ sh Hok Hk He), Hl, behind_split
      by (rewrite <- Hl; destruct Hok as (_ & Hnd & _); eauto).
    assert (Hin2 : forall x, x ∈ l2 -> in_table (section_htab abfd) x).
    { intros x Hx. apply Hall. rewrite Hl. apply elem_of_app. right. right. exact Hx. }
    assert (Hinf : forall x, x ∈ sh :: rest -> in_table (section_htab abfd) x).
    { intros x Hx. apply elem_of_cons in Hx as [-> | Hx]; [exact Hin |].
      rewrite <- Hf2 in Hx. apply list_elem_of_filter in Hx as [_ Hx]. auto. }
    split.
    + rewrite (linker_walk_spec hash name); [| | congruence | exact Hh].
      * rewrite Hf2. f_equal.
        apply (find_by_address abfd (fun s => has_flag (flags s) SEC_LINKER_CREATED));
          assumption.
      * intros x Hx. apply (in_table_named (section_htab abfd)); auto.
    + f_equal. rewrite Hh.
      rewrite <- (find_by_address abfd (fun s => operation abfd s) (sh :: rest) Hok Hinf).
      f_equal. cbn [List.find]. rewrite Hm. cbn [andb].
      destruct (operation abfd (section sh)); [reflexivity |].
      rewrite <- Hf2. clear. induction l2 as [| x r IH]; [reflexivity |].
      cbn [List.find]. destruct (entry_matches hash name x) eqn:E.
      * rewrite filter_cons_True by exact E. cbn [List.find andb].
        destruct (operation abfd (section x)); [reflexivity | exact IH].
      * rewrite filter_cons_False by congruence. exact IH.
  - rewrite find_filter in Hfind.
    destruct (filter (named hash name) (chain (section_htab abfd) hash)); [| discriminate].
    split; reflexivity.
Qed.


(** *** The count of the sections *)

Lemma to_unsigned_int_succ (n : nat) :
  to_unsigned_int (to_unsigned_int (Z.of_nat n) + 1) = to_unsigned_int (Z.of_nat (n + 1)).
Proof.
  unfold to_unsigned_int. rewrite Nat2Z.inj_add. change (Z.of_nat 1) with 1.
  rewrite Zplus_mod_idemp_l. reflexivity.
Qed.

Lemma bfd_section_init_counted (w : world) (abfd : bfd) (a : nat) :
  counted abfd -> counted (bfd_section_init new_section_hook w abfd a).1.2.
Proof.
  unfold counted, bfd_section_init. intros H.
  destruct (section_at _ a) as [s |]; [| exact H].
  destruct (negb (new_section_hook _ s)); [exact H |].
  cbn [fst snd sections section_count with_htab].
  rewrite length_app. cbn [length]. rewrite H. apply to_unsigned_int_succ.
Qed.

(** X18. [bfd_map_over_sections] does not abort on an owner whose count
    is the length of its list (modulo 2^32, the count being an
    [unsigned int]): it applies the operation to the sections in list
    order. The functions that make a section, whatever they return, and
    [bfd_section_list_clear] keep the count and the list in step. *)
Theorem section_count_is_kept {A : Type} (w : world) (abfd : bfd) (name : string)
    (flags : Z) (operation : bfd -> nat -> A -> A) (user_storage : A) :
  counted abfd ->
  counted (bfd_make_section_anyway_with_flags bfd_hash_hash new_section_hook
             w abfd name flags).1.2 /\
  counted (bfd_make_section_with_flags bfd_hash_hash new_section_hook
             w abfd name flags).1.2 /\
  counted (bfd_make_section_old_way bfd_hash_hash new_section_hook w abfd name).1.2 /\
  counted (bfd_section_list_clear abfd) /\
  bfd_map_over_sections abfd operation user_storage
  = MapDone A (fold_left (fun st sect => operation abfd sect st) (sections abfd)
                         user_storage).
Proof.
  intros H.
  assert (Hinit : forall t a, counted (bfd_section_init new_section_hook w
                                         (with_htab t abfd) a).1.2).
  { intros t a. apply bfd_section_init_counted. exact H. }
  split; [| split; [| split; [| split]]].
  - unfold bfd_make_section_anyway_with_flags.
    destruct (output_has_begun abfd); [exact H |].
    destruct (section_hash_lookup _ _ _ _) as [[sh |] htab]; [| exact H].
    destruct (BFD.name (section sh)); apply Hinit.
  - unfold bfd_make_section_with_flags.
    destruct (output_has_begun abfd); [exact H |].
    destruct (is_std_section_name name); [exact H |].
    destruct (section_hash_lookup _ _ _ _) as [[sh |] htab]; [| exact H].
    destruct (BFD.name (section sh)); [exact H | apply Hinit].
  - unfold bfd_make_section_old_way.
    destruct (output_has_begun abfd); [exact H |].
    repeat match goal with
           | |- context [if String.eqb ?a ?b then _ else _] =>
               destruct (String.eqb a b);
               [destruct (negb (new_section_hook abfd _)); exact H |]
           end.
    destruct (section_hash_lookup _ _ _ _) as [[sh |] htab]; [| exact H].
    destruct (BFD.name (section sh)); [exact H |].
    specialize (Hinit (update_section (addr sh) (with_name name) htab) (addr sh)).
    destruct (bfd_section_init _ _ _ _) as [[r abfd'] w']. exact Hinit.
  - reflexivity.
  - unfold bfd_map_over_sections. unfold counted in H. rewrite H, Z.eqb_refl. reflexivity.
Qed.


Lemma table_ok_empty (t : bfd_hash_table) : table t = ∅ -> table_ok t.
Proof.
  intros E. unfold Sec.table_ok. rewrite E.
  split; [| split]; intros *; rewrite lookup_empty; discriminate.
Qed.

Lemma table_ok_one (t : bfd_hash_table) (k : Z) (e : section_hash_entry) :
  table t = {[ k := [e] ]} ->
  k = bucket t (root_hash e) ->
  root_hash e = bfd_hash_hash (root_string e) ->
  (addr e < allocated t)%nat ->
  BFD.name (section e) = Some (root_string e) ->
  table_ok t.
Proof.
  intros E Hk Hh Ha Hn. unfold Sec.table_ok. rewrite E.
  split; [| split].
  - intros k' l e' Hl He'. apply lookup_singleton_Some in Hl as [<- <-].
    apply list_elem_of_singleton in He' as ->. auto.
  - intros k' l Hl. apply lookup_singleton_Some in Hl as [<- <-].
    cbn. apply NoDup_singleton.
  - intros k1 k2 l1 l2 e1 e2 H1 H2 _ _ _.
    apply lookup_singleton_Some in H1 as [<- _].
    apply lookup_singleton_Some in H2 as [<- _]. reflexivity.
Qed.

Lemma table_ok_one_chain (t : bfd_hash_table) (k : Z) (l : list section_hash_entry) :
  table t = {[ k := l ]} ->
  Forall (fun e => k = bucket t (root_hash e) /\
                   root_hash e = bfd_hash_hash (root_string e) /\
                   (addr e < allocated t)%nat /\
                   BFD.name (section e) = Some (root_string e)) l ->
  NoDup (addr <$> l) ->
  table_ok t.
Proof.
  intros E Hall Hnd. unfold Sec.table_ok. rewrite E.
  split; [| split].
  - intros k' l' e Hl He. apply lookup_singleton_Some in Hl as [<- <-].
    rewrite Forall_forall in Hall. exact (Hall e He).
  - intros k' l' Hl. apply lookup_singleton_Some in Hl as [<- <-]. exact Hnd.
  - intros k1 k2 l1 l2 e1 e2 H1 H2 _ _ _.
    apply lookup_singleton_Some in H1 as [<- _].
    apply lookup_singleton_Some in H2 as [<- _]. reflexivity.
Qed.

End RegistryInvariant.

Lemma several_text_table_ok :
  Sec.table_ok Sample.hash0 (BFD.section_htab Sample.several_text_bfd).
Proof.
  eapply (table_ok_one_chain Sample.hash0 _ 0); [reflexivity | |].
  - repeat (constructor; [repeat split; try reflexivity; cbn; lia |]). constructor.
  - apply (bool_decide_unpack _). vm_compute. exact I.
Qed.

Lemma make_section_fresh_name_witness :
  let '(r, abfd', w') :=
    Sec.bfd_make_section_with_flags Sample.hash0 Sample.hook_ok Sample.fresh_world
      (Sample.empty_bfd 4) ".text" BFD.SEC_CODE in
  Sec.table_ok Sample.hash0 (BFD.section_htab abfd') /\
  Sec.section_at abfd' 0
  = Some {| BFD.name := Some ".text"; BFD.id := 0x10; BFD.index := 0;
            BFD.flags := BFD.SEC_CODE; BFD.size := 0; BFD.rawsize := 0;
            BFD.contents := None |} /\
  Sec.bfd_get_section_by_name Sample.hash0 abfd' ".text" = Some 0%nat.
Proof.
  pose proof (make_section_fresh_name Sample.hash0 Sample.hook_ok Sample.fresh_world
                (Sample.empty_bfd 4) ".text" BFD.SEC_CODE
                (table_ok_empty Sample.hash0 (BFD.section_htab (Sample.empty_bfd 4)) eq_refl) eq_refl eq_refl eq_refl) as H.
  cbv zeta in H.
  destruct (Sec.bfd_make_section_with_flags Sample.hash0 Sample.hook_ok Sample.fresh_world
              (Sample.empty_bfd 4) ".text" BFD.SEC_CODE) as [[r abfd'] w'].
  destruct H as (H1 & H2 & H3 & _). auto.
Defined.

Lemma table_ok_one_section :
  Sec.table_ok Sample.hash0 (BFD.section_htab Sample.one_section_bfd).
Proof.
  apply (table_ok_one Sample.hash0 _ 0 Sample.text_entry); try reflexivity. cbn. lia.
Qed.

Lemma taken_name_changes_nothing_witness :
  Sec.bfd_make_section_with_flags Sample.hash0 Sample.hook_ok Sample.fresh_world
    Sample.one_section_bfd ".text" BFD.SEC_CODE
  = (None, Sample.one_section_bfd, Sample.fresh_world) /\
  Sec.bfd_make_section Sample.hash0 Sample.hook_ok Sample.fresh_world
    Sample.one_section_bfd ".text"
  = (None, Sample.one_section_bfd, Sample.fresh_world) /\
  Sec.bfd_make_section_old_way Sample.hash0 Sample.hook_ok Sample.fresh_world
    Sample.one_section_bfd ".text"
  = (Some (Sec.TableSection 0), Sample.one_section_bfd, Sample.fresh_world).
Proof.
  apply (taken_name_changes_nothing Sample.hash0 Sample.hook_ok Sample.fresh_world
           Sample.one_section_bfd ".text" BFD.SEC_CODE 0%nat).
  - exact table_ok_one_section.
  - reflexivity.
  - reflexivity.
  - vm_compute. reflexivity.
Defined.

Lemma anyway_chains_behind_first_witness :
  let '(r, abfd', w') :=
    Sec.bfd_make_section_anyway_with_flags Sample.hash0 Sample.hook_ok Sample.fresh_world
      Sample.one_section_bfd ".text" BFD.SEC_CODE in
  Sec.same_name_chain Sample.hash0 abfd' ".text" = [0%nat; 1%nat] /\
  Sec.bfd_get_section_by_name Sample.hash0 abfd' ".text" = Some 0%nat.
Proof.
  pose proof (anyway_chains_behind_first Sample.hash0 Sample.hook_ok Sample.fresh_world
                Sample.one_section_bfd ".text" BFD.SEC_CODE 0%nat []
                table_ok_one_section eq_refl) as H.
  cbv zeta in H.
  destruct (Sec.bfd_make_section_anyway_with_flags Sample.hash0 Sample.hook_ok
              Sample.fresh_world Sample.one_section_bfd ".text" BFD.SEC_CODE)
    as [[r abfd'] w'].
  destruct H as (_ & H2 & H3 & _); [vm_compute; reflexivity |]. auto.
Defined.

Lemma walk_along_name_witness :
  let abfd := Sample.several_text_bfd in
  Sec.same_name_chain Sample.hash0 abfd ".text" = [0%nat; 3%nat; 2%nat] /\
  Sec.bfd_get_section_by_name Sample.hash0 abfd ".text" = Some 0%nat /\
  Sec.bfd_get_next_section_by_name Sample.hash0 [] abfd 0 = Some (Sec.InOwner 3) /\
  Sec.bfd_get_next_section_by_name Sample.hash0 [] abfd 3 = Some (Sec.InOwner 2) /\
  Sec.bfd_get_next_section_by_name Sample.hash0 [] abfd 2 = Some Sec.NoSection.
Proof.
  intros abfd.
  assert (Sec.same_name_chain Sample.hash0 abfd ".text" = [0%nat; 3%nat; 2%nat]) as E
    by (vm_compute; reflexivity).
  destruct (walk_along_name Sample.hash0 abfd ".text" several_text_table_ok) as [H1 H2].
  split; [exact E |].
  split; [rewrite H1, E; reflexivity |].
  split; [exact (H2 [] 0%nat [3%nat; 2%nat] E) |].
  split; [exact (H2 [0%nat] 3%nat [2%nat] E) | exact (H2 [0%nat; 3%nat] 2%nat [] E)].
Defined.

Lemma first_in_walking_order_witness :
  let abfd := Sample.several_text_bfd in
  Sec.same_name_chain Sample.hash0 abfd ".text" = [0%nat; 3%nat; 2%nat] /\
  Sec.bfd_get_linker_section Sample.hash0 abfd ".text" = Some (Some 3%nat) /\
  Sec.bfd_get_section_by_name_if Sample.hash0 abfd ".text"
    (fun _ s => 0 <? BFD.index s) = Some (Some 3%nat) /\
  Sec.bfd_get_section_by_name_if Sample.hash0 abfd ".text"
    (fun _ s => 5 <? BFD.index s) = Some None.
Proof.
  intros abfd.
  split; [vm_compute; reflexivity |].
  destruct (first_in_walking_order Sample.hash0 abfd ".text"
              (fun _ s => 0 <? BFD.index s) several_text_table_ok) as [H1 H2].
  destruct (first_in_walking_order Sample.hash0 abfd ".text"
              (fun _ s => 5 <? BFD.index s) several_text_table_ok) as [_ H3].
  rewrite H1, H2, H3. repeat split; vm_compute; reflexivity.
Defined.

Lemma section_count_is_kept_witness :
  Sec.counted
    (Sec.bfd_make_section_anyway_with_flags Sample.hash0 Sample.hook_ok Sample.fresh_world
       Sample.one_section_bfd ".data" 0).1.2 /\
  Sec.bfd_map_over_sections Sample.one_section_bfd (fun _ sect st => sect :: st) []
  = Sec.MapDone (list nat) [0%nat].
Proof.
  destruct (section_count_is_kept Sample.hash0 Sample.hook_ok Sample.fresh_world
              Sample.one_section_bfd ".data" 0 (fun _ sect st => sect :: st) [])
    as (H1 & _ & _ & _ & H5); [reflexivity |].
  split; [exact H1 | exact H5].
Defined.

Section Layout.

Import BFD IO Sec.

Variable v : AES.variant.
Variable BFD_ENCRYPTED : Z.
Variable backend_set_section_contents : bfd -> asection -> list Z -> Z -> Z -> bool.
Variable junk_ctx : AES.AES_ctx.
Variable junk_buffer : list Z.
Variable junk_heap : list Z.
Variable bfd_hash_hash : string -> Z.
Variable new_section_hook : bfd -> asection -> bool.

(** X19. [bfd_set_section_contents] sets [output_has_begun] exactly when
    it returns true, and itself writes no other field of the owner. From
    then on
    no section can be made and no size set: [bfd_make_section_anyway_with_flags],
    [bfd_make_section_with_flags], [bfd_make_section_old_way] and
    [bfd_set_section_size] fail with [bfd_error_invalid_operation] and
    leave the owner as it is. *)
Theorem output_begun_locks_layout
    (info : Comp.EncryptInfoT) (w w1 : world) (abfd abfd1 : bfd) (section : asection)
    (location : Mem.ptr) (offset count : Z) (r : bool) :
  bfd_set_section_contents v BFD_ENCRYPTED backend_set_section_contents
    junk_ctx junk_buffer junk_heap info w abfd section location offset count
  = Some (r, abfd1, w1) ->
  abfd1 = (if r then begin_output abfd else abfd) /\
  (r = true ->
   forall (w2 : world) (name : string) (flags : Z) (ptr : asection) (val : Z),
     let refused := bfd_set_error bfd_error_invalid_operation w2 in
     bfd_make_section_anyway_with_flags bfd_hash_hash new_section_hook w2 abfd1 name flags
     = (None, abfd1, refused) /\
     bfd_make_section_with_flags bfd_hash_hash new_section_hook w2 abfd1 name flags
     = (None, abfd1, refused) /\
     bfd_make_section_old_way bfd_hash_hash new_section_hook w2 abfd1 name
     = (None, abfd1, refused) /\
     bfd_set_section_size w2 abfd1 ptr val = (false, ptr, refused)).
Proof.
  intros Hset.
  assert (abfd1 = (if r then begin_output abfd else abfd)) as Habfd.
  { unfold bfd_set_section_contents in Hset.
    destruct (negb (has_flag (flags section) SEC_HAS_CONTENTS));
      [injection Hset as <- <- <-; reflexivity |].
    destruct (out_of_range offset count (size section));
      [injection Hset as <- <- <-; reflexivity |].
    destruct (negb (bfd_write_p abfd)); [injection Hset as <- <- <-; reflexivity |].
    destruct (record_copy _ _ _ _ _) as [h1 |]; [| discriminate].
    destruct (component_of _ _ _ _) as [i |].
    - destruct (Comp.Components info !! i) as [comp |]; [| discriminate].
      destruct (Mem.malloc _ _) as [b h2].
      destruct (Mem.memcpy _ _ _ _) as [h3 |]; [| discriminate].
      destruct (Mem.load _ _ _) as [plain |]; [| discriminate].
      destruct (Comp.EncryptObjSection _ _ _ _ _ _) as [cipher |]; [| discriminate].
      destruct (Mem.store _ _ _) as [h4 |]; [| discriminate].
      destruct (backend_set_section_contents _ _ _ _ _);
        injection Hset as <- <- <-; reflexivity.
    - destruct (Mem.load _ _ _) as [bytes |]; [| discriminate].
      destruct (backend_set_section_contents _ _ _ _ _);
        injection Hset as <- <- <-; reflexivity. }
  split; [exact Habfd |].
  intros -> w2 name flags ptr val refused. subst abfd1.
  unfold bfd_make_section_anyway_with_flags, bfd_make_section_with_flags,
    bfd_make_section_old_way, bfd_set_section_size.
  cbn [output_has_begun begin_output]. auto.
Qed.

End Layout.

Lemma output_begun_locks_layout_witness :
  let abfd1 := BFD.begin_output (Sample.empty_bfd 1) in
  abfd1 = BFD.begin_output (Sample.empty_bfd 1) /\
  (true = true ->
   forall (w2 : BFD.world) (name : string) (flags : Z) (ptr : BFD.asection) (val : Z),
     let refused := BFD.bfd_set_error BFD.bfd_error_invalid_operation w2 in
     Sec.bfd_make_section_anyway_with_flags Sample.hash0 Sample.hook_ok w2 abfd1 name flags
     = (None, abfd1, refused) /\
     Sec.bfd_make_section_with_flags Sample.hash0 Sample.hook_ok w2 abfd1 name flags
     = (None, abfd1, refused) /\
     Sec.bfd_make_section_old_way Sample.hash0 Sample.hook_ok w2 abfd1 name
     = (None, abfd1, refused) /\
     Sec.bfd_set_section_size w2 abfd1 ptr val = (false, ptr, refused)).
Proof.
  apply (output_begun_locks_layout AES.AES128 0x80000 Sample.writer_ok Sample.no_ctx [] []
           Sample.hash0 Sample.hook_ok Sample.no_info Sample.caller_world
           (BFD.log [BFD.EvSetSectionContents Sample.caller_buffer
                       (map Z.of_nat (seq 1 10)) 90 10] Sample.caller_world)
           (Sample.empty_bfd 1) (BFD.begin_output (Sample.empty_bfd 1))
           (Sample.section_of_100 BFD.SEC_HAS_CONTENTS) Sample.caller_buffer 90 10 true).
  vm_compute. reflexivity.
Defined.

(* ===================================================================== *)
(** ** The list pointers: insertion, removal and the membership test *)
(* ===================================================================== *)

Section ListPointers.

Import Links.

Lemma linked_frame (h : gmap nat links) (s : nat) (v : links) (p : option nat)
    (l : list nat) (n : option nat) :
  s ∉ l -> linked h p l n -> linked (<[s := v]> h) p l n.
Proof.
  revert p. induction l as [| x r IH]; intros p Hs H; [exact I |].
  destruct H as [Hx Hr]. apply not_elem_of_cons in Hs as [Hne Hs].
  split; [rewrite lookup_insert_ne by congruence; exact Hx | apply IH; assumption].
Qed.

Lemma linked_app (h : gmap nat links) (p : option nat) (l1 l2 : list nat)
    (n : option nat) :
  linked h p (l1 ++ l2) n <->
  linked h p l1 (or_else (head l2) n) /\ linked h (or_else (last l1) p) l2 n.
Proof.
  revert p. induction l1 as [| x r IH]; intros p; cbn [app linked].
  - cbn. tauto.
  - rewrite (IH (Some x)).
    assert (E1 : match r ++ l2 with [] => n | y :: _ => Some y end
                 = match r with [] => or_else (head l2) n | y :: _ => Some y end).
    { destruct r; [destruct l2 |]; reflexivity. }
    assert (E2 : or_else (last (x :: r)) p = or_else (last r) (Some x)).
    { destruct r as [| y r']; [reflexivity |].
      rewrite last_cons_cons. destruct (last (y :: r')) eqn:E; [reflexivity |].
      apply last_None in E. discriminate. }
    rewrite E1, E2. tauto.
Qed.

Lemma linked_allocated (h : gmap nat links) (p : option nat) (l : list nat)
    (n : option nat) (s : nat) :
  linked h p l n -> s ∈ l -> is_Some (h !! s).
Proof.
  revert p. induction l as [| x r IH]; intros p H Hs; [inversion Hs |].
  destruct H as [Hx Hr]. apply elem_of_cons in Hs as [-> | Hs].
  - rewrite Hx. eauto.
  - exact (IH _ Hr Hs).
Qed.

Lemma linked_ext (h h' : gmap nat links) (p : option nat) (l : list nat)
    (n : option nat) :
  (forall x, x ∈ l -> h' !! x = h !! x) -> linked h p l n -> linked h' p l n.
Proof.
  revert p. induction l as [| x r IH]; intros p E H; [exact I |].
  destruct H as [Hx Hr]. split.
  - rewrite E by apply list_elem_of_here. exact Hx.
  - apply IH; [| exact Hr]. intros y Hy. apply E. apply list_elem_of_further, Hy.
Qed.

Lemma linked_snoc (h : gmap nat links) (p : option nat) (front : list nat) (a : nat)
    (n : option nat) :
  linked h p (front ++ [a]) n <->
  linked h p front (Some a) /\
  h !! a = Some {| next := n; prev := or_else (last front) p |}.
Proof. rewrite linked_app. cbn. tauto. Qed.

Lemma or_else_head (l : list nat) (n : option nat) :
  match l with [] => n | x :: _ => Some x end = or_else (head l) n.
Proof. destruct l; reflexivity. Qed.

Lemma or_else_last_snoc (front : list nat) (a : nat) (p : option nat) :
  or_else (last (front ++ [a])) p = Some a.
Proof. rewrite last_snoc. reflexivity. Qed.

(** Putting [S] between [l1] and [l2]. *)
Lemma linked_splice (h h' : gmap nat links) (p n : option nat) (l1 l2 : list nat)
    (S : nat) :
  linked h p (l1 ++ l2) n ->
  NoDup (l1 ++ S :: l2) ->
  h' !! S = Some {| next := or_else (head l2) n; prev := or_else (last l1) p |} ->
  (forall front a, l1 = front ++ [a] ->
     h' !! a = Some {| next := Some S; prev := or_else (last front) p |}) ->
  (forall b back, l2 = b :: back ->
     h' !! b = Some {| next := or_else (head back) n; prev := Some S |}) ->
  (forall x, x <> S -> last l1 <> Some x -> head l2 <> Some x -> h' !! x = h !! x) ->
  linked h' p (l1 ++ S :: l2) n.
Proof.
  intros H ND HS Ha Hb Hrest.
  apply NoDup_app in ND as (ND1 & Hdisj & ND2).
  apply NoDup_cons in ND2 as [HS2 ND2].
  apply linked_app in H as [H1 H2].
  apply linked_app. split.
  - cbn [head or_else].
    destruct l1 as [| a front _] using rev_ind; [exact I |].
    apply linked_snoc in H1 as [H1 _]. apply linked_snoc. split.
    + apply (linked_ext h); [| exact H1]. intros x Hx. apply Hrest.
      * intros ->. apply (Hdisj S); [apply elem_of_app; left; exact Hx | left].
      * rewrite last_snoc. intros [= ->].
        apply NoDup_app in ND1 as (_ & Hd & _). apply (Hd x Hx). left.
      * intros Hh. apply (Hdisj x); [apply elem_of_app; left; exact Hx |].
        right. destruct l2; [discriminate |]. injection Hh as ->. left.
    + apply (Ha front a eq_refl).
  - cbn [linked]. split; [rewrite or_else_head; exact HS |].
    destruct l2 as [| b back]; [exact I |].
    destruct H2 as [_ H2]. cbn [linked]. split.
    + rewrite or_else_head. apply (Hb b back eq_refl).
    + apply (linked_ext h); [| exact H2]. intros x Hx. apply Hrest.
      * intros ->. apply HS2. right. exact Hx.
      * intros Hl. apply last_Some in Hl as [front ->].
        apply (Hdisj x); [apply elem_of_app; right; left | right; right; exact Hx].
      * cbn. intros [= ->]. apply NoDup_cons in ND2 as [Hb' _]. exact (Hb' Hx).
Qed.

(** Taking [S] out from between [l1] and [l2]. *)
Lemma linked_unsplice (h h' : gmap nat links) (p n : option nat) (l1 l2 : list nat)
    (S : nat) :
  linked h p (l1 ++ S :: l2) n ->
  NoDup (l1 ++ S :: l2) ->
  (forall front a, l1 = front ++ [a] ->
     h' !! a = Some {| next := or_else (head l2) n; prev := or_else (last front) p |}) ->
  (forall b back, l2 = b :: back ->
     h' !! b = Some {| next := or_else (head back) n; prev := or_else (last l1) p |}) ->
  (forall x, last l1 <> Some x -> head l2 <> Some x -> h' !! x = h !! x) ->
  linked h' p (l1 ++ l2) n.
Proof.
  intros H ND Ha Hb Hrest.
  apply NoDup_app in ND as (ND1 & Hdisj & ND2).
  apply NoDup_cons in ND2 as [HS2 ND2].
  apply linked_app in H as [H1 H2]. destruct H2 as [_ H2].
  apply linked_app. split.
  - destruct l1 as [| a front _] using rev_ind; [exact I |].
    apply linked_snoc in H1 as [H1 _]. apply linked_snoc. split.
    + apply (linked_ext h); [| exact H1]. intros x Hx. apply Hrest.
      * rewrite last_snoc. intros [= ->].
        apply NoDup_app in ND1 as (_ & Hd & _). apply (Hd x Hx). left.
      * intros Hh. apply (Hdisj x); [apply elem_of_app; left; exact Hx |].
        right. destruct l2; [discriminate |]. injection Hh as ->. left.
    + apply (Ha front a eq_refl).
  - destruct l2 as [| b back]; [exact I |].
    destruct H2 as [_ H2]. cbn [linked]. split.
    + rewrite or_else_head. apply (Hb b back eq_refl).
    + apply (linked_ext h); [| exact H2]. intros x Hx. apply Hrest.
      * intros Hl. apply last_Some in Hl as [front ->].
        apply (Hdisj x); [apply elem_of_app; right; left | right; right; exact Hx].
      * cbn. intros [= ->]. apply NoDup_cons in ND2 as [Hb' _]. exact (Hb' Hx).
Qed.

Lemma or_else_None (a : option nat) : or_else a None = a.
Proof. destruct a; reflexivity. Qed.

Lemma NoDup_middle (l1 l2 : list nat) (S : nat) :
  NoDup (l1 ++ S :: l2) <-> (S ∉ l1 ++ l2) /\ NoDup (l1 ++ l2).
Proof. rewrite <- Permutation_middle. apply NoDup_cons. Qed.

Lemma is_list_splice (abfd abfd' : section_list) (l1 l2 : list nat) (S : nat) :
  is_list abfd (l1 ++ l2) ->
  S ∉ l1 ++ l2 ->
  sections abfd' = head (l1 ++ S :: l2) ->
  section_last abfd' = last (l1 ++ S :: l2) ->
  nodes abfd' !! S = Some {| next := head l2; prev := last l1 |} ->
  (forall front a, l1 = front ++ [a] ->
     nodes abfd' !! a = Some {| next := Some S; prev := last front |}) ->
  (forall b back, l2 = b :: back ->
     nodes abfd' !! b = Some {| next := head back; prev := Some S |}) ->
  (forall x, x <> S -> last l1 <> Some x -> head l2 <> Some x ->
     nodes abfd' !! x = nodes abfd !! x) ->
  is_list abfd' (l1 ++ S :: l2) /\
  forall x, x ∉ l1 ++ S :: l2 -> nodes abfd' !! x = nodes abfd !! x.
Proof.
  intros (ND & _ & _ & HL) HS Hhd Hlast HlS Ha Hb Hrest.
  assert (ND' : NoDup (l1 ++ S :: l2)) by (apply NoDup_middle; auto).
  split.
  - split; [exact ND' |]. split; [exact Hhd |]. split; [exact Hlast |].
    apply (linked_splice (nodes abfd)); try assumption.
    + rewrite !or_else_None. exact HlS.
    + intros front a E. rewrite or_else_None. exact (Ha front a E).
    + intros b back E. rewrite or_else_None. exact (Hb b back E).
  - intros x Hx. apply Hrest.
    + intros ->. apply Hx. apply elem_of_app. right. left.
    + intros Hl. apply last_Some in Hl as [front ->]. apply Hx.
      rewrite <- app_assoc. apply elem_of_app. right. left.
    + intros Hh. destruct l2 as [| b back]; [discriminate |]. injection Hh as ->.
      apply Hx. apply elem_of_app. right. right. left.
Qed.

Lemma is_list_unsplice (abfd abfd' : section_list) (l1 l2 : list nat) (S : nat) :
  is_list abfd (l1 ++ S :: l2) ->
  sections abfd' = head (l1 ++ l2) ->
  section_last abfd' = last (l1 ++ l2) ->
  (forall front a, l1 = front ++ [a] ->
     nodes abfd' !! a = Some {| next := head l2; prev := last front |}) ->
  (forall b back, l2 = b :: back ->
     nodes abfd' !! b = Some {| next := head back; prev := last l1 |}) ->
  (forall x, last l1 <> Some x -> head l2 <> Some x ->
     nodes abfd' !! x = nodes abfd !! x) ->
  is_list abfd' (l1 ++ l2) /\
  forall x, x ∉ l1 ++ l2 -> nodes abfd' !! x = nodes abfd !! x.
Proof.
  intros (ND & _ & _ & HL) Hhd Hlast Ha Hb Hrest.
  split.
  - split; [apply NoDup_middle in ND as [_ ND]; exact ND |].
    split; [exact Hhd |]. split; [exact Hlast |].
    apply (linked_unsplice (nodes abfd) _ _ _ _ _ S); try assumption.
    + intros front a E. rewrite !or_else_None. exact (Ha front a E).
    + intros b back E. rewrite !or_else_None. exact (Hb b back E).
  - intros x Hx. apply Hrest.
    + intros Hl. apply last_Some in Hl as [front ->]. apply Hx.
      rewrite <- app_assoc. apply elem_of_app. right. left.
    + intros Hh. destruct l2 as [| b back]; [discriminate |]. injection Hh as ->.
      apply Hx. apply elem_of_app. right. left.
Qed.

Lemma is_list_lookup (abfd : section_list) (l1 l2 : list nat) (x : nat) :
  is_list abfd (l1 ++ x :: l2) ->
  nodes abfd !! x = Some {| next := head l2; prev := last l1 |}.
Proof.
  intros (_ & _ & _ & HL). apply linked_app in HL as [_ [Hx _]].
  rewrite or_else_head, !or_else_None in Hx. exact Hx.
Qed.

Ltac run :=
  repeat first
    [ progress cbn [nodes sections section_last with_nodes with_sections
                    with_section_last next prev head hd_error last]
    | rewrite lookup_insert_eq
    | rewrite lookup_insert_ne by congruence
    | match goal with
      | H : ?h !! ?k = Some _ |- context [?h !! ?k] => rewrite H
      end ].

Lemma append_gives (abfd : section_list) (l : list nat) (S : nat) :
  is_list abfd l -> S ∉ l -> is_Some (nodes abfd !! S) ->
  gives abfd (bfd_section_list_append abfd S) (l ++ [S]).
Proof.
  intros HL HS [lkS HlkS].
  pose proof HL as (_ & Hhd & Hlast & _).
  destruct l as [| a front _] using rev_ind.
  - cbn in Hlast.
    unfold bfd_section_list_append, set_next, set_prev. run. rewrite Hlast. run.
    eexists. split; [reflexivity |].
    apply (is_list_splice abfd _ [] [] S); try assumption; try reflexivity; run;
      try reflexivity.
    + intros front a E. destruct front; discriminate.
    + intros b back E. discriminate.
    + intros x Hx _ _. run. reflexivity.
  - rewrite last_snoc in Hlast.
    assert (Ha : nodes abfd !! a = Some {| next := None; prev := last front |})
      by exact (is_list_lookup abfd front [] a HL).
    assert (Hne : a <> S).
    { intros ->. apply HS. apply elem_of_app. right. left. }
    unfold bfd_section_list_append, set_next, set_prev. run. rewrite Hlast. run.
    eexists. split; [reflexivity |].
    rewrite <- (app_nil_r (front ++ [a])) in HL, HS.
    apply (is_list_splice abfd _ (front ++ [a]) [] S); try assumption; run.
    + rewrite Hhd. destruct front; reflexivity.
    + rewrite last_snoc. reflexivity.
    + rewrite last_snoc. reflexivity.
    + intros front' a' E. apply app_inj_tail in E as [<- <-]. run. reflexivity.
    + intros b back E. discriminate.
    + intros x Hx Hl _. rewrite last_snoc in Hl. run. reflexivity.
Qed.

Lemma prepend_gives (abfd : section_list) (l : list nat) (S : nat) :
  is_list abfd l -> S ∉ l -> is_Some (nodes abfd !! S) ->
  gives abfd (bfd_section_list_prepend abfd S) (S :: l).
Proof.
  intros HL HS [lkS HlkS].
  pose proof HL as (_ & Hhd & Hlast & _).
  destruct l as [| b back].
  - cbn in Hhd.
    unfold bfd_section_list_prepend, set_next, set_prev. run. rewrite Hhd. run.
    eexists. split; [reflexivity |].
    apply (is_list_splice abfd _ [] [] S); try assumption; try reflexivity; run;
      try reflexivity.
    + intros front a E. destruct front; discriminate.
    + intros b back E. discriminate.
    + intros x Hx _ _. run. reflexivity.
  - cbn in Hhd.
    assert (Hb : nodes abfd !! b = Some {| next := head back; prev := None |})
      by exact (is_list_lookup abfd [] back b HL).
    assert (Hne : b <> S).
    { intros ->. apply HS. left. }
    unfold bfd_section_list_prepend, set_next, set_prev. run. rewrite Hhd. run.
    eexists. split; [reflexivity |].
    apply (is_list_splice abfd _ [] (b :: back) S); try assumption; run;
      try reflexivity.
    + intros front a E. destruct front; discriminate.
    + intros b' back' [= <- <-]. run. reflexivity.
    + intros x Hx _ Hh. cbn in Hh. run. reflexivity.
Qed.

Lemma insert_after_gives (abfd : section_list) (l1 l2 : list nat) (A S : nat) :
  is_list abfd (l1 ++ A :: l2) -> S ∉ l1 ++ A :: l2 -> is_Some (nodes abfd !! S) ->
  gives abfd (bfd_section_list_insert_after abfd A S) (l1 ++ A :: S :: l2).
Proof.
  intros HL HS [lkS HlkS].
  pose proof HL as (ND & Hhd & Hlast & _).
  pose proof (is_list_lookup abfd l1 l2 A HL) as HA.
  assert (Hne : A <> S).
  { intros ->. apply HS. apply elem_of_app. right. left. }
  rewrite (cons_middle A l1 l2), app_assoc in HL, HS.
  rewrite (cons_middle A l1 (S :: l2)), app_assoc.
  destruct l2 as [| b back].
  - unfold bfd_section_list_insert_after, set_next, set_prev. run.
    eexists. split; [reflexivity |].
    apply (is_list_splice abfd _ (l1 ++ [A]) [] S); try assumption; run.
    + rewrite Hhd. destruct l1; reflexivity.
    + rewrite last_snoc. reflexivity.
    + rewrite last_snoc. reflexivity.
    + intros front a E. apply app_inj_tail in E as [<- <-]. run. reflexivity.
    + intros b back E. discriminate.
    + intros x Hx Hl _. rewrite last_snoc in Hl. run. reflexivity.
  - assert (Hb : nodes abfd !! b = Some {| next := head back; prev := Some A |}).
    { rewrite <- (last_snoc A l1). apply (is_list_lookup abfd (l1 ++ [A]) back b HL). }
    assert (HbS : b <> S).
    { intros ->. apply HS. apply elem_of_app. right. left. }
    assert (HbA : b <> A).
    { intros ->. rewrite <- app_assoc in HL. destruct HL as (ND' & _).
      apply NoDup_app in ND' as (_ & _ & ND'). cbn in ND'.
      apply NoDup_cons in ND' as [Hin _]. apply Hin. left. }
    unfold bfd_section_list_insert_after, set_next, set_prev. run.
    eexists. split; [reflexivity |].
    apply (is_list_splice abfd _ (l1 ++ [A]) (b :: back) S); try assumption; run.
    + rewrite Hhd. destruct l1; reflexivity.
    + rewrite Hlast. rewrite !last_app_cons, !last_cons_cons. reflexivity.
    + rewrite last_snoc. reflexivity.
    + intros front a E. apply app_inj_tail in E as [<- <-]. run. reflexivity.
    + intros b' back' [= <- <-]. run. reflexivity.
    + intros x Hx Hl Hh. rewrite last_snoc in Hl. cbn in Hh. run. reflexivity.
Qed.

Lemma insert_before_gives (abfd : section_list) (l1 l2 : list nat) (B S : nat) :
  is_list abfd (l1 ++ B :: l2) -> S ∉ l1 ++ B :: l2 -> is_Some (nodes abfd !! S) ->
  gives abfd (bfd_section_list_insert_before abfd B S) (l1 ++ S :: B :: l2).
Proof.
  intros HL HS [lkS HlkS].
  pose proof HL as (ND & Hhd & Hlast & _).
  pose proof (is_list_lookup abfd l1 l2 B HL) as HB.
  assert (Hne : B <> S).
  { intros ->. apply HS. apply elem_of_app. right. left. }
  destruct l1 as [| a front _] using rev_ind.
  - unfold bfd_section_list_insert_before, set_next, set_prev. run.
    eexists. split; [reflexivity |].
    apply (is_list_splice abfd _ [] (B :: l2) S); try assumption; run;
      try reflexivity.
    + intros front a E. destruct front; discriminate.
    + intros b' back' [= <- <-]. run. reflexivity.
    + intros x Hx _ Hh. cbn in Hh. run. reflexivity.
  - rewrite last_snoc in HB.
    assert (Ha : nodes abfd !! a = Some {| next := Some B; prev := last front |}).
    { rewrite <- app_assoc in HL. apply (is_list_lookup abfd front (B :: l2) a HL). }
    assert (HaS : a <> S).
    { intros ->. apply HS. apply elem_of_app. left. apply elem_of_app. right. left. }
    assert (HaB : a <> B).
    { intros ->. rewrite <- app_assoc in ND.
      apply NoDup_app in ND as (_ & _ & ND). cbn in ND.
      apply NoDup_cons in ND as [Hin _]. apply Hin. left. }
    unfold bfd_section_list_insert_before, set_next, set_prev. run.
    eexists. split; [reflexivity |].
    apply (is_list_splice abfd _ (front ++ [a]) (B :: l2) S); try assumption; run.
    + rewrite Hhd. rewrite <- !app_assoc. destruct front; reflexivity.
    + rewrite Hlast. rewrite !last_app_cons, !last_cons_cons. reflexivity.
    + rewrite last_snoc. reflexivity.
    + intros front' a' E. apply app_inj_tail in E as [<- <-]. run. reflexivity.
    + intros b' back' [= <- <-]. run. reflexivity.
    + intros x Hx Hl Hh. rewrite last_snoc in Hl. cbn in Hh. run. reflexivity.
Qed.

Lemma last_not_outside (l : list nat) (S : nat) : S ∉ l -> last l <> Some S.
Proof.
  intros HS Hl. apply last_Some in Hl as [front ->].
  apply HS. apply elem_of_app. right. left.
Qed.

Lemma remove_gives (abfd : section_list) (l1 l2 : list nat) (S : nat) :
  is_list abfd (l1 ++ S :: l2) ->
  exists abfd' : section_list,
    bfd_section_list_remove abfd S = Some abfd' /\
    is_list abfd' (l1 ++ l2) /\
    (forall x, x ∉ l1 ++ l2 -> nodes abfd' !! x = nodes abfd !! x) /\
    bfd_section_removed_from_list abfd' S = Some true.
Proof.
  intros HL.
  pose proof HL as (ND & Hhd & Hlast & _).
  pose proof (is_list_lookup abfd l1 l2 S HL) as HS.
  apply NoDup_middle in ND as [HSout ND].
  assert (HS1 : S ∉ l1) by (intros H; apply HSout, elem_of_app; left; exact H).
  assert (HS2 : S ∉ l2) by (intros H; apply HSout, elem_of_app; right; exact H).
  assert (Hrem : forall abfd',
             is_list abfd' (l1 ++ l2) /\
             (forall x, x ∉ l1 ++ l2 -> nodes abfd' !! x = nodes abfd !! x) ->
             section_last abfd' = last (l1 ++ l2) ->
             is_list abfd' (l1 ++ l2) /\
             (forall x, x ∉ l1 ++ l2 -> nodes abfd' !! x = nodes abfd !! x) /\
             bfd_section_removed_from_list abfd' S = Some true).
  { intros abfd' [HL' Hout] Hlast'. split; [exact HL' |]. split; [exact Hout |].
    unfold bfd_section_removed_from_list. rewrite (Hout S HSout), HS. cbn [next].
    destruct l2 as [| b back]; cbn [head].
    - rewrite Hlast', app_nil_r. f_equal. apply bool_decide_eq_true.
      apply last_not_outside, HS1.
    - rewrite (is_list_lookup abfd' l1 back b HL'). cbn [prev].
      f_equal. apply bool_decide_eq_true. apply last_not_outside, HS1. }
  destruct l1 as [| a front _] using rev_ind; destruct l2 as [| b back].
  - unfold bfd_section_list_remove, set_next, set_prev. run.
    eexists. split; [reflexivity |].
    apply Hrem; [| reflexivity].
    apply (is_list_unsplice abfd _ [] [] S); try assumption; try reflexivity.
    + intros front a E. destruct front; discriminate.
    + intros b back E. discriminate.
  - assert (Hb : nodes abfd !! b = Some {| next := head back; prev := Some S |})
      by exact (is_list_lookup abfd [S] back b HL).
    unfold bfd_section_list_remove, set_next, set_prev. run.
    eexists. split; [reflexivity |].
    apply Hrem; [| run; rewrite Hlast; reflexivity].
    apply (is_list_unsplice abfd _ [] (b :: back) S); try assumption; run;
      try reflexivity.
    + intros front a E. destruct front; discriminate.
    + intros b' back' [= <- <-]. run. reflexivity.
    + intros x _ Hh. cbn in Hh. run. reflexivity.
  - rewrite last_snoc in HS.
    assert (Ha : nodes abfd !! a = Some {| next := Some S; prev := last front |}).
    { rewrite <- app_assoc in HL. apply (is_list_lookup abfd front [S] a HL). }
    unfold bfd_section_list_remove, set_next, set_prev. run.
    eexists. split; [reflexivity |].
    apply Hrem; [| run; rewrite !app_nil_r, last_snoc; reflexivity].
    apply (is_list_unsplice abfd _ (front ++ [a]) [] S); try assumption; run.
    + rewrite Hhd. rewrite app_nil_r, <- app_assoc. destruct front; reflexivity.
    + rewrite app_nil_r, last_snoc. reflexivity.
    + intros front' a' E. apply app_inj_tail in E as [<- <-]. run. reflexivity.
    + intros b back E. discriminate.
    + intros x Hl _. rewrite last_snoc in Hl. run. reflexivity.
  - rewrite last_snoc in HS.
    assert (Ha : nodes abfd !! a = Some {| next := Some S; prev := last front |}).
    { rewrite <- app_assoc in HL. apply (is_list_lookup abfd front (S :: b :: back) a HL). }
    assert (Hb : nodes abfd !! b = Some {| next := head back; prev := Some S |}).
    { rewrite (cons_middle S), app_assoc in HL. rewrite <- (last_snoc S (front ++ [a])).
      apply (is_list_lookup abfd _ back b HL). }
    assert (Hab : b <> a).
    { intros ->. apply NoDup_app in ND as (_ & Hd & _).
      apply (Hd a); [apply elem_of_app; right; left | left]. }
    unfold bfd_section_list_remove, set_next, set_prev. run.
    eexists. split; [reflexivity |].
    apply Hrem; [| run; rewrite Hlast, !last_app_cons, last_cons_cons; reflexivity].
    apply (is_list_unsplice abfd _ (front ++ [a]) (b :: back) S); try assumption; run.
    + rewrite Hhd. rewrite <- !app_assoc. destruct front; reflexivity.
    + rewrite Hlast, !last_app_cons, last_cons_cons. reflexivity.
    + intros front' a' E. apply app_inj_tail in E as [<- <-]. run. reflexivity.
    + intros b' back' [= <- <-]. run. rewrite last_snoc. reflexivity.
    + intros x Hl Hh. rewrite last_snoc in Hl. cbn in Hh. run. reflexivity.
Qed.

End ListPointers.

(** X20. The four macros that put a section in the owner's list. On a
    well formed list [l], for a section [S] that exists and is not in the
    list (whatever its own two pointers hold), [bfd_section_list_append]
    leaves the list [l ++ [S]], [bfd_section_list_prepend] the list
    [S :: l], [bfd_section_list_insert_after] puts [S] right behind a
    member [A] and [bfd_section_list_insert_before] right in front of a
    member [B]. [sections] and [section_last] follow, the list stays well
    formed, and no pointer of a section outside the new list is
    written. *)
Theorem list_insertions (abfd : Links.section_list) (l : list nat) (S : nat) :
  Links.is_list abfd l ->
  S ∉ l ->
  is_Some (Links.nodes abfd !! S) ->
  Links.gives abfd (Links.bfd_section_list_append abfd S) (l ++ [S]) /\
  Links.gives abfd (Links.bfd_section_list_prepend abfd S) (S :: l) /\
  (forall (l1 : list nat) (A : nat) (l2 : list nat),
     l = l1 ++ A :: l2 ->
     Links.gives abfd (Links.bfd_section_list_insert_after abfd A S)
       (l1 ++ A :: S :: l2)) /\
  (forall (l1 : list nat) (B : nat) (l2 : list nat),
     l = l1 ++ B :: l2 ->
     Links.gives abfd (Links.bfd_section_list_insert_before abfd B S)
       (l1 ++ S :: B :: l2)).
Proof.
  intros HL HS Halloc.
  split; [apply append_gives; assumption |].
  split; [apply prepend_gives; assumption |].
  split.
  - intros l1 A l2 ->. apply insert_after_gives; assumption.
  - intros l1 B l2 ->. apply insert_before_gives; assumption.
Qed.

Lemma two_sections_list : Links.is_list Sample.two_sections [0%nat; 1%nat].
Proof.
  split; [| split; [reflexivity | split; [reflexivity |]]].
  - apply NoDup_cons. split; [| apply NoDup_singleton].
    intros H. apply list_elem_of_singleton in H. discriminate.
  - cbn. split; [vm_compute; reflexivity | split; [vm_compute; reflexivity | exact I]].
Qed.

Lemma list_insertions_witness :
  Links.gives Sample.two_sections
    (Links.bfd_section_list_append Sample.two_sections 2) [0%nat; 1%nat; 2%nat] /\
  Links.gives Sample.two_sections
    (Links.bfd_section_list_prepend Sample.two_sections 2) [2%nat; 0%nat; 1%nat] /\
  Links.gives Sample.two_sections
    (Links.bfd_section_list_insert_after Sample.two_sections 0 2)
    [0%nat; 2%nat; 1%nat] /\
  Links.gives Sample.two_sections
    (Links.bfd_section_list_insert_before Sample.two_sections 0 2)
    [2%nat; 0%nat; 1%nat].
Proof.
  destruct (list_insertions Sample.two_sections [0%nat; 1%nat] 2%nat) as (H1 & H2 & H3 & H4).
  - exact two_sections_list.
  - apply (bool_decide_unpack _). vm_compute. exact I.
  - vm_compute. eauto.
  - split; [exact H1 |]. split; [exact H2 |].
    split; [exact (H3 [] 0%nat [1%nat] eq_refl) | exact (H4 [] 0%nat [1%nat] eq_refl)].
Defined.

(** X21. [bfd_section_list_remove] of a member [S] of a well formed list
    leaves the list without [S], well formed, and writes no pointer of a
    section outside it; the pointers of [S] itself are left as they were.
    [bfd_section_removed_from_list] then answers true for [S], and [S] is
    put back in its place by [bfd_section_list_insert_after] with its old
    predecessor or [bfd_section_list_insert_before] with its old
    successor. *)
Theorem list_remove (abfd : Links.section_list) (l1 l2 : list nat) (S : nat) :
  Links.is_list abfd (l1 ++ S :: l2) ->
  exists abfd' : Links.section_list,
    Links.bfd_section_list_remove abfd S = Some abfd' /\
    Links.is_list abfd' (l1 ++ l2) /\
    (forall x : nat, x ∉ l1 ++ l2 -> Links.nodes abfd' !! x = Links.nodes abfd !! x) /\
    Links.bfd_section_removed_from_list abfd' S = Some true /\
    (forall (front : list nat) (a : nat),
       l1 = front ++ [a] ->
       Links.gives abfd' (Links.bfd_section_list_insert_after abfd' a S)
         (l1 ++ S :: l2)) /\
    (forall (b : nat) (back : list nat),
       l2 = b :: back ->
       Links.gives abfd' (Links.bfd_section_list_insert_before abfd' b S)
         (l1 ++ S :: l2)).
Proof.
  intros HL.
  destruct (remove_gives abfd l1 l2 S HL) as (abfd' & Hrun & HL' & Hout & Hgone).
  assert (HS : S ∉ l1 ++ l2).
  { destruct HL as (ND & _). apply NoDup_middle in ND as [HS _]. exact HS. }
  assert (Halloc : is_Some (Links.nodes abfd' !! S)).
  { rewrite (Hout S HS), (is_list_lookup abfd l1 l2 S HL). eauto. }
  exists abfd'. repeat (split; [assumption |]). split.
  - intros front a ->. rewrite <- app_assoc in HL', HS |- *.
    apply (insert_after_gives abfd' front l2 a S); assumption.
  - intros b back ->. apply (insert_before_gives abfd' l1 back b S); assumption.
Qed.

Lemma list_remove_witness :
  exists abfd' : Links.section_list,
    Links.bfd_section_list_remove Sample.two_sections 0 = Some abfd' /\
    Links.is_list abfd' [1%nat] /\
    Links.bfd_section_removed_from_list abfd' 0 = Some true.
Proof.
  destruct (list_remove Sample.two_sections [] [1%nat] 0%nat two_sections_list)
    as (abfd' & H1 & H2 & _ & H3 & _).
  exists abfd'. auto.
Defined.

(** X22. [bfd_section_removed_from_list] tells whether a section is in
    the owner's list: on a well formed list, for a section that exists
    and whose [next] is null or a member of the list, the answer is true
    exactly when the section is not in the list. *)
Theorem removed_from_list_tells_membership (abfd : Links.section_list) (l : list nat)
    (S : nat) (lk : Links.links) :
  Links.is_list abfd l ->
  Links.nodes abfd !! S = Some lk ->
  (forall n : nat, Links.next lk = Some n -> n ∈ l) ->
  Links.bfd_section_removed_from_list abfd S = Some (bool_decide (S ∉ l)).
Proof.
  intros HL HS Hnext. pose proof HL as (ND & _ & Hlast & _).
  unfold Links.bfd_section_removed_from_list. rewrite HS.
  destruct (decide (S ∈ l)) as [Hin | Hout].
  - rewrite (bool_decide_eq_false_2 (S ∉ l)) by tauto.
    apply list_elem_of_split in Hin as (l1 & l2 & ->).
    rewrite (is_list_lookup abfd l1 l2 S HL) in HS. injection HS as <-.
    cbn [Links.next].
    destruct l2 as [| b back]; cbn [head].
    + rewrite Hlast, last_snoc. rewrite bool_decide_eq_false_2 by tauto. reflexivity.
    + rewrite (cons_middle S), app_assoc in HL.
      rewrite (is_list_lookup abfd (l1 ++ [S]) back b HL). cbn [Links.prev].
      rewrite last_snoc. rewrite bool_decide_eq_false_2 by tauto. reflexivity.
  - rewrite (bool_decide_eq_true_2 (S ∉ l)) by exact Hout.
    destruct (Links.next lk) as [n |] eqn:En.
    + destruct (list_elem_of_split l n (Hnext n eq_refl)) as (l1 & l2 & ->).
      rewrite (is_list_lookup abfd l1 l2 n HL). cbn [Links.prev].
      rewrite bool_decide_eq_true_2; [reflexivity |].
      apply last_not_outside. intros H. apply Hout, elem_of_app. left. exact H.
    + rewrite Hlast. rewrite bool_decide_eq_true_2; [reflexivity |].
      apply last_not_outside, Hout.
Qed.

Lemma removed_from_list_tells_membership_witness :
  Links.bfd_section_removed_from_list Sample.two_sections 1 = Some false.
Proof.
  apply (removed_from_list_tells_membership Sample.two_sections [0%nat; 1%nat] 1%nat
           {| Links.next := None; Links.prev := Some 0%nat |}).
  - exact two_sections_list.
  - vm_compute. reflexivity.
  - intros n H. discriminate H.
Defined.

(* ===================================================================== *)
(** ** The tokens of the configuration file: comments and strings *)
(* ===================================================================== *)

Section Tokens.

Import Comp.

Lemma skip_line_comment (body rest : list ascii) (ln : Z) :
  "010"%char ∉ body ->
  skip_blanks InLine (body ++ "010"%char :: rest) ln = skip_blanks Blank rest ln /\
  skip_blanks InLine body ln = Unterminated ln.
Proof.
  induction body as [| c body IH]; intros Hnl; [split; reflexivity |].
  apply not_elem_of_cons in Hnl as [Hc Hnl].
  cbn [app skip_blanks].
  destruct (Ascii.eqb_spec c "010") as [-> | _]; [congruence |].
  exact (IH Hnl).
Qed.

Lemma skip_block_comment (body rest : list ascii) (ln : Z) :
  has_block_end body = false ->
  skip_blanks InBlock (body ++ "*"%char :: "/"%char :: rest) ln
  = skip_blanks Blank rest ln /\
  skip_blanks InBlock body ln = Unterminated ln.
Proof.
  induction body as [| c body IH]; intros Hend; [split; reflexivity |].
  cbn [has_block_end] in Hend. apply orb_false_elim in Hend as [Hhere Hend].
  specialize (IH Hend).
  cbn [app skip_blanks].
  destruct (Ascii.eqb c "*"); [| exact IH].
  destruct body as [| c2 body']; [exact IH |].
  cbn [app]. cbn [andb] in Hhere. rewrite Hhere. exact IH.
Qed.

(** X23. [GetNextToken] skips a comment in front of a token and counts
    no line for it. A line comment is swallowed with the newline that
    ends it, and a block comment with the newlines inside it, with
    [LineNo] left as it was (a newline between tokens counts one): the
    token behind the comment is read as if the comment were not there,
    and the lines reported afterwards are short of the lines of the
    comments. A line comment that the end of the file cuts short, with no
    newline behind it, and a block comment with no end give [T_UNTERM]. *)
Theorem comments_are_skipped_uncounted (body rest : list ascii) (ln tl : Z)
    (Str : string) :
  let file text := {| Fi := text; LineNo := ln; TokLine := tl |} in
  ("010"%char ∉ body ->
   GetNextToken (file ("/"%char :: "/"%char :: body ++ "010"%char :: rest)) Str
   = GetNextToken (file rest) Str /\
   GetNextToken (file ("/"%char :: "/"%char :: body)) Str = (T_UNTERM, Str, file [])) /\
  (has_block_end body = false ->
   GetNextToken (file ("/"%char :: "*"%char :: body ++ "*"%char :: "/"%char :: rest)) Str
   = GetNextToken (file rest) Str /\
   GetNextToken (file ("/"%char :: "*"%char :: body)) Str = (T_UNTERM, Str, file [])).
Proof.
  intros file. split.
  - intros Hnl. destruct (skip_line_comment body rest ln Hnl) as [H1 H2].
    unfold GetNextToken, file. cbn [Fi LineNo TokLine].
    change (skip_blanks Blank ("/"%char :: "/"%char :: ?t) ln)
      with (skip_blanks InLine t ln).
    rewrite H1, H2. split; reflexivity.
  - intros Hend. destruct (skip_block_comment body rest ln Hend) as [H1 H2].
    unfold GetNextToken, file. cbn [Fi LineNo TokLine].
    change (skip_blanks Blank ("/"%char :: "*"%char :: ?t) ln)
      with (skip_blanks InBlock t ln).
    rewrite H1, H2. split; reflexivity.
Qed.

Lemma read_string_quoted (s : string) (rest : list ascii) :
  read_string (quoted s ++ "034"%char :: rest) = Some (s, rest).
Proof.
  induction s as [| c s IH]; [reflexivity |].
  cbn [quoted].
  destruct (Ascii.eqb c "034") eqn:Eq; cbn [orb].
  - cbn [app read_string]. cbn. rewrite IH. reflexivity.
  - destruct (Ascii.eqb c "\") eqn:Eb.
    + cbn [app read_string]. cbn. rewrite IH. reflexivity.
    + cbn [app read_string]. rewrite Eq, Eb, IH. reflexivity.
Qed.

(** X24. Any text can be given as a string of the file: written between
    quotes with a backslash in front of each quote and each backslash,
    it is read back by [GetNextToken] as a [T_STRING] with exactly that
    text, the file standing right behind the closing quote. Newlines in
    the string are kept and are not counted in [LineNo]. The text has to
    fit [Str] with its final zero, and has no zero character. *)
Theorem quoted_string_reads_back (s : string) (rest : list ascii) (ln tl : Z)
    (Str : string) :
  Z.of_nat (String.length s) < ENC_STR_SIZE ->
  string_forall (fun c => negb (Ascii.eqb c "000")) s = true ->
  GetNextToken {| Fi := "034"%char :: quoted s ++ "034"%char :: rest;
                  LineNo := ln; TokLine := tl |} Str
  = (T_STRING, s, {| Fi := rest; LineNo := ln; TokLine := ln |}).
Proof.
  intros _ _. unfold GetNextToken. cbn [Fi LineNo TokLine skip_blanks].
  cbn. rewrite read_string_quoted. reflexivity.
Qed.

Lemma quoted_string_reads_back_witness :
  GetNextToken {| Fi := "034"%char :: quoted (String "a" (String "034" "b"))
                          ++ "034"%char :: [";"%char];
                  LineNo := 3; TokLine := 1 |} "x"
  = (T_STRING, String "a" (String "034" "b"),
     {| Fi := [";"%char]; LineNo := 3; TokLine := 3 |}).
Proof.
  apply quoted_string_reads_back; [vm_compute; reflexivity | reflexivity].
Defined.

End Tokens.

(* ===================================================================== *)
(** ** One keystream for a component *)
(* ===================================================================== *)

Section KeystreamReuse.

Variable v : AES.variant.

Lemma lxor_cancel_common (a b k : Z) : Z.lxor (Z.lxor a k) (Z.lxor b k) = Z.lxor a b.
Proof.
  rewrite Z.lxor_assoc, (Z.lxor_comm k (Z.lxor b k)), (Z.lxor_assoc b k k).
  rewrite Z.lxor_nilpotent, Z.lxor_0_r. reflexivity.
Qed.

Lemma ctr_stream_difference (rk iv0 : list Z) (d1 : list Z) :
  forall (d2 : list Z) (j : nat),
    zip_with Z.lxor (AES.ctr_stream v rk iv0 j d1) (AES.ctr_stream v rk iv0 j d2)
    = zip_with Z.lxor d1 d2.
Proof.
  induction d1 as [| b1 d1 IH]; intros [| b2 d2] j; try reflexivity.
  cbn [AES.ctr_stream zip_with]. rewrite lxor_cancel_common, IH. reflexivity.
Qed.

(** X25. All that [EncryptObjSection] encrypts for one component at one
    position is encrypted with the same keystream: the context is set up
    from the key, the IV and the nonce of the component at every call, and
    nothing else enters. For two buffers given at the same position, the
    exclusive or of the two ciphers is the exclusive or of the two clear
    texts, over the length they share. [bfd_set_section_contents] gives
    the offset in the section as the position, so that this holds for two
    sections of a component at equal offsets. *)
Theorem keystream_is_shared (jc jc' : AES.AES_ctx) (jb jb' : list Z)
    (comp : Comp.CryptedComponentT) (key iv nonce d1 d2 : list Z) (Pos : Z) :
  Comp.Key comp = Some key ->
  Comp.Iv comp = Some iv ->
  Comp.Nonce comp = Some nonce ->
  0 <= Pos < 2 ^ unsigned_int_bits ->
  exists c1 c2 : list Z,
    Comp.EncryptObjSection v jc jb comp d1 Pos = Some c1 /\
    Comp.EncryptObjSection v jc' jb' comp d2 Pos = Some c2 /\
    length c1 = length d1 /\ length c2 = length d2 /\
    zip_with Z.lxor c1 c2 = zip_with Z.lxor d1 d2.
Proof.
  intros Hk Hi Hn HPos.
  rewrite (EncryptObjSection_stream v jc jb comp key iv nonce d1 Pos Hk Hi Hn HPos).
  rewrite (EncryptObjSection_stream v jc' jb' comp key iv nonce d2 Pos Hk Hi Hn HPos).
  eexists. eexists. split; [reflexivity |]. split; [reflexivity |].
  split; [apply length_ctr_stream |]. split; [apply length_ctr_stream |].
  apply ctr_stream_difference.
Qed.

End KeystreamReuse.

Lemma keystream_is_shared_witness :
  exists c1 c2 : list Z,
    Comp.EncryptObjSection AES.AES128 Sample.no_ctx [] Sample.keyed [1; 2; 3] 90
    = Some c1 /\
    Comp.EncryptObjSection AES.AES128 Sample.no_ctx [7] Sample.keyed [4; 5; 6; 7] 90
    = Some c2 /\
    length c1 = 3%nat /\ length c2 = 4%nat /\
    zip_with Z.lxor c1 c2 = [5; 7; 5].
Proof.
  apply (keystream_is_shared AES.AES128 Sample.no_ctx Sample.no_ctx [] [7] Sample.keyed
           (map Z.of_nat (seq 0 16)) (map Z.of_nat (seq 16 16)) (map Z.of_nat (seq 32 16))
           [1; 2; 3] [4; 5; 6; 7] 90); first [reflexivity | (unfold unsigned_int_bits; lia)].
Defined.
